(** * Resilience simulation and evaluation engine: a shallow embedding

    This development embeds the attack simulation engine of the repository
    (src/attack/base.py, highest_degree.py, random_attack.py), the metric
    helpers (src/env/metrics.py) and the construct evaluation
    (src/evaluation/unified_evaluator.py) and proves properties of them.

    Conventions of the embedding:
    - A Python float is a rational ([Q]); [==] on floats is [Qeq].  The
      numpy functions (np.trapezoid, np.trapz, np.mean, np.std) compute in
      IEEE binary64, round to nearest even: np.asarray rounds each entry
      to its double, every array operation rounds its result, and sums
      follow numpy's pairwise summation.  A float made by one Python
      division of ints is kept as the exact quotient; it is rounded when
      it enters an array.  Float arithmetic written in Python itself (the
      interpolation of the collapse point, the impact score) is exact.
    - A networkx graph is its adjacency dictionary, kept in insertion
      order: a list of (node, neighbours) entries.
    - Python objects that are mutated through references (graphs, result
      records, the attacker instance) live in an explicit store; a raised
      exception is the [Raise] outcome of a state-and-exception monad. *)

From Stdlib Require Import ZArith QArith Qabs Qround Qpower List Lia String DecimalString.
From Stdlib Require Import Lqa Sorted.
From stdpp Require Import base list relations.

Local Open Scope Z_scope.

(** ** Exceptions and outcomes *)

Inductive exn : Set :=
| NetworkXError      (* remove_node of a node that is not in the graph *)
| ValueError         (* max() of an empty sequence, numpy shape mismatch *)
| IndexError         (* list index out of range *)
| KeyError           (* missing object in the store *)
| ZeroDivisionError
| TypeError          (* '<=' between identifiers that cannot be ordered *)
| StrategyError (tag : Z). (* an exception raised inside a strategy's select_node *)

(** [Diverge] is the outcome of a loop that has no bound in the source
    (the rejection loop of [random.Random._randbelow]) when the fuel of
    its model runs out. *)
Inductive outcome (A : Type) : Type :=
| Return (a : A)
| Raise (e : exn)
| Diverge.
Arguments Return {A} a.
Arguments Raise {A} e.
Arguments Diverge {A}.

Definition M (S A : Type) : Type := S -> outcome A * S.

Definition ret {S A} (a : A) : M S A := fun s => (Return a, s).
Definition raise {S A} (e : exn) : M S A := fun s => (Raise e, s).
Definition bind {S A B} (m : M S A) (k : A -> M S B) : M S B :=
  fun s => match m s with
           | (Return a, s') => k a s'
           | (Raise e, s') => (Raise e, s')
           | (Diverge, s') => (Diverge, s')
           end.
Definition get {S} : M S S := fun s => (Return s, s).
Definition put {S} (s : S) : M S unit := fun _ => (Return tt, s).
Definition lift {S A} (o : outcome A) : M S A := fun s => (o, s).

Declare Scope py_scope.
Delimit Scope py_scope with py.
Notation "'let*' x := m 'in' k" := (bind m (fun x => k))
  (at level 10, x pattern, m at level 100, k at level 200) : py_scope.
Notation "'do' m 'in' k" := (bind m (fun _ => k))
  (at level 10, m at level 100, k at level 200) : py_scope.

(** The same for computations without state. *)
Definition obind {A B} (o : outcome A) (k : A -> outcome B) : outcome B :=
  match o with
  | Return a => k a
  | Raise e => Raise e
  | Diverge => Diverge
  end.

(** ** Python numbers *)

(** [a / b] on Python ints (true division). *)
Definition py_truediv (a b : Z) : outcome Q :=
  if b =? 0 then Raise ZeroDivisionError else Return (inject_Z a / inject_Z b)%Q.

Definition Qltb (x y : Q) : bool := negb (Qle_bool y x).

(** Python's [min(a, b)] and [max(a, b)]: the first argument wins ties. *)
Definition py_min (a b : Q) : Q := if Qltb b a then b else a.
Definition py_max (a b : Q) : Q := if Qltb a b then b else a.

(** [l1 == l2] on lists of floats. *)
Fixpoint py_list_eq (l1 l2 : list Q) : bool :=
  match l1, l2 with
  | [], [] => true
  | x :: l1, y :: l2 => Qeq_bool x y && py_list_eq l1 l2
  | _, _ => false
  end.

Definition Qsum (l : list Q) : Q := fold_left Qplus l 0%Q.

(** [str(n)] for an int. *)
Definition str (n : Z) : string := NilZero.string_of_int (Z.to_int n).

(** [max(xs, key=key)]: the first element with the largest key. *)
Fixpoint py_max_from {A} (key : A -> Z) (best : A) (xs : list A) : A :=
  match xs with
  | [] => best
  | x :: xs => py_max_from key (if key best <? key x then x else best) xs
  end.

Definition py_max_key {A} (key : A -> Z) (xs : list A) : outcome A :=
  match xs with
  | [] => Raise ValueError
  | x :: xs => Return (py_max_from key x xs)
  end.

(** ** networkx.Graph *)

Section Graph.
Context {node : Type} `{EqDecision node}.

(** [G._adj]: node -> neighbours, both in insertion order. *)
Definition Graph : Type := list (node * list node).

Definition nodes (g : Graph) : list node := map fst g.

Fixpoint adj (g : Graph) (v : node) : list node :=
  match g with
  | [] => []
  | (k, ns) :: g' => if decide (k = v) then ns else adj g' v
  end.

Definition has_node (g : Graph) (n : node) : bool := bool_decide (n ∈ nodes g).

Definition number_of_nodes (g : Graph) : Z := Z.of_nat (length g).

(** A self-loop counts twice. *)
Definition degree (g : Graph) (v : node) : Z :=
  Z.of_nat (length (adj g v)) + (if decide (v ∈ adj g v) then 1 else 0).

(** [G.size()]: half the sum of the degrees. *)
Definition number_of_edges (g : Graph) : Z :=
  fold_left Z.add (map (degree g) (nodes g)) 0 / 2.

Definition add_node (g : Graph) (n : node) : Graph :=
  if decide (n ∈ nodes g) then g else g ++ [(n, [])].

Definition add_nbr (g : Graph) (u v : node) : Graph :=
  map (fun e => if decide (e.1 = u)
                then (e.1, if decide (v ∈ e.2) then e.2 else e.2 ++ [v])
                else e) g.

Definition add_edge (g : Graph) (u v : node) : Graph :=
  add_nbr (add_nbr (add_node (add_node g u) v) u v) v u.

(** [G.remove_node(n)]: removes [n] and every edge at [n]; raises
    NetworkXError when [n] is not a node. *)
Definition remove_node (g : Graph) (n : node) : outcome Graph :=
  if decide (n ∈ nodes g)
  then Return (map (fun e => (e.1, filter (fun w => w <> n) e.2))
                   (filter (fun e => e.1 <> n) g))
  else Raise NetworkXError.

(** [G.copy()]: a new graph object with the same nodes and edges. *)
Definition copy (g : Graph) : Graph := g.

(** *** Connected components (networkx.connected_components) *)

(** The inner loop of [_plain_bfs]: [for w in adj[v]: if w not in seen]. *)
Fixpoint visit (ws seen nextlevel : list node) : list node * list node :=
  match ws with
  | [] => (seen, nextlevel)
  | w :: ws =>
      if decide (w ∈ seen) then visit ws seen nextlevel
      else visit ws (seen ++ [w]) (nextlevel ++ [w])
  end.

(** [for v in thislevel]. *)
Fixpoint scan_level (g : Graph) (thislevel seen nextlevel : list node)
  : list node * list node :=
  match thislevel with
  | [] => (seen, nextlevel)
  | v :: rest =>
      let '(seen', next') := visit (adj g v) seen nextlevel in
      scan_level g rest seen' next'
  end.

(** [while nextlevel]; a graph with n nodes has at most n levels. *)
Fixpoint bfs_while (fuel : nat) (g : Graph) (nextlevel seen : list node)
  : list node :=
  match fuel with
  | O => seen
  | S fuel' =>
      match nextlevel with
      | [] => seen
      | _ => let '(seen', next') := scan_level g nextlevel seen [] in
             bfs_while fuel' g next' seen'
      end
  end.

Definition _plain_bfs (g : Graph) (source : node) : list node :=
  bfs_while (length g) g [source] [source].

(** [for v in G: if v not in seen: c = _plain_bfs(G, v); seen.update(c); yield c] *)
Fixpoint components_from (g : Graph) (vs seen : list node) : list (list node) :=
  match vs with
  | [] => []
  | v :: vs =>
      if decide (v ∈ seen) then components_from g vs seen
      else let c := _plain_bfs g v in
           c :: components_from g vs (seen ++ c)
  end.

Definition connected_components (g : Graph) : list (list node) :=
  components_from g (nodes g) [].

(** [max(len(cc) for cc in connected_components)] *)
Definition largest_cc_size (ccs : list (list node)) : nat :=
  list_max (map length ccs).

(** The invariants networkx maintains on the adjacency dictionary. *)
Definition wf (g : Graph) : Prop :=
  NoDup (nodes g) /\
  Forall (fun e => Forall (fun w => w ∈ nodes g) e.2) g.

#[global] Instance wf_dec (g : Graph) : Decision (wf g).
Proof. unfold wf. apply _. Defined.

Definition edge (g : Graph) (u w : node) : Prop := w ∈ adj g u.

(** [nx.is_connected] for a graph with at least one node. *)
Definition is_connected (g : Graph) : Prop :=
  g <> [] /\ forall u w, u ∈ nodes g -> w ∈ nodes g -> rtc (edge g) u w.
End Graph.

Arguments Graph node : clear implicits.

(** ** numpy and list helpers *)

(** [l[i]] for a non-negative index. *)
Definition py_index {A} (l : list A) (i : nat) : outcome A :=
  match l !! i with
  | Some x => Return x
  | None => Raise IndexError
  end.

(** ** binary64 arithmetic *)

(** Rounding to the nearest integer, ties to the even one. *)
Definition round_half_even (q : Q) : Z :=
  let f := Qfloor q in
  match (q - inject_Z f ?= 1 # 2)%Q with
  | Lt => f
  | Gt => f + 1
  | Eq => if Z.even f then f else f + 1
  end.

(** floor(log2 q) for q > 0. *)
Definition ilog2 (q : Q) : Z :=
  let k := Z.log2 (Qnum q) - Z.log2 (Zpos (Qden q)) in
  if Qle_bool (2 ^ k) q then k else k - 1.

(** The exponent of the unit in the last place of the binary64 numbers
    around [q]: 53 significant bits, gradual underflow below 2^-1022. *)
Definition ulp_exponent (q : Q) : Z := Z.max (ilog2 (Qabs q) - 52) (-1074).

(** The binary64 number nearest to [q], ties to even.  Overflow to
    infinity, beyond 2^1024, is not represented. *)
Definition binary64 (q : Q) : Q :=
  if Qeq_bool q 0 then 0%Q
  else
    let e := ulp_exponent q in
    Qred (inject_Z (round_half_even (q / 2 ^ e)) * 2 ^ e).

(** The float operations [x + y], [x - y], [x * y], [x / y]. *)
Definition fadd (x y : Q) : Q := binary64 (x + y).
Definition fsub (x y : Q) : Q := binary64 (x - y).
Definition fmul (x y : Q) : Q := binary64 (x * y).
Definition fdiv (x y : Q) : Q := binary64 (x / y).

(** The unit roundoff 2^-53 and half the smallest subnormal, 2^-1075. *)
Definition unit_roundoff : Q := 2 ^ (-53).
Definition half_subnormal : Q := 2 ^ (-1075).

(** ** numpy arrays of doubles *)

(** [np.asarray(l)] for a list of Python floats: each entry is the
    binary64 value of the float. *)
Definition np_asarray (l : list Q) : list Q := map binary64 l.

(** [for (i = 0; i < n; i++) res += a[i]] *)
Definition sum_loop (res : Q) (a : list Q) : Q := fold_left fadd a res.

(** The unrolled loop of numpy's pairwise summation: eight accumulators
    [r], each taking one entry of every following block of eight. *)
Fixpoint add_blocks (blocks : nat) (r a : list Q) : list Q * list Q :=
  match blocks with
  | O => (r, a)
  | S blocks => add_blocks blocks (zip_with fadd r (take 8 a)) (drop 8 a)
  end.

(** [((r[0] + r[1]) + (r[2] + r[3])) + ((r[4] + r[5]) + (r[6] + r[7]))] *)
Definition sum_accumulators (r : list Q) : Q :=
  match r with
  | [r0; r1; r2; r3; r4; r5; r6; r7] =>
      fadd (fadd (fadd r0 r1) (fadd r2 r3)) (fadd (fadd r4 r5) (fadd r6 r7))
  | _ => 0%Q
  end.

(** The branch for 8 <= n <= 128 (PW_BLOCKSIZE): the blocks of eight, the
    accumulators, then the remaining n mod 8 entries one by one. *)
Definition sum_block (a : list Q) : Q :=
  let '(r, rest) := add_blocks (length a / 8 - 1) (take 8 a) (drop 8 a) in
  sum_loop (sum_accumulators r) rest.

(** numpy's DOUBLE_pairwise_sum.  The recursion on the two halves of an
    array of more than 128 entries is bounded by [fuel]; the length of the
    array is enough fuel. *)
Fixpoint pairwise_sum_rec (fuel : nat) (a : list Q) : Q :=
  let n := length a in
  if (n <? 8)%nat then sum_loop 0%Q a
  else if (n <=? 128)%nat then sum_block a
  else
    match fuel with
    | O => 0%Q
    | S fuel =>
        let n2 := (n / 2 - (n / 2) mod 8)%nat in
        fadd (pairwise_sum_rec fuel (take n2 a)) (pairwise_sum_rec fuel (drop n2 a))
    end.

Definition pairwise_sum (a : list Q) : Q := pairwise_sum_rec (length a) a.

(** [a.sum()] of a 1-d array of doubles: the add reduction starts from
    its identity 0.0 and adds the pairwise sum of the array. *)
Definition np_sum (a : list Q) : Q := fadd 0 (pairwise_sum a).

(** ** Accumulated rounding error *)

(** (1 + 2^-53)^m *)
Fixpoint upow (m : nat) : Q :=
  match m with
  | O => 1%Q
  | S m => (upow m * (1 + unit_roundoff))%Q
  end.

(** The computed value [x] is non-negative and exceeds the exact value
    [X] by at most [m] relative and [c] absolute rounding errors. *)
Definition approx (m c : nat) (x X : Q) : Prop :=
  (0 <= x /\ 0 <= X /\
   x <= (X + inject_Z (Z.of_nat c) * half_subnormal) * upow m)%Q.

(** ** numpy functions *)

(** [np.diff(x)]: x[1:] - x[:-1]. *)
Definition np_diff (x : list Q) : list Q :=
  zip_with (fun a b => fsub b a) x (tail x).

(** [y[1:] + y[:-1]]. *)
Definition np_pair_sums (y : list Q) : list Q :=
  zip_with (fun a b => fadd b a) y (tail y).

(** Elementwise product of two 1-d arrays with numpy's broadcasting: equal
    lengths, or one side of length one; any other pair of shapes is a
    ValueError. *)
Definition np_mul (d s : list Q) : outcome (list Q) :=
  if (length d =? length s)%nat then Return (zip_with fmul d s)
  else match d, s with
       | [a], _ => Return (map (fmul a) s)
       | _, [b] => Return (map (fun a => fmul a b) d)
       | _, _ => Raise ValueError
       end.

(** [np.trapezoid(y, x)]: (d * (y[1:] + y[:-1]) / 2.0).sum() with d = diff(x). *)
Definition np_trapezoid (y x : list Q) : outcome Q :=
  let y := np_asarray y in
  let x := np_asarray x in
  obind (np_mul (np_diff x) (np_pair_sums y))
        (fun p => Return (np_sum (map (fun a => fdiv a 2) p))).

(** [np.trapz(y, dx=dx)]: (dx * (y[1:] + y[:-1]) / 2.0).sum(). *)
Definition np_trapz_dx (y : list Q) (dx : Q) : Q :=
  let y := np_asarray y in
  let d := binary64 dx in
  np_sum (map (fun a => fdiv (fmul d a) 2) (np_pair_sums y)).

(** [np.mean(xs)] of a 1-d array: the sum divided by the count; numpy
    returns nan for an empty one, which the callers exclude. *)
Definition np_mean (xs : list Q) : Q :=
  fdiv (np_sum (np_asarray xs)) (inject_Z (Z.of_nat (length xs))).

(** The real number sqrt(radicand): [np.std] is the square root of the mean
    squared deviation, which is irrational in general, so the model keeps
    the radicand. *)
Record sqrtQ : Set := Sqrt { radicand : Q }.

(** [np.std(xs)]: x = arr - mean, x * x, its sum divided by the count. *)
Definition np_std (xs : list Q) : sqrtQ :=
  let arr := np_asarray xs in
  let n := inject_Z (Z.of_nat (length xs)) in
  let m := fdiv (np_sum arr) n in
  let x := map (fun v => fsub v m) arr in
  Sqrt (fdiv (np_sum (map (fun v => fmul v v) x)) n).

(** Column [j] of a 2-d array given as a list of rows. *)
Definition column (rows : list (list Q)) (j : nat) : list Q :=
  omap (fun r => r !! j) rows.

(** The sum of one column in a reduction along axis 0: the rows are added
    to the output one after the other; a single column is a contiguous
    1-d array and is summed pairwise. *)
Definition np_sum_column (width : nat) (col : list Q) : Q :=
  if (width =? 1)%nat then np_sum col else sum_loop 0%Q col.

(** [np.mean(rows, axis=0)] and [np.std(rows, axis=0)] for rows of one
    common length. *)
Definition np_mean_axis0 (rows : list (list Q)) : list Q :=
  let width := length (hd [] rows) in
  let n := inject_Z (Z.of_nat (length rows)) in
  map (fun j => fdiv (np_sum_column width (np_asarray (column rows j))) n)
      (seq 0 width).
Definition np_std_axis0 (rows : list (list Q)) : list sqrtQ :=
  let width := length (hd [] rows) in
  let n := inject_Z (Z.of_nat (length rows)) in
  map (fun j =>
         let arr := np_asarray (column rows j) in
         let m := fdiv (np_sum_column width arr) n in
         let x := map (fun v => fsub v m) arr in
         Sqrt (fdiv (np_sum_column width (map (fun v => fmul v v) x)) n))
      (seq 0 width).

(** ** Metrics *)

Module ResilienceMetrics.
Section Metrics.
Context {node : Type} `{EqDecision node}.

(** ResilienceMetrics.compute_r_res (normalize = True by default). *)
Definition compute_r_res (normalize : bool) (lcc_curve : list Q) : Q :=
if (length lcc_curve <? 2)%nat then 0%Q
else
let n_points := Z.of_nat (length lcc_curve) in
let delta_q := (1 / inject_Z (n_points - 1))%Q in
let r_res := np_trapz_dx lcc_curve delta_q in
if normalize then py_min r_res 1%Q else r_res.

(** ResilienceMetrics.compute_lcc_ratio: |LCC| / N of the current graph. *)
Definition compute_lcc_ratio (graph : Graph node) : outcome Q :=
if number_of_nodes graph =? 0 then Return 0%Q
else
let ccs := connected_components graph in
match ccs with
| [] => Return 0%Q
| _ => py_truediv (Z.of_nat (largest_cc_size ccs)) (number_of_nodes graph)
end.

(** ResilienceMetrics.compute_impact_score *)
Definition compute_impact_score (graph : Graph node) (target_node : node)
: outcome Q :=
if negb (has_node graph target_node) then Return 0%Q
else
obind (compute_lcc_ratio graph) (fun lcc_before =>
let g_temp := copy graph in
obind (remove_node g_temp target_node) (fun g_temp =>
obind (if number_of_nodes g_temp =? 0 then Return 0%Q
       else
         let ccs := connected_components g_temp in
         let largest_cc := match ccs with
                           | [] => 0%nat
                           | _ => largest_cc_size ccs
                           end in
         py_truediv (Z.of_nat largest_cc) (number_of_nodes graph))
      (fun lcc_after =>
let impact := (lcc_before - lcc_after)%Q in
Return (py_max 0%Q (py_min 1%Q impact))))).
End Metrics.
End ResilienceMetrics.

(** ** AttackResult *)

Section Attack.
Context {node : Type} `{EqDecision node}.

Record AttackResult : Type := mkAttackResult {
  algorithm_name : string;
  dataset_name : string;
  graph_name : string;
  attack_sequence : list node;
  removal_fractions : list Q;
  lcc_values : list Q;
  r_res : Q;
  collapse_threshold : Q;
  collapse_fraction : option Q;
  initial_nodes : Z;
  initial_edges : Z;
  budget : Z
}.

(** AttackResult.compute_r_res *)
Definition compute_r_res (self : AttackResult) : outcome Q :=
  if (length (lcc_values self) <? 2)%nat then Return 0%Q
  else np_trapezoid (lcc_values self) (removal_fractions self).

(** The body of the [for i, lcc in enumerate(...)] loop of
    AttackResult.find_collapse_point, from index [i] on. *)
Fixpoint find_collapse_from (values fractions : list Q) (threshold : Q)
         (i : nat) (rest : list Q) : outcome (option Q) :=
  match rest with
  | [] => Return None
  | lcc :: rest' =>
      if Qltb lcc threshold then
        if (0 <? i)%nat then
          obind (py_index values (i - 1)) (fun lcc_prev =>
          obind (py_index fractions (i - 1)) (fun frac_prev =>
          obind (py_index fractions i) (fun frac_curr =>
          if negb (Qeq_bool lcc_prev lcc) then
            let t := ((lcc_prev - threshold) / (lcc_prev - lcc))%Q in
            Return (Some (frac_prev + t * (frac_curr - frac_prev))%Q)
          else
            obind (py_index fractions i) (fun f => Return (Some f)))))
        else obind (py_index fractions i) (fun f => Return (Some f))
      else find_collapse_from values fractions threshold (S i) rest'
  end.

Definition find_collapse_point (self : AttackResult) (threshold : Q)
  : outcome (option Q) :=
  find_collapse_from (lcc_values self) (removal_fractions self) threshold
                     0 (lcc_values self).

(** *** The object store *)

(** Graph objects and result objects are referred to by their index. *)
Record store : Type := mkStore {
  graphs : list (Graph node);
  results : list AttackResult
}.

Definition set_r_res (r : AttackResult) (x : Q) : AttackResult :=
  mkAttackResult (algorithm_name r) (dataset_name r) (graph_name r)
    (attack_sequence r) (removal_fractions r) (lcc_values r) x
    (collapse_threshold r) (collapse_fraction r) (initial_nodes r)
    (initial_edges r) (budget r).
Definition set_collapse_fraction (r : AttackResult) (x : option Q) : AttackResult :=
  mkAttackResult (algorithm_name r) (dataset_name r) (graph_name r)
    (attack_sequence r) (removal_fractions r) (lcc_values r) (r_res r)
    (collapse_threshold r) x (initial_nodes r)
    (initial_edges r) (budget r).
Definition set_algorithm_name (r : AttackResult) (x : string) : AttackResult :=
  mkAttackResult x (dataset_name r) (graph_name r)
    (attack_sequence r) (removal_fractions r) (lcc_values r) (r_res r)
    (collapse_threshold r) (collapse_fraction r) (initial_nodes r)
    (initial_edges r) (budget r).
Definition set_graph_name (r : AttackResult) (x : string) : AttackResult :=
  mkAttackResult (algorithm_name r) (dataset_name r) x
    (attack_sequence r) (removal_fractions r) (lcc_values r) (r_res r)
    (collapse_threshold r) (collapse_fraction r) (initial_nodes r)
    (initial_edges r) (budget r).
Definition set_lcc_values (r : AttackResult) (x : list Q) : AttackResult :=
  mkAttackResult (algorithm_name r) (dataset_name r) (graph_name r)
    (attack_sequence r) (removal_fractions r) x (r_res r)
    (collapse_threshold r) (collapse_fraction r) (initial_nodes r)
    (initial_edges r) (budget r).

Section WithSelf.
Context {Self : Type}.

Definition world : Type := Self * store.

Definition read_graph (g : nat) : M world (Graph node) :=
  fun w => (py_index (graphs w.2) g, w).
Definition new_graph (G : Graph node) : M world nat :=
  fun w => (Return (length (graphs w.2)),
            (w.1, mkStore (graphs w.2 ++ [G]) (results w.2))).
Definition write_graph (g : nat) (G : Graph node) : M world unit :=
  fun w => (Return tt, (w.1, mkStore (<[g:=G]> (graphs w.2)) (results w.2))).
Definition read_result (r : nat) : M world AttackResult :=
  fun w => (py_index (results w.2) r, w).
Definition new_result (R : AttackResult) : M world nat :=
  fun w => (Return (length (results w.2)),
            (w.1, mkStore (graphs w.2) (results w.2 ++ [R]))).
(** [r.field = x] through the reference [r]. *)
Definition update_result (r : nat) (f : AttackResult -> AttackResult)
  : M world unit :=
  fun w => match results w.2 !! r with
           | Some R => (Return tt,
                        (w.1, mkStore (graphs w.2) (<[r:=f R]> (results w.2))))
           | None => (Raise KeyError, w)
           end.
(** A method of the attacker that only touches the attacker itself. *)
Definition on_self {A} (f : Self -> outcome A * Self) : M world A :=
  fun w => let '(o, self') := f w.1 in (o, (self', w.2)).
End WithSelf.
Arguments world Self : clear implicits.

(** *** BaseAttack *)

(** The abstract method of BaseAttack, with the attacker's own state. *)
Class BaseAttack (Self : Type) : Type := {
  name : Self -> string;
  select_node : Self -> Graph node -> outcome (option node) * Self
}.

Section BaseAttackMethods.
Context {Self : Type} `{BaseAttack Self}.
Local Open Scope py_scope.

(** BaseAttack._compute_lcc_ratio *)
Definition _compute_lcc_ratio (graph : Graph node) (initial_nodes : Z)
  : outcome Q :=
  if number_of_nodes graph =? 0 then Return 0%Q
  else
    let connected_components := connected_components graph in
    match connected_components with
    | [] => Return 0%Q
    | _ => py_truediv (Z.of_nat (largest_cc_size connected_components))
                      initial_nodes
    end.

(** The [for step in range(budget)] loop of BaseAttack.attack; [g] is
    the reference of the working copy. *)
Fixpoint attack_loop (steps : nat) (g : nat) (initial_nodes : Z)
         (attack_sequence : list node) (removal_fractions lcc_values : list Q)
  : M (world Self) (list node * list Q * list Q) :=
  match steps with
  | O => ret (attack_sequence, removal_fractions, lcc_values)
  | S steps' =>
      let* G := read_graph g in
      if number_of_nodes G =? 0
      then ret (attack_sequence, removal_fractions, lcc_values)
      else
        let* node := on_self (fun self => select_node self G) in
        match node with
        | None => ret (attack_sequence, removal_fractions, lcc_values)
        | Some node =>
            let* G' := lift (remove_node G node) in
            do write_graph g G' in
            let attack_sequence := attack_sequence ++ [node] in
            let* removal_frac :=
              lift (py_truediv (Z.of_nat (length attack_sequence)) initial_nodes) in
            let removal_fractions := removal_fractions ++ [removal_frac] in
            let* lcc_ratio := lift (_compute_lcc_ratio G' initial_nodes) in
            let lcc_values := lcc_values ++ [lcc_ratio] in
            attack_loop steps' g initial_nodes
                        attack_sequence removal_fractions lcc_values
        end
  end.

(** BaseAttack.attack; the result is the reference of the new
    AttackResult object. *)
Definition attack (graph : nat) (budget : Z)
           (dataset_name graph_name : string) (collapse_threshold : Q)
  : M (world Self) nat :=
  let* G := read_graph graph in
  let* g := new_graph (copy G) in
  let initial_nodes := number_of_nodes G in
  let initial_edges := number_of_edges G in
  let* lcc0 := lift (_compute_lcc_ratio G initial_nodes) in
  let* (attack_sequence, removal_fractions, lcc_values) :=
    attack_loop (Z.to_nat budget) g initial_nodes [] [0%Q] [lcc0] in
  let* self := on_self (fun self => (Return self, self)) in
  let* result := new_result
    (mkAttackResult (name self) dataset_name graph_name attack_sequence
       removal_fractions lcc_values 0%Q collapse_threshold None
       initial_nodes initial_edges budget) in
  let* R := read_result result in
  let* r := lift (compute_r_res R) in
  do update_result result (fun R => set_r_res R r) in
  let* R := read_result result in
  let* c := lift (find_collapse_point R collapse_threshold) in
  do update_result result (fun R => set_collapse_fraction R c) in
  ret result.
End BaseAttackMethods.

(** *** HighestDegreeAttack *)

Record HighestDegreeAttack : Type := mkHDA {
  hda_name : string;
  recalculate : bool;
  _initial_ranking : option (list node)
}.

(** HighestDegreeAttack.__init__ *)
Definition HighestDegreeAttack_init (recalculate : bool) : HighestDegreeAttack :=
  mkHDA (if recalculate then "HighestDegreeAttack" else "HighestDegreeAttack_Static")
        recalculate None.

(** [for node in ranking: if node in graph: return node]. *)
Fixpoint first_in_graph (ranking : list node) (graph : Graph node) : option node :=
  match ranking with
  | [] => None
  | n :: rest => if has_node graph n then Some n else first_in_graph rest graph
  end.

(** HighestDegreeAttack.select_node *)
Definition hda_select_node (self : HighestDegreeAttack) (graph : Graph node)
  : outcome (option node) * HighestDegreeAttack :=
  if number_of_nodes graph =? 0 then (Return None, self)
  else if recalculate self then
    match nodes graph with
    | [] => (Return None, self)
    | _ => (obind (py_max_key (degree graph) (nodes graph))
                  (fun max_node => Return (Some max_node)), self)
    end
  else
    match _initial_ranking self with
    | None => (Return None, self)
    | Some ranking => (Return (first_in_graph ranking graph), self)
    end.

#[global] Instance HighestDegreeAttack_BaseAttack : BaseAttack HighestDegreeAttack :=
  {| name := hda_name; select_node := hda_select_node |}.

(** [sorted(xs, key=key, reverse=True)]: stable, largest key first. *)
Fixpoint insert_desc (key : node -> Z) (x : node) (sorted : list node) : list node :=
  match sorted with
  | [] => [x]
  | y :: rest => if key y <? key x then x :: sorted
                 else y :: insert_desc key x rest
  end.
Definition sorted_desc (key : node -> Z) (xs : list node) : list node :=
  fold_left (fun acc x => insert_desc key x acc) xs [].

(** HighestDegreeAttack.attack: the static variant ranks the nodes of
    the caller's graph first, then runs BaseAttack.attack. *)
Definition hda_attack (graph : nat) (budget : Z)
           (dataset_name graph_name : string) (collapse_threshold : Q)
  : M (world HighestDegreeAttack) nat :=
  bind (read_graph graph) (fun G =>
  bind (on_self (fun self =>
          (Return tt,
           if recalculate self then self
           else mkHDA (hda_name self) (recalculate self)
                      (Some (sorted_desc (degree G) (nodes G))))))
       (fun _ => attack graph budget dataset_name graph_name collapse_threshold)).
End Attack.

Arguments AttackResult node : clear implicits.
Arguments store node : clear implicits.
Arguments world node Self : clear implicits.
Arguments HighestDegreeAttack node : clear implicits.

(** ** random.Random: the Mersenne Twister of CPython (_randommodule.c) *)

Module MT19937.
Definition N : nat := 624.
Definition M : nat := 397.
Definition MATRIX_A : Z := 0x9908b0df.
Definition UPPER_MASK : Z := 0x80000000.
Definition LOWER_MASK : Z := 0x7fffffff.

(** Arithmetic on uint32_t wraps around. *)
Definition u32 (x : Z) : Z := Z.land x 0xffffffff.

Record RandomObject : Set := mkRandom { state : list Z; index : nat }.

Definition mt_get (mt : list Z) (i : nat) : Z := nth i mt 0.
Definition mt_set (mt : list Z) (i : nat) (x : Z) : list Z := <[i:=x]> mt.

Fixpoint init_genrand_from (k : nat) (mti : Z) (prev : Z) : list Z :=
  match k with
  | O => []
  | S k' =>
      let x := u32 (1812433253 * (Z.lxor prev (Z.shiftr prev 30)) + mti) in
      x :: init_genrand_from k' (mti + 1) x
  end.

Definition init_genrand (s : Z) : RandomObject :=
  mkRandom (s :: init_genrand_from (N - 1) 1 s) N.

(** The first loop of init_by_array. *)
Fixpoint init_mix_key (k : nat) (init_key : list Z) (key_length : nat)
         (i j : nat) (mt : list Z) : nat * list Z :=
  match k with
  | O => (i, mt)
  | S k' =>
      let p := mt_get mt (i - 1) in
      let x := u32 (Z.lxor (mt_get mt i)
                           (u32 (Z.lxor p (Z.shiftr p 30) * 1664525))
                    + nth j init_key 0 + Z.of_nat j) in
      let mt := mt_set mt i x in
      let i := S i in
      let j := S j in
      let '(i, mt) := if (N <=? i)%nat
                      then (1%nat, mt_set mt 0 (mt_get mt (N - 1)))
                      else (i, mt) in
      let j := if (key_length <=? j)%nat then O else j in
      init_mix_key k' init_key key_length i j mt
  end.

(** The second loop of init_by_array. *)
Fixpoint init_mix_index (k : nat) (i : nat) (mt : list Z) : list Z :=
  match k with
  | O => mt
  | S k' =>
      let p := mt_get mt (i - 1) in
      let x := u32 (Z.lxor (mt_get mt i)
                           (u32 (Z.lxor p (Z.shiftr p 30) * 1566083941))
                    - Z.of_nat i) in
      let mt := mt_set mt i x in
      let i := S i in
      let '(i, mt) := if (N <=? i)%nat
                      then (1%nat, mt_set mt 0 (mt_get mt (N - 1)))
                      else (i, mt) in
      init_mix_index k' i mt
  end.

Definition init_by_array (init_key : list Z) : RandomObject :=
  let key_length := length init_key in
  let mt := state (init_genrand 19650218) in
  let '(i, mt) := init_mix_key (Nat.max N key_length) init_key key_length 1 0 mt in
  let mt := init_mix_index (N - 1) i mt in
  mkRandom (mt_set mt 0 0x80000000) N.

(** The 32-bit words of a non-negative int, least significant first; at
    least one word. *)
Fixpoint key_words (fuel : nat) (n : Z) : list Z :=
  match fuel with
  | O => [u32 n]
  | S fuel' => if n <? 0x100000000 then [n]
               else u32 n :: key_words fuel' (Z.shiftr n 32)
  end.

(** [random.Random(a)] for an int [a]: the key is abs(a). *)
Definition random_seed (a : Z) : RandomObject :=
  let n := Z.abs a in
  init_by_array (key_words (Z.to_nat (Z.log2 n / 32)) n).

Definition twist_word (a b c : Z) : Z :=
  let y := Z.lor (Z.land a UPPER_MASK) (Z.land b LOWER_MASK) in
  Z.lxor (Z.lxor c (Z.shiftr y 1)) (if Z.testbit y 0 then MATRIX_A else 0).

(** The three loops of genrand_uint32 that regenerate the N words. *)
Fixpoint twist_from (k : nat) (kk : nat) (mt : list Z) : list Z :=
  match k with
  | O => mt
  | S k' =>
      let src := if (kk <? N - M)%nat then (kk + M)%nat else (kk + M - N)%nat in
      let nxt := if (kk =? N - 1)%nat then O else S kk in
      twist_from k' (S kk)
        (mt_set mt kk (twist_word (mt_get mt kk) (mt_get mt nxt) (mt_get mt src)))
  end.

Definition genrand_uint32 (self : RandomObject) : Z * RandomObject :=
  let self := if (N <=? index self)%nat
              then mkRandom (twist_from N 0 (state self)) 0
              else self in
  let y := mt_get (state self) (index self) in
  let y := Z.lxor y (Z.shiftr y 11) in
  let y := Z.lxor y (Z.land (u32 (Z.shiftl y 7)) 0x9d2c5680) in
  let y := Z.lxor y (Z.land (u32 (Z.shiftl y 15)) 0xefc60000) in
  let y := Z.lxor y (Z.shiftr y 18) in
  (y, mkRandom (state self) (S (index self))).

(** [getrandbits(k)] for k > 0: 32-bit words, least significant first,
    the last one shifted down to the remaining bits. *)
Fixpoint getrandbits_words (words : nat) (k : Z) (self : RandomObject)
  : Z * RandomObject :=
  match words with
  | O => (0, self)
  | S words' =>
      let '(r, self) := genrand_uint32 self in
      let r := if k <? 32 then Z.shiftr r (32 - k) else r in
      let '(hi, self) := getrandbits_words words' (k - 32) self in
      (r + Z.shiftl hi 32, self)
  end.

Definition getrandbits (k : Z) (self : RandomObject) : Z * RandomObject :=
  getrandbits_words (Z.to_nat ((k - 1) / 32 + 1)) k self.

(** [n.bit_length()] *)
Definition bit_length (n : Z) : Z := if n =? 0 then 0 else Z.log2 (Z.abs n) + 1.

(** [while r >= n: r = getrandbits(k)]; the source has no bound on the
    number of rejections. *)
Fixpoint reject_loop (fuel : nat) (n k r : Z) (self : RandomObject)
  : outcome Z * RandomObject :=
  if r <? n then (Return r, self)
  else match fuel with
       | O => (Diverge, self)
       | S fuel' => let '(r, self) := getrandbits k self in
                    reject_loop fuel' n k r self
       end.

Definition rejection_fuel : nat := 4096.

(** Random._randbelow_with_getrandbits *)
Definition _randbelow (n : Z) (self : RandomObject) : outcome Z * RandomObject :=
  let k := bit_length n in
  let '(r, self) := getrandbits k self in
  reject_loop rejection_fuel n k r self.

(** Random.choice *)
Definition choice {A} (seq : list A) (self : RandomObject)
  : outcome A * RandomObject :=
  match seq with
  | [] => (Raise IndexError, self)
  | _ => let '(o, self) := _randbelow (Z.of_nat (length seq)) self in
         (obind o (fun i => py_index seq (Z.to_nat i)), self)
  end.
End MT19937.

(** ** RandomAttack and the multi-run aggregation *)

Section RandomAttack.
Context {node : Type} `{EqDecision node}.
Local Open Scope py_scope.

Record RandomAttack : Type := mkRandomAttack {
  ra_name : string;
  ra_seed : option Z;
  _rng : MT19937.RandomObject
}.

(** RandomAttack.__init__; [random.Random(None)] seeds itself from the
    operating system, which is the [entropy] argument. *)
Definition RandomAttack_init (seed : option Z) (entropy : MT19937.RandomObject)
  : RandomAttack :=
  mkRandomAttack "RandomAttack" seed
    (match seed with
     | Some s => MT19937.random_seed s
     | None => entropy
     end).

(** RandomAttack.select_node *)
Definition ra_select_node (self : RandomAttack) (graph : Graph node)
  : outcome (option node) * RandomAttack :=
  if number_of_nodes graph =? 0 then (Return None, self)
  else
    let nodes := nodes graph in
    let '(o, rng) := MT19937.choice nodes (_rng self) in
    (obind o (fun n => Return (Some n)),
     mkRandomAttack (ra_name self) (ra_seed self) rng).

(** RandomAttack.set_seed *)
Definition ra_set_seed (self : RandomAttack) (seed : Z) : RandomAttack :=
  mkRandomAttack (ra_name self) (Some seed) (MT19937.random_seed seed).

#[global] Instance RandomAttack_BaseAttack : BaseAttack RandomAttack :=
  {| name := ra_name; select_node := ra_select_node |}.

(** What attack_multiple_runs uses of its [self]: the methods of
    BaseAttack, the [seed] attribute and [set_seed].  A subclass of
    RandomAttack that overrides [select_node] is another instance. *)
Class SeededAttack (Self : Type) `{BaseAttack (node:=node) Self} : Type := {
  seed : Self -> option Z;
  set_seed : Self -> Z -> Self
}.

#[global] Instance RandomAttack_SeededAttack : SeededAttack RandomAttack :=
  {| seed := ra_seed; set_seed := ra_set_seed |}.

(** The dictionary returned by attack_multiple_runs, one field per key;
    results are references into the store. *)
Record MultiRun : Type := mkMultiRun {
  average_result : nat;
  all_results : list nat;
  avg_r_res : Q;
  std_r_res : sqrtQ;
  avg_collapse_fraction : option Q;
  std_lcc_curve : list sqrtQ
}.

(** The keys of that dictionary. *)
Definition MultiRun_keys : list string :=
  ["average_result"; "all_results"; "avg_r_res"; "std_r_res";
   "avg_collapse_fraction"; "std_lcc_curve"]%string.

(** [curve + [curve[-1]] * (max_len - len(curve))] when the curve is
    shorter than [max_len]. *)
Definition pad_curve (max_len : nat) (curve : list Q) : outcome (list Q) :=
  if (length curve <? max_len)%nat then
    match last curve with
    | Some v => Return (curve ++ replicate (max_len - length curve) v)
    | None => Raise IndexError
    end
  else Return curve.

Fixpoint pad_curves (max_len : nat) (curves : list (list Q))
  : outcome (list (list Q)) :=
  match curves with
  | [] => Return []
  | c :: rest => obind (pad_curve max_len c) (fun p =>
                 obind (pad_curves max_len rest) (fun ps => Return (p :: ps)))
  end.

(** [max(len(curve) for curve in all_lcc_curves)] *)
Definition max_len_of (curves : list (list Q)) : outcome nat :=
  match curves with
  | [] => Raise ValueError
  | _ => Return (list_max (map length curves))
  end.

Section MultipleRuns.
Context {Self : Type} `{SeededAttack Self}.

(** [self.seed + run_idx if self.seed else run_idx] *)
Definition next_seed (self : Self) (run_idx : Z) : Z :=
  match seed self with
  | Some s => if s =? 0 then run_idx else s + run_idx
  | None => run_idx
  end.

(** The [for run_idx in range(num_runs)] loop. *)
Fixpoint runs_loop (run_idxs : list Z) (graph : nat) (budget : Z)
         (dataset_name graph_name : string) (collapse_threshold : Q)
         (all_results : list nat) (all_lcc_curves : list (list Q))
         (all_r_res all_collapse_fractions : list Q)
  : M (world node Self) (list nat * list (list Q) * list Q * list Q) :=
  match run_idxs with
  | [] => ret (all_results, all_lcc_curves, all_r_res, all_collapse_fractions)
  | run_idx :: rest =>
      do on_self (fun self =>
                    (Return tt, set_seed self (next_seed self run_idx))) in
      let* result := attack graph budget dataset_name
                            (graph_name ++ "_run" ++ str run_idx)
                            collapse_threshold in
      let* R := read_result result in
      runs_loop rest graph budget dataset_name graph_name collapse_threshold
                (all_results ++ [result])
                (all_lcc_curves ++ [lcc_values R])
                (all_r_res ++ [r_res R])
                (match collapse_fraction R with
                 | Some c => all_collapse_fractions ++ [c]
                 | None => all_collapse_fractions
                 end)
  end.

(** [range(n)] *)
Definition range (n : Z) : list Z := map Z.of_nat (seq 0 (Z.to_nat n)).

(** RandomAttack.attack_multiple_runs *)
Definition attack_multiple_runs (graph : nat) (budget : Z) (num_runs : Z)
           (dataset_name graph_name : string) (collapse_threshold : Q)
  : M (world node Self) MultiRun :=
  let* (all_results, all_lcc_curves, all_r_res, all_collapse_fractions) :=
    runs_loop (range num_runs) graph budget dataset_name graph_name
              collapse_threshold [] [] [] [] in
  let* max_len := lift (max_len_of all_lcc_curves) in
  let* padded_curves := lift (pad_curves max_len all_lcc_curves) in
  let avg_lcc_curve := np_mean_axis0 padded_curves in
  let std_lcc_curve := np_std_axis0 padded_curves in
  let* avg_result := lift (py_index all_results 0) in
  do update_result avg_result
       (fun R => set_algorithm_name R ("RandomAttack_avg" ++ str num_runs)) in
  do update_result avg_result (fun R => set_graph_name R graph_name) in
  do update_result avg_result (fun R => set_lcc_values R avg_lcc_curve) in
  do update_result avg_result (fun R => set_r_res R (np_mean all_r_res)) in
  do update_result avg_result
       (fun R => set_collapse_fraction R
                   (match all_collapse_fractions with
                    | [] => None
                    | _ => Some (np_mean all_collapse_fractions)
                    end)) in
  ret (mkMultiRun avg_result all_results (np_mean all_r_res)
         (np_std all_r_res)
         (match all_collapse_fractions with
          | [] => None
          | _ => Some (np_mean all_collapse_fractions)
          end)
         std_lcc_curve).
End MultipleRuns.
End RandomAttack.


(** ** UnifiedEvaluator *)

Section UnifiedEvaluator.
Context {node : Type} `{EqDecision node}.
Local Open Scope py_scope.

Record UnifiedEvaluator : Type := mkEvaluator {
  ev_collapse_threshold : Q;
  random_runs : Z;
  random_seed : Z
}.

(** UnifiedEvaluator.__init__ with its defaults. *)
Definition UnifiedEvaluator_default : UnifiedEvaluator :=
  mkEvaluator (2 # 10) 10 42.

Record ConstructResult : Type := mkConstructResult {
  method_name : string;
  cr_graph_name : string;
  r_tar : Q;
  r_ran : Q;
  r_improvement : Q;
  hda_lcc_curve : list Q;
  random_lcc_curve : list Q;
  hda_removal_fractions : list Q;
  random_removal_fractions : list Q;
  added_edges : list (node * node);
  r_original_tar : Q;
  r_original_ran : Q;
  cr_initial_nodes : Z;
  cr_initial_edges : Z;
  final_edges : Z;
  cr_budget : Z
}.

Record DismantResult : Type := mkDismantResult {
  dr_method_name : string;
  dr_graph_name : string;
  dr_r_res : Q;
  lcc_curve : list Q;
  dr_removal_fractions : list Q;
  dr_attack_sequence : list node;
  dr_collapse_fraction : option Q;
  dr_collapse_threshold : Q;
  dr_initial_nodes : Z;
  dr_initial_edges : Z;
  dr_budget : Z
}.

(** UnifiedEvaluator._compute_r_res *)
Definition _compute_r_res (removal_fractions lcc_values : list Q) : outcome Q :=
  if ((length removal_fractions <? 2) || (length lcc_values <? 2))%nat
  then Return 0%Q
  else
    let n := Nat.min (length removal_fractions) (length lcc_values) in
    let x := take n removal_fractions in
    let y := take n lcc_values in
    np_trapezoid y x.

(** The [for i in range(1, len(lcc_values))] loop of
    UnifiedEvaluator._find_collapse_point, from index [i] on. *)
Fixpoint _find_collapse_from (self : UnifiedEvaluator)
         (lcc_values removal_fractions : list Q) (i : nat) (count : nat)
  : outcome (option Q) :=
  match count with
  | O => Return None
  | S count' =>
      obind (py_index lcc_values i) (fun y2 =>
      if Qltb y2 (ev_collapse_threshold self) then
        obind (py_index lcc_values (i - 1)) (fun y1 =>
        if Qle_bool (ev_collapse_threshold self) y1 then
          obind (py_index removal_fractions (i - 1)) (fun x1 =>
          obind (py_index removal_fractions i) (fun x2 =>
          if negb (Qeq_bool y1 y2) then
            let t := ((y1 - ev_collapse_threshold self) / (y1 - y2))%Q in
            Return (Some (x1 + t * (x2 - x1))%Q)
          else obind (py_index removal_fractions i) (fun f => Return (Some f))))
        else obind (py_index removal_fractions i) (fun f => Return (Some f)))
      else _find_collapse_from self lcc_values removal_fractions (S i) count')
  end.

Definition _find_collapse_point (self : UnifiedEvaluator)
           (lcc_values removal_fractions : list Q) : outcome (option Q) :=
  _find_collapse_from self lcc_values removal_fractions 1
                      (length lcc_values - 1).

(** A method call on a local attacker object: the attacker's state is
    threaded through the call and handed back. *)
Definition with_self {Self A} (self : Self) (m : M (world node Self) A)
  : M (store node) (A * Self) :=
  fun st => match m (self, st) with
            | (Return a, w) => (Return (a, w.1), w.2)
            | (Raise e, w) => (Raise e, w.2)
            | (Diverge, w) => (Diverge, w.2)
            end.

Definition store_graph (g : nat) : M (store node) (Graph node) :=
  fun st => (py_index (graphs st) g, st).
Definition store_result (r : nat) : M (store node) (AttackResult node) :=
  fun st => (py_index (results st) r, st).

(** [int(n * 0.3)] for a node count [n]. *)
Definition default_budget (n : Z) : Z := 3 * n / 10.

(** UnifiedEvaluator.evaluate_construct; [entropy] is not used when the
    evaluator's seed is an int, as it always is. *)
Definition evaluate_construct (self : UnifiedEvaluator)
           (original_graph reconstructed_graph : nat)
           (added_edges : list (node * node))
           (method_name graph_name : string) (attack_budget : option Z)
  : M (store node) ConstructResult :=
  let* Grec := store_graph reconstructed_graph in
  let attack_budget :=
    match attack_budget with
    | Some b => if b =? 0 then default_budget (number_of_nodes Grec) else b
    | None => default_budget (number_of_nodes Grec)
    end in
  let hda := HighestDegreeAttack_init true in
  let* (hda_result, hda) :=
    with_self hda (hda_attack reconstructed_graph attack_budget
                     "construct_eval" graph_name (ev_collapse_threshold self)) in
  let* Rhda := store_result hda_result in
  let* r_tar := lift (_compute_r_res (removal_fractions Rhda) (lcc_values Rhda)) in
  let random_attack :=
    RandomAttack_init (Some (random_seed self)) (MT19937.mkRandom [] 0) in
  let* (random_results, random_attack) :=
    with_self random_attack
      (attack_multiple_runs reconstructed_graph attack_budget (random_runs self)
         "construct_eval" graph_name (ev_collapse_threshold self)) in
  let avg_random := average_result random_results in
  let* Ravg := store_result avg_random in
  let* r_ran := lift (_compute_r_res (removal_fractions Ravg) (lcc_values Ravg)) in
  let* (hda_original, hda) :=
    with_self hda (hda_attack original_graph attack_budget
                     "original" graph_name (2 # 10)) in
  let* Rorig := store_result hda_original in
  let* r_original_tar :=
    lift (_compute_r_res (removal_fractions Rorig) (lcc_values Rorig)) in
  let* (random_original, random_attack) :=
    with_self random_attack
      (attack_multiple_runs original_graph attack_budget (random_runs self)
         "original" graph_name (2 # 10)) in
  let* Ravg_orig := store_result (average_result random_original) in
  let* r_original_ran :=
    lift (_compute_r_res (removal_fractions Ravg_orig) (lcc_values Ravg_orig)) in
  let r_improvement :=
    if Qltb 0 r_original_tar
    then ((r_tar - r_original_tar) / r_original_tar)%Q else 0%Q in
  let* Rhda := store_result hda_result in
  let* Ravg := store_result avg_random in
  let* Gorig := store_graph original_graph in
  let* Grec := store_graph reconstructed_graph in
  ret (mkConstructResult method_name graph_name r_tar r_ran r_improvement
         (lcc_values Rhda) (lcc_values Ravg)
         (removal_fractions Rhda) (removal_fractions Ravg)
         added_edges r_original_tar r_original_ran
         (number_of_nodes Gorig) (number_of_edges Gorig)
         (number_of_edges Grec) (Z.of_nat (length added_edges))).
(** UnifiedEvaluator._compute_lcc_ratio (the same computation as
    BaseAttack._compute_lcc_ratio). *)
Definition ue_compute_lcc_ratio (graph : Graph node) (initial_nodes : Z)
  : outcome Q :=
  if number_of_nodes graph =? 0 then Return 0%Q
  else
    let ccs := connected_components graph in
    match ccs with
    | [] => Return 0%Q
    | _ => py_truediv (Z.of_nat (largest_cc_size ccs)) initial_nodes
    end.

Definition store_new_graph (G : Graph node) : M (store node) nat :=
  fun st => (Return (length (graphs st)), mkStore (graphs st ++ [G]) (results st)).
Definition store_write_graph (g : nat) (G : Graph node) : M (store node) unit :=
  fun st => (Return tt, mkStore (<[g:=G]> (graphs st)) (results st)).

(** The [for node in attack_sequence] loop of evaluate_dismant. *)
Fixpoint dismant_loop (attack_sequence : list node) (g : nat) (initial_nodes : Z)
         (removal_fractions lcc_curve : list Q)
  : M (store node) (list Q * list Q) :=
  match attack_sequence with
  | [] => ret (removal_fractions, lcc_curve)
  | node :: rest =>
      let* G := store_graph g in
      let* G' := (if has_node G node
                  then let* G' := lift (remove_node G node) in
                       do store_write_graph g G' in ret G'
                  else ret G) in
      let* removal_frac :=
        lift (py_truediv (initial_nodes - number_of_nodes G') initial_nodes) in
      let* lcc := lift (ue_compute_lcc_ratio G' initial_nodes) in
      dismant_loop rest g initial_nodes
                   (removal_fractions ++ [removal_frac]) (lcc_curve ++ [lcc])
  end.

(** UnifiedEvaluator.evaluate_dismant *)
Definition evaluate_dismant (self : UnifiedEvaluator) (graph : nat)
           (attack_sequence : list node) (method_name graph_name : string)
  : M (store node) DismantResult :=
  let* G := store_graph graph in
  let* g := store_new_graph (copy G) in
  let initial_nodes := number_of_nodes G in
  let initial_edges := number_of_edges G in
  let* lcc0 := lift (ue_compute_lcc_ratio G initial_nodes) in
  let* (removal_fractions, lcc_curve) :=
    dismant_loop attack_sequence g initial_nodes [0%Q] [lcc0] in
  let* r_res := lift (_compute_r_res removal_fractions lcc_curve) in
  let* collapse_fraction :=
    lift (_find_collapse_point self lcc_curve removal_fractions) in
  ret (mkDismantResult method_name graph_name r_res lcc_curve removal_fractions
         attack_sequence collapse_fraction (ev_collapse_threshold self)
         initial_nodes initial_edges (Z.of_nat (length attack_sequence))).
End UnifiedEvaluator.

Arguments ConstructResult node : clear implicits.
Arguments DismantResult node : clear implicits.

(** ** The seed schedule and a failing subclass *)

Section SeedSchedule.
Context {node : Type} `{EqDecision node}.
Context {Self : Type} `{SeededAttack (node:=node) Self}.

(** The attacker as iteration [k] of the loop of attack_multiple_runs finds
    it, that is after the iterations 0 .. k-1. *)
Definition attacker_before_run (w : world node Self) (graph : nat) (budget : Z)
           (dataset_name graph_name : string) (collapse_threshold : Q)
           (k : nat) : Self :=
  (runs_loop (range (Z.of_nat k)) graph budget dataset_name graph_name
             collapse_threshold [] [] [] [] w).2.1.

(** The seed that iteration [k] passes to set_seed. *)
Definition seed_of_run (w : world node Self) (graph : nat) (budget : Z)
           (dataset_name graph_name : string) (collapse_threshold : Q)
           (k : nat) : Z :=
  next_seed (attacker_before_run w graph budget dataset_name graph_name
                                 collapse_threshold k) (Z.of_nat k).
End SeedSchedule.

Section Faulty.
Context {node : Type} `{EqDecision node}.

(** A subclass of RandomAttack that overrides select_node: it raises while
    the attacker's seed is [faulty_seed] and defers to RandomAttack
    otherwise. *)
Record FaultyRandomAttack : Type := mkFaulty {
  faulty_base : RandomAttack;
  faulty_seed : Z
}.

Definition faulty_select_node (self : FaultyRandomAttack) (graph : Graph node)
  : outcome (option node) * FaultyRandomAttack :=
  if decide (ra_seed (faulty_base self) = Some (faulty_seed self))
  then (Raise (StrategyError 1), self)
  else let '(o, base) := ra_select_node (faulty_base self) graph in
       (o, mkFaulty base (faulty_seed self)).

#[global] Instance FaultyRandomAttack_BaseAttack : BaseAttack FaultyRandomAttack :=
  {| name := fun self => ra_name (faulty_base self);
     select_node := faulty_select_node |}.

#[global] Instance FaultyRandomAttack_SeededAttack : SeededAttack FaultyRandomAttack :=
  {| seed := fun self => ra_seed (faulty_base self);
     set_seed := fun self s => mkFaulty (ra_set_seed (faulty_base self) s)
                                        (faulty_seed self) |}.
End Faulty.


(** ** The end-to-end scenario: the path graph 0-1-2-3-4 *)

Definition path5 : Graph Z :=
  add_edge (add_edge (add_edge (add_edge [] 0 1) 1 2) 2 3) 3 4.

Definition empty_store : store Z := mkStore [] [].

Definition run_hda_on (G : Graph Z) (budget : Z) :=
  hda_attack 0%nat budget "unknown" "unknown" (2 # 10)
             (HighestDegreeAttack_init true, mkStore [G] []).

Definition scenario_result : option (AttackResult Z) :=
  match run_hda_on path5 2 with
  | (Return r, w) => results w.2 !! r
  | _ => None
  end.

(** The curve of the specification's integral example. *)
Definition example_lcc : list Q := [1; 0.8; 0.5; 0.3; 0.1; 0]%Q.
Definition example_fractions : list Q := [0; 0.2; 0.4; 0.6; 0.8; 1]%Q.

Definition example_result (fractions values : list Q) : AttackResult Z :=
  mkAttackResult "" "" "" [] fractions values 0%Q (2 # 10) None 0 0 0.

(** [i] is the first index whose value is below the threshold. *)
Definition first_below (values : list Q) (threshold : Q) (i : nat) : Prop :=
  (forall j v, (j < i)%nat -> values !! j = Some v -> ~ (v < threshold)%Q) /\
  exists v, values !! i = Some v /\ (v < threshold)%Q.

(** The curve of the specification's collapse-point example. *)
Definition collapse_example : AttackResult Z :=
  example_result [0; 0.5; 1]%Q [1; 0.5; 0.1]%Q.

(** ** Specification vocabulary for the component search and the curves *)

Section BfsSpec.
Context {node : Type} `{EqDecision node}.

(** The invariant of the [while nextlevel] loop of [_plain_bfs g s]. *)
Definition bfs_inv (g : Graph node) (s : node) (this seen : list node) : Prop :=
  NoDup seen /\ s ∈ seen /\
  (forall x, x ∈ this -> x ∈ seen) /\
  (forall x, x ∈ seen -> rtc (edge g) s x) /\
  (forall x, x ∈ seen -> x ∈ nodes g) /\
  (forall v x, v ∈ seen -> v ∉ this -> x ∈ adj g v -> x ∈ seen).

(** What [_plain_bfs g s] returns: the nodes reachable from [s], once each. *)
Definition is_component (g : Graph node) (s : node) (c : list node) : Prop :=
  NoDup c /\ s ∈ c /\
  (forall x, x ∈ c -> rtc (edge g) s x) /\
  (forall x, x ∈ c -> x ∈ nodes g) /\
  (forall v x, v ∈ c -> x ∈ adj g v -> x ∈ c).
(** The graph that [remove_node g n] returns for a node [n] of [g]. *)
Definition removed (g : Graph node) (n : node) : Graph node :=
  map (fun e => (e.1, filter (fun w => w <> n) e.2)) (filter (fun e => e.1 <> n) g).
End BfsSpec.

(** Postconditions: the computation returns a value that satisfies [phi],
    or else [blame] holds. *)
Definition returns_unless {S A} (blame : Prop) (phi : A -> S -> Prop)
  : outcome A -> S -> Prop :=
  fun o s => match o with
             | Return a => phi a s
             | _ => blame
             end.

Definition nondecreasing (l : list Q) : Prop :=
  forall i a b, l !! i = Some a -> l !! S i = Some b -> (a <= b)%Q.

Definition nonincreasing (l : list Q) : Prop :=
  forall i a b, l !! i = Some a -> l !! S i = Some b -> (b <= a)%Q.

Section CurveSpec.
Context {node : Type} `{EqDecision node}.

(** |LCC(G)| / n0 as a rational. *)
Definition lcc_fraction (G : Graph node) (n0 : Z) : Q :=
  (inject_Z (Z.of_nat (largest_cc_size (connected_components G))) / inject_Z n0)%Q.

(** A strategy is well behaved when select_node returns, and returns
    None or a node of the graph it was given. *)
Definition well_behaved (Self : Type) `{BaseAttack (node:=node) Self} : Prop :=
  forall (self : Self) (G : Graph node),
  exists choice self', select_node self G = (Return choice, self') /\
                       forall v, choice = Some v -> v ∈ nodes G.

(** The invariant of the loop of BaseAttack.attack: [G] is the working
    copy, [n0] the initial number of nodes, [lcc0] the first LCC ratio. *)
Definition curves_inv (G : Graph node) (n0 : Z) (lcc0 : Q)
           (seq : list node) (fracs lccs : list Q) : Prop :=
  wf G /\ (0 < n0 \/ G = []) /\
  length fracs = S (length seq) /\ length lccs = S (length seq) /\
  head fracs = Some 0%Q /\ head lccs = Some lcc0 /\
  nondecreasing fracs /\ nonincreasing lccs /\
  (exists f, last fracs = Some f /\
             (f == inject_Z (Z.of_nat (length seq)) / inject_Z n0)%Q) /\
  (exists l, last lccs = Some l /\ (l == lcc_fraction G n0)%Q).

(** What the loop hands over to the result. *)
Definition curves_ok (lcc0 : Q) (fracs lccs : list Q) : Prop :=
  length fracs = length lccs /\
  head fracs = Some 0%Q /\ head lccs = Some lcc0 /\
  nondecreasing fracs /\ nonincreasing lccs.
End CurveSpec.

(** Specifications of monadic code: [keeps I m] says that [m] preserves the
    state invariant [I] whatever its outcome; [triple P m Q] relates the
    states before and after [m] and its outcome. *)
Definition keeps {S A} (I : S -> Prop) (m : M S A) : Prop :=
  forall s, I s -> I (m s).2.

Definition triple {S A} (P : S -> Prop) (m : M S A)
           (Q : outcome A -> S -> Prop) : Prop :=
  forall s, P s -> Q (m s).1 (m s).2.

(** A RandomAttack(seed=42) and a store that holds the path graph. *)
Definition random42 : RandomAttack :=
  RandomAttack_init (Some 42) (MT19937.mkRandom [] 0).

Definition path5_world : world Z (RandomAttack) := (random42, mkStore [path5] []).

(** Three runs with budget 1: the loop alone, and the whole aggregation. *)
Definition three_runs :=
  runs_loop (range 3) 0%nat 1 "unknown" "unknown" (2 # 10) [] [] [] [] path5_world.

Definition three_runs_aggregated :=
  attack_multiple_runs 0%nat 1 3 "unknown" "unknown" (2 # 10) path5_world.

(** The fields of the object behind a reference that the claims speak of. *)
Definition curve_of (st : store Z) (r : nat) : option (list Q * Q * option Q) :=
  match results st !! r with
  | Some R => Some (lcc_values R, r_res R, collapse_fraction R)
  | None => None
  end.

(** The same batch with a subclass whose second run (seed 43) raises. *)
Definition faulty_world : world Z (FaultyRandomAttack) :=
  (mkFaulty random42 43, mkStore [path5] []).

(** evaluate_construct(G, G, []) on the path graph with the evaluator's
    defaults; the four scores. *)
Definition construct_scores : outcome (Q * Q * Q * Q) :=
  match evaluate_construct UnifiedEvaluator_default 0%nat 0%nat [] "LLM" "unknown"
                           None (mkStore [path5] []) with
  | (Return cr, _) => Return (r_tar cr, r_ran cr, r_original_tar cr, r_original_ran cr)
  | (Raise e, _) => Raise e
  | (Diverge, _) => Diverge
  end.

(** What the store holds for the given references once a batch has
    returned; [None] stands for a batch that did not return. *)
Definition curves_after {A Self} (refs : A -> list nat)
           (r : outcome A * world Z Self)
  : option (A * list (option (list Q * Q * option Q))) :=
  match r with
  | (Return a, w) => Some (a, map (curve_of w.2) (refs a))
  | _ => None
  end.

(** The three runs after the loop and after the aggregation. *)
Definition three_runs_curves : option (list (option (list Q * Q * option Q))) :=
  option_map snd (curves_after (fun _ => [0; 1; 2]%nat) three_runs).

Definition three_runs_aggregated_curves
  : option (nat * list nat * list (option (list Q * Q * option Q))) :=
  option_map (fun x => (average_result x.1, all_results x.1, x.2))
             (curves_after all_results three_runs_aggregated).

(** The result object behind the reference that an attack returned. *)
Definition result_of {Self} (r : outcome nat * world Z Self) : option (AttackResult Z) :=
  match r with
  | (Return result, w) => results w.2 !! result
  | _ => None
  end.

(** The result of an adaptive highest-degree attack on [G]. *)
Definition hda_result_on (G : Graph Z) (budget : Z) : option (AttackResult Z) :=
  result_of (run_hda_on G budget).

(** Two nodes and no edge. *)
Definition two_isolated : Graph Z := add_node (add_node [] 0) 1.

(** A store whose only graph is the path graph, with the adaptive
    highest-degree attacker. *)
Definition hda_path_world : world Z (HighestDegreeAttack Z) :=
  (HighestDegreeAttack_init true, mkStore [path5] []).

Section AttackSteps.
Context {node : Type} `{EqDecision node}.
Context {Self : Type} `{BaseAttack (node:=node) Self}.

(** The loop of BaseAttack.attack on the value of the working copy: the
    outcome, the attacker and the working copy when the loop stops. *)
Fixpoint attack_steps (steps : nat) (self : Self) (G : Graph node) (n0 : Z)
         (seq : list node) (fracs lccs : list Q)
  : outcome (list node * list Q * list Q) * Self * Graph node :=
  match steps with
  | O => (Return (seq, fracs, lccs), self, G)
  | S steps' =>
      if number_of_nodes G =? 0 then (Return (seq, fracs, lccs), self, G)
      else
        match select_node self G with
        | (Return None, self') => (Return (seq, fracs, lccs), self', G)
        | (Return (Some v), self') =>
            match remove_node G v with
            | Return G' =>
                match py_truediv (Z.of_nat (length (seq ++ [v]))) n0 with
                | Return frac =>
                    match _compute_lcc_ratio G' n0 with
                    | Return lcc =>
                        attack_steps steps' self' G' n0 (seq ++ [v])
                                     (fracs ++ [frac]) (lccs ++ [lcc])
                    | Raise e => (Raise e, self', G')
                    | Diverge => (Diverge, self', G')
                    end
                | Raise e => (Raise e, self', G')
                | Diverge => (Diverge, self', G')
                end
            | Raise e => (Raise e, self', G)
            | Diverge => (Diverge, self', G)
            end
        | (Raise e, self') => (Raise e, self', G)
        | (Diverge, self') => (Diverge, self', G)
        end
  end.
End AttackSteps.

Section RemovedAll.
Context {node : Type} `{EqDecision node}.

(** The graph that is left when the nodes [vs] are removed one by one. *)
Definition removed_all (G : Graph node) (vs : list node) : Graph node :=
  fold_left removed vs G.
End RemovedAll.

(** ** Replaying an attack sequence *)

Module Metrics.
Section Simulate.
Context {node : Type} `{EqDecision node}.

(** The [for node in attack_sequence] loop of
    ResilienceMetrics.simulate_attack_sequence for metric = "lcc". *)
Fixpoint simulate_loop (g : Graph node) (n_initial : Z)
         (attack_sequence : list node) (curve : list Q) : outcome (list Q) :=
  match attack_sequence with
  | [] => Return curve
  | node :: rest =>
      obind (if has_node g node then remove_node g node else Return g) (fun g =>
      obind (if number_of_nodes g =? 0 then Return 0%Q
             else
               let ccs := connected_components g in
               let largest_cc_size := match ccs with
                                      | [] => 0%nat
                                      | _ => largest_cc_size ccs
                                      end in
               py_truediv (Z.of_nat largest_cc_size) n_initial) (fun ratio =>
      simulate_loop g n_initial rest (curve ++ [ratio])))
  end.

(** ResilienceMetrics.simulate_attack_sequence with metric = "lcc", its
    default and the value evaluate_full_attack passes; [normalize] is the
    attribute of the ResilienceMetrics object. *)
Definition simulate_attack_sequence (normalize : bool) (graph : Graph node)
           (attack_sequence : list node) : outcome (list Q * Q) :=
  let g := copy graph in
  let n_initial := number_of_nodes g in
  obind (ResilienceMetrics.compute_lcc_ratio g) (fun ratio0 =>
  obind (simulate_loop g n_initial attack_sequence [ratio0]) (fun curve =>
  let r_res := ResilienceMetrics.compute_r_res normalize curve in
  Return (curve, r_res))).

(** The module-level convenience function compute_r_res(graph,
    attack_sequence), on a ResilienceMetrics() with its default. *)
Definition compute_r_res (graph : Graph node) (attack_sequence : list node)
  : outcome Q :=
  obind (simulate_attack_sequence true graph attack_sequence)
        (fun '(_, r_res) => Return r_res).
End Simulate.
End Metrics.

Section DismantSteps.
Context {node : Type} `{EqDecision node}.

(** The loop of evaluate_dismant on the value of the working copy: the
    outcome and the working copy when the loop stops. *)
Fixpoint dismant_steps (attack_sequence : list node) (G : Graph node) (n0 : Z)
         (fracs lccs : list Q) : outcome (list Q * list Q) * Graph node :=
  match attack_sequence with
  | [] => (Return (fracs, lccs), G)
  | v :: rest =>
      match (if has_node G v then remove_node G v else Return G) with
      | Return G' =>
          match py_truediv (n0 - number_of_nodes G') n0 with
          | Return frac =>
              match ue_compute_lcc_ratio G' n0 with
              | Return lcc => dismant_steps rest G' n0 (fracs ++ [frac]) (lccs ++ [lcc])
              | Raise e => (Raise e, G')
              | Diverge => (Diverge, G')
              end
          | Raise e => (Raise e, G')
          | Diverge => (Diverge, G')
          end
      | Raise e => (Raise e, G)
      | Diverge => (Diverge, G)
      end
  end.
End DismantSteps.

(** An attack sequence for the path graph that names node 1 twice and a
    node 7 that the graph does not have. *)
Definition sequence_with_repeats : list Z := [1; 7; 1; 3].

(** ** Construction heuristics of the evaluator *)

Section Construct.
Context {node : Type} `{EqDecision node}.

(** [G.has_edge(u, v)]: [v in G._adj[u]], False when [u] is not a node. *)
Definition has_edge (g : Graph node) (u v : node) : bool :=
  bool_decide (v ∈ adj g u).

(** [sorted(xs, key=key)]: stable, smallest key first. *)
Fixpoint insert_asc (key : node -> Z) (x : node) (sorted : list node) : list node :=
  match sorted with
  | [] => [x]
  | y :: rest => if key x <? key y then x :: sorted
                 else y :: insert_asc key x rest
  end.
Definition sorted_asc (key : node -> Z) (xs : list node) : list node :=
  fold_left (fun acc x => insert_asc key x acc) xs [].

(** The inner loop [for j in range(i + 1, ...)]: the first candidate [v]
    without an edge to [u]. *)
Fixpoint first_partner (g : Graph node) (u : node) (candidates : list node)
  : option node :=
  match candidates with
  | [] => None
  | v :: rest => if negb (has_edge g u v) then Some v
                 else first_partner g u rest
  end.

(** The two nested loops over the first nodes of [sorted_nodes]: the first
    pair (i, j), i < j, without an edge. *)
Fixpoint first_missing_edge (g : Graph node) (pool : list node)
  : option (node * node) :=
  match pool with
  | [] => None
  | u :: rest =>
      match first_partner g u rest with
      | Some v => Some (u, v)
      | None => first_missing_edge g rest
      end
  end.

(** The [for _ in range(budget)] loop of _degree_based_construct. *)
Fixpoint degree_construct_loop (steps : nat) (g : Graph node)
         (added : list (node * node)) : Graph node * list (node * node) :=
  match steps with
  | O => (g, added)
  | S steps' =>
      let sorted_nodes := sorted_asc (degree g) (nodes g) in
      match first_missing_edge g (take 20 sorted_nodes) with
      | Some (u, v) =>
          degree_construct_loop steps' (add_edge g u v) (added ++ [(u, v)])
      | None => (g, added)
      end
  end.

(** UnifiedEvaluator._degree_based_construct; it does not read [self]. *)
Definition _degree_based_construct (graph : Graph node) (budget : Z)
  : Graph node * list (node * node) :=
  degree_construct_loop (Z.to_nat budget) (copy graph) [].
End Construct.

(** A star with centre 0 and leaves 1, 2, 3. *)
Definition star4 : Graph Z :=
  add_edge (add_edge (add_edge [] 0 1) 0 2) 0 3.

(** The adjacency of an undirected graph is symmetric; networkx keeps it
    so. *)
Definition undirected {node : Type} `{EqDecision node} (g : Graph node) : Prop :=
  forall x y, y ∈ adj g x -> x ∈ adj g y.

(** The same as a test on the adjacency lists. *)
Definition undirectedb {node : Type} `{EqDecision node} (g : Graph node) : bool :=
  forallb (fun e => forallb (fun y => bool_decide (e.1 ∈ adj g y)) e.2) g.

(** ** random.sample and the random construction heuristic *)

Module PyRandom.
Import MT19937.

(** The smallest [e] with [m <= 4 ** e]: [ceil(log(m, 4))]. *)
Fixpoint ceil_log4_from (fuel e m : nat) : nat :=
  match fuel with
  | O => e
  | S fuel' => if (m <=? 4 ^ e)%nat then e else ceil_log4_from fuel' (S e) m
  end.

(** [setsize] of Random.sample: 21, plus the table size of a set of [k]
    indices when k > 5. *)
Definition setsize (k : nat) : nat :=
  if (5 <? k)%nat then (21 + 4 ^ ceil_log4_from (3 * k) 0 (3 * k))%nat else 21%nat.

Section Sample.
Context {A : Type}.

(** The branch of Random.sample that copies the population: draw an index
    below the number of remaining items and move the last remaining item
    into the vacancy. *)
Fixpoint sample_pool (k n : nat) (pool result : list A) (self : RandomObject)
  : outcome (list A) * RandomObject :=
  match k with
  | O => (Return result, self)
  | S k' =>
      let '(o, self) := _randbelow (Z.of_nat n) self in
      match o with
      | Return j =>
          match pool !! Z.to_nat j, pool !! (n - 1)%nat with
          | Some x, Some moved =>
              sample_pool k' (n - 1) (<[Z.to_nat j:=moved]> pool) (result ++ [x]) self
          | _, _ => (Raise IndexError, self)
          end
      | Raise e => (Raise e, self)
      | Diverge => (Diverge, self)
      end
  end.

(** [while j in selected: j = randbelow(n)]; the source has no bound on
    the number of repetitions. *)
Fixpoint draw_unselected (fuel : nat) (n j : Z) (selected : list Z)
         (self : RandomObject) : outcome Z * RandomObject :=
  if bool_decide (j ∈ selected) then
    match fuel with
    | O => (Diverge, self)
    | S fuel' =>
        let '(o, self) := _randbelow n self in
        match o with
        | Return j => draw_unselected fuel' n j selected self
        | Raise e => (Raise e, self)
        | Diverge => (Diverge, self)
        end
    end
  else (Return j, self).

(** The branch of Random.sample that remembers the selected indices. *)
Fixpoint sample_set (k : nat) (population : list A) (selected : list Z)
         (result : list A) (self : RandomObject)
  : outcome (list A) * RandomObject :=
  match k with
  | O => (Return result, self)
  | S k' =>
      let n := Z.of_nat (length population) in
      let '(o, self) := _randbelow n self in
      match o with
      | Return j =>
          let '(o, self) := draw_unselected rejection_fuel n j selected self in
          match o with
          | Return j =>
              match population !! Z.to_nat j with
              | Some x => sample_set k' population (selected ++ [j]) (result ++ [x]) self
              | None => (Raise IndexError, self)
              end
          | Raise e => (Raise e, self)
          | Diverge => (Diverge, self)
          end
      | Raise e => (Raise e, self)
      | Diverge => (Diverge, self)
      end
  end.

(** Random.sample(population, k) for a list and k >= 0. *)
Definition sample (population : list A) (k : nat) (self : RandomObject)
  : outcome (list A) * RandomObject :=
  let n := length population in
  if (n <? k)%nat then (Raise ValueError, self)
  else if (n <=? setsize k)%nat then sample_pool k n population [] self
       else sample_set k population [] [] self.
End Sample.
End PyRandom.

(** The words of a generator are unsigned: none is negative. *)
Definition valid (self : MT19937.RandomObject) : Prop :=
  Forall (fun x => 0 <= x) (MT19937.state self).

Section RandomConstruct.
Context {node : Type} `{EqDecision node}.
Local Open Scope py_scope.

(** The [while len(added) < budget and attempts < max_attempts] loop of
    _random_construct; the state is the generator of the [random] module
    and [attempts_left] is max_attempts - attempts. *)
Fixpoint random_construct_loop (attempts_left : nat) (budget : Z)
         (g : Graph node) (nodes : list node) (added : list (node * node))
  : M MT19937.RandomObject (Graph node * list (node * node)) :=
  match attempts_left with
  | O => ret (g, added)
  | S attempts_left' =>
      if Z.of_nat (length added) <? budget then
        let* drawn := PyRandom.sample nodes 2 in
        match drawn with
        | [u; v] =>
            if negb (has_edge g u v)
            then random_construct_loop attempts_left' budget (add_edge g u v) nodes
                                       (added ++ [(u, v)])
            else random_construct_loop attempts_left' budget g nodes added
        | _ => raise ValueError
        end
      else ret (g, added)
  end.

(** UnifiedEvaluator._random_construct; [random.seed(self.random_seed)]
    replaces the state of the module's generator. *)
Definition _random_construct (self : UnifiedEvaluator) (graph : Graph node)
           (budget : Z)
  : M MT19937.RandomObject (Graph node * list (node * node)) :=
  do put (MT19937.random_seed (random_seed self)) in
  let g := copy graph in
  let nodes := nodes g in
  random_construct_loop (Z.to_nat (budget * 100)) budget g nodes [].
End RandomConstruct.

(** ** NetworkEnvironment (env/simulator.py) *)

(** [l[:k]] for an int [k]: a negative [k] counts from the end. *)
Definition py_slice_to {A} (l : list A) (k : Z) : list A :=
  if k <? 0 then take (Z.to_nat (Z.of_nat (length l) + k)) l
  else take (Z.to_nat k) l.

Module Simulator.
Section Environment.
Context {node : Type} `{EqDecision node}.
(** [u <= v] on node identifiers, used by the edge candidates; [None]
    when Python cannot order the two identifiers (an int and a str) and
    raises TypeError. *)
Variable node_le : node -> node -> option bool.

Inductive TaskType : Set := DISMANTLE | CONSTRUCT.

Record GraphState : Type := mkGraphState {
  step : Z;
  num_nodes : Z;
  num_edges : Z;
  gs_largest_cc_size : Z;
  resilience_score : Q;
  removed_nodes : list node;
  gs_added_edges : list (node * node)
}.

(** The attributes of a NetworkEnvironment; its three caches are only ever
    set to None and are left out. *)
Record NetworkEnvironment : Type := mkEnvironment {
  graph : Graph node;
  initial_graph : Graph node;
  task_type : TaskType;
  budget : Z;
  spectral_top_k : Z;
  node_semantics : list (node * string);
  current_step : Z;
  history : list GraphState
}.

(** NetworkEnvironment._create_state_snapshot *)
Definition _create_state_snapshot (self : NetworkEnvironment) : outcome GraphState :=
  obind (if 0 <? number_of_nodes (graph self)
         then py_max_key (fun cc => Z.of_nat (length cc))
                         (connected_components (graph self))
         else Return [])
        (fun largest_cc =>
           Return (mkGraphState (current_step self)
                     (number_of_nodes (graph self))
                     (number_of_edges (graph self))
                     (Z.of_nat (length largest_cc)) 0%Q [] [])).

(** NetworkEnvironment._record_state *)
Definition _record_state (self : NetworkEnvironment) : outcome NetworkEnvironment :=
  obind (_create_state_snapshot self) (fun state =>
  Return (mkEnvironment (graph self) (initial_graph self) (task_type self)
            (budget self) (spectral_top_k self) (node_semantics self)
            (current_step self) (history self ++ [state]))).

(** NetworkEnvironment.__init__ *)
Definition __init__ (graph : Graph node) (task_type : TaskType) (budget : Z)
           (spectral_top_k : Z) (node_semantics : option (list (node * string)))
  : outcome NetworkEnvironment :=
  _record_state
    (mkEnvironment (copy graph) (copy graph) task_type budget spectral_top_k
       (match node_semantics with
        | Some d => d
        | None => []
        end)
       0 []).

(** NetworkEnvironment.reset *)
Definition reset (self : NetworkEnvironment) : outcome NetworkEnvironment :=
  _record_state
    (mkEnvironment (copy (initial_graph self)) (initial_graph self) (task_type self)
       (budget self) (spectral_top_k self) (node_semantics self) 0 []).

(** The pairs of the two nested loops of the "edge" branch, from the pair
    ([u], first of [vs]) on; [inl] is the early [return candidates]. *)
Fixpoint edge_candidates_row (g : Graph node) (k : Z) (u : node) (vs : list node)
         (seen candidates : list (node * node))
  : outcome (list (node * node) + list (node * node) * list (node * node)) :=
  match vs with
  | [] => Return (inr (seen, candidates))
  | v :: vs' =>
      if has_edge g u v then edge_candidates_row g k u vs' seen candidates
      else
        match node_le u v with
        | None => Raise TypeError
        | Some le =>
            let key := if le then (u, v) else (v, u) in
            if bool_decide (key ∈ seen)
            then edge_candidates_row g k u vs' seen candidates
            else
              let seen := seen ++ [key] in
              let candidates := candidates ++ [(u, v)] in
              if k <=? Z.of_nat (length candidates) then Return (inl candidates)
              else edge_candidates_row g k u vs' seen candidates
        end
  end.

Fixpoint edge_candidates (g : Graph node) (k : Z) (pool : list node)
         (seen candidates : list (node * node)) : outcome (list (node * node)) :=
  match pool with
  | [] => Return candidates
  | u :: rest =>
      obind (edge_candidates_row g k u rest seen candidates) (fun r =>
      match r with
      | inl candidates => Return candidates
      | inr (seen, candidates) => edge_candidates g k rest seen candidates
      end)
  end.

(** What prune_candidates returns: nodes or node pairs. *)
Inductive candidates : Type :=
| Nodes (l : list node)
| Edges (l : list (node * node)).

(** NetworkEnvironment.prune_candidates *)
Definition prune_candidates (self : NetworkEnvironment) (candidate_type : string)
           (top_k : option Z) : outcome candidates :=
  let k := match top_k with
           | Some k => if k =? 0 then spectral_top_k self else k
           | None => spectral_top_k self
           end in
  if String.eqb candidate_type "node" then
    let nodes := nodes (graph self) in
    match nodes with
    | [] => Return (Nodes [])
    | _ =>
        let nodes_sorted := sorted_desc (degree (graph self)) nodes in
        Return (Nodes (py_slice_to nodes_sorted
                         (Z.min k (Z.of_nat (length nodes_sorted)))))
    end
  else if String.eqb candidate_type "edge" then
    let nodes := nodes (graph self) in
    if (length nodes <? 2)%nat then Return (Edges [])
    else
      let nodes_sorted := sorted_desc (degree (graph self)) nodes in
      let pool := py_slice_to nodes_sorted
                    (Z.min (Z.max k 50) (Z.of_nat (length nodes_sorted))) in
      obind (edge_candidates (graph self) k pool [] []) (fun candidates =>
      Return (Edges candidates))
  else Raise ValueError.

(** NetworkEnvironment.remove_node *)
Definition remove_node (self : NetworkEnvironment) (node_id : node)
  : outcome NetworkEnvironment :=
  if has_node (graph self) node_id then
    obind (remove_node (graph self) node_id) (fun g =>
    _record_state
      (mkEnvironment g (initial_graph self) (task_type self) (budget self)
         (spectral_top_k self) (node_semantics self)
         (current_step self + 1) (history self)))
  else Return self.

(** NetworkEnvironment.add_edge *)
Definition add_edge (self : NetworkEnvironment) (u v : node)
  : outcome NetworkEnvironment :=
  if has_node (graph self) u && has_node (graph self) v
     && negb (bool_decide (u = v)) then
    _record_state
      (mkEnvironment (add_edge (graph self) u v) (initial_graph self)
         (task_type self) (budget self) (spectral_top_k self)
         (node_semantics self) (current_step self + 1) (history self))
  else Return self.

(** NetworkEnvironment.get_current_state *)
Definition get_current_state (self : NetworkEnvironment) : outcome GraphState :=
  match last (history self) with
  | Some s => Return s
  | None => _create_state_snapshot self
  end.

(** The calls a script can make on an environment, and a script. *)
Inductive call : Type :=
| RemoveNode (node_id : node)
| AddEdge (u v : node)
| Reset.

Definition do_call (self : NetworkEnvironment) (c : call)
  : outcome NetworkEnvironment :=
  match c with
  | RemoveNode n => remove_node self n
  | AddEdge u v => add_edge self u v
  | Reset => reset self
  end.

Fixpoint do_calls (self : NetworkEnvironment) (cs : list call)
  : outcome NetworkEnvironment :=
  match cs with
  | [] => Return self
  | c :: cs' => obind (do_call self c) (fun self => do_calls self cs')
  end.
End Environment.
Arguments GraphState node : clear implicits.
Arguments NetworkEnvironment node : clear implicits.
Arguments candidates node : clear implicits.
Arguments call node : clear implicits.
End Simulator.

(** What holds of an environment created from [G], whatever was called on
    it: the current graph is well formed and has only nodes of [G], the
    initial graph is [G], the history has one snapshot per step, numbered
    from 0, the last one describes the current graph, and no self-loop has
    appeared. *)
Definition environment_ok {node : Type} `{EqDecision node} (G : Graph node)
           (env : Simulator.NetworkEnvironment node) : Prop :=
  wf (Simulator.graph env) /\
  Simulator.initial_graph env = G /\
  (forall v, v ∈ nodes (Simulator.graph env) -> v ∈ nodes G) /\
  Z.of_nat (length (Simulator.history env)) = Simulator.current_step env + 1 /\
  (forall i s, Simulator.history env !! i = Some s ->
     Simulator.step s = Z.of_nat i /\
     0 <= Simulator.gs_largest_cc_size s <= Simulator.num_nodes s) /\
  (exists s, last (Simulator.history env) = Some s /\
     Simulator.num_nodes s = number_of_nodes (Simulator.graph env) /\
     Simulator.num_edges s = number_of_edges (Simulator.graph env) /\
     Simulator.gs_largest_cc_size s
     = Z.of_nat (largest_cc_size (connected_components (Simulator.graph env)))) /\
  ((forall v, v ∉ adj G v) -> forall v, v ∉ adj (Simulator.graph env) v).

(** A script on the path graph: a removal, a self-loop and an edge, the
    removal of a node that is not there, a reset, another removal. *)
Definition example_calls : list (Simulator.call Z) :=
  [Simulator.RemoveNode 1; Simulator.AddEdge 0 0; Simulator.AddEdge 0 4;
   Simulator.RemoveNode 9; Simulator.Reset; Simulator.RemoveNode 2].

(** An environment on the path graph. *)
Definition path5_environment : Simulator.NetworkEnvironment Z :=
  Simulator.mkEnvironment path5 path5 Simulator.DISMANTLE 10 3 [] 0 [].

(** [a <= b] on int identifiers. *)
Definition int_le (a b : Z) : option bool := Some (a <=? b).

#[global] Instance node_id_eq_dec : EqDecision (Z + string).
Proof. intros a b. unfold Decision. repeat decide equality. Defined.

(** [a <= b] on identifiers that are ints or strs: two ints by value,
    two strs in lexicographic order, an int and a str not at all. *)
Definition py_le (a b : Z + string) : option bool :=
  match a, b with
  | inl x, inl y => Some (x <=? y)
  | inr x, inr y => Some (String.leb x y)
  | _, _ => None
  end.

(** The two nodes 1 and "a", no edge, and an environment on them. *)
Definition mixed_ids : Graph (Z + string) := add_node (add_node [] (inl 1)) (inr "a"%string).
Definition mixed_environment : Simulator.NetworkEnvironment (Z + string) :=
  Simulator.mkEnvironment mixed_ids mixed_ids Simulator.CONSTRUCT 10 3 [] 0 [].

(** A legal new edge of [g]: two different nodes of [g] that are not
    adjacent. *)
Definition new_edge {node : Type} `{EqDecision node} (g : Graph node)
           (e : node * node) : Prop :=
  e.1 ∈ nodes g /\ e.2 ∈ nodes g /\ e.1 <> e.2 /\ has_edge g e.1 e.2 = false.

(** The candidate list of the "edge" branch between two appends: shorter
    than [k], or still empty. *)
Definition within_limit {node : Type} (k : Z) (c : list (node * node)) : Prop :=
  Z.of_nat (length c) < k \/ c = [].

(** [d[k] = v] on a dict, kept as the list of its items in insertion
    order: a key that is present keeps its place. *)
Fixpoint dict_set {K V : Type} `{EqDecision K} (d : list (K * V)) (k : K) (v : V)
  : list (K * V) :=
  match d with
  | [] => [(k, v)]
  | (k', v') :: d' => if decide (k' = k) then (k', v) :: d'
                      else (k', v') :: dict_set d' k v
  end.

(** The loop of ResilienceMetrics.batch_compute_impact_scores. *)
Fixpoint batch_loop {node : Type} `{EqDecision node} (graph : Graph node)
         (candidate_nodes : list node) (scores : list (node * Q))
  : outcome (list (node * Q)) :=
  match candidate_nodes with
  | [] => Return scores
  | n :: rest =>
      obind (ResilienceMetrics.compute_impact_score graph n) (fun s =>
      batch_loop graph rest (dict_set scores n s))
  end.

(** ResilienceMetrics.batch_compute_impact_scores *)
Definition batch_compute_impact_scores {node : Type} `{EqDecision node}
           (graph : Graph node) (candidate_nodes : list node)
  : outcome (list (node * Q)) :=
  batch_loop graph candidate_nodes [].

(** [sorted(xs, key=key, reverse=True)] with float keys: stable, largest
    key first. *)
Fixpoint insert_desc_by {A : Type} (key : A -> Q) (x : A) (sorted : list A) : list A :=
  match sorted with
  | [] => [x]
  | y :: rest => if Qltb (key y) (key x) then x :: sorted
                 else y :: insert_desc_by key x rest
  end.
Definition sorted_desc_by {A : Type} (key : A -> Q) (xs : list A) : list A :=
  fold_left (fun acc x => insert_desc_by key x acc) xs [].

(** rank_nodes_by_impact *)
Definition rank_nodes_by_impact {node : Type} `{EqDecision node}
           (graph : Graph node) (candidates : list node)
  : outcome (list (node * Q)) :=
  obind (batch_compute_impact_scores graph candidates) (fun scores =>
  Return (sorted_desc_by snd scores)).

(** The elements of a list, each at its first occurrence. *)
Definition first_occurrences {A : Type} `{EqDecision A} (l : list A) : list A :=
  fold_left (fun acc x => if decide (x ∈ acc) then acc else acc ++ [x]) l [].

(** The items of a list whose key equals [k] as a float. *)
Definition with_key {A : Type} (key : A -> Q) (k : Q) (l : list A) : list A :=
  List.filter (fun y => Qeq_bool (key y) k) l.

(** Descending order of the keys. *)
Definition desc_by {A : Type} (key : A -> Q) (a b : A) : Prop := (key b <= key a)%Q.

(** What the score stored for a node is. *)
Definition scored {node : Type} `{EqDecision node} (graph : Graph node)
           (e : node * Q) : Prop :=
  ResilienceMetrics.compute_impact_score graph e.1 = Return e.2 /\
  (0 <= e.2 <= 1)%Q /\ (e.1 ∉ nodes graph -> e.2 = 0%Q).

(** * Properties *)

(** ** The end-to-end scenario *)

(** C1, as stated, fails in its last part: the r_res of the result is not
    the float 0.24. *)
Lemma hda_path_r_res_not_024 :
  ~ (exists R : AttackResult Z,
       scenario_result = Some R /\ (r_res R == binary64 0.24)%Q).
Proof.
  intros (R & HR & E). vm_compute in HR. inversion HR; subst R.
  vm_compute in E. discriminate E.
Qed.

(** C1 (amended): on the path graph 0-1-2-3-4 (edges inserted 0-1, 1-2,
    2-3, 3-4) the adaptive highest-degree attack with budget 2 returns a
    result with attack_sequence [1, 3], removal_fractions [0.0, 0.2, 0.4],
    lcc_values [1.0, 0.6, 0.2] and r_res 0.24000000000000005: np.trapezoid
    adds the two trapezoids 0.16000000000000003 and 0.08000000000000002
    in binary64, which is two units in the last place above the float
    0.24. *)
Theorem hda_path_scenario :
  exists R : AttackResult Z,
    scenario_result = Some R /\
    attack_sequence R = [1; 3] /\
    py_list_eq (removal_fractions R) [0; 0.2; 0.4]%Q = true /\
    py_list_eq (lcc_values R) [1; 0.6; 0.2]%Q = true /\
    (r_res R == binary64 0.24000000000000005)%Q /\
    (r_res R == fadd (binary64 0.16000000000000003) (binary64 0.08000000000000002))%Q /\
    (r_res R == binary64 0.24 + 2 * 2 ^ (-55))%Q.
Proof.
  eexists. split; [vm_compute; reflexivity |].
  repeat split; vm_compute; reflexivity.
Qed.

(** ** The resilience integral *)

(** C2, as stated, fails: none of the R_res computations yields 0.37 on the
    example curve. *)
Lemma example_integral_not_037 :
  ~ ((exists r, _compute_r_res example_fractions example_lcc = Return r /\
                (r == binary64 0.37)%Q) \/
     (exists r, compute_r_res (example_result example_fractions example_lcc)
                = Return r /\ (r == binary64 0.37)%Q) \/
     (ResilienceMetrics.compute_r_res true example_lcc == binary64 0.37)%Q).
Proof.
  intros [(r & Hr & E) | [(r & Hr & E) | E]].
  - vm_compute in Hr. inversion Hr; subst r. vm_compute in E. discriminate E.
  - vm_compute in Hr. inversion Hr; subst r. vm_compute in E. discriminate E.
  - vm_compute in E. discriminate E.
Qed.

(** C2 (amended): the trapezoidal integral of the curve
    [1.0, 0.8, 0.5, 0.3, 0.1, 0.0] over [0, 0.2, 0.4, 0.6, 0.8, 1.0] is
    0.44000000000000006 for each of the three R_res computations: the
    exact area is 0.44, and the binary64 sum of the five trapezoids is one
    unit in the last place above the float 0.44. *)
Theorem example_integral_is_044 :
  (exists r, _compute_r_res example_fractions example_lcc = Return r /\
             (r == binary64 0.44000000000000006)%Q /\
             (r == binary64 0.44 + 2 ^ (-54))%Q) /\
  (exists r, compute_r_res (example_result example_fractions example_lcc)
             = Return r /\ (r == binary64 0.44000000000000006)%Q) /\
  (ResilienceMetrics.compute_r_res true example_lcc
   == binary64 0.44000000000000006)%Q.
Proof.
  split; [| split].
  - eexists. repeat split; vm_compute; reflexivity.
  - eexists. split; vm_compute; reflexivity.
  - vm_compute. reflexivity.
Qed.

(** ** Collapse-point detection *)

Lemma Qltb_lt (x y : Q) : Qltb x y = true <-> (x < y)%Q.
Proof.
  unfold Qltb. rewrite negb_true_iff, <- not_true_iff_false, Qle_bool_iff.
  split; [apply Qnot_le_lt | apply Qlt_not_le].
Qed.

Lemma Qltb_ge (x y : Q) : Qltb x y = false <-> (y <= x)%Q.
Proof. unfold Qltb. rewrite negb_false_iff. apply Qle_bool_iff. Qed.

Lemma Qltb_nlt (x y : Q) : Qltb x y = false <-> ~ (x < y)%Q.
Proof.
  rewrite <- Qltb_lt. destruct (Qltb x y); intuition congruence.
Qed.

Lemma Qeq_bool_false_iff (x y : Q) : Qeq_bool x y = false <-> ~ (x == y)%Q.
Proof.
  rewrite <- Qeq_bool_iff. destruct (Qeq_bool x y); intuition congruence.
Qed.

Lemma py_index_Some {A} (l : list A) i x : l !! i = Some x -> py_index l i = Return x.
Proof. unfold py_index. intros ->. reflexivity. Qed.

Section CollapsePoint.
Context {node : Type} `{EqDecision node}.
Variables (values fractions : list Q) (threshold : Q).

Lemma find_collapse_from_none rest k :
  (forall v, v ∈ rest -> ~ (v < threshold)%Q) ->
  find_collapse_from values fractions threshold k rest = Return None.
Proof.
  revert k. induction rest as [| lcc rest IH]; intros k Hall; simpl; [reflexivity |].
  assert (Qltb lcc threshold = false) as ->
    by (apply Qltb_nlt, Hall; left).
  apply IH. intros v Hv. apply Hall. right. exact Hv.
Qed.

Lemma find_collapse_from_interpolates i vp v fp fc :
  first_below values threshold i -> (0 < i)%nat ->
  values !! (i - 1)%nat = Some vp -> values !! i = Some v ->
  ~ (vp == v)%Q ->
  fractions !! (i - 1)%nat = Some fp -> fractions !! i = Some fc ->
  forall k, (k <= i)%nat ->
  find_collapse_from values fractions threshold k (drop k values)
  = Return (Some (fp + (vp - threshold) / (vp - v) * (fc - fp))%Q).
Proof.
  intros [Hbefore (v' & Hv' & Hlt)] Hpos Hvp Hv Hne Hfp Hfc k Hk.
  assert (v' = v) as -> by congruence.
  remember (i - k)%nat as d eqn:Hd. revert k Hk Hd.
  induction d as [| d IH]; intros k Hk Hd.
  - assert (k = i) as -> by lia.
    rewrite (drop_S _ _ _ Hv). simpl.
    apply Qltb_lt in Hlt. rewrite Hlt.
    destruct (Nat.ltb_spec 0 i) as [_ | ?]; [| lia].
    rewrite (py_index_Some _ _ _ Hvp), (py_index_Some _ _ _ Hfp),
      (py_index_Some _ _ _ Hfc). simpl.
    apply Qeq_bool_false_iff in Hne. rewrite Hne. reflexivity.
  - destruct (lookup_lt_is_Some_2 values k) as [x Hx].
    { apply lookup_lt_Some in Hv. lia. }
    rewrite (drop_S _ _ _ Hx). simpl.
    assert (Qltb x threshold = false) as ->.
    { apply Qltb_nlt. apply (Hbefore k); [lia | exact Hx]. }
    apply IH; lia.
Qed.

Lemma _find_collapse_from_none (self : UnifiedEvaluator) k count :
  threshold = ev_collapse_threshold self ->
  (forall v, v ∈ values -> ~ (v < threshold)%Q) ->
  ((0 < count)%nat -> (k + count <= length values)%nat) ->
  _find_collapse_from self values fractions k count = Return None.
Proof.
  intros Hth Hall. revert k. induction count as [| c IH]; intros k Hlen; simpl;
    [reflexivity |].
  destruct (lookup_lt_is_Some_2 values k) as [x Hx]; [lia |].
  rewrite (py_index_Some _ _ _ Hx). simpl.
  assert (Qltb x (ev_collapse_threshold self) = false) as ->.
  { rewrite <- Hth. apply Qltb_nlt, Hall. eapply list_elem_of_lookup_2, Hx. }
  apply IH. lia.
Qed.

Lemma _find_collapse_from_interpolates (self : UnifiedEvaluator) i vp v fp fc :
  threshold = ev_collapse_threshold self ->
  first_below values threshold i -> (0 < i)%nat ->
  values !! (i - 1)%nat = Some vp -> values !! i = Some v ->
  ~ (vp == v)%Q ->
  fractions !! (i - 1)%nat = Some fp -> fractions !! i = Some fc ->
  forall k count, (1 <= k <= i)%nat -> (i < k + count)%nat ->
  _find_collapse_from self values fractions k count
  = Return (Some (fp + (vp - threshold) / (vp - v) * (fc - fp))%Q).
Proof.
  intros Hth [Hbefore (v' & Hv' & Hlt)] Hpos Hvp Hv Hne Hfp Hfc k count.
  assert (v' = v) as -> by congruence.
  revert k. induction count as [| c IH]; intros k Hk Hc; [lia |].
  simpl. destruct (decide (k = i)) as [-> | Hki].
  - rewrite (py_index_Some _ _ _ Hv). simpl.
    rewrite <- Hth. apply Qltb_lt in Hlt. rewrite Hlt.
    rewrite (py_index_Some _ _ _ Hvp). simpl.
    assert (Qle_bool threshold vp = true) as ->.
    { apply Qle_bool_iff. apply Qnot_lt_le. apply (Hbefore (i - 1)%nat); [lia | exact Hvp]. }
    rewrite (py_index_Some _ _ _ Hfp), (py_index_Some _ _ _ Hfc). simpl.
    apply Qeq_bool_false_iff in Hne. rewrite Hne. reflexivity.
  - destruct (lookup_lt_is_Some_2 values k) as [x Hx].
    { apply lookup_lt_Some in Hv. lia. }
    rewrite (py_index_Some _ _ _ Hx). simpl.
    assert (Qltb x (ev_collapse_threshold self) = false) as ->.
    { rewrite <- Hth. apply Qltb_nlt. apply (Hbefore k); [lia | exact Hx]. }
    apply IH; lia.
Qed.
End CollapsePoint.

(** C3: collapse-point detection finds the first index i whose value is
    below the threshold; when i > 0 and values[i-1] != values[i] it returns
    fractions[i-1] + t * (fractions[i] - fractions[i-1]) with
    t = (values[i-1] - threshold) / (values[i-1] - values[i]); it returns
    None when no value is below the threshold; on [1.0, 0.5, 0.1] over
    [0, 0.5, 1.0] with threshold 0.2 it returns 0.875.  Both
    AttackResult.find_collapse_point and
    UnifiedEvaluator._find_collapse_point behave so. *)
Theorem collapse_point_detection :
  (forall (R : AttackResult Z) threshold i vp v fp fc,
      first_below (lcc_values R) threshold i -> (0 < i)%nat ->
      lcc_values R !! (i - 1)%nat = Some vp -> lcc_values R !! i = Some v ->
      ~ (vp == v)%Q ->
      removal_fractions R !! (i - 1)%nat = Some fp ->
      removal_fractions R !! i = Some fc ->
      find_collapse_point R threshold
      = Return (Some (fp + (vp - threshold) / (vp - v) * (fc - fp))%Q) /\
      _find_collapse_point (mkEvaluator threshold 10 42)
                           (lcc_values R) (removal_fractions R)
      = Return (Some (fp + (vp - threshold) / (vp - v) * (fc - fp))%Q)) /\
  (forall (R : AttackResult Z) threshold,
      (forall v, v ∈ lcc_values R -> ~ (v < threshold)%Q) ->
      find_collapse_point R threshold = Return None /\
      _find_collapse_point (mkEvaluator threshold 10 42)
                           (lcc_values R) (removal_fractions R) = Return None) /\
  (exists c, find_collapse_point collapse_example 0.2%Q = Return (Some c) /\
             (c == 0.875)%Q) /\
  (exists c, _find_collapse_point UnifiedEvaluator_default
               (lcc_values collapse_example) (removal_fractions collapse_example)
             = Return (Some c) /\ (c == 0.875)%Q).
Proof.
  split; [| split; [| split]].
  - intros R threshold i vp v fp fc Hfirst Hpos Hvp Hv Hne Hfp Hfc. split.
    + unfold find_collapse_point.
      change (lcc_values R) with (drop 0 (lcc_values R)) at 2.
      eapply find_collapse_from_interpolates; eauto. lia.
    + unfold _find_collapse_point.
      apply (_find_collapse_from_interpolates _ _ threshold
               (mkEvaluator threshold 10 42) i vp v fp fc eq_refl
               Hfirst Hpos Hvp Hv Hne Hfp Hfc); [lia |].
      apply lookup_lt_Some in Hv. lia.
  - intros R threshold Hall. split.
    + apply find_collapse_from_none. exact Hall.
    + apply (_find_collapse_from_none _ _ threshold
               (mkEvaluator threshold 10 42) 1 _ eq_refl Hall). lia.
  - eexists. split; vm_compute; reflexivity.
  - eexists. split; vm_compute; reflexivity.
Qed.

Lemma collapse_point_detection_witness :
  find_collapse_point collapse_example 0.2%Q
  = Return (Some (0.5 + (0.5 - 0.2) / (0.5 - 0.1) * (1 - 0.5))%Q) /\
  find_collapse_point (example_result [0; 1]%Q [1; 1]%Q) 0.2%Q = Return None.
Proof.
  split.
  - apply (proj1 collapse_point_detection collapse_example 0.2%Q 2%nat
             0.5%Q 0.1%Q 0.5%Q 1%Q).
    + split.
      * intros j v Hj Hv.
        destruct j as [| [| j]]; [| | lia]; simpl in Hv; inversion Hv; subst v;
          vm_compute; discriminate.
      * exists 0.1%Q. split; [reflexivity | vm_compute; reflexivity].
    + lia.
    + reflexivity.
    + reflexivity.
    + vm_compute. discriminate.
    + reflexivity.
    + reflexivity.
  - apply (proj1 (proj2 collapse_point_detection) (example_result [0; 1]%Q [1; 1]%Q) 0.2%Q).
    intros v Hv. simpl in Hv.
    apply elem_of_cons in Hv as [-> | Hv]; [vm_compute; discriminate |].
    apply elem_of_cons in Hv as [-> | Hv]; [vm_compute; discriminate |].
    inversion Hv.
Defined.

(** ** Rules for the monad *)

Lemma keeps_bind {S A B} (I : S -> Prop) (m : M S A) (k : A -> M S B) :
  keeps I m -> (forall a, keeps I (k a)) -> keeps I (bind m k).
Proof.
  intros Hm Hk s Hs. unfold bind. specialize (Hm s Hs).
  destruct (m s) as [[a | e |] s']; simpl in *; auto. apply Hk, Hm.
Qed.

(** The same when the continuation needs a fact about the value. *)
Lemma keeps_bind_val {S A B} (I : S -> Prop) (phi : A -> Prop)
      (m : M S A) (k : A -> M S B) :
  (forall s, I s -> I (m s).2 /\ forall a, (m s).1 = Return a -> phi a) ->
  (forall a, phi a -> keeps I (k a)) -> keeps I (bind m k).
Proof.
  intros Hm Hk s Hs. unfold bind. destruct (Hm s Hs) as [HI Hphi].
  destruct (m s) as [[a | e |] s']; simpl in *; auto. apply Hk; auto.
Qed.

Lemma keeps_ret {S A} (I : S -> Prop) (a : A) : keeps I (ret a).
Proof. intros s Hs. exact Hs. Qed.

Lemma keeps_lift {S A} (I : S -> Prop) (o : outcome A) : keeps I (lift o).
Proof. intros s Hs. exact Hs. Qed.

Lemma triple_bind {S A B} (P : S -> Prop) (m : M S A) (k : A -> M S B)
      (Q1 : outcome A -> S -> Prop) (Q : outcome B -> S -> Prop) :
  triple P m Q1 ->
  (forall a, triple (Q1 (Return a)) (k a) Q) ->
  (forall e s, Q1 (Raise e) s -> Q (Raise e) s) ->
  (forall s, Q1 Diverge s -> Q Diverge s) ->
  triple P (bind m k) Q.
Proof.
  intros Hm Hk He Hd s Hs. unfold bind. specialize (Hm s Hs).
  destruct (m s) as [[a | e |] s']; simpl in *; auto. apply Hk, Hm.
Qed.

Lemma bind_assoc {S A B C} (m : M S A) (k1 : A -> M S B) (k2 : B -> M S C) s :
  bind (bind m k1) k2 s = bind m (fun a => bind (k1 a) k2) s.
Proof. unfold bind. destruct (m s) as [[a | e |] s']; reflexivity. Qed.

Lemma bind_ext {S A B} (m : M S A) (k k' : A -> M S B) s :
  (forall a s', k a s' = k' a s') -> bind m k s = bind m k' s.
Proof. intros Hk. unfold bind. destruct (m s) as [[a | e |] s']; auto. Qed.

Lemma triple_weaken {S A} (P P' : S -> Prop) (m : M S A)
      (Q Q' : outcome A -> S -> Prop) :
  triple P' m Q' -> (forall s, P s -> P' s) -> (forall o s, Q' o s -> Q o s) ->
  triple P m Q.
Proof. intros Hm HP HQ s Hs. apply HQ, Hm, HP, Hs. Qed.

(** ** The caller's graph is never mutated *)

Section Frame.
Context {node : Type} `{EqDecision node}.
Context {Self : Type} `{BaseAttack (node:=node) Self}.
Variables (graph : nat) (G : Graph node).

(** The caller's graph object holds [G]. *)
Let holds (w : world node Self) : Prop := graphs w.2 !! graph = Some G.

Lemma keeps_same_graphs {A} (m : M (world node Self) A) :
  (forall w, graphs (m w).2.2 = graphs w.2) -> keeps holds m.
Proof. intros Hm w Hw. unfold holds. rewrite Hm. exact Hw. Qed.

Lemma keeps_read_graph g : keeps holds (read_graph g).
Proof. apply keeps_same_graphs. reflexivity. Qed.

Lemma keeps_read_result r : keeps holds (read_result r).
Proof. apply keeps_same_graphs. reflexivity. Qed.

Lemma keeps_new_result R : keeps holds (new_result R).
Proof. apply keeps_same_graphs. reflexivity. Qed.

Lemma keeps_update_result r f : keeps holds (update_result r f).
Proof.
  apply keeps_same_graphs. intros w. unfold update_result.
  destruct (results w.2 !! r); reflexivity.
Qed.

Lemma keeps_on_self {A} (f : Self -> outcome A * Self) : keeps holds (on_self f).
Proof.
  apply keeps_same_graphs. intros w. unfold on_self.
  destruct (f w.1); reflexivity.
Qed.

Lemma keeps_write_graph g G' : g <> graph -> keeps holds (write_graph g G').
Proof.
  intros Hne w Hw. unfold holds, write_graph. simpl.
  rewrite list_lookup_insert_ne by exact Hne. exact Hw.
Qed.

Lemma attack_loop_keeps g (Hne : g <> graph) steps initial_nodes seq fracs lccs :
  keeps holds (attack_loop steps g initial_nodes seq fracs lccs).
Proof.
  revert seq fracs lccs.
  induction steps as [| steps IH]; intros seq fracs lccs; simpl.
  - apply keeps_ret.
  - apply keeps_bind; [apply keeps_read_graph |]. intros G0.
    destruct (number_of_nodes G0 =? 0); [apply keeps_ret |].
    apply keeps_bind; [apply keeps_on_self |]. intros [v |]; [| apply keeps_ret].
    apply keeps_bind; [apply keeps_lift |]. intros G'.
    apply keeps_bind; [apply keeps_write_graph, Hne |]. intros _.
    apply keeps_bind; [apply keeps_lift |]. intros frac.
    apply keeps_bind; [apply keeps_lift |]. intros lcc.
    apply IH.
Qed.

End Frame.

(** C8: whatever the strategy and the budget, after BaseAttack.attack the
    caller's graph object holds the graph it held before the call (the
    same nodes and the same edges): the run works on its own copy.  This
    holds for every outcome of the call, a raised exception included. *)
Theorem attack_leaves_graph_unchanged
        {node : Type} `{EqDecision node} {Self : Type} `{BaseAttack (node:=node) Self}
        (graph : nat) (G : Graph node) (w : world node Self)
        (budget : Z) (dataset_name graph_name : string) (collapse_threshold : Q) :
  graphs w.2 !! graph = Some G ->
  graphs (attack graph budget dataset_name graph_name collapse_threshold w).2.2
    !! graph = Some G.
Proof.
  set (holds := fun w : world node Self => graphs w.2 !! graph = Some G).
  change (holds w -> holds (attack graph budget dataset_name graph_name
                                   collapse_threshold w).2).
  revert w. change (keeps holds (attack graph budget dataset_name graph_name
                                        collapse_threshold)).
  unfold attack.
  apply keeps_bind; [apply keeps_read_graph |]. intros G0.
  apply keeps_bind_val with (phi := fun g => g <> graph).
  { intros w Hw. unfold holds, new_graph in *. simpl.
    apply lookup_lt_Some in Hw as Hlt.
    split; [rewrite lookup_app_l by exact Hlt; exact Hw |].
    intros a Ea. inversion Ea; subst a. lia. }
  intros g Hne.
  apply keeps_bind; [apply keeps_lift |]. intros lcc0.
  apply keeps_bind; [apply attack_loop_keeps, Hne |]. intros [[seq fracs] lccs].
  apply keeps_bind; [apply keeps_on_self |]. intros self.
  apply keeps_bind; [apply keeps_new_result |]. intros result.
  apply keeps_bind; [apply keeps_read_result |]. intros R.
  apply keeps_bind; [apply keeps_lift |]. intros r.
  apply keeps_bind; [apply keeps_update_result |]. intros _.
  apply keeps_bind; [apply keeps_read_result |]. intros R'.
  apply keeps_bind; [apply keeps_lift |]. intros c.
  apply keeps_bind; [apply keeps_update_result |]. intros _.
  apply keeps_ret.
Qed.

Lemma attack_leaves_graph_unchanged_witness :
  graphs (run_hda_on path5 2).2.2 !! 0%nat = Some path5.
Proof.
  unfold run_hda_on, hda_attack, bind at 1, read_graph at 1. simpl py_index.
  cbv iota beta. unfold bind at 1, on_self at 1. cbv iota beta.
  apply (attack_leaves_graph_unchanged (Self:=HighestDegreeAttack Z) 0 path5).
  reflexivity.
Defined.

(** ** Impact scores *)

Lemma clamp_range (x : Q) : (0 <= py_max 0 (py_min 1 x) <= 1)%Q.
Proof.
  unfold py_max, py_min.
  destruct (Qltb x 1) eqn:E1.
  - apply Qltb_lt in E1. destruct (Qltb 0 x) eqn:E2.
    + apply Qltb_lt in E2. split; apply Qlt_le_weak; assumption.
    + split; [apply Qle_refl | discriminate].
  - destruct (Qltb 0 1) eqn:E2.
    + split; [discriminate | apply Qle_refl].
    + split; [apply Qle_refl | discriminate].
Qed.

Lemma py_truediv_nonzero (a b : Z) :
  b <> 0 -> py_truediv a b = Return (inject_Z a / inject_Z b)%Q.
Proof. intros Hb. unfold py_truediv. destruct (Z.eqb_spec b 0); [contradiction | reflexivity]. Qed.

(** C10: for a node that is not in the graph
    ResilienceMetrics.compute_impact_score returns exactly 0.0, and for
    every graph and node it returns a score in [0, 1]. *)
Theorem impact_score_range {node : Type} `{EqDecision node}
        (graph : Graph node) (target_node : node) :
  exists score,
    ResilienceMetrics.compute_impact_score graph target_node = Return score /\
    (0 <= score <= 1)%Q /\
    (target_node ∉ nodes graph -> score = 0%Q).
Proof.
  unfold ResilienceMetrics.compute_impact_score, has_node.
  destruct (decide (target_node ∈ nodes graph)) as [Hin | Hnin].
  - rewrite bool_decide_eq_true_2 by exact Hin. simpl negb. cbv iota.
    assert (number_of_nodes graph <> 0) as Hn.
    { unfold number_of_nodes. destruct graph; [inversion Hin | simpl; lia]. }
    assert (exists before, ResilienceMetrics.compute_lcc_ratio graph = Return before)
      as [before ->].
    { unfold ResilienceMetrics.compute_lcc_ratio.
      destruct (Z.eqb_spec (number_of_nodes graph) 0); [contradiction |].
      destruct (connected_components graph); [eauto |].
      rewrite py_truediv_nonzero by exact Hn. eauto. }
    simpl obind. unfold remove_node, copy.
    destruct (decide (target_node ∈ nodes graph)); [| contradiction].
    simpl obind.
    match goal with
    | |- context [obind ?o _] =>
        assert (exists after, o = Return after) as [after ->]
    end.
    { destruct (_ =? 0); [eauto |].
      rewrite py_truediv_nonzero by exact Hn. eauto. }
    simpl obind. eexists. split; [reflexivity |].
    split; [apply clamp_range | intros Hnin; contradiction].
  - rewrite bool_decide_eq_false_2 by exact Hnin. simpl.
    exists 0%Q. repeat split; [apply Qle_refl | discriminate].
Qed.

(** ** The loop of attack_multiple_runs *)

Section RunsLoop.
Context {node : Type} `{EqDecision node}.
Context {Self : Type} `{SeededAttack (node:=node) Self}.
Variables (graph : nat) (budget : Z) (dataset_name graph_name : string)
          (collapse_threshold : Q).

(** Iterating over [l1 ++ l2] is iterating over [l1], then over [l2]. *)
Lemma runs_loop_app l1 l2 a b c d (w : world node Self) :
  runs_loop (l1 ++ l2) graph budget dataset_name graph_name collapse_threshold
            a b c d w
  = bind (runs_loop l1 graph budget dataset_name graph_name collapse_threshold
                    a b c d)
         (fun x => match x with
                   | (a', b', c', d') =>
                       runs_loop l2 graph budget dataset_name graph_name
                                 collapse_threshold a' b' c' d'
                   end) w.
Proof.
  revert a b c d w. induction l1 as [| k l1 IH]; intros a b c d w.
  - reflexivity.
  - simpl. rewrite bind_assoc. apply bind_ext. intros [] w1.
    rewrite bind_assoc. apply bind_ext. intros r w2.
    rewrite bind_assoc. apply bind_ext. intros R w3.
    apply IH.
Qed.

Lemma range_S (k : nat) : range (Z.of_nat (S k)) = range (Z.of_nat k) ++ [Z.of_nat k].
Proof.
  unfold range. rewrite !Nat2Z.id, seq_S, map_app. reflexivity.
Qed.

(** An exception of a run leaves the loop at once. *)
Lemma runs_loop_raise pre k post a b c d a' b' c' d' (w w1 w2 : world node Self) e :
  runs_loop pre graph budget dataset_name graph_name collapse_threshold a b c d w
  = (Return (a', b', c', d'), w1) ->
  attack graph budget dataset_name (graph_name ++ "_run" ++ str k)
         collapse_threshold (set_seed w1.1 (next_seed w1.1 k), w1.2)
  = (Raise e, w2) ->
  runs_loop (pre ++ k :: post) graph budget dataset_name graph_name
            collapse_threshold a b c d w
  = (Raise e, w2).
Proof.
  intros Hpre Hrun. rewrite runs_loop_app. unfold bind at 1. rewrite Hpre.
  cbn [runs_loop]. unfold bind at 1, on_self at 1. cbv iota beta.
  unfold bind at 1. rewrite Hrun.
  reflexivity.
Qed.
End RunsLoop.

(** C6, as stated, fails: with a subclass whose second run raises, the
    first run returns, the second raises, and the exception leaves
    attack_multiple_runs; no dictionary is returned. *)
Lemma faulty_batch_raises :
  (exists x w, runs_loop [0] 0%nat 1 "unknown" "unknown" (2 # 10) [] [] [] []
                         faulty_world = (Return x, w)) /\
  (attack_multiple_runs 0%nat 1 3 "unknown" "unknown" (2 # 10) faulty_world).1
  = Raise (StrategyError 1) /\
  ~ (exists d w, attack_multiple_runs 0%nat 1 3 "unknown" "unknown" (2 # 10)
                                      faulty_world = (Return d, w)).
Proof.
  assert ((attack_multiple_runs 0%nat 1 3 "unknown" "unknown" (2 # 10) faulty_world).1
          = Raise (StrategyError 1)) as Hraise by (vm_compute; reflexivity).
  split; [| split].
  - eexists _, _. vm_compute. reflexivity.
  - exact Hraise.
  - intros (d & w & Hd).
    pose proof (eq_trans (eq_sym Hraise) (f_equal fst Hd)) as Hc.
    discriminate Hc.
Qed.

(** C6 (amended): when the runs before run k return and run k raises, the
    exception propagates out of attack_multiple_runs; the final state is
    the one in which run k raised, so no later run executes and no
    dictionary (hence no failure count) is returned. *)
Theorem batch_failure_propagates
        {node : Type} `{EqDecision node} {Self : Type} `{SeededAttack (node:=node) Self}
        (graph : nat) (budget num_runs : Z) (dataset_name graph_name : string)
        (collapse_threshold : Q) (w w1 w2 : world node Self)
        (pre post : list Z) (k : Z) a b c d (e : exn) :
  range num_runs = pre ++ k :: post ->
  runs_loop pre graph budget dataset_name graph_name collapse_threshold
            [] [] [] [] w = (Return (a, b, c, d), w1) ->
  attack graph budget dataset_name (graph_name ++ "_run" ++ str k)
         collapse_threshold (set_seed w1.1 (next_seed w1.1 k), w1.2)
  = (Raise e, w2) ->
  attack_multiple_runs graph budget num_runs dataset_name graph_name
                       collapse_threshold w = (Raise e, w2).
Proof.
  intros Hrange Hpre Hrun. unfold attack_multiple_runs, bind at 1.
  rewrite Hrange.
  rewrite (runs_loop_raise _ _ _ _ _ pre k post _ _ _ _ _ _ _ _ _ _ _ _ Hpre Hrun).
  reflexivity.
Qed.

Lemma batch_failure_propagates_witness :
  (attack_multiple_runs 0%nat 1 3 "unknown" "unknown" (2 # 10) faulty_world).1
  = Raise (StrategyError 1).
Proof.
  refine (f_equal fst
            (batch_failure_propagates 0%nat 1 3 "unknown" "unknown" (2 # 10)
               faulty_world _ _ [0] [2] 1 _ _ _ _ _ eq_refl _ _)).
  - vm_compute. reflexivity.
  - vm_compute. reflexivity.
Defined.

(** ** The seeds of the runs *)

Section SeedInvariant.
Context {node : Type} `{EqDecision node}.
Variable s : option Z.

Let seeded (w : world node RandomAttack) : Prop := ra_seed w.1 = s.

Lemma keeps_same_self {A} (m : M (world node RandomAttack) A) :
  (forall w, (m w).2.1 = w.1) -> keeps seeded m.
Proof. intros Hm w Hw. unfold seeded. rewrite Hm. exact Hw. Qed.

Lemma ra_select_node_seed (self : RandomAttack) (G : Graph node) :
  ra_seed (ra_select_node self G).2 = ra_seed self.
Proof.
  unfold ra_select_node. destruct (number_of_nodes G =? 0); [reflexivity |].
  destruct (MT19937.choice (nodes G) (_rng self)). reflexivity.
Qed.

Lemma keeps_seed_update_result r f : keeps seeded (update_result r f).
Proof.
  apply keeps_same_self. intros w. unfold update_result.
  destruct (results w.2 !! r); reflexivity.
Qed.

Lemma attack_loop_keeps_seed g steps initial_nodes seq fracs lccs :
  keeps seeded (attack_loop steps g initial_nodes seq fracs lccs).
Proof.
  revert seq fracs lccs.
  induction steps as [| steps IH]; intros seq fracs lccs; simpl.
  - apply keeps_ret.
  - apply keeps_bind; [apply keeps_same_self; reflexivity |]. intros G0.
    destruct (number_of_nodes G0 =? 0); [apply keeps_ret |].
    apply keeps_bind.
    { intros w Hw. unfold seeded, on_self. simpl select_node.
      pose proof (ra_select_node_seed w.1 G0) as Hs.
      destruct (ra_select_node w.1 G0). simpl in *. congruence. }
    intros [v |]; [| apply keeps_ret].
    apply keeps_bind; [apply keeps_lift |]. intros G'.
    apply keeps_bind; [apply keeps_same_self; reflexivity |]. intros _.
    apply keeps_bind; [apply keeps_lift |]. intros frac.
    apply keeps_bind; [apply keeps_lift |]. intros lcc.
    apply IH.
Qed.

Lemma attack_keeps_seed graph budget dataset_name graph_name collapse_threshold :
  keeps seeded (attack graph budget dataset_name graph_name collapse_threshold).
Proof.
  unfold attack.
  apply keeps_bind; [apply keeps_same_self; reflexivity |]. intros G.
  apply keeps_bind; [apply keeps_same_self; reflexivity |]. intros g.
  apply keeps_bind; [apply keeps_lift |]. intros lcc0.
  apply keeps_bind; [apply attack_loop_keeps_seed |]. intros [[seq fracs] lccs].
  apply keeps_bind; [apply keeps_same_self; reflexivity |]. intros self.
  apply keeps_bind; [apply keeps_same_self; reflexivity |]. intros result.
  apply keeps_bind; [apply keeps_same_self; reflexivity |]. intros R.
  apply keeps_bind; [apply keeps_lift |]. intros r.
  apply keeps_bind; [apply keeps_seed_update_result |]. intros _.
  apply keeps_bind; [apply keeps_same_self; reflexivity |]. intros R'.
  apply keeps_bind; [apply keeps_lift |]. intros c.
  apply keeps_bind; [apply keeps_seed_update_result |]. intros _.
  apply keeps_ret.
Qed.
End SeedInvariant.

Section SeedSchedule.
Context {node : Type} `{EqDecision node}.
Variables (graph : nat) (budget : Z) (dataset_name graph_name : string)
          (collapse_threshold : Q).

Lemma next_seed_Some (self : RandomAttack) (base k : Z) :
  ra_seed self = Some base -> next_seed (node:=node) self k = base + k.
Proof.
  unfold next_seed. simpl seed. intros ->.
  destruct (Z.eqb_spec base 0); lia.
Qed.

Lemma triangular_step (k : Z) : k * (k - 1) / 2 + k = (k + 1) * (k + 1 - 1) / 2.
Proof.
  replace ((k + 1) * (k + 1 - 1)) with (k * (k - 1) + k * 2) by ring.
  rewrite Z.div_add by lia. reflexivity.
Qed.

(** After k iterations the attacker's seed is base + (0 + 1 + ... + (k-1)):
    set_seed overwrites the attribute that the next iteration reads. *)
Lemma runs_loop_seed (k : nat) (base : Z) (w w' : world node RandomAttack) x :
  ra_seed w.1 = Some base ->
  runs_loop (range (Z.of_nat k)) graph budget dataset_name graph_name
            collapse_threshold [] [] [] [] w = (Return x, w') ->
  ra_seed w'.1 = Some (base + Z.of_nat k * (Z.of_nat k - 1) / 2).
Proof.
  intros Hbase. revert x w'. induction k as [| k IH]; intros x w' Hrun.
  - inversion Hrun; subst. rewrite Hbase. f_equal.
    replace (Z.of_nat 0 * (Z.of_nat 0 - 1) / 2) with 0 by reflexivity. lia.
  - rewrite range_S, runs_loop_app in Hrun. unfold bind at 1 in Hrun.
    destruct (runs_loop (range (Z.of_nat k)) _ _ _ _ _ _ _ _ _ w)
      as [[[[[a b] c] d] | e |] w1] eqn:Hpre; try discriminate.
    specialize (IH _ _ eq_refl).
    cbn [runs_loop] in Hrun. unfold bind at 1, on_self at 1 in Hrun.
    cbv iota beta in Hrun.
    match type of Hrun with
    | ?m ?w0 = _ =>
        assert (keeps (fun w : world node RandomAttack =>
                         ra_seed w.1 = Some (base + Z.of_nat k * (Z.of_nat k - 1) / 2
                                             + Z.of_nat k)) m) as Hkeeps;
        [| specialize (Hkeeps w0) ]
    end.
    { apply keeps_bind; [apply attack_keeps_seed |]. intros r.
      apply keeps_bind; [apply keeps_same_self; reflexivity |]. intros R.
      apply keeps_ret. }
    rewrite Hrun in Hkeeps. simpl in Hkeeps. rewrite Hkeeps.
    + f_equal. rewrite Nat2Z.inj_succ, <- Z.add_1_r, <- triangular_step. lia.
    + simpl set_seed. unfold ra_set_seed. simpl ra_seed.
      f_equal. rewrite (next_seed_Some _ _ _ IH). reflexivity.
Qed.

(** The seed of run k is base + k (k + 1) / 2 whenever the runs before it
    return. *)
Lemma seed_of_run_closed_form (k : nat) (base : Z) (w w' : world node RandomAttack) x :
  ra_seed w.1 = Some base ->
  runs_loop (range (Z.of_nat k)) graph budget dataset_name graph_name
            collapse_threshold [] [] [] [] w = (Return x, w') ->
  seed_of_run w graph budget dataset_name graph_name collapse_threshold k
  = base + Z.of_nat k * (Z.of_nat k + 1) / 2.
Proof.
  intros Hbase Hrun. unfold seed_of_run, attacker_before_run. rewrite Hrun.
  simpl snd. simpl fst.
  rewrite (next_seed_Some _ _ _ (runs_loop_seed k base w w' x Hbase Hrun)).
  rewrite <- Z.add_assoc. f_equal.
  replace (Z.of_nat k * (Z.of_nat k + 1)) with ((Z.of_nat k + 1) * (Z.of_nat k + 1 - 1))
    by ring.
  apply triangular_step.
Qed.
End SeedSchedule.

(** C4 fails on the code: with base seed 42 the runs 0 and 1 are seeded
    with 42 and 43, but run 2 is seeded with 45, not with 42 + 2. *)
Theorem third_run_seed_drifts :
  map (seed_of_run path5_world 0%nat 1 "unknown" "unknown" (2 # 10)) [0; 1; 2; 3]%nat
  = [42; 43; 45; 48] /\
  seed_of_run path5_world 0%nat 1 "unknown" "unknown" (2 # 10) 2 <> 42 + 2.
Proof.
  split; [vm_compute; reflexivity |].
  assert (seed_of_run path5_world 0%nat 1 "unknown" "unknown" (2 # 10) 2 = 45)
    as Hseed by (vm_compute; reflexivity).
  intros Hc. pose proof (eq_trans (eq_sym Hseed) Hc) as Hc'. discriminate Hc'.
Qed.

(** ** The averaged result is the first run's object *)

(** C9 fails on the code: the average result is the object of run 0
    (all_results[0]), so after the aggregation "all_results" no longer
    holds run 0 as its run computed it: its lcc_values [1.0, 0.8] and r_res
    0.18000000000000002 are overwritten with the averaged curve
    [1.0, 0.6666666666666666] and the mean r_res 0.16666666666666666.  The
    runs 1 and 2 are unchanged. *)
Theorem averaging_overwrites_first_run :
  three_runs_curves
  = Some [Some ([5 # 5; 4 # 5], binary64 0.18000000000000002, None);
          Some ([5 # 5; 4 # 5], binary64 0.18000000000000002, None);
          Some ([5 # 5; 2 # 5], binary64 0.13999999999999999, None)]%Q /\
  three_runs_aggregated_curves
  = Some (0%nat, [0; 1; 2]%nat,
          [Some ([binary64 1; binary64 0.6666666666666666],
                 binary64 0.16666666666666666, None);
           Some ([5 # 5; 4 # 5], binary64 0.18000000000000002, None);
           Some ([5 # 5; 2 # 5], binary64 0.13999999999999999, None)]%Q) /\
  py_list_eq [5 # 5; 4 # 5]%Q [binary64 1; binary64 0.6666666666666666]%Q = false /\
  ~ (binary64 0.18000000000000002 == binary64 0.16666666666666666)%Q.
Proof.
  split; [vm_compute; reflexivity |].
  split; [vm_compute; reflexivity |].
  split; [vm_compute; reflexivity |].
  vm_compute. discriminate.
Qed.

(** ** evaluate_construct(G, G, []) *)

(** C5 fails on the code: on the path graph, with the evaluator's defaults,
    r_tar == r_original_tar (both 0.16000000000000003), but r_ran is 0.166
    and r_original_ran is 0.16000000000000003: the second batch of random
    runs starts from the seed the first batch left behind (87) instead of
    42. *)
Theorem construct_same_graph_scores :
  exists rt rr rot ror,
    construct_scores = Return (rt, rr, rot, ror) /\
    (rt == rot)%Q /\ (rr == binary64 0.166)%Q /\
    (ror == binary64 0.16000000000000003)%Q /\ ~ (rr == ror)%Q.
Proof.
  eexists _, _, _, _. split; [vm_compute; reflexivity |].
  repeat split; try (vm_compute; reflexivity).
  vm_compute. discriminate.
Qed.

(** ** Breadth-first search computes the reachable nodes *)

Section BFS.
Context {node : Type} `{EqDecision node}.
Implicit Types (g : Graph node) (v w x s : node) (seen this : list node).

Lemma elem_of_nodes g v : v ∈ nodes g <-> exists ns, (v, ns) ∈ g.
Proof.
  unfold nodes. rewrite list_elem_of_In, in_map_iff. split.
  - intros ([k ns] & <- & Hin). exists ns. apply list_elem_of_In, Hin.
  - intros (ns & Hin). exists (v, ns). split; [reflexivity | apply list_elem_of_In, Hin].
Qed.

Lemma length_nodes g : length (nodes g) = length g.
Proof. apply length_map. Qed.

Lemma adj_elem g v x : x ∈ adj g v -> exists ns, (v, ns) ∈ g /\ x ∈ ns.
Proof.
  induction g as [| [k ns] g IH]; simpl; [intros Hx; inversion Hx |].
  destruct (decide (k = v)) as [-> | Hne]; intros Hx.
  - exists ns. split; [left | exact Hx].
  - destruct (IH Hx) as (ns' & Hin & Hx'). exists ns'. split; [right; exact Hin | exact Hx'].
Qed.

Lemma adj_in_nodes g v x : wf g -> x ∈ adj g v -> x ∈ nodes g.
Proof.
  intros [_ Hclosed] Hx. destruct (adj_elem g v x Hx) as (ns & Hin & Hx').
  rewrite Forall_forall in Hclosed. specialize (Hclosed _ Hin).
  rewrite Forall_forall in Hclosed. apply Hclosed, Hx'.
Qed.

Lemma adj_source_in_nodes g v x : x ∈ adj g v -> v ∈ nodes g.
Proof.
  intros Hx. destruct (adj_elem g v x Hx) as (ns & Hin & _).
  apply elem_of_nodes. exists ns. exact Hin.
Qed.

Lemma visit_spec ws : forall seen next,
  exists new, visit ws seen next = (seen ++ new, next ++ new) /\
    (forall x, x ∈ new -> x ∈ ws) /\
    (forall x, x ∈ ws -> x ∈ seen ++ new) /\
    (NoDup seen -> NoDup (seen ++ new)).
Proof.
  induction ws as [| w ws IH]; intros seen next; simpl.
  - exists []. rewrite !app_nil_r. repeat split; auto. intros x Hx. inversion Hx.
  - destruct (decide (w ∈ seen)) as [Hin | Hnin].
    + destruct (IH seen next) as (new & E & Hsub & Hcov & Hnd).
      exists new. repeat split; auto.
      * intros x Hx. right. auto.
      * intros x Hx. apply elem_of_cons in Hx as [-> | Hx]; [| auto].
        apply elem_of_app. left. exact Hin.
    + destruct (IH (seen ++ [w]) (next ++ [w])) as (new & E & Hsub & Hcov & Hnd).
      exists (w :: new). rewrite E, <- !app_assoc. repeat split.
      * intros x Hx. apply elem_of_cons in Hx as [-> | Hx]; [left | right; auto].
      * intros x Hx. apply elem_of_cons in Hx as [-> | Hx].
        -- apply elem_of_app. right. left.
        -- specialize (Hcov x Hx). rewrite <- app_assoc in Hcov. exact Hcov.
      * intros Hseen. rewrite <- app_assoc in Hnd. apply Hnd.
        apply NoDup_app. repeat split; [exact Hseen | | apply NoDup_singleton].
        intros x Hx Hx'. apply list_elem_of_singleton in Hx'. subst x. contradiction.
Qed.

Lemma scan_level_spec g this : forall seen next,
  exists new, scan_level g this seen next = (seen ++ new, next ++ new) /\
    (forall x, x ∈ new -> exists v, v ∈ this /\ x ∈ adj g v) /\
    (forall v x, v ∈ this -> x ∈ adj g v -> x ∈ seen ++ new) /\
    (NoDup seen -> NoDup (seen ++ new)).
Proof.
  induction this as [| v this IH]; intros seen next; simpl.
  - exists []. rewrite !app_nil_r. repeat split; auto.
    + intros x Hx. inversion Hx.
    + intros v x Hv. inversion Hv.
  - destruct (visit_spec (adj g v) seen next) as (n1 & E1 & Hsub1 & Hcov1 & Hnd1).
    rewrite E1.
    destruct (IH (seen ++ n1) (next ++ n1)) as (n2 & E2 & Hsub2 & Hcov2 & Hnd2).
    exists (n1 ++ n2). rewrite E2, !app_assoc. repeat split.
    + intros x Hx. apply elem_of_app in Hx as [Hx | Hx].
      * exists v. split; [left | auto].
      * destruct (Hsub2 x Hx) as (v' & Hv' & Hx'). exists v'. split; [right |]; auto.
    + intros v' x Hv' Hx. apply elem_of_cons in Hv' as [-> | Hv'].
      * apply elem_of_app. left. auto.
      * eauto.
    + auto.
Qed.

Lemma length_le_nodes g seen :
  NoDup seen -> (forall x, x ∈ seen -> x ∈ nodes g) -> (length seen <= length g)%nat.
Proof.
  intros Hnd Hsub. rewrite <- length_nodes. apply submseteq_length.
  apply NoDup_submseteq; assumption.
Qed.

Lemma bfs_while_spec g s (Hwf : wf g) fuel : forall this seen,
  bfs_inv g s this seen ->
  this = [] \/ (length g - length seen < fuel)%nat ->
  is_component g s (bfs_while fuel g this seen).
Proof.
  assert (forall seen, bfs_inv g s [] seen -> is_component g s seen) as Hdone.
  { intros seen (Hnd & Hs & _ & Hsound & Hnodes & Hclosed).
    repeat split; auto. intros v x Hv Hx. apply (Hclosed v x Hv); [| exact Hx].
    intros Hc. inversion Hc. }
  induction fuel as [| fuel IH]; intros this seen Hinv Hfuel.
  - destruct Hfuel as [-> | Hlt]; [| lia]. simpl. auto.
  - simpl. destruct this as [| v0 this0]; [auto |].
    set (this := v0 :: this0) in *.
    destruct Hfuel as [Hc | Hfuel]; [discriminate Hc |].
    destruct Hinv as (Hnd & Hs & Hthis & Hsound & Hnodes & Hclosed).
    destruct (scan_level_spec g this seen []) as (new & E & Hsub & Hcov & Hnd').
    rewrite E. simpl app.
    assert (bfs_inv g s new (seen ++ new)) as Hinv'.
    { repeat split.
      - auto.
      - apply elem_of_app. left. exact Hs.
      - intros x Hx. apply elem_of_app. right. exact Hx.
      - intros x Hx. apply elem_of_app in Hx as [Hx | Hx]; [auto |].
        destruct (Hsub x Hx) as (v & Hv & Hx').
        eapply rtc_r; [apply Hsound, Hthis, Hv | exact Hx'].
      - intros x Hx. apply elem_of_app in Hx as [Hx | Hx]; [auto |].
        destruct (Hsub x Hx) as (v & Hv & Hx'). eapply adj_in_nodes; eauto.
      - intros v x Hv Hvn Hx. apply elem_of_app in Hv as [Hv | Hv]; [| contradiction].
        destruct (decide (v ∈ this)) as [Hin | Hnin].
        + eapply Hcov; eauto.
        + apply elem_of_app. left. eapply Hclosed; eauto. }
    apply IH; [exact Hinv' |].
    destruct new as [| n0 new0]; [left; reflexivity | right].
    destruct Hinv' as (Hnd2 & _ & _ & _ & Hnodes2 & _).
    pose proof (length_le_nodes g _ Hnd2 Hnodes2) as Hle.
    rewrite length_app in *. simpl in *. lia.
Qed.

Lemma _plain_bfs_spec g s : wf g -> s ∈ nodes g -> is_component g s (_plain_bfs g s).
Proof.
  intros Hwf Hs. unfold _plain_bfs. apply bfs_while_spec; [exact Hwf | |].
  - repeat split.
    + apply NoDup_singleton.
    + left.
    + auto.
    + intros x Hx. apply list_elem_of_singleton in Hx. subst x. apply rtc_refl.
    + intros x Hx. apply list_elem_of_singleton in Hx. subst x. exact Hs.
    + intros v x Hv Hvn. contradiction.
  - right. simpl. assert (0 < length g)%nat; [| lia].
    rewrite <- length_nodes. destruct (nodes g); [inversion Hs | simpl; lia].
Qed.

Lemma component_complete g s c x :
  is_component g s c -> rtc (edge g) s x -> x ∈ c.
Proof.
  intros (_ & Hs & _ & _ & Hclosed). revert x.
  apply rtc_ind_r; [exact Hs |].
  intros y z _ Hyz Hy. eapply Hclosed; eauto.
Qed.
End BFS.

Section Components.
Context {node : Type} `{EqDecision node}.
Implicit Types (g : Graph node) (v w x s n : node).

Lemma components_from_roots g vs : forall seen c,
  c ∈ components_from g vs seen -> exists r, r ∈ vs /\ c = _plain_bfs g r.
Proof.
  induction vs as [| v vs IH]; intros seen c Hc; simpl in Hc; [inversion Hc |].
  destruct (decide (v ∈ seen)).
  - destruct (IH _ _ Hc) as (r & Hr & E). exists r. split; [right |]; auto.
  - apply elem_of_cons in Hc as [-> | Hc].
    + exists v. split; [left | reflexivity].
    + destruct (IH _ _ Hc) as (r & Hr & E). exists r. split; [right |]; auto.
Qed.

Lemma components_from_cover g vs :
  (forall r, r ∈ vs -> r ∈ _plain_bfs g r) ->
  forall seen v, v ∈ vs ->
    v ∈ seen \/ exists c, c ∈ components_from g vs seen /\ v ∈ c.
Proof.
  induction vs as [| u vs IH]; intros Hsrc seen v Hv; [inversion Hv |].
  assert (forall r, r ∈ vs -> r ∈ _plain_bfs g r) as Hsrc'
      by (intros r Hr; apply Hsrc; right; exact Hr).
  simpl. destruct (decide (u ∈ seen)) as [Hin | Hnin].
  - apply elem_of_cons in Hv as [-> | Hv]; [left; exact Hin |].
    apply IH; assumption.
  - apply elem_of_cons in Hv as [-> | Hv].
    + right. exists (_plain_bfs g u). split; [left | apply Hsrc; left].
    + destruct (IH Hsrc' (seen ++ _plain_bfs g u) v Hv) as [Hs | (c & Hc & Hvc)].
      * apply elem_of_app in Hs as [Hs | Hs]; [left; exact Hs |].
        right. exists (_plain_bfs g u). split; [left | exact Hs].
      * right. exists c. split; [right |]; assumption.
Qed.

(** Every component that connected_components yields is the set of nodes
    reachable from one of the nodes, and every node lies in one of them. *)
Lemma connected_components_spec g : wf g ->
  (forall c, c ∈ connected_components g ->
             exists r, r ∈ nodes g /\ is_component g r c) /\
  (forall v, v ∈ nodes g -> exists c, c ∈ connected_components g /\ v ∈ c).
Proof.
  intros Hwf. split.
  - intros c Hc. destruct (components_from_roots _ _ _ _ Hc) as (r & Hr & ->).
    exists r. split; [exact Hr | apply _plain_bfs_spec; assumption].
  - intros v Hv.
    destruct (components_from_cover g (nodes g)) with (seen := @nil node) (v := v)
      as [Hs | Hc]; [| exact Hv | inversion Hs | exact Hc].
    intros r Hr. apply (_plain_bfs_spec g r Hwf Hr).
Qed.

Lemma list_max_ge (l : list nat) (x : nat) : x ∈ l -> (x <= list_max l)%nat.
Proof.
  intros Hx. pose proof (proj1 (list_max_le l (list_max l)) (Nat.le_refl _)) as Hall.
  rewrite Forall_forall in Hall. apply Hall, Hx.
Qed.

Lemma component_length_le g r c :
  is_component g r c -> (length c <= length g)%nat.
Proof. intros (Hnd & _ & _ & Hnodes & _). apply length_le_nodes; assumption. Qed.

Lemma largest_cc_size_le g : wf g ->
  (largest_cc_size (connected_components g) <= length g)%nat.
Proof.
  intros Hwf. unfold largest_cc_size. apply list_max_le, Forall_forall.
  intros k Hk. apply list_elem_of_In, in_map_iff in Hk as (c & <- & Hc).
  apply list_elem_of_In in Hc.
  destruct (proj1 (connected_components_spec g Hwf) c Hc) as (r & _ & Hcomp).
  eapply component_length_le, Hcomp.
Qed.

(** *** Removing a node *)


Lemma remove_node_Return g n g' :
  remove_node g n = Return g' -> n ∈ nodes g /\ g' = removed g n.
Proof.
  unfold remove_node. destruct (decide (n ∈ nodes g)); [| discriminate].
  intros E. inversion E. auto.
Qed.

Lemma nodes_removed g n : nodes (removed g n) = filter (fun k => k <> n) (nodes g).
Proof.
  unfold removed, nodes. induction g as [| [k ns] g IH]; [reflexivity |].
  rewrite (filter_cons _ (k, ns) g). cbn [map fst]. rewrite filter_cons.
  destruct (decide (k <> n)); cbn [map fst]; [f_equal |]; exact IH.
Qed.

Lemma adj_removed g n u :
  adj (removed g n) u = if decide (u = n) then [] else filter (fun w => w <> n) (adj g u).
Proof.
  unfold removed. induction g as [| [k ns] g IH].
  - simpl. destruct (decide (u = n)); reflexivity.
  - rewrite (filter_cons _ (k, ns) g). cbn [fst adj].
    destruct (decide (k <> n)) as [Hkn | Hkn]; cbn [map adj fst snd].
    + destruct (decide (k = u)) as [-> | Hku].
      * destruct (decide (u = n)); [contradiction | reflexivity].
      * exact IH.
    + apply dec_stable in Hkn. subst k.
      destruct (decide (n = u)) as [<- | Hnu].
      * etransitivity; [exact IH |].
        destruct (decide (n = n)); [reflexivity | contradiction].
      * exact IH.
Qed.

Lemma edge_removed g n u w : edge (removed g n) u w -> edge g u w.
Proof.
  unfold edge. rewrite adj_removed. destruct (decide (u = n)); [intros Hc; inversion Hc |].
  intros Hw. apply list_elem_of_filter in Hw. apply Hw.
Qed.

Lemma wf_removed g n : wf g -> wf (removed g n).
Proof.
  intros [Hnd Hclosed]. split.
  - rewrite nodes_removed. apply NoDup_filter, Hnd.
  - rewrite Forall_forall in Hclosed. apply Forall_forall. intros e He.
    unfold removed in He. apply list_elem_of_In, in_map_iff in He as (e0 & <- & He0).
    apply list_elem_of_In, list_elem_of_filter in He0 as [Hne He0].
    specialize (Hclosed _ He0). rewrite Forall_forall in Hclosed.
    apply Forall_forall. intros w Hw. simpl in Hw.
    apply list_elem_of_filter in Hw as [Hwn Hw].
    rewrite nodes_removed. apply list_elem_of_filter. split; [exact Hwn | auto].
Qed.

Lemma length_removed g n : n ∈ nodes g -> (length (removed g n) < length g)%nat.
Proof.
  intros Hn. rewrite <- !length_nodes, nodes_removed.
  apply list_elem_of_In in Hn. revert Hn.
  induction (nodes g) as [| k l IH]; intros Hn; [inversion Hn |].
  rewrite filter_cons. destruct (decide (k <> n)) as [Hkn | Hkn]; simpl.
  - destruct Hn as [-> | Hn]; [contradiction |]. specialize (IH Hn). lia.
  - pose proof (length_filter (fun k => k <> n) l). lia.
Qed.

(** The largest component cannot grow when a node is removed. *)
Lemma largest_cc_size_removed g n : wf g ->
  (largest_cc_size (connected_components (removed g n))
   <= largest_cc_size (connected_components g))%nat.
Proof.
  intros Hwf. pose proof (wf_removed g n Hwf) as Hwf'.
  unfold largest_cc_size at 1. apply list_max_le, Forall_forall.
  intros k Hk. apply list_elem_of_In, in_map_iff in Hk as (c' & <- & Hc').
  apply list_elem_of_In in Hc'.
  destruct (proj1 (connected_components_spec _ Hwf') c' Hc') as (r' & Hr' & Hcomp').
  assert (r' ∈ nodes g) as Hr.
  { rewrite nodes_removed in Hr'. apply list_elem_of_filter in Hr'. apply Hr'. }
  destruct (proj2 (connected_components_spec g Hwf) r' Hr) as (c & Hc & Hrc).
  destruct (proj1 (connected_components_spec g Hwf) c Hc) as (r & _ & Hcomp).
  transitivity (length c).
  - apply submseteq_length, NoDup_submseteq; [apply Hcomp' |].
    intros x Hx. apply (component_complete g r c x Hcomp).
    destruct Hcomp as (_ & _ & Hsound & _), Hcomp' as (_ & _ & Hsound' & _).
    transitivity r'; [apply Hsound, Hrc |].
    eapply rtc_subrel; [| apply Hsound', Hx].
    intros u w. apply edge_removed.
  - apply list_max_ge, list_elem_of_In, in_map. apply list_elem_of_In, Hc.
Qed.

(** A connected graph is one component. *)
Lemma largest_cc_size_connected g : wf g -> is_connected g ->
  largest_cc_size (connected_components g) = length g.
Proof.
  intros Hwf [Hne Hconn]. apply Nat.le_antisymm; [apply largest_cc_size_le, Hwf |].
  destruct g as [| [v0 ns0] g0] eqn:Eg; [contradiction |]. rewrite <- Eg in *.
  assert (v0 ∈ nodes g) as Hv0 by (rewrite Eg; left).
  destruct (proj2 (connected_components_spec g Hwf) v0 Hv0) as (c & Hc & Hvc).
  destruct (proj1 (connected_components_spec g Hwf) c Hc) as (r & Hr & Hcomp).
  transitivity (length c).
  - rewrite <- length_nodes. apply submseteq_length, NoDup_submseteq; [apply Hwf |].
    intros x Hx. apply (component_complete g r c x Hcomp). apply Hconn; assumption.
  - apply list_max_ge, list_elem_of_In, in_map. apply list_elem_of_In, Hc.
Qed.
End Components.

(** ** Hoare rules *)

Lemma hoare_bind {S A B} (blame : Prop) (P : S -> Prop) (m : M S A) (k : A -> M S B)
      (Q1 : A -> S -> Prop) (phi : B -> S -> Prop) :
  triple P m (returns_unless blame Q1) ->
  (forall a, triple (Q1 a) (k a) (returns_unless blame phi)) ->
  triple P (bind m k) (returns_unless blame phi).
Proof.
  intros Hm Hk. eapply triple_bind; [exact Hm | exact Hk | |]; simpl; auto.
Qed.

Lemma hoare_ret {S A} (blame : Prop) (P : S -> Prop) (a : A) (phi : A -> S -> Prop) :
  (forall s, P s -> phi a s) -> triple P (ret a) (returns_unless blame phi).
Proof. intros Hp s Hs. simpl. auto. Qed.

Lemma hoare_lift {S A} (blame : Prop) (P : S -> Prop) (o : outcome A) (a : A) :
  o = Return a -> triple P (lift o) (returns_unless blame (fun a' s => a' = a /\ P s)).
Proof. intros -> s Hs. simpl. auto. Qed.

Lemma hoare_pre {S A} (fact : Prop) (P : S -> Prop) (m : M S A) Q :
  (fact -> triple P m Q) -> triple (fun s => fact /\ P s) m Q.
Proof. intros Hm s [Hf Hs]. apply Hm; assumption. Qed.

Lemma hoare_pre_const {S A} (fact : Prop) (m : M S A) Q :
  (fact -> triple (fun _ => True) m Q) -> triple (fun _ => fact) m Q.
Proof. intros Hm s Hf. apply Hm; [exact Hf | exact I]. Qed.

(** ** Monotone lists *)

Lemma nondecreasing_snoc (l : list Q) (x y : Q) :
  nondecreasing l -> last l = Some y -> (y <= x)%Q -> nondecreasing (l ++ [x]).
Proof.
  intros Hl Hlast Hyx i a b Ha Hb.
  destruct (decide (S i < length l)%nat) as [Hlt | Hge].
  - rewrite lookup_app_l in Ha by lia. rewrite lookup_app_l in Hb by lia. eauto.
  - assert (S i = length l) as Hi.
    { apply lookup_lt_Some in Hb. rewrite length_app in Hb. simpl in Hb. lia. }
    rewrite lookup_app_l in Ha by lia.
    rewrite lookup_app_r in Hb by lia.
    rewrite Hi, Nat.sub_diag in Hb. simpl in Hb. inversion Hb; subst b.
    rewrite last_lookup in Hlast. rewrite <- Hi in Hlast. simpl in Hlast.
    rewrite Ha in Hlast. inversion Hlast; subst a. exact Hyx.
Qed.

Lemma nonincreasing_snoc (l : list Q) (x y : Q) :
  nonincreasing l -> last l = Some y -> (x <= y)%Q -> nonincreasing (l ++ [x]).
Proof.
  intros Hl Hlast Hyx i a b Ha Hb.
  destruct (decide (S i < length l)%nat) as [Hlt | Hge].
  - rewrite lookup_app_l in Ha by lia. rewrite lookup_app_l in Hb by lia. eauto.
  - assert (S i = length l) as Hi.
    { apply lookup_lt_Some in Hb. rewrite length_app in Hb. simpl in Hb. lia. }
    rewrite lookup_app_l in Ha by lia.
    rewrite lookup_app_r in Hb by lia.
    rewrite Hi, Nat.sub_diag in Hb. simpl in Hb. inversion Hb; subst b.
    rewrite last_lookup in Hlast. rewrite <- Hi in Hlast. simpl in Hlast.
    rewrite Ha in Hlast. inversion Hlast; subst a. exact Hyx.
Qed.

Lemma head_snoc {A} (l : list A) (x a : A) : head l = Some a -> head (l ++ [x]) = Some a.
Proof. destruct l; [discriminate | auto]. Qed.

Lemma Qdiv_le_mono (a b n : Z) : 0 < n -> a <= b ->
  (inject_Z a / inject_Z n <= inject_Z b / inject_Z n)%Q.
Proof.
  intros Hn Hab. unfold Qdiv. apply Qmult_le_compat_r.
  - rewrite <- Zle_Qle. exact Hab.
  - apply Qinv_le_0_compat. change 0%Q with (inject_Z 0). rewrite <- Zle_Qle. lia.
Qed.

(** ** The curves of BaseAttack.attack *)

Section AttackCurves.
Context {node : Type} `{EqDecision node}.
Context {Self : Type} `{BaseAttack (node:=node) Self}.

Let blame : Prop := ~ (well_behaved Self).

Lemma lcc_fraction_empty (n0 : Z) : (0 == lcc_fraction (@nil (node * list node)) n0)%Q.
Proof. unfold lcc_fraction, Qdiv. simpl. rewrite Qmult_0_l. reflexivity. Qed.

Lemma compute_lcc_ratio_returns (G : Graph node) (n0 : Z) :
  0 < n0 \/ G = [] ->
  exists q, _compute_lcc_ratio G n0 = Return q /\ (q == lcc_fraction G n0)%Q.
Proof.
  intros Hn. unfold _compute_lcc_ratio.
  destruct G as [| e G0] eqn:EG.
  - exists 0%Q. split; [reflexivity | apply lcc_fraction_empty].
  - rewrite <- EG in *. destruct Hn as [Hn | Hn]; [| congruence].
    assert ((number_of_nodes G =? 0) = false) as ->.
    { apply Z.eqb_neq. unfold number_of_nodes. rewrite EG. simpl. lia. }
    unfold lcc_fraction. destruct (connected_components G) eqn:Ecc.
    + exists 0%Q. split; [reflexivity |]. unfold Qdiv. simpl.
      rewrite Qmult_0_l. reflexivity.
    + rewrite <- Ecc. rewrite py_truediv_nonzero by lia.
      eexists. split; reflexivity.
Qed.

Lemma lcc_fraction_removed (G : Graph node) (n : node) (n0 : Z) :
  wf G -> 0 < n0 -> (lcc_fraction (removed G n) n0 <= lcc_fraction G n0)%Q.
Proof.
  intros Hwf Hn. apply Qdiv_le_mono; [exact Hn |].
  apply Nat2Z.inj_le, largest_cc_size_removed, Hwf.
Qed.

Section Loop.
Variables (g : nat) (n0 : Z) (lcc0 : Q).

Let at_g (G : Graph node) (w : world node Self) : Prop := graphs w.2 !! g = Some G.

Lemma curves_inv_ok (G : Graph node) (seq : list node) fracs lccs :
  curves_inv G n0 lcc0 seq fracs lccs -> curves_ok lcc0 fracs lccs.
Proof.
  intros (_ & _ & Hlf & Hll & Hhf & Hhl & Hnd & Hni & _).
  repeat split; auto. congruence.
Qed.

Lemma curves_inv_step (G : Graph node) (v : node) frac lcc (seq : list node) fracs lccs :
  curves_inv G n0 lcc0 seq fracs lccs -> G <> [] ->
  (frac == inject_Z (Z.of_nat (length (seq ++ [v]))) / inject_Z n0)%Q ->
  (lcc == lcc_fraction (removed G v) n0)%Q ->
  curves_inv (removed G v) n0 lcc0 (seq ++ [v]) (fracs ++ [frac]) (lccs ++ [lcc]).
Proof.
  intros (Hwf & Hn & Hlf & Hll & Hhf & Hhl & Hnd & Hni & (f & Hf & Ef) & (l & Hl & El))
         Hne Efrac Elcc.
  destruct Hn as [Hn | Hn]; [| contradiction].
  repeat split.
  - apply wf_removed, Hwf.
  - apply wf_removed, Hwf.
  - left. exact Hn.
  - rewrite !length_app. simpl. lia.
  - rewrite !length_app. simpl. lia.
  - apply head_snoc, Hhf.
  - apply head_snoc, Hhl.
  - eapply nondecreasing_snoc; [exact Hnd | exact Hf |].
    rewrite Ef, Efrac. apply Qdiv_le_mono; [exact Hn |].
    rewrite length_app. simpl. lia.
  - eapply nonincreasing_snoc; [exact Hni | exact Hl |].
    rewrite El, Elcc. apply lcc_fraction_removed; assumption.
  - exists frac. split; [apply last_snoc | exact Efrac].
  - exists lcc. split; [apply last_snoc | exact Elcc].
Qed.

Lemma hoare_select (G : Graph node) :
  triple (at_g G) (on_self (fun self => select_node self G))
         (returns_unless blame
            (fun choice w => (well_behaved Self -> forall v, choice = Some v -> v ∈ nodes G)
                             /\ at_g G w)).
Proof.
  intros w Hw. unfold on_self.
  destruct (select_node w.1 G) as [o self'] eqn:E.
  destruct o as [choice | e |]; simpl.
  - split; [| exact Hw]. intros WB. destruct (WB w.1 G) as (c & s' & E' & Hc).
    rewrite E in E'. inversion E'; subst. exact Hc.
  - intros WB. destruct (WB w.1 G) as (c & s' & E' & Hc). congruence.
  - intros WB. destruct (WB w.1 G) as (c & s' & E' & Hc). congruence.
Qed.

Lemma attack_loop_spec steps : forall (G : Graph node) (seq : list node) fracs lccs,
  curves_inv G n0 lcc0 seq fracs lccs ->
  triple (at_g G) (attack_loop steps g n0 seq fracs lccs)
         (returns_unless blame (fun x _ => curves_ok lcc0 x.1.2 x.2)).
Proof.
  induction steps as [| steps IH]; intros G seq fracs lccs Hinv; simpl.
  - apply hoare_ret. intros _ _. eapply curves_inv_ok, Hinv.
  - eapply hoare_bind with (Q1 := fun G0 w => G0 = G /\ at_g G w).
    { intros w Hw. unfold read_graph, py_index, at_g in *. simpl. rewrite Hw.
      simpl. auto. }
    intros G0. apply hoare_pre. intros ->.
    destruct (Z.eqb_spec (number_of_nodes G) 0) as [Hz | Hnz].
    { apply hoare_ret. intros _ _. eapply curves_inv_ok, Hinv. }
    assert (G <> []) as Hne by (intros ->; apply Hnz; reflexivity).
    eapply hoare_bind; [apply hoare_select |].
    intros [v |]; apply hoare_pre; intros Hchoice;
      [| apply hoare_ret; intros _ _; eapply curves_inv_ok, Hinv].
    destruct (decide (v ∈ nodes G)) as [Hv | Hv].
    + assert (remove_node G v = Return (removed G v)) as Hrm.
      { unfold remove_node. destruct (decide (v ∈ nodes G)); [reflexivity | contradiction]. }
      eapply hoare_bind; [apply hoare_lift, Hrm |].
      intros G'. apply hoare_pre. intros ->.
      eapply hoare_bind with (Q1 := fun _ w => at_g (removed G v) w).
      { intros w Hw. unfold write_graph, at_g in *. simpl.
        apply list_lookup_insert_eq. apply lookup_lt_Some in Hw. exact Hw. }
      intros _.
      pose proof Hinv as (Hwf & Hn & Hrest). destruct Hn as [Hn | Hn]; [| contradiction].
      eapply hoare_bind; [apply hoare_lift, py_truediv_nonzero; lia |].
      intros frac. apply hoare_pre. intros ->.
      destruct (compute_lcc_ratio_returns (removed G v) n0 (or_introl Hn))
        as (lcc & Hlcc & Elcc).
      eapply hoare_bind; [apply hoare_lift, Hlcc |].
      intros lcc'. apply hoare_pre. intros ->.
      apply IH. apply curves_inv_step; [exact Hinv | exact Hne | reflexivity | exact Elcc].
    + intros w Hw. unfold bind, lift, remove_node.
      destruct (decide (v ∈ nodes G)); [contradiction |]. simpl.
      intros WB. apply Hv. eapply Hchoice; eauto.
Qed.
End Loop.
End AttackCurves.

Section ResultTotal.
Context {node : Type} `{EqDecision node}.

Lemma compute_r_res_returns (R : AttackResult node) :
  length (removal_fractions R) = length (lcc_values R) ->
  exists r, compute_r_res R = Return r.
Proof.
  intros Hlen. unfold compute_r_res.
  destruct (length (lcc_values R) <? 2)%nat; [eauto |].
  unfold np_trapezoid, np_mul, np_diff, np_pair_sums, np_asarray. cbv zeta.
  rewrite !length_zip_with, !length_tl, !length_map, Hlen, Nat.eqb_refl.
  cbn [obind]. eauto.
Qed.

Lemma find_collapse_from_returns (values fractions : list Q) (threshold : Q) :
  length fractions = length values ->
  forall rest k, (k + length rest = length values)%nat ->
  exists o, find_collapse_from values fractions threshold k rest = Return o.
Proof.
  intros Hlen. induction rest as [| lcc rest IH]; intros k Hk; simpl; [eauto |].
  simpl in Hk.
  destruct (lookup_lt_is_Some_2 fractions k) as [fc Hfc]; [lia |].
  destruct (Qltb lcc threshold); [| apply IH; lia].
  destruct (Nat.ltb_spec 0 k) as [Hpos | _].
  - destruct (lookup_lt_is_Some_2 values (k - 1)) as [vp Hvp]; [lia |].
    destruct (lookup_lt_is_Some_2 fractions (k - 1)) as [fp Hfp]; [lia |].
    rewrite (py_index_Some _ _ _ Hvp), (py_index_Some _ _ _ Hfp),
      (py_index_Some _ _ _ Hfc). simpl.
    destruct (negb (Qeq_bool vp lcc)); eauto.
  - rewrite (py_index_Some _ _ _ Hfc). simpl. eauto.
Qed.

Lemma find_collapse_point_returns (R : AttackResult node) (threshold : Q) :
  length (removal_fractions R) = length (lcc_values R) ->
  exists o, find_collapse_point R threshold = Return o.
Proof.
  intros Hlen. unfold find_collapse_point.
  apply find_collapse_from_returns; [exact Hlen | reflexivity].
Qed.
End ResultTotal.

Section AttackSpec.
Context {node : Type} `{EqDecision node}.
Context {Self : Type} `{BaseAttack (node:=node) Self}.
Variables (graph : nat) (G : Graph node) (budget : Z)
          (dataset_name graph_name : string) (collapse_threshold : Q).

Let blame : Prop := ~ (well_behaved Self).

Let has_result (r : nat) (R : AttackResult node) (w : world node Self) : Prop :=
  results w.2 !! r = Some R.

Lemma hoare_read_result r R :
  triple (has_result r R) (read_result r)
         (returns_unless blame (fun R' w => R' = R /\ has_result r R w)).
Proof.
  intros w Hw. unfold read_result, py_index, has_result in *. simpl.
  rewrite Hw. simpl. auto.
Qed.

Lemma hoare_update_result r R f :
  triple (has_result r R) (update_result r f)
         (returns_unless blame (fun _ w => has_result r (f R) w)).
Proof.
  intros w Hw. unfold update_result, has_result in *. rewrite Hw. simpl.
  apply list_lookup_insert_eq. apply lookup_lt_Some in Hw. exact Hw.
Qed.

(** The specification of BaseAttack.attack: unless the strategy
    misbehaves, it returns the reference of a result whose curves are as
    the loop built them, the first LCC ratio being |LCC(G)| / |V(G)|. *)
Lemma attack_spec : wf G ->
  triple (fun w : world node Self => graphs w.2 !! graph = Some G)
         (attack graph budget dataset_name graph_name collapse_threshold)
         (returns_unless blame
            (fun result w =>
               exists R lcc0,
                 results w.2 !! result = Some R /\
                 (lcc0 == lcc_fraction G (number_of_nodes G))%Q /\
                 curves_ok lcc0 (removal_fractions R) (lcc_values R))).
Proof.
  intros Hwf. unfold attack.
  eapply hoare_bind with (Q1 := fun G0 w => G0 = G /\ graphs w.2 !! graph = Some G).
  { intros w Hw. unfold read_graph, py_index. simpl. rewrite Hw. simpl. auto. }
  intros G0. apply hoare_pre. intros ->.
  eapply hoare_bind with (Q1 := fun g w => graphs w.2 !! g = Some G).
  { intros w Hw. unfold new_graph, copy. simpl.
    rewrite lookup_app_r by lia. rewrite Nat.sub_diag. reflexivity. }
  intros g.
  assert (0 < number_of_nodes G \/ G = []) as Hn.
  { unfold number_of_nodes. destruct G; [right; reflexivity | left; simpl; lia]. }
  destruct (compute_lcc_ratio_returns G _ Hn) as (lcc0 & Hlcc0 & Elcc0).
  eapply hoare_bind; [apply hoare_lift, Hlcc0 |].
  intros lcc. apply hoare_pre. intros ->.
  eapply hoare_bind.
  { apply (attack_loop_spec g (number_of_nodes G) lcc0).
    repeat split; auto; try apply Hwf.
    - intros i a b Ha Hb. destruct i; discriminate Hb.
    - intros i a b Ha Hb. destruct i; discriminate Hb.
    - exists 0%Q. split; [reflexivity |]. unfold Qdiv. simpl.
      rewrite Qmult_0_l. reflexivity.
    - exists lcc0. split; [reflexivity | exact Elcc0]. }
  intros [[seq fracs] lccs]. simpl fst. simpl snd.
  eapply hoare_bind with (Q1 := fun _ _ => curves_ok lcc0 fracs lccs).
  { intros w Hw. unfold on_self. simpl. exact Hw. }
  intros self.
  eapply hoare_bind with
    (Q1 := fun result w =>
             curves_ok lcc0 fracs lccs /\
             has_result result
               (mkAttackResult (name self) dataset_name graph_name seq fracs lccs
                  0%Q collapse_threshold None (number_of_nodes G)
                  (number_of_edges G) budget) w).
  { intros w Hw. unfold new_result, has_result. simpl. split; [exact Hw |].
    rewrite lookup_app_r by lia. rewrite Nat.sub_diag. reflexivity. }
  intros result. apply hoare_pre. intros Hok.
  eapply hoare_bind; [apply hoare_read_result |].
  intros R. apply hoare_pre. intros ->.
  match goal with
  | |- context [compute_r_res ?R0] =>
      destruct (compute_r_res_returns R0 (proj1 Hok)) as (r & Hr)
  end.
  eapply hoare_bind; [apply hoare_lift, Hr |].
  intros r'. apply hoare_pre. intros ->.
  eapply hoare_bind; [apply hoare_update_result |]. intros []; cbv beta.
  eapply hoare_bind; [apply hoare_read_result |].
  intros R1. apply hoare_pre. intros ->.
  match goal with
  | |- context [find_collapse_point ?R0 _] =>
      destruct (find_collapse_point_returns R0 collapse_threshold (proj1 Hok))
        as (c & Hc)
  end.
  eapply hoare_bind; [apply hoare_lift, Hc |].
  intros c'. apply hoare_pre. intros ->.
  eapply hoare_bind; [apply hoare_update_result |]. intros []; cbv beta.
  apply hoare_ret. intros w Hw. eexists _, lcc0.
  split; [exact Hw |]. split; [exact Elcc0 | exact Hok].
Qed.
End AttackSpec.

Section HdaBehaved.
Context {node : Type} `{EqDecision node}.

Lemma py_max_from_elem {A} (key : A -> Z) (xs : list A) : forall best,
  py_max_from key best xs ∈ best :: xs.
Proof.
  induction xs as [| x xs IH]; intros best; simpl; [left |].
  destruct (key best <? key x).
  - right. apply IH.
  - specialize (IH best). apply elem_of_cons in IH as [-> | IH]; [left | right; right; exact IH].
Qed.

Lemma first_in_graph_elem (ranking : list node) (G : Graph node) v :
  first_in_graph ranking G = Some v -> v ∈ nodes G.
Proof.
  induction ranking as [| n rest IH]; simpl; [discriminate |].
  unfold has_node. destruct (bool_decide_reflect (n ∈ nodes G)) as [Hin | _].
  - intros E. inversion E; subst. exact Hin.
  - exact IH.
Qed.

(** Both variants of the highest-degree strategy are well behaved. *)
Lemma hda_well_behaved : well_behaved (HighestDegreeAttack node).
Proof.
  intros self G. simpl select_node. unfold hda_select_node.
  destruct (number_of_nodes G =? 0).
  { exists None, self. split; [reflexivity | discriminate]. }
  destruct (recalculate self).
  - destruct (nodes G) as [| n ns] eqn:En.
    + exists None, self. split; [reflexivity | discriminate].
    + simpl. eexists _, self. split; [reflexivity |].
      intros v Hv. inversion Hv; subst. apply py_max_from_elem.
  - destruct (_initial_ranking self) as [ranking |].
    + eexists _, self. split; [reflexivity |]. intros v. apply first_in_graph_elem.
    + exists None, self. split; [reflexivity | discriminate].
Qed.
End HdaBehaved.

Lemma lcc_fraction_connected {node : Type} `{EqDecision node} (G : Graph node) :
  wf G -> is_connected G -> (lcc_fraction G (number_of_nodes G) == 1)%Q.
Proof.
  intros Hwf Hconn. unfold lcc_fraction, number_of_nodes.
  rewrite (largest_cc_size_connected G Hwf Hconn).
  apply Qmult_inv_r. destruct Hconn as [Hne _].
  destruct G; [contradiction |]. simpl length. intros Hc.
  apply (Qeq_bool_neq _ _) in Hc; [exact Hc |]. reflexivity.
Qed.

(** A graph with symmetric adjacency that is not connected has no
    component with all the nodes. *)
Lemma list_max_attained (l : list nat) : l <> [] -> list_max l ∈ l.
Proof.
  induction l as [| a l IH]; intros Hne; [contradiction |].
  cbn [list_max fold_right]. fold (list_max l).
  destruct l as [| b l].
  - cbn [list_max fold_right]. rewrite Nat.max_0_r. left.
  - destruct (Nat.max_spec a (list_max (b :: l))) as [[_ ->] | [_ ->]].
    + right. apply IH. discriminate.
    + left.
Qed.

Lemma rtc_symmetric {A} (R : relation A) :
  (forall x y, R x y -> R y x) -> forall x y, rtc R x y -> rtc R y x.
Proof.
  intros Hsym x y Hxy. induction Hxy as [| x y z Hxy _ IH]; [constructor |].
  eapply rtc_r; [exact IH | apply Hsym, Hxy].
Qed.

Lemma largest_cc_size_disconnected {node : Type} `{EqDecision node} (g : Graph node) :
  wf g -> undirected g -> g <> [] -> ~ is_connected g ->
  (largest_cc_size (connected_components g) < length g)%nat.
Proof.
  intros Hwf Hsym Hne Hnc.
  pose proof (largest_cc_size_le g Hwf) as Hle.
  destruct (Nat.eq_dec (largest_cc_size (connected_components g)) (length g))
    as [E | Hneq]; [| lia].
  exfalso. apply Hnc. split; [exact Hne |].
  assert (connected_components g <> []) as Hccs.
  { intros Hc. rewrite Hc in E. cbn in E. destruct g; [contradiction | discriminate]. }
  unfold largest_cc_size in E.
  assert (length g ∈ map length (connected_components g)) as Hin.
  { rewrite <- E. apply list_max_attained. intros Hc.
    apply map_eq_nil in Hc. contradiction. }
  apply list_elem_of_fmap in Hin as (c & Hlen & Hc).
  destruct (proj1 (connected_components_spec g Hwf) c Hc)
    as (r & Hr & Hnd & Hrc & Hreach & Hnodes & Hclosed).
  assert (forall x, x ∈ nodes g -> x ∈ c) as Hall.
  { intros x Hx.
    assert (c ≡ₚ nodes g) as Hperm.
    { apply submseteq_length_Permutation.
      - apply NoDup_submseteq; assumption.
      - rewrite length_nodes. lia. }
    rewrite Hperm. exact Hx. }
  intros u w Hu Hw.
  transitivity r.
  - apply (rtc_symmetric (edge g)); [| apply Hreach, Hall, Hu].
    intros x y Hxy. unfold edge in *. apply Hsym, Hxy.
  - apply Hreach, Hall, Hw.
Qed.

Lemma lcc_fraction_disconnected {node : Type} `{EqDecision node} (G : Graph node) :
  wf G -> undirected G -> G <> [] -> ~ is_connected G ->
  (lcc_fraction G (number_of_nodes G) < 1)%Q.
Proof.
  intros Hwf Hsym Hne Hnc.
  pose proof (largest_cc_size_disconnected G Hwf Hsym Hne Hnc) as Hlt.
  unfold lcc_fraction, number_of_nodes.
  assert (0 < inject_Z (Z.of_nat (length G)))%Q as Hn.
  { change 0%Q with (inject_Z 0). rewrite <- Zlt_Qlt. lia. }
  apply Qlt_shift_div_r; [exact Hn |]. rewrite Qmult_1_l, <- Zlt_Qlt. lia.
Qed.

(** ** The curves of a run *)

(** C7, as stated, fails: lcc_values[0] is 0.0 for the empty graph and 0.5
    for two isolated nodes, not 1.0. *)
Lemma first_lcc_value_not_one :
  (exists R, hda_result_on [] 1 = Some R /\ lcc_values R = [0%Q] /\ ~ (0 == 1)%Q) /\
  (exists R l, hda_result_on two_isolated 1 = Some R /\
               head (lcc_values R) = Some l /\ (l == 0.5)%Q /\ ~ (l == 1)%Q).
Proof.
  split.
  - eexists. split; [vm_compute; reflexivity |].
    split; [reflexivity | vm_compute; discriminate].
  - eexists _, _. split; [vm_compute; reflexivity |].
    split; [reflexivity |]. split; [vm_compute; reflexivity | vm_compute; discriminate].
Qed.

(** C7 (amended): for every graph G, budget and strategy, a result that
    BaseAttack.attack returns has removal_fractions[0] == 0.0 with
    removal_fractions non-decreasing, and lcc_values non-increasing with
    lcc_values[0] == |LCC(G)| / |V(G)|, which is 1.0 when G is connected,
    0.0 when G is empty and below 1.0 when G, an undirected graph with at
    least one node, is not connected.  The call does return whenever the
    strategy returns None or a node of the graph it is given, as both
    highest-degree variants do. *)
Theorem attack_curves_monotone
        {node : Type} `{EqDecision node} {Self : Type} `{BaseAttack (node:=node) Self}
        (graph : nat) (G : Graph node) (w : world node Self) (budget : Z)
        (dataset_name graph_name : string) (collapse_threshold : Q) :
  wf G -> graphs w.2 !! graph = Some G ->
  (well_behaved Self ->
   exists result w',
     attack graph budget dataset_name graph_name collapse_threshold w
     = (Return result, w')) /\
  (forall result w',
      attack graph budget dataset_name graph_name collapse_threshold w
      = (Return result, w') ->
      exists R lcc0,
        results w'.2 !! result = Some R /\
        length (removal_fractions R) = length (lcc_values R) /\
        head (removal_fractions R) = Some 0%Q /\
        nondecreasing (removal_fractions R) /\
        nonincreasing (lcc_values R) /\
        head (lcc_values R) = Some lcc0 /\
        (lcc0 == lcc_fraction G (number_of_nodes G))%Q /\
        (is_connected G -> (lcc0 == 1)%Q) /\
        (G = [] -> (lcc0 == 0)%Q) /\
        (undirected G -> G <> [] -> ~ is_connected G -> (lcc0 < 1)%Q)).
Proof.
  intros Hwf Hg.
  pose proof (attack_spec graph G budget dataset_name graph_name
                collapse_threshold Hwf w Hg) as Hspec.
  destruct (attack graph budget dataset_name graph_name collapse_threshold w)
    as [o w1] eqn:E.
  simpl in Hspec. split.
  - intros WB. destruct o as [result | e |]; simpl in Hspec;
      [eauto | contradiction | contradiction].
  - intros result w' Eq. inversion Eq; subst o w1. simpl in Hspec.
    destruct Hspec as (R & lcc0 & HR & Elcc & Hlen & Hhf & Hhl & Hnd & Hni).
    exists R, lcc0. repeat split; auto.
    + intros Hconn. rewrite Elcc. apply lcc_fraction_connected; assumption.
    + intros ->. rewrite Elcc. symmetry. apply lcc_fraction_empty.
    + intros Hsym Hne Hnc. rewrite Elcc. apply lcc_fraction_disconnected; assumption.
Qed.

Lemma path5_connected : is_connected path5.
Proof.
  split; [discriminate |].
  assert (forall u, u ∈ nodes path5 -> rtc (edge path5) 0 u /\ rtc (edge path5) u 0)
    as Hzero.
  { assert (forall a b, b ∈ adj path5 a -> edge path5 a b) as He by (intros; assumption).
    assert (edge path5 0 1 /\ edge path5 1 2 /\ edge path5 2 3 /\ edge path5 3 4 /\
            edge path5 1 0 /\ edge path5 2 1 /\ edge path5 3 2 /\ edge path5 4 3)
      as (E01 & E12 & E23 & E34 & E10 & E21 & E32 & E43).
    { unfold edge. vm_compute. repeat split; repeat constructor. }
    intros u Hu. vm_compute in Hu.
    repeat (apply elem_of_cons in Hu as [-> | Hu]); [| | | | | inversion Hu].
    - split; apply rtc_refl.
    - split; apply rtc_once; assumption.
    - split; [eapply rtc_l; [exact E01 |]; apply rtc_once; assumption
             | eapply rtc_l; [exact E21 |]; apply rtc_once; assumption].
    - split; [eapply rtc_l; [exact E01 |]; eapply rtc_l; [exact E12 |];
              apply rtc_once; assumption
             | eapply rtc_l; [exact E32 |]; eapply rtc_l; [exact E21 |];
               apply rtc_once; assumption].
    - split; [eapply rtc_l; [exact E01 |]; eapply rtc_l; [exact E12 |];
              eapply rtc_l; [exact E23 |]; apply rtc_once; assumption
             | eapply rtc_l; [exact E43 |]; eapply rtc_l; [exact E32 |];
               eapply rtc_l; [exact E21 |]; apply rtc_once; assumption]. }
  intros u v Hu Hv. transitivity 0; [apply Hzero, Hu | apply Hzero, Hv].
Qed.

Lemma path5_wf : wf path5.
Proof.
  vm_compute. split; repeat constructor;
    (intros Hc; repeat (apply elem_of_cons in Hc as [Hc | Hc]; [discriminate Hc |]);
     inversion Hc).
Qed.

Lemma attack_curves_monotone_witness :
  exists result w' R lcc0,
    attack 0%nat 2 "unknown" "unknown" (2 # 10) hda_path_world = (Return result, w') /\
    results w'.2 !! result = Some R /\
    nondecreasing (removal_fractions R) /\ nonincreasing (lcc_values R) /\
    head (lcc_values R) = Some lcc0 /\ (lcc0 == 1)%Q.
Proof.
  destruct (attack_curves_monotone 0%nat path5 hda_path_world 2
              "unknown" "unknown" (2 # 10) path5_wf eq_refl) as [Htotal Hpartial].
  destruct (Htotal hda_well_behaved) as (result & w' & E).
  destruct (Hpartial result w' E)
    as (R & lcc0 & HR & _ & _ & Hnd & Hni & Hhead & _ & Hone & _).
  exists result, w', R, lcc0. repeat split; auto.
  apply Hone, path5_connected.
Defined.

(** ** evaluate_dismant works on a copy as well *)

Section DismantFrame.
Context {node : Type} `{EqDecision node}.
Variables (graph : nat) (G : Graph node).

Let holds (st : store node) : Prop := graphs st !! graph = Some G.

Lemma dismant_loop_keeps g (Hne : g <> graph) attack_sequence :
  forall initial_nodes fracs lccs,
    keeps holds (dismant_loop attack_sequence g initial_nodes fracs lccs).
Proof.
  induction attack_sequence as [| v rest IH]; intros initial_nodes fracs lccs; simpl.
  - apply keeps_ret.
  - apply keeps_bind; [intros st Hst; exact Hst |]. intros G0.
    apply keeps_bind.
    { destruct (has_node G0 v); [| apply keeps_ret].
      apply keeps_bind; [apply keeps_lift |]. intros G'.
      apply keeps_bind; [| intros _; apply keeps_ret].
      intros st Hst. unfold holds, store_write_graph. simpl.
      rewrite list_lookup_insert_ne by exact Hne. exact Hst. }
    intros G'.
    apply keeps_bind; [apply keeps_lift |]. intros frac.
    apply keeps_bind; [apply keeps_lift |]. intros lcc.
    apply IH.
Qed.

(** After evaluate_dismant, whatever its outcome, the caller's graph object
    holds the graph it held before. *)
Lemma evaluate_dismant_leaves_graph_unchanged
      (self : UnifiedEvaluator) (attack_sequence : list node)
      (method_name graph_name : string) (st : store node) :
  graphs st !! graph = Some G ->
  graphs (evaluate_dismant self graph attack_sequence method_name graph_name st).2
    !! graph = Some G.
Proof.
  revert st. change (keeps holds (evaluate_dismant self graph attack_sequence
                                                        method_name graph_name)).
  unfold evaluate_dismant.
  apply keeps_bind; [intros st Hst; exact Hst |]. intros G0.
  apply keeps_bind_val with (phi := fun g => g <> graph).
  { intros st Hst. unfold holds, store_new_graph in *. simpl.
    apply lookup_lt_Some in Hst as Hlt.
    split; [rewrite lookup_app_l by exact Hlt; exact Hst |].
    intros a Ea. inversion Ea; subst a. lia. }
  intros g Hne.
  apply keeps_bind; [apply keeps_lift |]. intros lcc0.
  apply keeps_bind; [apply dismant_loop_keeps, Hne |]. intros [fracs lccs].
  apply keeps_bind; [apply keeps_lift |]. intros r.
  apply keeps_bind; [apply keeps_lift |]. intros c.
  apply keeps_ret.
Qed.
End DismantFrame.

(** ** The averaged result aliases the first run, whatever the input *)

Section Aliasing.
Context {node : Type} `{EqDecision node}.
Context {Self : Type} `{SeededAttack (node:=node) Self}.

Lemma hoare_any {A} (P : world node Self -> Prop) (m : M (world node Self) A) :
  triple P m (returns_unless True (fun _ _ => True)).
Proof. intros w _. destruct (m w).1; exact I. Qed.

Lemma hoare_update_next r (f : AttackResult node -> AttackResult node)
      (phi : AttackResult node -> Prop) :
  (forall R, phi R -> phi (f R)) ->
  triple (fun w : world node Self => exists R, results w.2 !! r = Some R /\ phi R)
         (update_result r f)
         (returns_unless True
            (fun _ w => exists R, results w.2 !! r = Some R /\ phi R)).
Proof.
  intros Hf w (R & HR & Hphi). unfold update_result. rewrite HR. simpl.
  exists (f R). split; [| apply Hf, Hphi].
  apply list_lookup_insert_eq. apply lookup_lt_Some in HR. exact HR.
Qed.

(** Whenever attack_multiple_runs returns, its "average_result" is the very
    object "all_results"[0], and that object now carries the name of the
    average and the caller's graph name. *)
Lemma average_result_is_first_run
      (graph : nat) (budget num_runs : Z) (dataset_name graph_name : string)
      (collapse_threshold : Q) (w w' : world node Self) (d : MultiRun) :
  attack_multiple_runs graph budget num_runs dataset_name graph_name
                       collapse_threshold w = (Return d, w') ->
  all_results d !! 0%nat = Some (average_result d) /\
  exists R, results w'.2 !! average_result d = Some R /\
            algorithm_name R = ("RandomAttack_avg" ++ str num_runs)%string.
Proof.
  intros Hrun.
  assert (triple (fun _ : world node Self => True)
            (attack_multiple_runs graph budget num_runs dataset_name graph_name
                                  collapse_threshold)
            (returns_unless True
               (fun d w' =>
                  all_results d !! 0%nat = Some (average_result d) /\
                  exists R, results w'.2 !! average_result d = Some R /\
                            algorithm_name R
                            = ("RandomAttack_avg" ++ str num_runs)%string)))
    as Hspec.
  { unfold attack_multiple_runs.
    eapply hoare_bind; [apply hoare_any |]. intros [[[rs curves] rr] cs]. cbv beta.
    eapply hoare_bind; [apply hoare_any |]. intros max_len. cbv beta.
    eapply hoare_bind; [apply hoare_any |]. intros padded. cbv beta.
    eapply hoare_bind with (Q1 := fun avg _ => rs !! 0%nat = Some avg).
    { intros w0 _. unfold lift, py_index. destruct (rs !! 0%nat); simpl; auto. }
    intros avg. apply hoare_pre_const. intros Havg.
    eapply hoare_bind with
      (Q1 := fun _ w0 => exists R, results w0.2 !! avg = Some R /\
                                   algorithm_name R
                                   = ("RandomAttack_avg" ++ str num_runs)%string).
    { intros w0 _. unfold update_result.
      destruct (results w0.2 !! avg) as [R |] eqn:E; simpl; [| exact I].
      apply lookup_lt_Some in E as Hlt.
      eexists. split; [apply list_lookup_insert_eq, Hlt | reflexivity]. }
    intros [].
    eapply hoare_bind; [apply hoare_update_next; auto |]. intros [].
    eapply hoare_bind; [apply hoare_update_next; auto |]. intros [].
    eapply hoare_bind; [apply hoare_update_next; auto |]. intros [].
    eapply hoare_bind; [apply hoare_update_next; auto |]. intros [].
    apply hoare_ret. intros w0 Hw0. simpl. split; [exact Havg | exact Hw0]. }
  specialize (Hspec w I). rewrite Hrun in Hspec. exact Hspec.
Qed.
End Aliasing.

(** * Further properties of the code *)

Section Refinement.
Context {node : Type} `{EqDecision node}.
Context {Self : Type} `{BaseAttack (node:=node) Self}.

(** The loop of BaseAttack.attack rewrites the working copy in the store
    exactly as [attack_steps] transforms its value. *)
Lemma attack_loop_steps (g : nat) (n0 : Z) steps :
  forall (self : Self) (st : store node) (G : Graph node) seq fracs lccs,
    graphs st !! g = Some G ->
    attack_loop steps g n0 seq fracs lccs (self, st)
    = let r := attack_steps steps self G n0 seq fracs lccs in
      (r.1.1, (r.1.2, mkStore (<[g:=r.2]> (graphs st)) (results st))).
Proof.
  induction steps as [| steps IH]; intros self st G seq fracs lccs Hg.
  - simpl. unfold ret. rewrite list_insert_id by exact Hg. destruct st; reflexivity.
  - cbn [attack_loop attack_steps]. unfold bind at 1, read_graph at 1, py_index.
    cbn [fst snd]. rewrite Hg.
    assert ((self, mkStore (<[g:=G]> (graphs st)) (results st)) = (self, st)) as Hid.
    { rewrite list_insert_id by exact Hg. destruct st; reflexivity. }
    destruct (number_of_nodes G =? 0).
    { unfold ret. cbn. rewrite list_insert_id by exact Hg. destruct st; reflexivity. }
    unfold bind at 1, on_self at 1. cbn [fst snd].
    destruct (select_node self G) as [[[v |] | e |] self'];
      try (cbn; rewrite list_insert_id by exact Hg; destruct st; reflexivity).
    unfold bind at 1, lift at 1.
    destruct (remove_node G v) as [G' | e |];
      try (cbn; rewrite list_insert_id by exact Hg; destruct st; reflexivity).
    unfold bind at 1, write_graph at 1. cbn [fst snd graphs results].
    unfold bind at 1, lift at 1.
    destruct (py_truediv _ n0) as [frac | e |]; try reflexivity.
    unfold bind at 1, lift at 1.
    destruct (_compute_lcc_ratio G' n0) as [lcc | e |]; try reflexivity.
    rewrite (IH self' _ G').
    + cbn [graphs results]. rewrite list_insert_insert_eq. reflexivity.
    + cbn [graphs]. apply list_lookup_insert_eq. apply lookup_lt_Some in Hg. exact Hg.
Qed.
End Refinement.

Section AttackRun.
Context {node : Type} `{EqDecision node}.
Context {Self : Type} `{BaseAttack (node:=node) Self}.

Lemma insert_snoc {A} (l : list A) (x y : A) :
  <[length l:=y]> (l ++ [x]) = l ++ [y].
Proof.
  rewrite insert_app_r_alt by lia. rewrite Nat.sub_diag. reflexivity.
Qed.

(** A call of BaseAttack.attack that returns has run [attack_steps] on
    the caller's graph and stored the finished result as a new object. *)
Lemma attack_run (graph : nat) (G : Graph node) (budget : Z)
      (dn gn : string) (thr : Q) (self : Self) (st : store node) r w' :
  graphs st !! graph = Some G ->
  attack graph budget dn gn thr (self, st) = (Return r, w') ->
  exists lcc0 seq fr lc self' G' rr c,
    _compute_lcc_ratio G (number_of_nodes G) = Return lcc0 /\
    attack_steps (Z.to_nat budget) self G (number_of_nodes G) [] [0%Q] [lcc0]
    = (Return (seq, fr, lc), self', G') /\
    compute_r_res (mkAttackResult (name self') dn gn seq fr lc 0%Q thr None
                     (number_of_nodes G) (number_of_edges G) budget) = Return rr /\
    find_collapse_from lc fr thr 0 lc = Return c /\
    r = length (results st) /\
    w' = (self', mkStore (graphs st ++ [G'])
                   (results st ++ [mkAttackResult (name self') dn gn seq fr lc rr
                      thr c (number_of_nodes G) (number_of_edges G) budget])).
Proof.
  intros Hg. unfold attack.
  unfold bind at 1, read_graph at 1, py_index. cbn [fst snd]. rewrite Hg.
  unfold bind at 1, new_graph at 1, copy. cbn [fst snd].
  unfold bind at 1, lift at 1.
  destruct (_compute_lcc_ratio G (number_of_nodes G)) as [lcc0 | e |]; try discriminate.
  unfold bind at 1.
  rewrite (attack_loop_steps _ _ _ _ _ G).
  2:{ cbn [graphs]. rewrite lookup_app_r by lia. rewrite Nat.sub_diag. reflexivity. }
  cbn [graphs results fst snd].
  destruct (attack_steps _ self G _ _ _ _) as [[o self'] G'] eqn:Hsteps.
  cbn [fst snd]. destruct o as [[[seq fr] lc] | e |]; try discriminate.
  rewrite insert_snoc.
  unfold bind at 1, on_self at 1. cbn [fst snd].
  unfold bind at 1, new_result at 1. cbn [fst snd graphs results].
  unfold bind at 1, read_result at 1, py_index. cbn [fst snd graphs results].
  rewrite lookup_app_r by lia. rewrite Nat.sub_diag. cbn [lookup list_lookup].
  unfold bind at 1, lift at 1.
  destruct (compute_r_res _) as [rr | e |] eqn:Hrr; try discriminate.
  unfold bind at 1, update_result at 1. cbn [fst snd graphs results].
  rewrite lookup_app_r by lia. rewrite Nat.sub_diag. cbn [lookup list_lookup].
  rewrite insert_snoc.
  unfold bind at 1, read_result at 1, py_index. cbn [fst snd graphs results].
  rewrite lookup_app_r by lia. rewrite Nat.sub_diag. cbn [lookup list_lookup].
  unfold bind at 1, lift at 1. unfold find_collapse_point, set_r_res.
  cbn [lcc_values removal_fractions].
  destruct (find_collapse_from lc fr thr 0 lc) as [c | e |] eqn:Hc; try discriminate.
  unfold bind at 1, update_result at 1. cbn [fst snd graphs results].
  rewrite lookup_app_r by lia. rewrite Nat.sub_diag. cbn [lookup list_lookup].
  rewrite insert_snoc. unfold ret. intros Heq. inversion Heq; subst. clear Heq.
  exists lcc0, seq, fr, lc, self', G', rr, c.
  repeat split; try assumption; reflexivity.
Qed.
End AttackRun.

Section StepsSpec.
Context {node : Type} `{EqDecision node}.
Context {Self : Type} `{BaseAttack (node:=node) Self}.

Lemma nodes_removed_subset (G : Graph node) (n v : node) :
  v ∈ nodes (removed G n) -> v ∈ nodes G /\ v <> n.
Proof.
  rewrite nodes_removed. rewrite list_elem_of_filter. tauto.
Qed.

Lemma wf_removed_all (vs : list node) : forall G : Graph node,
  wf G -> wf (removed_all G vs).
Proof.
  induction vs as [| v vs IH]; intros G Hwf; [exact Hwf |].
  apply IH, wf_removed, Hwf.
Qed.

(** What the loop of BaseAttack.attack has done when it returns: the
    nodes it appended are distinct nodes of the graph it started from,
    one per step at most, the working copy has lost exactly these, and
    every appended pair of curve values is the fraction removed so far and
    the LCC ratio of the graph at that step. *)
Lemma attack_steps_spec (n0 : Z) steps :
  forall (self : Self) (G : Graph node) seq fr lc seq' fr' lc' self' G',
    wf G -> 0 < n0 \/ G = [] ->
    attack_steps steps self G n0 seq fr lc = (Return (seq', fr', lc'), self', G') ->
    exists new fnew lnew,
      seq' = seq ++ new /\ fr' = fr ++ fnew /\ lc' = lc ++ lnew /\
      (length new <= steps)%nat /\
      length fnew = length new /\ length lnew = length new /\
      NoDup new /\ (forall v, v ∈ new -> v ∈ nodes G) /\
      G' = removed_all G new /\
      (forall i f, fnew !! i = Some f ->
         f = (inject_Z (Z.of_nat (length seq + S i)) / inject_Z n0)%Q) /\
      (forall i q, lnew !! i = Some q ->
         (q == lcc_fraction (removed_all G (take (S i) new)) n0)%Q).
Proof.
  induction steps as [| steps IH];
    intros self G seq fr lc seq' fr' lc' self' G' Hwf Hn Hrun.
  - cbn in Hrun. inversion Hrun; subst. exists [], [], [].
    rewrite !app_nil_r. repeat split; auto using NoDup_nil_2.
    + intros v Hv. inversion Hv.
    + intros i f Hf. destruct i; discriminate Hf.
    + intros i q Hq. destruct i; discriminate Hq.
  - cbn [attack_steps] in Hrun.
    assert (forall s0, (Return (seq, fr, lc), s0, G) = (Return (seq', fr', lc'), self', G') ->
      exists new fnew lnew,
      seq' = seq ++ new /\ fr' = fr ++ fnew /\ lc' = lc ++ lnew /\
      (length new <= S steps)%nat /\
      length fnew = length new /\ length lnew = length new /\
      NoDup new /\ (forall v, v ∈ new -> v ∈ nodes G) /\
      G' = removed_all G new /\
      (forall i f, fnew !! i = Some f ->
         f = (inject_Z (Z.of_nat (length seq + S i)) / inject_Z n0)%Q) /\
      (forall i q, lnew !! i = Some q ->
         (q == lcc_fraction (removed_all G (take (S i) new)) n0)%Q)) as Hstop.
    { intros s0 Heq. inversion Heq; subst. exists [], [], [].
      rewrite !app_nil_r. repeat split; auto using NoDup_nil_2; try (simpl; lia).
      - intros v Hv. inversion Hv.
      - intros i f Hf. destruct i; discriminate Hf.
      - intros i q Hq. destruct i; discriminate Hq. }
    destruct (number_of_nodes G =? 0) eqn:En; [eapply Hstop, Hrun |].
    destruct (select_node self G) as [[[v |] | e |] self1];
      try discriminate; [| eapply Hstop, Hrun].
    destruct (remove_node G v) as [G1 | e |] eqn:Erm; try discriminate.
    apply remove_node_Return in Erm as [Hv ->].
    assert (0 < n0) as Hn0.
    { destruct Hn as [Hn | ->]; [exact Hn | discriminate En]. }
    rewrite py_truediv_nonzero in Hrun by lia.
    destruct (compute_lcc_ratio_returns (removed G v) n0 (or_introl Hn0))
      as (q0 & Eq0 & Hq0).
    rewrite Eq0 in Hrun.
    apply IH in Hrun; [| apply wf_removed, Hwf | left; exact Hn0].
    destruct Hrun as (new & fnew & lnew & -> & -> & -> & Hlen & Hlf & Hll
                      & Hnd & Hsub & -> & Hf & Hl).
    exists (v :: new), ((inject_Z (Z.of_nat (length (seq ++ [v]))) / inject_Z n0)%Q :: fnew), (q0 :: lnew).
    rewrite <- !app_assoc. cbn [app length].
    repeat split; auto; try lia.
    + constructor; [| exact Hnd]. intros Hin.
      apply Hsub, nodes_removed_subset in Hin. tauto.
    + intros w Hw. apply elem_of_cons in Hw as [-> | Hw]; [exact Hv |].
      apply Hsub, nodes_removed_subset in Hw. tauto.
    + intros [| i] f Hfi.
      * cbn in Hfi. inversion Hfi. rewrite length_app. reflexivity.
      * cbn in Hfi. apply Hf in Hfi. subst f. do 3 f_equal.
        rewrite length_app. simpl. lia.
    + intros [| i] q Hqi.
      * cbn in Hqi. inversion Hqi; subst. exact Hq0.
      * cbn in Hqi. apply Hl in Hqi. exact Hqi.
Qed.
End StepsSpec.

(** * Binary64 arithmetic and numpy's sums *)

Section Binary64.
Local Open Scope Q_scope.

(** ** Rounding to the nearest integer *)

Lemma round_half_even_cases (q : Q) :
  (round_half_even q = Qfloor q /\ q - inject_Z (Qfloor q) <= 1 # 2) \/
  (round_half_even q = (Qfloor q + 1)%Z /\ 1 # 2 <= q - inject_Z (Qfloor q)).
Proof.
  unfold round_half_even. cbv zeta.
  destruct (Qcompare_spec (q - inject_Z (Qfloor q)) (1 # 2)) as [E | E | E].
  - destruct (Z.even (Qfloor q)).
    + left. split; [reflexivity | lra].
    + right. split; [reflexivity | lra].
  - left. split; [reflexivity | lra].
  - right. split; [reflexivity | lra].
Qed.

Lemma round_half_even_error (q : Q) :
  inject_Z (round_half_even q) - (1 # 2) <= q <= inject_Z (round_half_even q) + (1 # 2).
Proof.
  pose proof (Qfloor_le q) as Hlo. pose proof (Qlt_floor q) as Hhi.
  rewrite inject_Z_plus in Hhi. change (inject_Z 1) with 1 in Hhi.
  destruct (round_half_even_cases q) as [[-> H] | [-> H]].
  - split; lra.
  - rewrite inject_Z_plus. change (inject_Z 1) with 1. split; lra.
Qed.

Lemma round_half_even_mono (q1 q2 : Q) :
  q1 <= q2 -> (round_half_even q1 <= round_half_even q2)%Z.
Proof.
  intros Hle. pose proof (Qfloor_resp_le _ _ Hle) as Hf.
  destruct (Z.eq_dec (Qfloor q1) (Qfloor q2)) as [E | Hne].
  - unfold round_half_even. cbv zeta. rewrite <- E.
    destruct (Qcompare_spec (q1 - inject_Z (Qfloor q1)) (1 # 2)) as [E1 | E1 | E1];
      destruct (Qcompare_spec (q2 - inject_Z (Qfloor q1)) (1 # 2)) as [E2 | E2 | E2];
      try (exfalso; lra); destruct (Z.even (Qfloor q1)); lia.
  - destruct (round_half_even_cases q1) as [[-> _] | [-> _]];
      destruct (round_half_even_cases q2) as [[-> _] | [-> _]]; lia.
Qed.

Lemma round_half_even_Z (n : Z) : round_half_even (inject_Z n) = n.
Proof.
  unfold round_half_even. cbv zeta. rewrite Qfloor_Z.
  destruct (Qcompare_spec (inject_Z n - inject_Z n) (1 # 2)) as [E | E | E];
    [exfalso; lra | reflexivity | exfalso; lra].
Qed.

#[global] Instance round_half_even_comp : Proper (Qeq ==> eq) round_half_even.
Proof.
  intros q1 q2 E. unfold round_half_even. cbv zeta.
  rewrite (Qfloor_comp _ _ E).
  assert (q1 - inject_Z (Qfloor q2) == q2 - inject_Z (Qfloor q2)) as E' by (rewrite E; reflexivity).
  rewrite (Qcompare_comp _ _ E' (1 # 2) (1 # 2) ltac:(reflexivity)). reflexivity.
Qed.

Lemma round_half_even_nonneg (q : Q) : 0 <= q -> (0 <= round_half_even q)%Z.
Proof.
  intros Hq. rewrite <- (round_half_even_Z 0). apply round_half_even_mono. exact Hq.
Qed.

(** ** Powers of two *)

Lemma pow2_pos (e : Z) : 0 < 2 ^ e.
Proof. apply Qpower_0_lt. reflexivity. Qed.

Lemma pow2_plus (a b : Z) : 2 ^ (a + b) == 2 ^ a * 2 ^ b.
Proof. apply Qpower_plus. discriminate. Qed.

Lemma pow2_le (a b : Z) : (a <= b)%Z -> 2 ^ a <= 2 ^ b.
Proof. intros H. apply Qpower_le_compat_l; [exact H | discriminate]. Qed.

Lemma pow2_lt_inv (a b : Z) : 2 ^ a < 2 ^ b -> (a < b)%Z.
Proof. intros H. apply (Qpower_lt_compat_l_inv 2); [exact H | reflexivity]. Qed.

Lemma pow2_Z (n : Z) : (0 <= n)%Z -> inject_Z (2 ^ n) == 2 ^ n.
Proof. intros H. rewrite Zpower_Qpower by exact H. reflexivity. Qed.

Lemma pow2_succ (a : Z) : 2 ^ (a + 1) == 2 * 2 ^ a.
Proof. rewrite pow2_plus. change (2 ^ 1) with 2. ring. Qed.

(** ** The binary logarithm *)

Lemma ilog2_spec (q : Q) : 0 < q -> 2 ^ ilog2 q <= q /\ q < 2 ^ (ilog2 q + 1).
Proof.
  intros Hq. destruct q as [a b]. unfold ilog2. cbn [Qnum Qden].
  assert (0 < a)%Z as Ha by (unfold Qlt in Hq; cbn in Hq; lia).
  pose proof (Z.log2_spec a Ha) as [Ha1 Ha2].
  pose proof (Z.log2_spec (Zpos b) ltac:(lia)) as [Hb1 Hb2].
  pose proof (Z.log2_nonneg a) as Hla. pose proof (Z.log2_nonneg (Zpos b)) as Hlb.
  set (la := Z.log2 a) in *. set (lb := Z.log2 (Zpos b)) in *.
  assert (a # b == inject_Z a / inject_Z (Zpos b)) as Eq by apply Qmake_Qdiv.
  assert (0 < inject_Z (Zpos b)) as HB by reflexivity.
  assert (inject_Z (2 ^ la) <= inject_Z a) as A1 by (rewrite <- Zle_Qle; exact Ha1).
  assert (inject_Z a < inject_Z (2 ^ Z.succ la)) as A2 by (rewrite <- Zlt_Qlt; exact Ha2).
  assert (inject_Z (2 ^ lb) <= inject_Z (Zpos b)) as B1 by (rewrite <- Zle_Qle; exact Hb1).
  assert (inject_Z (Zpos b) < inject_Z (2 ^ Z.succ lb)) as B2 by (rewrite <- Zlt_Qlt; exact Hb2).
  rewrite pow2_Z in A1, A2, B1, B2 by lia.
  unfold Z.succ in A2, B2.
  set (A := inject_Z a) in *. set (B := inject_Z (Zpos b)) in *.
  assert ((a # b) * B == A) as Eprod by (rewrite Eq; field; lra).
  pose proof (pow2_pos (la - lb)) as Hk. pose proof (pow2_pos (la - lb - 1)) as Hk1.
  assert ((a # b) < 2 ^ (la - lb + 1)) as Hupper.
  { apply (Qmult_lt_r _ _ B HB). rewrite Eprod.
    assert (2 ^ (la - lb + 1) * 2 ^ lb == 2 ^ (la + 1)) as E1
        by (rewrite <- pow2_plus; f_equiv; lia).
    assert (2 ^ (la - lb + 1) * 2 ^ lb <= 2 ^ (la - lb + 1) * B) as E2.
    { apply Qmult_le_l; [apply pow2_pos | exact B1]. }
    lra. }
  assert (2 ^ (la - lb - 1) <= (a # b)) as Hlower.
  { apply (Qmult_le_r _ _ B HB). rewrite Eprod.
    assert (2 ^ (la - lb - 1) * 2 ^ (lb + 1) == 2 ^ la) as E1
        by (rewrite <- pow2_plus; f_equiv; lia).
    assert (2 ^ (la - lb - 1) * B <= 2 ^ (la - lb - 1) * 2 ^ (lb + 1)) as E2.
    { apply Qmult_le_l; [apply pow2_pos | lra]. }
    lra. }
  destruct (Qle_bool (2 ^ (la - lb)) (a # b)) eqn:E.
  - apply Qle_bool_iff in E. split; [exact E | exact Hupper].
  - split; [exact Hlower |].
    replace (la - lb - 1 + 1)%Z with (la - lb)%Z by lia.
    apply Qnot_le_lt. intros Hc. apply Qle_bool_iff in Hc. congruence.
Qed.

Lemma ilog2_unique (q : Q) (m : Z) : 2 ^ m <= q -> q < 2 ^ (m + 1) -> ilog2 q = m.
Proof.
  intros H1 H2. assert (0 < q) as Hq by (pose proof (pow2_pos m); lra).
  destruct (ilog2_spec q Hq) as [H3 H4].
  assert (2 ^ m < 2 ^ (ilog2 q + 1)) as Ha by lra.
  assert (2 ^ ilog2 q < 2 ^ (m + 1)) as Hb by lra.
  apply pow2_lt_inv in Ha, Hb. lia.
Qed.

Lemma ilog2_comp (q1 q2 : Q) : 0 < q1 -> q1 == q2 -> ilog2 q1 = ilog2 q2.
Proof.
  intros Hq E. symmetry. destruct (ilog2_spec q1 Hq) as [H1 H2].
  apply ilog2_unique; rewrite <- E; assumption.
Qed.

Lemma ilog2_mono (q1 q2 : Q) : 0 < q1 -> q1 <= q2 -> (ilog2 q1 <= ilog2 q2)%Z.
Proof.
  intros Hq Hle. destruct (ilog2_spec q1 Hq) as [H1 _].
  destruct (ilog2_spec q2 ltac:(lra)) as [_ H2].
  assert (2 ^ ilog2 q1 < 2 ^ (ilog2 q2 + 1)) as H by lra.
  apply pow2_lt_inv in H. lia.
Qed.

(** ** Rounding to binary64 *)

Lemma Qabs_pos_nonzero (q : Q) : ~ q == 0 -> 0 < Qabs q.
Proof.
  intros Hq. apply Qabs_case; intros H.
  - destruct (Qlt_le_dec 0 q) as [Hlt | Hle]; [exact Hlt |].
    exfalso. apply Hq. lra.
  - destruct (Qlt_le_dec 0 (- q)) as [Hlt | Hle]; [exact Hlt |].
    exfalso. apply Hq. lra.
Qed.

Lemma Qabs_of_pos (q : Q) : 0 <= q -> Qabs q == q.
Proof. intros H. rewrite Qabs_pos by exact H. reflexivity. Qed.

Lemma binary64_zero (q : Q) : q == 0 -> binary64 q = 0.
Proof.
  intros E. unfold binary64. rewrite (proj2 (Qeq_bool_iff q 0) E). reflexivity.
Qed.

Lemma binary64_nonzero (q : Q) :
  ~ q == 0 ->
  binary64 q == inject_Z (round_half_even (q / 2 ^ ulp_exponent q)) * 2 ^ ulp_exponent q.
Proof.
  intros Hq. unfold binary64. destruct (Qeq_bool q 0) eqn:E.
  - apply Qeq_bool_iff in E. contradiction.
  - cbv zeta. apply Qred_correct.
Qed.

Lemma ulp_exponent_comp (q1 q2 : Q) :
  ~ q1 == 0 -> q1 == q2 -> ulp_exponent q1 = ulp_exponent q2.
Proof.
  intros Hq E. unfold ulp_exponent. do 2 f_equal.
  apply ilog2_comp; [apply Qabs_pos_nonzero, Hq | rewrite E; reflexivity].
Qed.

#[global] Instance binary64_comp : Proper (Qeq ==> eq) binary64.
Proof.
  intros q1 q2 E. unfold binary64.
  destruct (Qeq_bool q1 0) eqn:E1.
  - apply Qeq_bool_iff in E1. rewrite (proj2 (Qeq_bool_iff q2 0)) by lra.
    reflexivity.
  - assert (~ q1 == 0) as Hq
        by (intros Hc; apply Qeq_bool_iff in Hc; congruence).
    destruct (Qeq_bool q2 0) eqn:E2.
    + apply Qeq_bool_iff in E2. exfalso. apply Hq. lra.
    + cbv zeta. apply Qred_complete.
      rewrite <- (ulp_exponent_comp q1 q2 Hq E).
      assert (q1 / 2 ^ ulp_exponent q1 == q2 / 2 ^ ulp_exponent q1) as Ex
          by (unfold Qdiv; apply Qmult_comp; [exact E | reflexivity]).
      rewrite (round_half_even_comp _ _ Ex). reflexivity.
Qed.

Lemma binary64_nonneg (q : Q) : 0 <= q -> 0 <= binary64 q.
Proof.
  intros Hq. destruct (Qeq_dec q 0) as [E | Hne].
  - rewrite (binary64_zero q E). apply Qle_refl.
  - rewrite (binary64_nonzero q Hne).
    pose proof (pow2_pos (ulp_exponent q)) as He.
    apply Qmult_le_0_compat; [| lra].
    change 0 with (inject_Z 0). rewrite <- Zle_Qle.
    apply round_half_even_nonneg. apply Qle_shift_div_l; lra.
Qed.

(** The unit in the last place is at most 2^-52 times the number, or the
    smallest subnormal. *)
Lemma pow2_ulp_exponent (q : Q) :
  0 < q -> 2 ^ ulp_exponent q <= q * 2 ^ (-52) + 2 ^ (-1074).
Proof.
  intros Hq. unfold ulp_exponent.
  assert (Qabs q == q) as Ea by (apply Qabs_of_pos; lra).
  rewrite (ilog2_comp (Qabs q) q) by first [exact Ea | lra].
  destruct (ilog2_spec q Hq) as [Hl _].
  pose proof (pow2_pos (-52)) as H52. pose proof (pow2_pos (-1074)) as H1074.
  destruct (Z.max_spec (ilog2 q - 52) (-1074)) as [[_ ->] | [_ ->]].
  - assert (0 <= q * 2 ^ (-52)) by (apply Qmult_le_0_compat; lra). lra.
  - replace (ilog2 q - 52)%Z with (ilog2 q + -52)%Z by lia.
    rewrite pow2_plus.
    assert (2 ^ ilog2 q * 2 ^ (-52) <= q * 2 ^ (-52))
      by (apply Qmult_le_r; [exact H52 | exact Hl]).
    lra.
Qed.

Lemma unit_roundoff_pos : 0 < unit_roundoff.
Proof. apply pow2_pos. Qed.

Lemma half_subnormal_pos : 0 < half_subnormal.
Proof. apply pow2_pos. Qed.

(** The standard model of rounding, with gradual underflow. *)
Lemma binary64_error (q : Q) :
  0 <= q ->
  q - (q * unit_roundoff + half_subnormal) <= binary64 q
  /\ binary64 q <= q + (q * unit_roundoff + half_subnormal).
Proof.
  intros Hq. pose proof unit_roundoff_pos as Hu. pose proof half_subnormal_pos as Heta.
  destruct (Qeq_dec q 0) as [E | Hne].
  - rewrite (binary64_zero q E). rewrite E. split; lra.
  - assert (0 < q) as Hpos by (destruct (Qlt_le_dec 0 q); [assumption | exfalso; apply Hne; lra]).
    rewrite (binary64_nonzero q Hne).
    set (e := ulp_exponent q). pose proof (pow2_pos e) as He.
    pose proof (round_half_even_error (q / 2 ^ e)) as [Hlo Hhi].
    set (r := inject_Z (round_half_even (q / 2 ^ e))) in *.
    assert (q == q / 2 ^ e * 2 ^ e) as Eq by (field; lra).
    assert ((r - (1 # 2)) * 2 ^ e <= q / 2 ^ e * 2 ^ e) as H1
        by (apply Qmult_le_r; [exact He | exact Hlo]).
    assert (q / 2 ^ e * 2 ^ e <= (r + (1 # 2)) * 2 ^ e) as H2
        by (apply Qmult_le_r; [exact He | exact Hhi]).
    rewrite <- Eq in H1, H2.
    pose proof (pow2_ulp_exponent q Hpos) as Hulp. fold e in Hulp.
    assert (2 ^ (-52) == 2 * unit_roundoff) as E52
        by (unfold unit_roundoff; rewrite <- pow2_succ; reflexivity).
    assert (2 ^ (-1074) == 2 * half_subnormal) as E1074
        by (unfold half_subnormal; rewrite <- pow2_succ; reflexivity).
    rewrite E52, E1074 in Hulp.
    assert ((r - (1 # 2)) * 2 ^ e == r * 2 ^ e - (1 # 2) * 2 ^ e) as E1 by ring.
    assert ((r + (1 # 2)) * 2 ^ e == r * 2 ^ e + (1 # 2) * 2 ^ e) as E2 by ring.
    rewrite E1 in H1. rewrite E2 in H2.
    assert (q * (2 * unit_roundoff) == 2 * (q * unit_roundoff)) as E3 by ring.
    rewrite E3 in Hulp.
    split; lra.
Qed.

Lemma binary64_upper (q : Q) :
  0 <= q -> binary64 q <= q * (1 + unit_roundoff) + half_subnormal.
Proof.
  intros Hq. destruct (binary64_error q Hq) as [_ H].
  assert (q * (1 + unit_roundoff) == q + q * unit_roundoff) as E by ring.
  rewrite E. lra.
Qed.

Lemma binary64_mono (q1 q2 : Q) : 0 <= q1 -> q1 <= q2 -> binary64 q1 <= binary64 q2.
Proof.
  intros H1 Hle. destruct (Qeq_dec q1 0) as [E | Hne1].
  { rewrite (binary64_zero q1 E). apply binary64_nonneg. lra. }
  assert (0 < q1) as Hp1 by (destruct (Qlt_le_dec 0 q1); [assumption | exfalso; apply Hne1; lra]).
  assert (0 < q2) as Hp2 by lra.
  assert (~ q2 == 0) as Hne2 by lra.
  rewrite (binary64_nonzero q1 Hne1), (binary64_nonzero q2 Hne2).
  assert (ulp_exponent q1 = Z.max (ilog2 q1 - 52) (-1074)) as Ee1.
  { pose proof (Qabs_of_pos q1 H1) as Ea.
    unfold ulp_exponent. rewrite (ilog2_comp (Qabs q1) q1) by first [exact Ea | lra].
    reflexivity. }
  assert (ulp_exponent q2 = Z.max (ilog2 q2 - 52) (-1074)) as Ee2.
  { pose proof (Qabs_of_pos q2 ltac:(lra)) as Ea.
    unfold ulp_exponent. rewrite (ilog2_comp (Qabs q2) q2) by first [exact Ea | lra].
    reflexivity. }
  pose proof (ilog2_mono q1 q2 Hp1 Hle) as Hl.
  destruct (ilog2_spec q1 Hp1) as [_ Hq1]. destruct (ilog2_spec q2 Hp2) as [Hq2 _].
  set (l1 := ilog2 q1) in *. set (l2 := ilog2 q2) in *.
  set (e1 := ulp_exponent q1) in *. set (e2 := ulp_exponent q2) in *.
  pose proof (pow2_pos e1) as He1. pose proof (pow2_pos e2) as He2.
  destruct (Z.eq_dec e1 e2) as [Ee | Hne].
  - rewrite <- Ee. apply Qmult_le_r; [exact He1 |].
    rewrite <- Zle_Qle. apply round_half_even_mono.
    apply Qmult_le_r; [apply Qinv_lt_0_compat; exact He1 | exact Hle].
  - assert (e1 < e2)%Z as Hlt by lia.
    assert (e2 = l2 - 52)%Z as Ee2' by lia.
    set (c := Z.max (l1 + 1) e1).
    assert (inject_Z (round_half_even (q1 / 2 ^ e1)) * 2 ^ e1 <= 2 ^ c) as Hup.
    { assert (2 ^ c == inject_Z (2 ^ (c - e1)) * 2 ^ e1) as ->.
      { rewrite pow2_Z by lia. rewrite <- pow2_plus. f_equiv. lia. }
      apply Qmult_le_r; [exact He1 |].
      rewrite <- Zle_Qle.
      rewrite <- (round_half_even_Z (2 ^ (c - e1))).
      apply round_half_even_mono. rewrite pow2_Z by lia.
      apply Qle_shift_div_r; [exact He1 |].
      rewrite <- pow2_plus. replace (c - e1 + e1)%Z with c by lia.
      assert (2 ^ (l1 + 1) <= 2 ^ c) by (apply pow2_le; lia). lra. }
    assert (2 ^ l2 <= inject_Z (round_half_even (q2 / 2 ^ e2)) * 2 ^ e2) as Hlow.
    { assert (2 ^ l2 == inject_Z (2 ^ 52) * 2 ^ e2) as ->.
      { rewrite pow2_Z by lia. rewrite <- pow2_plus. f_equiv. lia. }
      apply Qmult_le_r; [exact He2 |].
      rewrite <- Zle_Qle.
      rewrite <- (round_half_even_Z (2 ^ 52)) at 1.
      apply round_half_even_mono. rewrite pow2_Z by lia.
      apply Qle_shift_div_l; [exact He2 |].
      rewrite <- pow2_plus. replace (52 + e2)%Z with l2 by lia. exact Hq2. }
    assert (2 ^ c <= 2 ^ l2) by (apply pow2_le; lia).
    lra.
Qed.

(** ** Exact sums *)

Lemma Qsum_from (l : list Q) : forall a, (fold_left Qplus l a == a + Qsum l)%Q.
Proof.
  unfold Qsum. induction l as [| x l IH]; intros a; simpl.
  - lra.
  - rewrite IH. rewrite (IH (0 + x)%Q). lra.
Qed.

Lemma Qsum_cons (x : Q) (l : list Q) : (Qsum (x :: l) == x + Qsum l)%Q.
Proof. unfold Qsum at 1. simpl. rewrite Qsum_from. lra. Qed.

Lemma Qsum_nil : Qsum [] == 0.
Proof. reflexivity. Qed.

Lemma Qsum_app (l1 l2 : list Q) : Qsum (l1 ++ l2) == Qsum l1 + Qsum l2.
Proof.
  induction l1 as [| x l1 IH]; cbn [app].
  - change (Qsum []) with 0. lra.
  - rewrite !Qsum_cons, IH. lra.
Qed.

Lemma Qsum_take_drop (k : nat) (l : list Q) : Qsum (take k l) + Qsum (drop k l) == Qsum l.
Proof. rewrite <- Qsum_app, take_drop. reflexivity. Qed.

Lemma Qsum_nonneg (l : list Q) : Forall (Qle 0) l -> 0 <= Qsum l.
Proof.
  induction 1 as [| x l Hx _ IH]; [change (Qsum []) with 0; lra |].
  rewrite Qsum_cons. lra.
Qed.

Lemma Qsum_zip_plus (l1 : list Q) : forall l2,
  length l1 = length l2 -> Qsum (zip_with Qplus l1 l2) == Qsum l1 + Qsum l2.
Proof.
  induction l1 as [| x l1 IH]; intros [| y l2] Hlen; try discriminate.
  - cbn [zip_with]. change (Qsum []) with 0. lra.
  - cbn [zip_with]. rewrite !Qsum_cons, IH by (cbn in Hlen; lia). lra.
Qed.

(** ** Powers of 1 + 2^-53 *)

Lemma upow_ge_1 (m : nat) : 1 <= upow m.
Proof.
  pose proof unit_roundoff_pos as Hu.
  induction m as [| m IH]; cbn [upow]; [lra |].
  assert (0 <= (upow m - 1) * (1 + unit_roundoff)) as H
      by (apply Qmult_le_0_compat; lra).
  assert ((upow m - 1) * (1 + unit_roundoff)
          == upow m * (1 + unit_roundoff) - (1 + unit_roundoff)) as E by ring.
  rewrite E in H. lra.
Qed.

Lemma upow_S_le (m : nat) : upow m <= upow (S m).
Proof.
  pose proof unit_roundoff_pos as Hu. pose proof (upow_ge_1 m) as H1.
  cbn [upow].
  assert (0 <= upow m * unit_roundoff) by (apply Qmult_le_0_compat; lra).
  assert (upow m * (1 + unit_roundoff) == upow m + upow m * unit_roundoff) as E by ring.
  rewrite E. lra.
Qed.

Lemma upow_mono (m m' : nat) : (m <= m')%nat -> upow m <= upow m'.
Proof.
  induction 1 as [| m' _ IH]; [apply Qle_refl |].
  eapply Qle_trans; [exact IH | apply upow_S_le].
Qed.

Lemma upow_add (a b : nat) : upow (a + b) == upow a * upow b.
Proof.
  induction b as [| b IH].
  - rewrite Nat.add_0_r. cbn [upow]. ring.
  - rewrite Nat.add_succ_r. cbn [upow]. rewrite IH. ring.
Qed.

(** Bernoulli's inequality, and its converse for small exponents. *)
Lemma upow_lower (m : nat) : 1 + inject_Z (Z.of_nat m) * unit_roundoff <= upow m.
Proof.
  pose proof unit_roundoff_pos as Hu.
  induction m as [| m IH];
    [change (inject_Z (Z.of_nat 0)) with 0; cbn [upow]; lra |].
  rewrite Nat2Z.inj_succ. unfold Z.succ. rewrite inject_Z_plus.
  change (inject_Z 1) with 1. cbn [upow].
  set (k := inject_Z (Z.of_nat m)) in *.
  assert (0 <= k) as Hk by (unfold k; change 0 with (inject_Z 0); rewrite <- Zle_Qle; lia).
  assert ((1 + k * unit_roundoff) * (1 + unit_roundoff) <= upow m * (1 + unit_roundoff))
    as H by (apply Qmult_le_r; lra).
  assert (0 <= k * unit_roundoff * unit_roundoff) as H2
      by (repeat apply Qmult_le_0_compat; lra).
  assert ((1 + k * unit_roundoff) * (1 + unit_roundoff)
          == 1 + (k + 1) * unit_roundoff + k * unit_roundoff * unit_roundoff) as E by ring.
  rewrite E in H. lra.
Qed.

Lemma upow_upper (m : nat) :
  2 * inject_Z (Z.of_nat m) * unit_roundoff <= 1 ->
  upow m <= 1 + 2 * inject_Z (Z.of_nat m) * unit_roundoff.
Proof.
  pose proof unit_roundoff_pos as Hu.
  induction m as [| m IH]; intros Hm;
    [change (inject_Z (Z.of_nat 0)) with 0; cbn [upow]; lra |].
  rewrite Nat2Z.inj_succ in *. unfold Z.succ in *. rewrite inject_Z_plus in *.
  change (inject_Z 1) with 1 in *. cbn [upow].
  set (k := inject_Z (Z.of_nat m)) in *.
  assert (0 <= k) as Hk by (unfold k; change 0 with (inject_Z 0); rewrite <- Zle_Qle; lia).
  assert (0 <= k * unit_roundoff) as Hku by (apply Qmult_le_0_compat; lra).
  assert (2 * k * unit_roundoff <= 1) as Hm'.
  { assert (2 * (k + 1) * unit_roundoff == 2 * k * unit_roundoff + 2 * unit_roundoff) as E by ring.
    rewrite E in Hm. lra. }
  specialize (IH Hm').
  assert (upow m * (1 + unit_roundoff) <= (1 + 2 * k * unit_roundoff) * (1 + unit_roundoff))
    as H by (apply Qmult_le_r; lra).
  assert ((1 + 2 * k * unit_roundoff) * (1 + unit_roundoff)
          == 1 + 2 * k * unit_roundoff + unit_roundoff
             + (2 * k * unit_roundoff) * unit_roundoff) as E by ring.
  rewrite E in H.
  assert (2 * k * unit_roundoff * unit_roundoff <= 1 * unit_roundoff) as H2
      by (apply Qmult_le_r; lra).
  assert (2 * (k + 1) * unit_roundoff == 2 * k * unit_roundoff + 2 * unit_roundoff) as E2 by ring.
  rewrite E2. lra.
Qed.

(** ** Propagation of rounding errors through non-negative values *)

Lemma inject_nat_nonneg (c : nat) : 0 <= inject_Z (Z.of_nat c).
Proof. change 0 with (inject_Z 0). rewrite <- Zle_Qle. lia. Qed.

Lemma inject_nat_le (c c' : nat) : (c <= c')%nat -> inject_Z (Z.of_nat c) <= inject_Z (Z.of_nat c').
Proof. intros H. rewrite <- Zle_Qle. lia. Qed.

Lemma inject_nat_plus (a b : nat) :
  inject_Z (Z.of_nat (a + b)) == inject_Z (Z.of_nat a) + inject_Z (Z.of_nat b).
Proof. rewrite Nat2Z.inj_add, inject_Z_plus. reflexivity. Qed.

Lemma inject_nat_S (a : nat) : inject_Z (Z.of_nat (S a)) == inject_Z (Z.of_nat a) + 1.
Proof. rewrite Nat2Z.inj_succ. unfold Z.succ. rewrite inject_Z_plus. reflexivity. Qed.

Lemma approx_exact (x : Q) : 0 <= x -> approx 0 0 x x.
Proof.
  intros Hx. unfold approx. split; [exact Hx |]. split; [exact Hx |].
  cbn [upow]. change (inject_Z (Z.of_nat 0)) with 0. lra.
Qed.

Lemma approx_weaken (m c m' c' : nat) (x X X' : Q) :
  approx m c x X -> (m <= m')%nat -> (c <= c')%nat -> X <= X' -> approx m' c' x X'.
Proof.
  intros (Hx & HX & H) Hm Hc HXX. unfold approx.
  split; [exact Hx |]. split; [lra |].
  pose proof half_subnormal_pos as Heta.
  pose proof (upow_mono m m' Hm) as Hp. pose proof (upow_ge_1 m) as H1.
  pose proof (inject_nat_le c c' Hc) as Hcc. pose proof (inject_nat_nonneg c) as Hc0.
  set (a := inject_Z (Z.of_nat c)) in *. set (a' := inject_Z (Z.of_nat c')) in *.
  assert (a * half_subnormal <= a' * half_subnormal) as Ha by (apply Qmult_le_r; lra).
  assert (0 <= a * half_subnormal) as Ha0 by (apply Qmult_le_0_compat; lra).
  eapply Qle_trans; [exact H |].
  apply Qmult_le_compat_nonneg; split; lra.
Qed.

Lemma approx_round (m c : nat) (x X : Q) :
  approx m c x X -> approx (S m) (S c) (binary64 x) X.
Proof.
  intros (Hx & HX & H). unfold approx.
  split; [apply binary64_nonneg, Hx |]. split; [exact HX |].
  pose proof unit_roundoff_pos as Hu. pose proof half_subnormal_pos as Heta.
  pose proof (binary64_upper x Hx) as Hr.
  pose proof (upow_ge_1 (S m)) as Hp. pose proof (upow_ge_1 m) as Hp0.
  pose proof (inject_nat_nonneg c) as Hc. rewrite inject_nat_S.
  cbn [upow] in *.
  set (a := inject_Z (Z.of_nat c)) in *. set (p := upow m) in *.
  assert (0 <= a * half_subnormal) as Ha by (apply Qmult_le_0_compat; lra).
  assert (x * (1 + unit_roundoff) <= (X + a * half_subnormal) * p * (1 + unit_roundoff)) as H1
      by (apply Qmult_le_compat_r; lra).
  assert (half_subnormal * 1 <= half_subnormal * (p * (1 + unit_roundoff))) as H2
      by (apply Qmult_le_compat_nonneg; split; lra).
  assert ((X + (a + 1) * half_subnormal) * (p * (1 + unit_roundoff))
          == (X + a * half_subnormal) * p * (1 + unit_roundoff)
             + half_subnormal * (p * (1 + unit_roundoff))) as E by ring.
  rewrite E. lra.
Qed.

Lemma approx_plus (m1 c1 m2 c2 : nat) (x X y Y : Q) :
  approx m1 c1 x X -> approx m2 c2 y Y ->
  approx (Nat.max m1 m2) (c1 + c2) (x + y) (X + Y).
Proof.
  intros H1 H2.
  apply (approx_weaken _ _ (Nat.max m1 m2) c1 _ _ X) in H1; [| lia | lia | lra].
  apply (approx_weaken _ _ (Nat.max m1 m2) c2 _ _ Y) in H2; [| lia | lia | lra].
  destruct H1 as (Hx & HX & H1). destruct H2 as (Hy & HY & H2).
  unfold approx. split; [lra |]. split; [lra |].
  rewrite inject_nat_plus.
  set (a1 := inject_Z (Z.of_nat c1)) in *. set (a2 := inject_Z (Z.of_nat c2)) in *.
  set (p := upow (Nat.max m1 m2)) in *.
  assert ((X + Y + (a1 + a2) * half_subnormal) * p
          == (X + a1 * half_subnormal) * p + (Y + a2 * half_subnormal) * p) as E by ring.
  rewrite E. lra.
Qed.

Lemma approx_fadd (m1 c1 m2 c2 : nat) (x X y Y : Q) :
  approx m1 c1 x X -> approx m2 c2 y Y ->
  approx (S (Nat.max m1 m2)) (S (c1 + c2)) (fadd x y) (X + Y).
Proof. intros H1 H2. apply approx_round, approx_plus; assumption. Qed.

Lemma approx_half (m c : nat) (x X : Q) :
  approx m c x X -> approx m c (x / 2) (X / 2).
Proof.
  intros (Hx & HX & H). unfold approx.
  split; [apply Qle_shift_div_l; lra |]. split; [apply Qle_shift_div_l; lra |].
  pose proof half_subnormal_pos as Heta. pose proof (upow_ge_1 m) as Hp.
  pose proof (inject_nat_nonneg c) as Hc.
  set (a := inject_Z (Z.of_nat c)) in *. set (p := upow m) in *.
  assert (0 <= a * half_subnormal * p) as Ha
      by (repeat apply Qmult_le_0_compat; lra).
  assert ((X / 2 + a * half_subnormal) * p
          == (X + a * half_subnormal) * p / 2 + a * half_subnormal * p / 2) as E by field.
  rewrite E.
  assert (x / 2 <= (X + a * half_subnormal) * p / 2) as H1.
  { unfold Qdiv. apply Qmult_le_compat_r; [exact H | discriminate]. }
  assert (0 <= a * half_subnormal * p / 2) as H2 by (apply Qle_shift_div_l; lra).
  lra.
Qed.

(** The product of two values below 2, each with few absolute errors. *)
Lemma approx_mult (m1 c1 m2 c2 : nat) (x X y Y : Q) :
  approx m1 c1 x X -> approx m2 c2 y Y -> X <= 2 -> Y <= 2 ->
  (c1 <= 1000)%nat -> (c2 <= 1000)%nat ->
  approx (m1 + m2) (2 * c1 + 2 * c2 + 1) (x * y) (X * Y).
Proof.
  intros (Hx & HX & H1) (Hy & HY & H2) HX2 HY2 Hc1 Hc2. unfold approx.
  split; [apply Qmult_le_0_compat; assumption |].
  split; [apply Qmult_le_0_compat; assumption |].
  pose proof half_subnormal_pos as Heta.
  pose proof (upow_ge_1 m1) as Hp1. pose proof (upow_ge_1 m2) as Hp2.
  pose proof (inject_nat_nonneg c1) as Ha1. pose proof (inject_nat_nonneg c2) as Ha2.
  assert (inject_Z (Z.of_nat c1) <= 1000) as Hb1
      by (change 1000 with (inject_Z 1000); rewrite <- Zle_Qle; lia).
  assert (inject_Z (Z.of_nat c2) <= 1000) as Hb2
      by (change 1000 with (inject_Z 1000); rewrite <- Zle_Qle; lia).
  assert (inject_Z (Z.of_nat (2 * c1 + 2 * c2 + 1))
          == 2 * inject_Z (Z.of_nat c1) + 2 * inject_Z (Z.of_nat c2) + 1) as Ec.
  { rewrite !Nat2Z.inj_add, !Nat2Z.inj_mul, !inject_Z_plus, !inject_Z_mult. reflexivity. }
  rewrite Ec, upow_add.
  set (a1 := inject_Z (Z.of_nat c1)) in *. set (a2 := inject_Z (Z.of_nat c2)) in *.
  set (p1 := upow m1) in *. set (p2 := upow m2) in *.
  assert (1000000 * half_subnormal <= 1) as Hsmall.
  { unfold half_subnormal. apply Qle_bool_iff. vm_compute. reflexivity. }
  assert (0 <= a1 * half_subnormal) as Hah1 by (apply Qmult_le_0_compat; lra).
  assert (0 <= a2 * half_subnormal) as Hah2 by (apply Qmult_le_0_compat; lra).
  assert (x * y <= ((X + a1 * half_subnormal) * p1) * ((Y + a2 * half_subnormal) * p2)) as H
      by (apply Qmult_le_compat_nonneg; split; assumption).
  eapply Qle_trans; [exact H |].
  assert ((X + a1 * half_subnormal) * p1 * ((Y + a2 * half_subnormal) * p2)
          == ((X + a1 * half_subnormal) * (Y + a2 * half_subnormal)) * (p1 * p2)) as E by ring.
  rewrite E.
  apply Qmult_le_compat_r; [| apply Qmult_le_0_compat; lra].
  assert ((X + a1 * half_subnormal) * (Y + a2 * half_subnormal)
          == X * Y + (a1 * half_subnormal) * Y + (a2 * half_subnormal) * X
             + (a1 * half_subnormal) * (a2 * half_subnormal)) as E2 by ring.
  rewrite E2.
  assert ((a1 * half_subnormal) * Y <= (a1 * half_subnormal) * 2) as T1
      by (apply Qmult_le_compat_nonneg; split; lra).
  assert ((a2 * half_subnormal) * X <= (a2 * half_subnormal) * 2) as T2
      by (apply Qmult_le_compat_nonneg; split; lra).
  assert ((a1 * half_subnormal) * (a2 * half_subnormal) <= (1000 * half_subnormal) * (a2 * half_subnormal))
    as T3.
  { apply Qmult_le_compat_r; [| exact Hah2]. apply Qmult_le_compat_r; lra. }
  assert ((1000 * half_subnormal) * (a2 * half_subnormal) <= (1000 * half_subnormal) * (1000 * half_subnormal))
    as T4.
  { apply Qmult_le_compat_nonneg; split; try lra. apply Qmult_le_compat_r; lra. }
  assert ((1000 * half_subnormal) * (1000 * half_subnormal) <= 1 * half_subnormal) as T5.
  { assert ((1000 * half_subnormal) * (1000 * half_subnormal)
            == (1000000 * half_subnormal) * half_subnormal) as -> by ring.
    apply Qmult_le_compat_r; lra. }
  lra.
Qed.

(** ** The summation loops *)

Lemma sum_loop_approx (a : list Q) : forall (m c : nat) (r S : Q),
  approx m c r S -> Forall (Qle 0) a ->
  approx (m + length a) (c + length a) (sum_loop r a) (S + Qsum a).
Proof.
  induction a as [| x a IH]; intros m c r S Hr Ha.
  - cbn [sum_loop fold_left length]. rewrite !Nat.add_0_r.
    eapply approx_weaken; [exact Hr | lia | lia |]. change (Qsum []) with 0. lra.
  - inversion Ha as [| ? ? Hx Ha']; subst.
    change (sum_loop r (x :: a)) with (sum_loop (fadd r x) a).
    pose proof (approx_fadd _ _ _ _ _ _ _ _ Hr (approx_exact x Hx)) as Hstep.
    specialize (IH _ _ _ _ Hstep Ha').
    eapply approx_weaken; [exact IH | cbn [length]; lia | cbn [length]; lia |].
    rewrite Qsum_cons. lra.
Qed.

Lemma lanes_exact (r : list Q) : Forall (Qle 0) r -> Forall2 (approx 0 0) r r.
Proof.
  induction 1 as [| x r Hx _ IH]; constructor; [apply approx_exact, Hx | exact IH].
Qed.

Lemma lanes_step (m c : nat) (r Ss : list Q) :
  Forall2 (approx m c) r Ss -> forall chunk,
  Forall (Qle 0) chunk -> length chunk = length r ->
  Forall2 (approx (S m) (S c)) (zip_with fadd r chunk) (zip_with Qplus Ss chunk).
Proof.
  induction 1 as [| x X r Ss Hx _ IH]; intros [| y chunk] Hc Hlen; try discriminate.
  - constructor.
  - inversion Hc as [| ? ? Hy Hc']; subst. cbn [zip_with]. constructor.
    + eapply approx_weaken;
        [exact (approx_fadd _ _ _ _ _ _ _ _ Hx (approx_exact y Hy)) | lia | lia | lra].
    + apply IH; [exact Hc' | cbn in Hlen; lia].
Qed.

Lemma add_blocks_approx (blocks : nat) : forall (r a Ss : list Q) (m c : nat),
  Forall2 (approx m c) r Ss -> length r = 8%nat -> Forall (Qle 0) a ->
  (8 * blocks <= length a)%nat ->
  exists Ss',
    Forall2 (approx (m + blocks) (c + blocks)) (add_blocks blocks r a).1 Ss' /\
    length (add_blocks blocks r a).1 = 8%nat /\
    (add_blocks blocks r a).2 = drop (8 * blocks) a /\
    Qsum Ss' == Qsum Ss + Qsum (take (8 * blocks) a).
Proof.
  induction blocks as [| blocks IH]; intros r a Ss m c Hr Hlen Ha Hn.
  - exists Ss. cbn [add_blocks fst snd]. rewrite !Nat.add_0_r.
    split; [exact Hr |]. split; [exact Hlen |]. split; [reflexivity |].
    rewrite Nat.mul_0_r, take_0. change (Qsum []) with 0. lra.
  - cbn [add_blocks].
    assert (length (take 8 a) = 8%nat) as Hchunk by (rewrite length_take; lia).
    destruct (IH (zip_with fadd r (take 8 a)) (drop 8 a)
                 (zip_with Qplus Ss (take 8 a)) (S m) (S c)) as (Ss' & H1 & H2 & H3 & H4).
    + apply lanes_step; [exact Hr | apply Forall_take, Ha | lia].
    + rewrite length_zip_with. lia.
    + apply Forall_drop, Ha.
    + rewrite length_drop. lia.
    + exists Ss'. split.
      { eapply Forall2_impl; [exact H1 |]. intros x X Hx.
        eapply approx_weaken; [exact Hx | lia | lia | lra]. }
      split; [exact H2 |]. split.
      { rewrite H3, drop_drop. f_equal. lia. }
      rewrite H4, Qsum_zip_plus by (rewrite <- (Forall2_length _ _ _ Hr); lia).
      replace (8 * S blocks)%nat with (8 + 8 * blocks)%nat by lia.
      rewrite <- (take_take_drop a 8 (8 * blocks)), Qsum_app. lra.
Qed.

Lemma sum_accumulators_approx (m c : nat) (r Ss : list Q) :
  Forall2 (approx m c) r Ss -> length r = 8%nat ->
  approx (m + 3) (8 * c + 7) (sum_accumulators r) (Qsum Ss).
Proof.
  intros Hr Hlen.
  destruct r as [| r0 [| r1 [| r2 [| r3 [| r4 [| r5 [| r6 [| r7 [| ? ?]]]]]]]]];
    try discriminate Hlen.
  inversion Hr as [| ? S0 ? ? H0 Hr1]; subst.
  inversion Hr1 as [| ? S1 ? ? H1 Hr2]; subst.
  inversion Hr2 as [| ? S2 ? ? H2 Hr3]; subst.
  inversion Hr3 as [| ? S3 ? ? H3 Hr4]; subst.
  inversion Hr4 as [| ? S4 ? ? H4 Hr5]; subst.
  inversion Hr5 as [| ? S5 ? ? H5 Hr6]; subst.
  inversion Hr6 as [| ? S6 ? ? H6 Hr7]; subst.
  inversion Hr7 as [| ? S7 ? ? H7 Hr8]; subst.
  inversion Hr8; subst.
  cbn [sum_accumulators].
  pose proof (approx_fadd _ _ _ _ _ _ _ _ H0 H1) as A01.
  pose proof (approx_fadd _ _ _ _ _ _ _ _ H2 H3) as A23.
  pose proof (approx_fadd _ _ _ _ _ _ _ _ H4 H5) as A45.
  pose proof (approx_fadd _ _ _ _ _ _ _ _ H6 H7) as A67.
  pose proof (approx_fadd _ _ _ _ _ _ _ _ A01 A23) as A03.
  pose proof (approx_fadd _ _ _ _ _ _ _ _ A45 A67) as A47.
  pose proof (approx_fadd _ _ _ _ _ _ _ _ A03 A47) as A.
  eapply approx_weaken; [exact A | lia | lia |].
  rewrite !Qsum_cons. change (Qsum []) with 0. lra.
Qed.

Lemma sum_block_approx (a : list Q) :
  (8 <= length a)%nat -> Forall (Qle 0) a ->
  approx (length a) (2 * length a - 1) (sum_block a) (Qsum a).
Proof.
  intros Hn Ha. unfold sum_block.
  pose proof (Nat.div_mod_eq (length a) 8) as Hdiv.
  pose proof (Nat.mod_upper_bound (length a) 8 ltac:(lia)) as Hmod.
  set (blocks := (length a / 8 - 1)%nat) in *.
  destruct (add_blocks_approx blocks (take 8 a) (drop 8 a) (take 8 a) 0 0)
    as (Ss' & H1 & H2 & H3 & H4).
  - apply lanes_exact, Forall_take, Ha.
  - rewrite length_take. lia.
  - apply Forall_drop, Ha.
  - rewrite length_drop. unfold blocks. lia.
  - destruct (add_blocks blocks (take 8 a) (drop 8 a)) as [r rest].
    cbn [fst snd] in *. subst rest.
    pose proof (sum_accumulators_approx _ _ _ _ H1 H2) as Hacc.
    pose proof (sum_loop_approx (drop (8 * blocks) (drop 8 a)) _ _ _ _ Hacc
                  ltac:(apply Forall_drop, Forall_drop, Ha)) as Hfinal.
    eapply approx_weaken; [exact Hfinal | | |].
    + rewrite !length_drop. unfold blocks. lia.
    + rewrite !length_drop. unfold blocks. lia.
    + rewrite H4.
      pose proof (Qsum_take_drop (8 * blocks) (drop 8 a)) as E1.
      pose proof (Qsum_take_drop 8 a) as E2. lra.
Qed.

Lemma pairwise_sum_rec_unfold (fuel : nat) (a : list Q) :
  pairwise_sum_rec fuel a
  = if (length a <? 8)%nat then sum_loop 0 a
    else if (length a <=? 128)%nat then sum_block a
    else match fuel with
         | O => 0
         | S fuel =>
             let n2 := (length a / 2 - (length a / 2) mod 8)%nat in
             fadd (pairwise_sum_rec fuel (take n2 a)) (pairwise_sum_rec fuel (drop n2 a))
         end.
Proof. destruct fuel; reflexivity. Qed.

Lemma approx_zero : approx 0 0 0 0.
Proof. apply approx_exact. apply Qle_refl. Qed.

Lemma pairwise_sum_rec_approx (fuel : nat) : forall a : list Q,
  (length a <= 128 + fuel)%nat -> Forall (Qle 0) a ->
  approx (length a) (2 * length a - 1) (pairwise_sum_rec fuel a) (Qsum a).
Proof.
  induction fuel as [| fuel IH]; intros a Hlen Ha; rewrite pairwise_sum_rec_unfold.
  - destruct (Nat.ltb_spec (length a) 8) as [H8 | H8].
    + eapply approx_weaken; [exact (sum_loop_approx a _ _ _ _ approx_zero Ha) | lia | lia | lra].
    + destruct (Nat.leb_spec (length a) 128) as [H128 | H128]; [| lia].
      apply sum_block_approx; assumption.
  - destruct (Nat.ltb_spec (length a) 8) as [H8 | H8].
    + eapply approx_weaken; [exact (sum_loop_approx a _ _ _ _ approx_zero Ha) | lia | lia | lra].
    + destruct (Nat.leb_spec (length a) 128) as [H128 | H128].
      * apply sum_block_approx; assumption.
      * cbv zeta.
        pose proof (Nat.div_mod_eq (length a) 2) as Hd2.
        pose proof (Nat.mod_upper_bound (length a) 2 ltac:(lia)) as Hm2.
        pose proof (Nat.div_mod_eq (length a / 2) 8) as Hd8.
        pose proof (Nat.mod_upper_bound (length a / 2) 8 ltac:(lia)) as Hm8.
        set (n2 := (length a / 2 - (length a / 2) mod 8)%nat) in *.
        assert (1 <= n2 /\ n2 < length a)%nat as [Hn2 Hn2'] by (unfold n2; lia).
        pose proof (IH (take n2 a) ltac:(rewrite length_take; lia) (Forall_take _ _ _ Ha)) as H1.
        pose proof (IH (drop n2 a) ltac:(rewrite length_drop; lia) (Forall_drop _ _ _ Ha)) as H2.
        rewrite length_take in H1. rewrite length_drop in H2.
        eapply approx_weaken; [exact (approx_fadd _ _ _ _ _ _ _ _ H1 H2) | lia | lia |].
        pose proof (Qsum_take_drop n2 a). lra.
Qed.

(** Any fuel that covers the length gives the same sum. *)
Lemma pairwise_sum_rec_fuel (f1 : nat) : forall (f2 : nat) (a : list Q),
  (length a <= 128 + f1)%nat -> (length a <= 128 + f2)%nat ->
  pairwise_sum_rec f1 a = pairwise_sum_rec f2 a.
Proof.
  induction f1 as [| f1 IH]; intros f2 a H1 H2; rewrite !pairwise_sum_rec_unfold.
  - destruct (Nat.ltb_spec (length a) 8); [reflexivity |].
    destruct (Nat.leb_spec (length a) 128); [reflexivity | lia].
  - destruct (Nat.ltb_spec (length a) 8); [reflexivity |].
    destruct (Nat.leb_spec (length a) 128) as [| H128]; [reflexivity |].
    destruct f2 as [| f2]; [lia |]. cbv zeta.
    pose proof (Nat.div_mod_eq (length a) 2) as Hd2.
    pose proof (Nat.mod_upper_bound (length a) 2 ltac:(lia)) as Hm2.
    pose proof (Nat.div_mod_eq (length a / 2) 8) as Hd8.
    pose proof (Nat.mod_upper_bound (length a / 2) 8 ltac:(lia)) as Hm8.
    set (n2 := (length a / 2 - (length a / 2) mod 8)%nat) in *.
    assert (1 <= n2 /\ n2 < length a)%nat as [Hn2 Hn2'] by (unfold n2; lia).
    rewrite (IH f2 (take n2 a)), (IH f2 (drop n2 a));
      rewrite ?length_take, ?length_drop; try lia. reflexivity.
Qed.

Lemma pairwise_sum_fuel (fuel : nat) (a : list Q) :
  (length a <= fuel)%nat -> pairwise_sum_rec fuel a = pairwise_sum a.
Proof. intros H. unfold pairwise_sum. apply pairwise_sum_rec_fuel; lia. Qed.

(** The sum of an array of non-negative doubles is non-negative and
    exceeds the exact sum by at most n + 1 relative rounding errors. *)
Lemma np_sum_approx (a : list Q) :
  Forall (Qle 0) a -> approx (S (length a)) (2 * length a + 1) (np_sum a) (Qsum a).
Proof.
  intros Ha. unfold np_sum, pairwise_sum.
  pose proof (pairwise_sum_rec_approx (length a) a ltac:(lia) Ha) as H.
  eapply approx_weaken; [exact (approx_fadd _ _ _ _ _ _ _ _ approx_zero H) | lia | lia | lra].
Qed.

Lemma np_sum_nonneg (a : list Q) : Forall (Qle 0) a -> 0 <= np_sum a.
Proof. intros Ha. apply (np_sum_approx a Ha). Qed.

(** ** Rounding errors of the trapezoid rule on an attack's curves *)

Lemma approx_trans (m1 c1 m2 c2 : nat) (x Y Z : Q) :
  approx m1 c1 x Y -> approx m2 c2 Y Z -> approx (m1 + m2) (c1 + c2) x Z.
Proof.
  intros (Hx & HY & H1) (_ & HZ & H2). unfold approx.
  split; [exact Hx |]. split; [exact HZ |].
  pose proof half_subnormal_pos as Heta.
  pose proof (upow_ge_1 m1) as Hp1. pose proof (upow_ge_1 m2) as Hp2.
  pose proof (inject_nat_nonneg c1) as Ha1. pose proof (inject_nat_nonneg c2) as Ha2.
  rewrite inject_nat_plus, upow_add.
  set (a1 := inject_Z (Z.of_nat c1)) in *. set (a2 := inject_Z (Z.of_nat c2)) in *.
  set (p1 := upow m1) in *. set (p2 := upow m2) in *.
  assert (0 <= a1 * half_subnormal) as Hah1 by (apply Qmult_le_0_compat; lra).
  assert (0 <= a2 * half_subnormal) as Hah2 by (apply Qmult_le_0_compat; lra).
  eapply Qle_trans; [exact H1 |].
  assert ((Z + (a1 + a2) * half_subnormal) * (p1 * p2)
          == ((Z + a2 * half_subnormal) * p2 + a1 * half_subnormal * p2) * p1) as E by ring.
  rewrite E. apply Qmult_le_compat_r; [| lra].
  assert (a1 * half_subnormal * 1 <= a1 * half_subnormal * p2) as H3
      by (apply Qmult_le_compat_nonneg; split; lra).
  lra.
Qed.

Section Term.
Variables (N I : Q) (i K : nat).
Hypothesis HN : 1 <= N.
Hypothesis HI : I = inject_Z (Z.of_nat i).
Hypothesis HiN : I + 1 <= N.
Hypothesis HiK : (i <= K)%nat.

Lemma term_approx (f0 f1 y0 y1 : Q) :
  f0 == I / N -> f1 == (I + 1) / N ->
  0 <= y0 -> y0 <= (N - I) / N ->
  0 <= y1 -> y1 <= (N - I - 1) / N ->
  approx (2 * K + 6) 15
         (fdiv (fmul (fsub (binary64 f1) (binary64 f0))
                     (fadd (binary64 y1) (binary64 y0))) 2)
         ((2 * N - 2 * I - 1) / (2 * N * N)).
Proof.
  intros Ef0 Ef1 Hy0 Hy0' Hy1 Hy1'.
  pose proof unit_roundoff_pos as Hu. pose proof half_subnormal_pos as Heta.
  assert (0 <= I) as HI0 by (rewrite HI; apply inject_nat_nonneg).
  assert (0 < N) as HN0 by lra.
  assert (0 <= f0) as Hf0 by (rewrite Ef0; apply Qle_shift_div_l; lra).
  assert (f0 <= f1) as Hf01.
  { rewrite Ef0, Ef1. unfold Qdiv. apply Qmult_le_compat_r; [lra |].
    apply Qlt_le_weak, Qinv_lt_0_compat, HN0. }
  assert (f1 <= 1) as Hf1.
  { rewrite Ef1. apply Qle_shift_div_r; lra. }
  (* the difference of the two rounded fractions *)
  pose proof (binary64_mono f0 f1 Hf0 Hf01) as Hmono.
  destruct (binary64_error f0 Hf0) as [Hlo0 _].
  destruct (binary64_error f1 ltac:(lra)) as [_ Hhi1].
  assert (f1 - f0 == 1 / N) as Ediff by (rewrite Ef0, Ef1; field; lra).
  assert (f0 + f1 == (2 * I + 1) / N) as Esum by (rewrite Ef0, Ef1; field; lra).
  assert (approx (2 * i + 1) 2 (binary64 f1 - binary64 f0) (1 / N)) as Hd.
  { unfold approx. split; [lra |]. split; [apply Qle_shift_div_l; lra |].
    pose proof (upow_lower (2 * i + 1)) as Hp.
    assert (inject_Z (Z.of_nat (2 * i + 1)) == 2 * I + 1) as Ei.
    { rewrite HI, Nat2Z.inj_add, Nat2Z.inj_mul, inject_Z_plus, inject_Z_mult. reflexivity. }
    rewrite Ei in Hp. change (inject_Z (Z.of_nat 2)) with 2.
    set (p := upow (2 * i + 1)) in *.
    assert (0 < 1 / N) as HinvN by (apply Qlt_shift_div_l; lra).
    assert (0 <= (2 * I + 1) * unit_roundoff) as HIu by (apply Qmult_le_0_compat; lra).
    assert ((1 / N + 2 * half_subnormal) * (1 + (2 * I + 1) * unit_roundoff)
            <= (1 / N + 2 * half_subnormal) * p) as H1
        by (apply Qmult_le_compat_nonneg; split; lra).
    assert ((1 / N + 2 * half_subnormal) * (1 + (2 * I + 1) * unit_roundoff)
            == 1 / N + (2 * I + 1) / N * unit_roundoff + 2 * half_subnormal
               + 2 * half_subnormal * ((2 * I + 1) * unit_roundoff)) as E by (field; lra).
    rewrite E in H1.
    assert (0 <= 2 * half_subnormal * ((2 * I + 1) * unit_roundoff)) as H2
        by (repeat apply Qmult_le_0_compat; lra).
    assert ((f0 + f1) * unit_roundoff == (2 * I + 1) / N * unit_roundoff) as E3
        by (rewrite Esum; reflexivity).
    assert ((f0 + f1) * unit_roundoff == f0 * unit_roundoff + f1 * unit_roundoff) as E4 by ring.
    lra. }
  apply approx_round in Hd. fold (fsub (binary64 f1) (binary64 f0)) in Hd.
  (* the sum of the two rounded values *)
  assert (approx 1 1 (binary64 y0) ((N - I) / N)) as H0
      by (eapply approx_weaken; [exact (approx_round _ _ _ _ (approx_exact y0 Hy0)) | lia | lia | lra]).
  assert (approx 1 1 (binary64 y1) ((N - I - 1) / N)) as H1
      by (eapply approx_weaken; [exact (approx_round _ _ _ _ (approx_exact y1 Hy1)) | lia | lia | lra]).
  pose proof (approx_fadd _ _ _ _ _ _ _ _ H1 H0) as Hs. cbn [Nat.max Nat.add] in Hs.
  assert ((N - I - 1) / N + (N - I) / N == (2 * N - 2 * I - 1) / N) as Es by (field; lra).
  assert ((2 * N - 2 * I - 1) / N <= 2) as Hs2 by (apply Qle_shift_div_r; lra).
  assert (1 / N <= 2) as Hd2 by (apply Qle_shift_div_r; lra).
  eapply approx_weaken in Hs; [| reflexivity | reflexivity | rewrite Es; apply Qle_refl].
  (* the product, halved *)
  pose proof (approx_mult _ _ _ _ _ _ _ _ Hd Hs Hd2 Hs2 ltac:(lia) ltac:(lia)) as Hp.
  apply approx_round in Hp.
  fold (fmul (fsub (binary64 f1) (binary64 f0)) (fadd (binary64 y1) (binary64 y0))) in Hp.
  apply approx_half, approx_round in Hp.
  fold (fdiv (fmul (fsub (binary64 f1) (binary64 f0)) (fadd (binary64 y1) (binary64 y0))) 2) in Hp.
  eapply approx_weaken; [exact Hp | lia | lia |].
  assert (1 / N * ((2 * N - 2 * I - 1) / N) / 2 == (2 * N - 2 * I - 1) / (2 * N * N)) as ->
      by (field; lra).
  apply Qle_refl.
Qed.
End Term.

Lemma approx_Qeq (m c : nat) (x X X' : Q) : approx m c x X -> X == X' -> approx m c x X'.
Proof. intros H E. eapply approx_weaken; [exact H | lia | lia | lra]. Qed.

Lemma approx_value_Qeq (m c : nat) (x x' X : Q) :
  approx m c x X -> x == x' -> approx m c x' X.
Proof.
  intros (Hx & HX & H) E. unfold approx. split; [lra |]. split; [exact HX | lra].
Qed.

(** The terms d * (y[1:] + y[:-1]) / 2.0 of np.trapezoid on curves whose
    entry j is (k0 + j) / N and at most (N - k0 - j) / N. *)
Lemma trapezoid_terms_approx (N : Q) (K : nat) (HN : 1 <= N) :
  forall (fr lc : list Q) (k0 : nat),
    length fr = length lc ->
    (k0 + length fr <= S K)%nat ->
    inject_Z (Z.of_nat (k0 + length fr - 1)) <= N ->
    (forall j f, fr !! j = Some f -> f == inject_Z (Z.of_nat (k0 + j)) / N) ->
    (forall j q, lc !! j = Some q ->
       0 <= q /\ q <= (N - inject_Z (Z.of_nat (k0 + j))) / N) ->
    let T := map (fun a => fdiv a 2)
                 (zip_with fmul (np_diff (np_asarray fr)) (np_pair_sums (np_asarray lc))) in
    let L := inject_Z (Z.of_nat (length fr - 1)) in
    Forall (Qle 0) T /\ length T = (length fr - 1)%nat /\
    approx (2 * K + 6) (15 * (length fr - 1)) (Qsum T)
           ((L * (2 * N - 2 * inject_Z (Z.of_nat k0)) - L * L) / (2 * N * N)).
Proof.
  assert (0 < N) as HN0 by lra.
  induction fr as [| f0 fr IH]; intros lc k0 Hlen HK HkN Hf Hl.
  { destruct lc; [| discriminate]. cbn [np_asarray map np_diff np_pair_sums tail zip_with length Nat.sub].
    split; [constructor |]. split; [reflexivity |].
    apply (approx_Qeq _ _ _ 0).
    - eapply approx_weaken; [exact approx_zero | lia | lia | lra].
    - change (inject_Z 0) with 0. field. lra. }
  destruct lc as [| y0 lc]; [discriminate |].
  destruct fr as [| f1 rest].
  { destruct lc; [| discriminate]. cbn [np_asarray map np_diff np_pair_sums tail zip_with length Nat.sub].
    split; [constructor |]. split; [reflexivity |].
    apply (approx_Qeq _ _ _ 0).
    - eapply approx_weaken; [exact approx_zero | lia | lia | lra].
    - change (inject_Z 0) with 0. field. lra. }
  destruct lc as [| y1 lc']; [discriminate |].
  cbv zeta.
  change (np_diff (np_asarray (f0 :: f1 :: rest)))
    with (fsub (binary64 f1) (binary64 f0) :: np_diff (np_asarray (f1 :: rest))).
  change (np_pair_sums (np_asarray (y0 :: y1 :: lc')))
    with (fadd (binary64 y1) (binary64 y0) :: np_pair_sums (np_asarray (y1 :: lc'))).
  cbn [zip_with map].
  destruct (IH (y1 :: lc') (S k0)) as (Hnn & HlenT & Happ).
  - cbn [length] in *. lia.
  - cbn [length] in *. lia.
  - cbn [length] in *. replace (S k0 + S (length rest) - 1)%nat
      with (k0 + S (S (length rest)) - 1)%nat by lia. exact HkN.
  - intros j f Hj. rewrite (Hf (S j) f Hj). f_equiv. f_equiv. f_equal. lia.
  - intros j q Hj. destruct (Hl (S j) q Hj) as [H1 H2]. split; [exact H1 |].
    replace (S k0 + j)%nat with (k0 + S j)%nat by lia. exact H2.
  - cbv zeta in Hnn, HlenT, Happ.
    set (T' := map (fun a => fdiv a 2)
                   (zip_with fmul (np_diff (np_asarray (f1 :: rest)))
                             (np_pair_sums (np_asarray (y1 :: lc'))))) in *.
    pose proof (inject_nat_nonneg k0) as Hk0.
    assert (inject_Z (Z.of_nat k0) + 1 <= N) as HI.
    { eapply Qle_trans; [| exact HkN]. cbn [length].
      rewrite <- (inject_Z_plus _ 1), <- Zle_Qle. lia. }
    destruct (Hl 0%nat y0 eq_refl) as [Hy0 Hy0'].
    destruct (Hl 1%nat y1 eq_refl) as [Hy1 Hy1'].
    rewrite Nat.add_0_r in Hy0'.
    assert (y1 <= (N - inject_Z (Z.of_nat k0) - 1) / N) as Hy1''.
    { eapply Qle_trans; [exact Hy1' |]. apply Qle_lteq. right.
      rewrite Nat.add_1_r, inject_nat_S. field. lra. }
    pose proof (term_approx N (inject_Z (Z.of_nat k0)) k0 K HN eq_refl HI ltac:(cbn [length] in HK; lia)
                  f0 f1 y0 y1) as Ht.
    specialize (Ht ltac:(rewrite (Hf 0%nat f0 eq_refl), Nat.add_0_r; reflexivity)).
    specialize (Ht ltac:(rewrite (Hf 1%nat f1 eq_refl), Nat.add_1_r, inject_nat_S; reflexivity)).
    specialize (Ht Hy0 Hy0' Hy1 Hy1'').
    split; [constructor; [apply Ht | exact Hnn] |].
    split; [cbn [length] in *; lia |].
    pose proof (approx_plus _ _ _ _ _ _ _ _ Ht Happ) as Hsum.
    assert (approx (Nat.max (2 * K + 6) (2 * K + 6))
                   (15 + 15 * (length (f1 :: rest) - 1))
                   (Qsum (fdiv (fmul (fsub (binary64 f1) (binary64 f0))
                                     (fadd (binary64 y1) (binary64 y0))) 2 :: T'))
                   ((2 * N - 2 * inject_Z (Z.of_nat k0) - 1) / (2 * N * N)
                    + (inject_Z (Z.of_nat (length (f1 :: rest) - 1))
                       * (2 * N - 2 * inject_Z (Z.of_nat (S k0)))
                       - inject_Z (Z.of_nat (length (f1 :: rest) - 1))
                         * inject_Z (Z.of_nat (length (f1 :: rest) - 1))) / (2 * N * N)))
      as Hsum'.
    { eapply approx_value_Qeq; [exact Hsum |]. rewrite Qsum_cons. reflexivity. }
    eapply approx_weaken; [exact Hsum' | lia | cbn [length]; lia |].
    cbn [length].
    replace (S (S (length rest)) - 1)%nat with (S (length rest)) by lia.
    replace (S (length rest) - 1)%nat with (length rest) by lia.
    rewrite !inject_nat_S.
    set (L := inject_Z (Z.of_nat (length rest))). set (I := inject_Z (Z.of_nat k0)).
    assert ((2 * N - 2 * I - 1) / (2 * N * N)
            + (L * (2 * N - 2 * (I + 1)) - L * L) / (2 * N * N)
            == ((L + 1) * (2 * N - 2 * I) - (L + 1) * (L + 1)) / (2 * N * N)) as E
        by (field; lra).
    rewrite <- E. apply Qplus_le_compat; [lra | apply Qle_refl].
Qed.

Lemma unit_roundoff_value : unit_roundoff == 1 # 9007199254740992.
Proof. reflexivity. Qed.

Lemma half_subnormal_small : half_subnormal <= 1 # 1267650600228229401496703205376.
Proof. apply Qle_bool_iff. vm_compute. reflexivity. Qed.

(** The slack of the exact integral, k^2 / (2 n^2), covers the rounding
    errors of a graph of up to 2^40 nodes. *)
Lemma trapezoid_total_bound (k : nat) (N r : Q) :
  (1 <= k)%nat -> inject_Z (Z.of_nat k) <= N -> N <= inject_Z (2 ^ 40) ->
  approx (3 * k + 7) (17 * k + 1) r
         ((inject_Z (Z.of_nat k) * (2 * N - 2 * inject_Z (Z.of_nat 0))
           - inject_Z (Z.of_nat k) * inject_Z (Z.of_nat k)) / (2 * N * N)) ->
  r <= inject_Z (Z.of_nat k) / N.
Proof.
  intros Hk HkN HN (Hr & HW & H).
  pose proof unit_roundoff_pos as Hu. pose proof half_subnormal_pos as Heta.
  pose proof unit_roundoff_value as Eu. pose proof half_subnormal_small as Heta'.
  assert (1 <= inject_Z (Z.of_nat k)) as HK1
      by (change 1 with (inject_Z 1); rewrite <- Zle_Qle; lia).
  set (Kq := inject_Z (Z.of_nat k)) in *.
  assert (0 < N) as HN0 by lra.
  change (inject_Z (2 ^ 40)) with (1099511627776 # 1) in HN.
  change (inject_Z (Z.of_nat 0)) with 0 in *.
  set (a := Kq / N).
  assert (Kq == a * N) as EK by (unfold a; field; lra).
  assert (0 < a) as Ha0 by (unfold a; apply Qlt_shift_div_l; lra).
  assert (a <= 1) as Ha1 by (unfold a; apply Qle_shift_div_r; lra).
  assert ((Kq * (2 * N - 2 * 0) - Kq * Kq) / (2 * N * N) == a - a * a / 2) as EW
      by (unfold a; field; lra).
  (* the relative errors *)
  assert (inject_Z (Z.of_nat (3 * k + 7)) == 3 * Kq + 7) as Em.
  { unfold Kq. rewrite Nat2Z.inj_add, Nat2Z.inj_mul, inject_Z_plus, inject_Z_mult. reflexivity. }
  assert (inject_Z (Z.of_nat (17 * k + 1)) == 17 * Kq + 1) as Ec.
  { unfold Kq. rewrite Nat2Z.inj_add, Nat2Z.inj_mul, inject_Z_plus, inject_Z_mult. reflexivity. }
  assert (N * unit_roundoff <= 1 # 8192) as HNu.
  { assert (N * unit_roundoff <= (1099511627776 # 1) * unit_roundoff) as H1
        by (apply Qmult_le_compat_r; lra).
    rewrite Eu in H1 at 2. eapply Qle_trans; [exact H1 |].
    apply Qle_bool_iff. vm_compute. reflexivity. }
  assert (Kq * unit_roundoff <= 1 # 8192) as HKu.
  { eapply Qle_trans; [| exact HNu]. apply Qmult_le_compat_r; lra. }
  assert (0 <= Kq * unit_roundoff) as HKu0 by (apply Qmult_le_0_compat; lra).
  pose proof (upow_upper (3 * k + 7)) as Hp. rewrite Em in Hp.
  assert (2 * (3 * Kq + 7) * unit_roundoff == 6 * (Kq * unit_roundoff) + 14 * unit_roundoff)
    as Ee by ring.
  rewrite Ee in Hp. specialize (Hp ltac:(rewrite Eu at 2; lra)).
  set (e := 6 * (Kq * unit_roundoff) + 14 * unit_roundoff) in *.
  assert (0 <= e) as He0 by (unfold e; lra).
  assert (e <= 20 * (Kq * unit_roundoff)) as He.
  { unfold e. assert (1 * unit_roundoff <= Kq * unit_roundoff) by (apply Qmult_le_compat_r; lra).
    lra. }
  assert (Kq * unit_roundoff == a * (N * unit_roundoff)) as EKu by (rewrite EK; ring).
  assert (a * (N * unit_roundoff) <= a * (1 # 8192)) as HaNu
      by (apply Qmult_le_compat_nonneg; split; try lra; apply Qmult_le_0_compat; lra).
  assert (e <= a * (20 # 8192)) as He'.
  { rewrite EKu in He. lra. }
  (* the absolute errors *)
  set (h := (17 * Kq + 1) * half_subnormal).
  assert (0 <= h) as Hh0 by (unfold h; apply Qmult_le_0_compat; lra).
  assert (N * N * half_subnormal <= 1 # 1024) as HNNeta.
  { assert (N * N <= (1099511627776 # 1) * (1099511627776 # 1)) as H1
        by (apply Qmult_le_compat_nonneg; split; lra).
    assert (N * N * half_subnormal
            <= (1099511627776 # 1) * (1099511627776 # 1) * half_subnormal) as H2
        by (apply Qmult_le_compat_r; lra).
    assert ((1099511627776 # 1) * (1099511627776 # 1) * half_subnormal
            <= (1099511627776 # 1) * (1099511627776 # 1)
               * (1 # 1267650600228229401496703205376)) as H3
        by (apply Qmult_le_compat_nonneg; split; try lra; discriminate).
    eapply Qle_trans; [exact H2 |]. eapply Qle_trans; [exact H3 |].
    apply Qle_bool_iff. vm_compute. reflexivity. }
  assert (h <= a * a / 4) as Hh.
  { (* h <= 18 Kq eta = 18 a N eta, and 72 N N eta <= 1 <= Kq = a N *)
    assert (h <= 18 * (Kq * half_subnormal)) as H1.
    { unfold h. assert (1 * half_subnormal <= Kq * half_subnormal)
        by (apply Qmult_le_compat_r; lra). lra. }
    assert (72 * (N * half_subnormal) <= a) as H2.
    { apply (Qmult_le_r _ _ N HN0).
      assert (72 * (N * half_subnormal) * N == 72 * (N * N * half_subnormal)) as -> by ring.
      rewrite <- EK. lra. }
    assert (Kq * half_subnormal == a * (N * half_subnormal)) as E1 by (rewrite EK; ring).
    assert (0 <= N * half_subnormal) as H3 by (apply Qmult_le_0_compat; lra).
    assert (a * (72 * (N * half_subnormal)) <= a * a) as H4
        by (apply Qmult_le_compat_nonneg; split; lra).
    assert (a * (72 * (N * half_subnormal)) == 72 * (a * (N * half_subnormal))) as E2 by ring.
    rewrite E1 in H1. rewrite E2 in H4.
    assert (a * a / 4 == (1 # 4) * (a * a)) as -> by field. lra. }
  assert (0 <= a * a) as Haa by (apply Qmult_le_0_compat; lra).
  assert (a * a <= a) as Haa1.
  { assert (a * a <= a * 1) by (apply Qmult_le_compat_nonneg; split; lra). lra. }
  (* the bound *)
  rewrite Ec in H. fold h in H. rewrite EW in H.
  assert (a * a / 2 == (1 # 2) * (a * a)) as E2 by field.
  assert (a * a / 4 == (1 # 4) * (a * a)) as E4 by field.
  rewrite E2 in H. rewrite E4 in Hh.
  set (p := upow (3 * k + 7)) in *.
  pose proof (upow_ge_1 (3 * k + 7)) as Hp1. fold p in Hp1.
  assert ((a - (1 # 2) * (a * a) + h) * p <= (a - (1 # 2) * (a * a) + h) * (1 + e)) as H1
      by (apply Qmult_le_compat_nonneg; split; lra).
  assert ((a - (1 # 2) * (a * a) + h) * e <= a * e) as H2
      by (apply Qmult_le_compat_r; lra).
  assert (a * e <= a * (a * (20 # 8192))) as H3
      by (apply Qmult_le_compat_nonneg; split; lra).
  assert ((a - (1 # 2) * (a * a) + h) * (1 + e)
          == (a - (1 # 2) * (a * a) + h) + (a - (1 # 2) * (a * a) + h) * e) as E5 by ring.
  assert (a * (a * (20 # 8192)) == (20 # 8192) * (a * a)) as E6 by ring.
  rewrite E5 in H1. rewrite E6 in H3. lra.
Qed.

End Binary64.

(** ** The trapezoid rule *)

Lemma nondecreasing_tail (a : Q) (l : list Q) :
  nondecreasing (a :: l) -> nondecreasing l.
Proof. intros Hnd i x y Hx Hy. apply (Hnd (S i) x y); assumption. Qed.

Lemma length_np_diff (x : list Q) : length (np_diff x) = (length x - 1)%nat.
Proof. unfold np_diff. rewrite length_zip_with, length_tl. lia. Qed.

Lemma length_np_pair_sums (y : list Q) : length (np_pair_sums y) = (length y - 1)%nat.
Proof. unfold np_pair_sums. rewrite length_zip_with, length_tl. lia. Qed.

Lemma length_np_asarray (l : list Q) : length (np_asarray l) = length l.
Proof. apply length_map. Qed.

(** On two arrays of one length [np.trapezoid] multiplies elementwise. *)
Lemma np_trapezoid_same_length (y x : list Q) :
  length x = length y ->
  np_trapezoid y x
  = Return (np_sum (map (fun a => fdiv a 2)
                        (zip_with fmul (np_diff (np_asarray x))
                                  (np_pair_sums (np_asarray y))))).
Proof.
  intros Hlen. unfold np_trapezoid, np_mul. cbv zeta.
  rewrite length_np_diff, length_np_pair_sums, !length_np_asarray, Hlen, Nat.eqb_refl.
  reflexivity.
Qed.

Section ResultSpec.
Context {node : Type} `{EqDecision node}.
Context {Self : Type} `{BaseAttack (node:=node) Self}.

Lemma length_removed_le (G : Graph node) (n : node) :
  (length (removed G n) <= length G)%nat.
Proof. unfold removed. rewrite length_map. apply length_filter. Qed.

Lemma length_removed_all_le (vs : list node) : forall G : Graph node,
  (length (removed_all G vs) <= length G)%nat.
Proof.
  induction vs as [| v vs IH]; intros G; [reflexivity |].
  etransitivity; [apply IH | apply length_removed_le].
Qed.

Lemma Qdiv_0_l (n : Z) : (inject_Z 0 / inject_Z n == 0)%Q.
Proof. unfold Qdiv. apply Qmult_0_l. Qed.

Lemma Qdiv_0_r (a : Z) : (inject_Z a / inject_Z 0 == 0)%Q.
Proof. unfold Qdiv. change (/ inject_Z 0)%Q with 0%Q. apply Qmult_0_r. Qed.

Lemma Qdiv_same (n : Z) : 0 < n -> (inject_Z n / inject_Z n == 1)%Q.
Proof.
  intros Hn. apply Qmult_inv_r. intros E. unfold Qeq, inject_Z in E. simpl in E. lia.
Qed.

(** An LCC ratio is a number between 0 and 1 as long as the graph has no
    more nodes than the initial count. *)
Lemma lcc_fraction_range (G : Graph node) (n0 : Z) :
  wf G -> Z.of_nat (length G) <= n0 ->
  (0 <= lcc_fraction G n0 <= 1)%Q.
Proof.
  intros Hwf Hle. unfold lcc_fraction.
  pose proof (largest_cc_size_le G Hwf) as Hl.
  destruct (Z.eq_dec n0 0) as [-> | Hne].
  - rewrite Qdiv_0_r. split; [apply Qle_refl | discriminate].
  - assert (0 < n0) as Hn by lia. split.
    + rewrite <- (Qdiv_0_l n0). apply Qdiv_le_mono; lia.
    + rewrite <- (Qdiv_same n0 Hn). apply Qdiv_le_mono; lia.
Qed.

(** A returned attack in full: the result object it stored, the sequence,
    the two curves point by point, and the stored integral and collapse
    point. *)
Lemma attack_result_spec (graph : nat) (G : Graph node) (bud : Z)
      (dn gn : string) (thr : Q) (w w' : world node Self) (result : nat) :
  wf G -> graphs w.2 !! graph = Some G ->
  attack graph bud dn gn thr w = (Return result, w') ->
  exists R,
    results w'.2 !! result = Some R /\
    results w'.2 = results w.2 ++ [R] /\
    graphs w'.2 = graphs w.2 ++ [removed_all G (attack_sequence R)] /\
    algorithm_name R = name w'.1 /\ dataset_name R = dn /\ graph_name R = gn /\
    collapse_threshold R = thr /\
    initial_nodes R = number_of_nodes G /\
    initial_edges R = number_of_edges G /\
    budget R = bud /\
    (length (attack_sequence R) <= Z.to_nat bud)%nat /\
    NoDup (attack_sequence R) /\
    (forall v, v ∈ attack_sequence R -> v ∈ nodes G) /\
    length (removal_fractions R) = S (length (attack_sequence R)) /\
    length (lcc_values R) = S (length (attack_sequence R)) /\
    (forall i f, removal_fractions R !! i = Some f ->
       (f == inject_Z (Z.of_nat i) / inject_Z (number_of_nodes G))%Q) /\
    (forall i q, lcc_values R !! i = Some q ->
       (q == lcc_fraction (removed_all G (take i (attack_sequence R)))
                          (number_of_nodes G))%Q) /\
    compute_r_res R = Return (r_res R) /\
    find_collapse_point R thr = Return (collapse_fraction R).
Proof.
  destruct w as [self st]. cbn [fst snd]. intros Hwf Hg Hrun.
  destruct (attack_run _ _ _ _ _ _ _ _ _ _ Hg Hrun)
    as (lcc0 & seq & fr & lc & self' & G' & rr & c & Hlcc0 & Hsteps & Hrr & Hc & -> & ->).
  assert (0 < number_of_nodes G \/ G = []) as Hn.
  { unfold number_of_nodes. destruct G; [right; reflexivity | left; simpl; lia]. }
  destruct (compute_lcc_ratio_returns G _ Hn) as (q0 & Eq0 & Hq0).
  rewrite Eq0 in Hlcc0. inversion Hlcc0; subst q0. clear Hlcc0.
  destruct (attack_steps_spec _ _ _ _ _ _ _ _ _ _ _ _ Hwf Hn Hsteps)
    as (new & fnew & lnew & -> & -> & -> & Hlen & Hlf & Hll & Hnd & Hsub & -> & Hf & Hl).
  eexists. split.
  { cbn [snd results]. rewrite lookup_app_r by lia. rewrite Nat.sub_diag. reflexivity. }
  cbn [fst snd results graphs attack_sequence removal_fractions lcc_values
       algorithm_name dataset_name graph_name collapse_threshold initial_nodes
       initial_edges budget r_res collapse_fraction app length].
  repeat split; auto; try lia.
  - intros [| i] f Hfi.
    + cbn in Hfi. inversion Hfi. symmetry. apply Qdiv_0_l.
    + cbn in Hfi. apply Hf in Hfi. subst f. reflexivity.
  - intros [| i] q Hqi.
    + cbn in Hqi. inversion Hqi; subst q. exact Hq0.
    + cbn in Hqi. apply Hl in Hqi. exact Hqi.
Qed.
End ResultSpec.

(** X1: the attack sequence of a returned result has at most [budget]
    entries and at most as many as the graph has nodes, names no node
    twice, and names only nodes of the caller's graph, whatever the
    strategy. *)
Theorem attack_sequence_distinct_nodes
        {node : Type} `{EqDecision node} {Self : Type} `{BaseAttack (node:=node) Self}
        (graph : nat) (G : Graph node) (w w' : world node Self) (bud : Z)
        (dn gn : string) (thr : Q) (result : nat) :
  wf G -> graphs w.2 !! graph = Some G ->
  attack graph bud dn gn thr w = (Return result, w') ->
  exists R,
    results w'.2 !! result = Some R /\
    Z.of_nat (length (attack_sequence R)) <= Z.max 0 bud /\
    Z.of_nat (length (attack_sequence R)) <= number_of_nodes G /\
    NoDup (attack_sequence R) /\
    (forall v, v ∈ attack_sequence R -> v ∈ nodes G).
Proof.
  intros Hwf Hg Hrun.
  destruct (attack_result_spec _ _ _ _ _ _ _ _ _ Hwf Hg Hrun)
    as (R & HR & _ & _ & _ & _ & _ & _ & _ & _ & _ & Hlen & Hnd & Hsub & _).
  exists R. repeat split; auto; [lia |].
  unfold number_of_nodes. rewrite <- length_nodes. apply Nat2Z.inj_le.
  apply submseteq_length, NoDup_submseteq; assumption.
Qed.

Lemma attack_sequence_distinct_nodes_witness :
  exists R,
    results (attack 0%nat 2 "unknown" "unknown" (2 # 10) hda_path_world).2.2 !! 0%nat
    = Some R /\
    Z.of_nat (length (attack_sequence R)) <= Z.max 0 2 /\
    Z.of_nat (length (attack_sequence R)) <= number_of_nodes path5 /\
    NoDup (attack_sequence R) /\
    (forall v, v ∈ attack_sequence R -> v ∈ nodes path5).
Proof.
  apply (attack_sequence_distinct_nodes 0%nat path5 hda_path_world _ 2
           "unknown" "unknown" (2 # 10) 0%nat path5_wf eq_refl).
  vm_compute. reflexivity.
Defined.

(** X2: the two curves of a returned result describe its attack sequence:
    both have one point more than the sequence has nodes, point i of
    removal_fractions is i / initial_nodes, and point i of lcc_values is
    the size of the largest component of the caller's graph without the
    first i nodes of the sequence, over initial_nodes; every LCC value lies
    in [0, 1]. *)
Theorem attack_curves_follow_sequence
        {node : Type} `{EqDecision node} {Self : Type} `{BaseAttack (node:=node) Self}
        (graph : nat) (G : Graph node) (w w' : world node Self) (bud : Z)
        (dn gn : string) (thr : Q) (result : nat) :
  wf G -> graphs w.2 !! graph = Some G ->
  attack graph bud dn gn thr w = (Return result, w') ->
  exists R,
    results w'.2 !! result = Some R /\
    initial_nodes R = number_of_nodes G /\
    length (removal_fractions R) = S (length (attack_sequence R)) /\
    length (lcc_values R) = S (length (attack_sequence R)) /\
    forall i, (i <= length (attack_sequence R))%nat ->
      exists f q,
        removal_fractions R !! i = Some f /\
        (f == inject_Z (Z.of_nat i) / inject_Z (initial_nodes R))%Q /\
        lcc_values R !! i = Some q /\
        (q == lcc_fraction (removed_all G (take i (attack_sequence R)))
                           (initial_nodes R))%Q /\
        (0 <= q <= 1)%Q.
Proof.
  intros Hwf Hg Hrun.
  destruct (attack_result_spec _ _ _ _ _ _ _ _ _ Hwf Hg Hrun)
    as (R & HR & _ & _ & _ & _ & _ & _ & Hn & _ & _ & _ & _ & _ & Hlf & Hll
        & Hf & Hl & _).
  exists R. repeat split; auto. intros i Hi. rewrite Hn.
  destruct (lookup_lt_is_Some_2 (removal_fractions R) i) as [f Ef]; [lia |].
  destruct (lookup_lt_is_Some_2 (lcc_values R) i) as [q Eq]; [lia |].
  exists f, q. repeat split; auto.
  - rewrite (Hl i q Eq). apply lcc_fraction_range.
    + apply wf_removed_all, Hwf.
    + apply Nat2Z.inj_le, length_removed_all_le.
  - rewrite (Hl i q Eq). apply lcc_fraction_range.
    + apply wf_removed_all, Hwf.
    + apply Nat2Z.inj_le, length_removed_all_le.
Qed.

Lemma attack_curves_follow_sequence_witness :
  exists R,
    results (attack 0%nat 2 "unknown" "unknown" (2 # 10) hda_path_world).2.2 !! 0%nat
    = Some R /\
    initial_nodes R = number_of_nodes path5 /\
    length (removal_fractions R) = S (length (attack_sequence R)) /\
    length (lcc_values R) = S (length (attack_sequence R)) /\
    forall i, (i <= length (attack_sequence R))%nat ->
      exists f q,
        removal_fractions R !! i = Some f /\
        (f == inject_Z (Z.of_nat i) / inject_Z (initial_nodes R))%Q /\
        lcc_values R !! i = Some q /\
        (q == lcc_fraction (removed_all path5 (take i (attack_sequence R)))
                           (initial_nodes R))%Q /\
        (0 <= q <= 1)%Q.
Proof.
  apply (attack_curves_follow_sequence 0%nat path5 hda_path_world _ 2
           "unknown" "unknown" (2 # 10) 0%nat path5_wf eq_refl).
  vm_compute. reflexivity.
Defined.

Section RresBounds.
Context {node : Type} `{EqDecision node}.

Lemma fractions_nondecreasing (fr : list Q) (n : Z) :
  0 <= n ->
  (forall i f, fr !! i = Some f -> (f == inject_Z (Z.of_nat i) / inject_Z n)%Q) ->
  nondecreasing fr.
Proof.
  intros Hn Hf i a b Ha Hb. rewrite (Hf _ _ Ha), (Hf _ _ Hb).
  destruct (Z.eq_dec n 0) as [-> | Hne].
  - rewrite !Qdiv_0_r. apply Qle_refl.
  - apply Qdiv_le_mono; lia.
Qed.

Lemma fraction_le_one (k n : Z) : 0 <= k <= n -> (0 <= inject_Z k / inject_Z n <= 1)%Q.
Proof.
  intros Hk. destruct (Z.eq_dec n 0) as [-> | Hne].
  - rewrite Qdiv_0_r. split; [apply Qle_refl | discriminate].
  - split.
    + rewrite <- (Qdiv_0_l n). apply Qdiv_le_mono; lia.
    + rewrite <- (Qdiv_same n) by lia. apply Qdiv_le_mono; lia.
Qed.
End RresBounds.

(** ** Highest-degree selection *)

(** [max(xs, key=key)] splits the sequence at the first element with the
    largest key. *)
Lemma py_max_from_first {A} (key : A -> Z) (xs : list A) :
  forall (best : A) (pre mid : list A),
    (forall x, x ∈ pre -> key x < key best) ->
    (forall x, x ∈ mid -> key x <= key best) ->
    exists pre' post,
      pre ++ best :: mid ++ xs = pre' ++ py_max_from key best xs :: post /\
      (forall x, x ∈ pre' -> key x < key (py_max_from key best xs)) /\
      (forall x, x ∈ post -> key x <= key (py_max_from key best xs)).
Proof.
  induction xs as [| x xs IH]; intros best pre mid Hpre Hmid.
  - exists pre, mid. rewrite app_nil_r. auto.
  - cbn [py_max_from]. destruct (Z.ltb_spec (key best) (key x)) as [Hlt | Hge].
    + destruct (IH x (pre ++ best :: mid) []) as (pre' & post & E & H1 & H2).
      * intros y Hy. apply elem_of_app in Hy as [Hy | Hy].
        -- specialize (Hpre y Hy). lia.
        -- apply elem_of_cons in Hy as [-> | Hy]; [exact Hlt |].
           specialize (Hmid y Hy). lia.
      * intros y Hy. inversion Hy.
      * exists pre', post. split; [| auto].
        rewrite <- E. rewrite <- app_assoc. reflexivity.
    + destruct (IH best pre (mid ++ [x])) as (pre' & post & E & H1 & H2).
      * exact Hpre.
      * intros y Hy. apply elem_of_app in Hy as [Hy | Hy]; [auto |].
        apply list_elem_of_singleton in Hy as ->. exact Hge.
      * exists pre', post. split; [| auto].
        rewrite <- E. rewrite <- app_assoc. reflexivity.
Qed.

Lemma hda_adaptive_select {node : Type} `{EqDecision node}
      (self : HighestDegreeAttack node) (k : node) (ns : list node) (G0 : Graph node) :
  recalculate self = true ->
  hda_select_node self ((k, ns) :: G0)
  = (Return (Some (py_max_from (degree ((k, ns) :: G0)) k (nodes G0))), self).
Proof.
  intros Hrec. unfold hda_select_node. rewrite Hrec.
  assert ((number_of_nodes ((k, ns) :: G0) =? 0) = false) as ->.
  { apply Z.eqb_neq. unfold number_of_nodes. simpl. lia. }
  reflexivity.
Qed.

(** X4: on a graph with at least one node the adaptive highest-degree
    strategy answers with the first node, in the graph's node order, whose
    current degree is the largest; the attacker itself is not changed. *)
Theorem hda_selects_first_max_degree
        {node : Type} `{EqDecision node}
        (self : HighestDegreeAttack node) (G : Graph node) :
  recalculate self = true -> G <> [] ->
  exists v pre post,
    select_node self G = (Return (Some v), self) /\
    nodes G = pre ++ v :: post /\
    (forall u, u ∈ pre -> degree G u < degree G v) /\
    (forall u, u ∈ post -> degree G u <= degree G v).
Proof.
  intros Hrec Hne. cbn [select_node HighestDegreeAttack_BaseAttack].
  destruct G as [| [k ns] G0] eqn:EG; [contradiction |]. rewrite <- EG.
  destruct (py_max_from_first (degree G) (nodes G0) k [] [])
    as (pre & post & E & H1 & H2).
  - intros x Hx. inversion Hx.
  - intros x Hx. inversion Hx.
  - exists (py_max_from (degree G) k (nodes G0)), pre, post.
    split; [rewrite EG; apply hda_adaptive_select, Hrec |].
    split; [rewrite EG at 1; exact E | auto].
Qed.

Lemma hda_selects_first_max_degree_witness :
  exists v pre post,
    select_node (HighestDegreeAttack_init true) path5
    = (Return (Some v), HighestDegreeAttack_init true) /\
    nodes path5 = pre ++ v :: post /\
    (forall u, u ∈ pre -> degree path5 u < degree path5 v) /\
    (forall u, u ∈ post -> degree path5 u <= degree path5 v).
Proof.
  apply (hda_selects_first_max_degree (HighestDegreeAttack_init true) path5).
  - reflexivity.
  - discriminate.
Defined.

(** ** Strategies that always find a node *)

Section Exhaustive.
Context {node : Type} `{EqDecision node}.
Context {Self : Type} `{BaseAttack (node:=node) Self}.

Lemma length_filter_ne (n : node) (l : list node) :
  NoDup l -> n ∈ l -> length (filter (fun k => k <> n) l) = pred (length l).
Proof.
  induction l as [| k l IH]; intros Hnd Hn; [inversion Hn |].
  apply NoDup_cons in Hnd as [Hk Hnd]. rewrite filter_cons.
  destruct (decide (k <> n)) as [Hkn | Hkn].
  - apply elem_of_cons in Hn as [-> | Hn]; [contradiction |].
    cbn [length]. rewrite IH by assumption.
    destruct l; [inversion Hn | reflexivity].
  - assert (k = n) as -> by (destruct (decide (k = n)); [assumption | contradiction]).
    cbn [length pred]. f_equal.
    clear IH Hn Hnd. induction l as [| x l IH]; [reflexivity |].
    rewrite filter_cons. destruct (decide (x <> n)) as [Hx | Hx].
    + cbn [length]. f_equal. apply IH. intros Hin. apply Hk. right. exact Hin.
    + exfalso. apply Hk. destruct (decide (x = n)) as [-> | ?]; [left | contradiction].
Qed.

Lemma length_removed_exact (G : Graph node) (n : node) :
  NoDup (nodes G) -> n ∈ nodes G -> length (removed G n) = pred (length G).
Proof.
  intros Hnd Hn. rewrite <- !length_nodes, nodes_removed.
  apply length_filter_ne; assumption.
Qed.

Lemma filter_notin_nil (l : list node) : filter (fun k => k ∉ []) l = l.
Proof.
  induction l as [| k l IH]; [reflexivity |].
  rewrite filter_cons. destruct (decide (k ∉ [])) as [_ | Hk].
  - f_equal. exact IH.
  - exfalso. apply Hk. intros Hin. inversion Hin.
Qed.

Lemma filter_notin_cons (v : node) (vs l : list node) :
  filter (fun k => k ∉ vs) (filter (fun k => k <> v) l)
  = filter (fun k => k ∉ v :: vs) l.
Proof.
  induction l as [| k l IH]; [reflexivity |].
  rewrite (filter_cons (fun k => k <> v)), (filter_cons (fun k => k ∉ v :: vs)).
  destruct (decide (k <> v)) as [Hkv | Hkv].
  - rewrite filter_cons.
    destruct (decide (k ∉ vs)) as [Hk | Hk];
      destruct (decide (k ∉ v :: vs)) as [Hk' | Hk'].
    + f_equal. exact IH.
    + exfalso. apply Hk'. intros Hin. apply elem_of_cons in Hin as [-> | Hin]; auto.
    + exfalso. apply Hk. intros Hin. apply Hk'. right. exact Hin.
    + exact IH.
  - destruct (decide (k ∉ v :: vs)) as [Hk' | Hk']; [| exact IH].
    exfalso. apply Hk'. destruct (decide (k = v)) as [-> | ?]; [left | contradiction].
Qed.

Lemma nodes_removed_all (vs : list node) : forall G : Graph node,
  nodes (removed_all G vs) = filter (fun k => k ∉ vs) (nodes G).
Proof.
  induction vs as [| v vs IH]; intros G.
  - symmetry. apply filter_notin_nil.
  - change (removed_all G (v :: vs)) with (removed_all (removed G v) vs).
    rewrite IH, nodes_removed. apply filter_notin_cons.
Qed.

(** A strategy state [P] that the strategy keeps and under which it
    never answers None on a graph that still has nodes: the loop then
    runs until the budget or the graph is used up. *)
Lemma attack_steps_exhaustive (P : Self -> Prop) (n0 : Z) :
  (forall self G o self',
      P self -> select_node self G = (o, self') ->
      P self' /\ (G <> [] -> o <> Return None)) ->
  forall steps (self : Self) (G : Graph node) seq fr lc seq' fr' lc' self' G',
    P self -> NoDup (nodes G) ->
    attack_steps steps self G n0 seq fr lc = (Return (seq', fr', lc'), self', G') ->
    length seq' = (length seq + Nat.min steps (length G))%nat.
Proof.
  intros HP. induction steps as [| steps IH];
    intros self G seq fr lc seq' fr' lc' self' G' Hself Hnd Hrun.
  - cbn in Hrun. inversion Hrun; subst. cbn. lia.
  - cbn [attack_steps] in Hrun.
    destruct (Z.eqb_spec (number_of_nodes G) 0) as [E0 | Hne0].
    { unfold number_of_nodes in E0.
      assert (length G = 0%nat) as EG by lia.
      inversion Hrun; subst. rewrite EG. lia. }
    assert (G <> []) as HG by (intros ->; apply Hne0; reflexivity).
    destruct (select_node self G) as [o self1] eqn:Esel.
    destruct (HP _ _ _ _ Hself Esel) as [Hself1 Hsome]. specialize (Hsome HG).
    destruct o as [[v |] | e |]; try discriminate; [| congruence].
    destruct (remove_node G v) as [G1 | e |] eqn:Erm; try discriminate.
    apply remove_node_Return in Erm as [Hv ->].
    destruct (py_truediv _ n0) as [frac | e |]; try discriminate.
    destruct (_compute_lcc_ratio _ n0) as [lcc | e |]; try discriminate.
    apply IH in Hrun; [| exact Hself1 | rewrite nodes_removed; apply NoDup_filter, Hnd].
    rewrite Hrun, length_app, length_removed_exact by assumption.
    cbn [length]. destruct G; [contradiction |]. cbn [length pred]. lia.
Qed.
End Exhaustive.

(** ** The integral of an attack's curves in binary64 *)

Section RresRounding.
Context {node : Type} `{EqDecision node}.

Lemma length_removed_all_exact (vs : list node) : forall G : Graph node,
  wf G -> NoDup vs -> (forall v, v ∈ vs -> v ∈ nodes G) ->
  (length (removed_all G vs) + length vs = length G)%nat.
Proof.
  induction vs as [| v vs IH]; intros G Hwf Hnd Hsub; [cbn; lia |].
  apply NoDup_cons in Hnd as [Hv Hnd].
  change (removed_all G (v :: vs)) with (removed_all (removed G v) vs).
  assert (v ∈ nodes G) as HvG by (apply Hsub; left).
  pose proof (length_removed_exact G v ltac:(apply Hwf) HvG) as Hlen.
  assert (length G <> 0)%nat as Hne.
  { rewrite <- length_nodes. destruct (nodes G); [inversion HvG | discriminate]. }
  specialize (IH (removed G v) (wf_removed G v Hwf) Hnd).
  cbn [length]. rewrite <- Nat.add_succ_comm. cbn [Nat.add].
  rewrite IH; [lia |].
  intros x Hx. rewrite nodes_removed. apply list_elem_of_filter. split.
  - intros ->. contradiction.
  - apply Hsub. right. exact Hx.
Qed.

(** After i removals the largest component has at most n - i nodes. *)
Lemma lcc_fraction_after (G : Graph node) (vs : list node) :
  wf G -> NoDup vs -> (forall v, v ∈ vs -> v ∈ nodes G) -> 0 < number_of_nodes G ->
  (0 <= lcc_fraction (removed_all G vs) (number_of_nodes G)
   /\ lcc_fraction (removed_all G vs) (number_of_nodes G)
      <= (inject_Z (number_of_nodes G) - inject_Z (Z.of_nat (length vs)))
         / inject_Z (number_of_nodes G))%Q.
Proof.
  intros Hwf Hnd Hsub Hn.
  pose proof (length_removed_all_exact vs G Hwf Hnd Hsub) as Hlen.
  pose proof (largest_cc_size_le (removed_all G vs) (wf_removed_all vs G Hwf)) as Hle.
  unfold lcc_fraction.
  assert (0 < inject_Z (number_of_nodes G))%Q as HN
      by (change 0%Q with (inject_Z 0); rewrite <- Zlt_Qlt; exact Hn).
  split.
  - apply Qle_shift_div_l; [exact HN |]. rewrite Qmult_0_l.
    change 0%Q with (inject_Z 0). rewrite <- Zle_Qle. lia.
  - unfold Qdiv. apply Qmult_le_compat_r;
      [| apply Qlt_le_weak, Qinv_lt_0_compat, HN].
    unfold Qminus. rewrite <- inject_Z_opp, <- inject_Z_plus, <- Zle_Qle.
    unfold number_of_nodes in *. lia.
Qed.
End RresRounding.

(** X3: the r_res stored in a returned result is the np.trapezoid integral
    of its own two curves, and it is at least 0.  On a graph of at most
    2^40 nodes it is at most the fraction of nodes that were removed,
    len(attack_sequence) / initial_nodes, hence at most 1: the exact
    integral stays k^2 / (2 n^2) below that fraction, which covers the
    rounding errors of the binary64 sum. *)
Theorem attack_r_res_bounds
        {node : Type} `{EqDecision node} {Self : Type} `{BaseAttack (node:=node) Self}
        (graph : nat) (G : Graph node) (w w' : world node Self) (bud : Z)
        (dn gn : string) (thr : Q) (result : nat) :
  wf G -> graphs w.2 !! graph = Some G ->
  attack graph bud dn gn thr w = (Return result, w') ->
  exists R,
    results w'.2 !! result = Some R /\
    compute_r_res R = Return (r_res R) /\
    (0 <= r_res R)%Q /\
    (number_of_nodes G <= 2 ^ 40 ->
     (r_res R <= inject_Z (Z.of_nat (length (attack_sequence R)))
                 / inject_Z (initial_nodes R))%Q /\
     (r_res R <= 1)%Q).
Proof.
  intros Hwf Hg Hrun.
  destruct (attack_result_spec _ _ _ _ _ _ _ _ _ Hwf Hg Hrun)
    as (R & HR & _ & _ & _ & _ & _ & _ & Hn & _ & _ & _ & Hnd & Hsub & Hlf & Hll
        & Hf & Hl & Hrr & _).
  exists R. split; [exact HR |]. split; [exact Hrr |]. rewrite Hn.
  assert (Z.of_nat (length (attack_sequence R)) <= number_of_nodes G) as Hk.
  { unfold number_of_nodes. rewrite <- length_nodes. apply Nat2Z.inj_le.
    apply submseteq_length, NoDup_submseteq; assumption. }
  pose proof (fraction_le_one (Z.of_nat (length (attack_sequence R)))
                (number_of_nodes G) ltac:(lia)) as [Hk0 Hk1].
  unfold compute_r_res in Hrr.
  destruct (Nat.ltb_spec (length (lcc_values R)) 2) as [Hshort | Hlong].
  { injection Hrr as E. rewrite <- E. split; [apply Qle_refl |].
    intros _. split; [exact Hk0 | discriminate]. }
  rewrite np_trapezoid_same_length in Hrr by lia.
  injection Hrr as E. rewrite <- E. clear E.
  set (k := length (attack_sequence R)) in *.
  assert (1 <= k)%nat as Hk1' by lia.
  assert (0 < number_of_nodes G) as Hn0 by lia.
  assert (1 <= inject_Z (number_of_nodes G))%Q as HN
      by (change 1%Q with (inject_Z 1); rewrite <- Zle_Qle; lia).
  destruct (trapezoid_terms_approx (inject_Z (number_of_nodes G)) k HN
              (removal_fractions R) (lcc_values R) 0%nat) as (Hnn & HlenT & Happ).
  - lia.
  - lia.
  - rewrite Hlf, <- Zle_Qle. lia.
  - intros j f Hj. exact (Hf j f Hj).
  - intros j q Hj. rewrite (Hl j q Hj).
    assert (j < S k)%nat as Hjk by (rewrite <- Hll; eapply lookup_lt_Some, Hj).
    pose proof (lcc_fraction_after G (take j (attack_sequence R)) Hwf) as Hb.
    rewrite length_take_le in Hb by (fold k; lia).
    apply Hb; [| | exact Hn0].
    + eapply sublist_NoDup; [exact Hnd | apply sublist_take].
    + intros v Hv. apply Hsub. eapply elem_of_sublist; [exact Hv | apply sublist_take].
  - cbv zeta in Hnn, HlenT, Happ.
    set (T := map (fun a => fdiv a 2)
                  (zip_with fmul (np_diff (np_asarray (removal_fractions R)))
                            (np_pair_sums (np_asarray (lcc_values R))))) in *.
    pose proof (np_sum_approx T Hnn) as Hsum.
    split; [apply Hsum |]. intros Hsize.
    pose proof (approx_trans _ _ _ _ _ _ _ Hsum Happ) as Htot.
    rewrite HlenT, Hlf in Htot.
    replace (S k - 1)%nat with k in Htot by lia.
    assert (r_res_le : (np_sum T <= inject_Z (Z.of_nat k) / inject_Z (number_of_nodes G))%Q).
    { apply (trapezoid_total_bound k); [exact Hk1' | | |].
      - rewrite <- Zle_Qle. exact Hk.
      - rewrite <- Zle_Qle. exact Hsize.
      - eapply approx_weaken; [exact Htot | lia | lia | apply Qle_refl]. }
    split; [exact r_res_le | eapply Qle_trans; [exact r_res_le | exact Hk1]].
Qed.

Lemma attack_r_res_bounds_witness :
  exists R,
    results (attack 0%nat 2 "unknown" "unknown" (2 # 10) hda_path_world).2.2 !! 0%nat
    = Some R /\
    compute_r_res R = Return (r_res R) /\
    (0 <= r_res R)%Q /\
    (number_of_nodes path5 <= 2 ^ 40 ->
     (r_res R <= inject_Z (Z.of_nat (length (attack_sequence R)))
                 / inject_Z (initial_nodes R))%Q /\
     (r_res R <= 1)%Q).
Proof.
  apply (attack_r_res_bounds 0%nat path5 hda_path_world _ 2
           "unknown" "unknown" (2 # 10) 0%nat path5_wf eq_refl).
  vm_compute. reflexivity.
Defined.

Section ExhaustiveAttack.
Context {node : Type} `{EqDecision node}.
Context {Self : Type} `{BaseAttack (node:=node) Self}.

(** With such a strategy a returned attack has removed min(budget, |V|)
    nodes; when the budget covers the graph, it has removed every node,
    the last removal fraction is 1 and the last LCC value is 0. *)
Lemma attack_exhaustive (P : Self -> Prop) (graph : nat) (G : Graph node)
      (bud : Z) (dn gn : string) (thr : Q) (w w' : world node Self) (result : nat) :
  (forall self G o self',
      P self -> select_node self G = (o, self') ->
      P self' /\ (G <> [] -> o <> Return None)) ->
  P w.1 -> wf G -> graphs w.2 !! graph = Some G ->
  attack graph bud dn gn thr w = (Return result, w') ->
  exists R,
    results w'.2 !! result = Some R /\
    Z.of_nat (length (attack_sequence R)) = Z.min (Z.max 0 bud) (number_of_nodes G) /\
    (number_of_nodes G <= bud ->
     (forall v, v ∈ nodes G -> v ∈ attack_sequence R) /\
     (exists q, last (lcc_values R) = Some q /\ (q == 0)%Q) /\
     (G <> [] -> exists f, last (removal_fractions R) = Some f /\ (f == 1)%Q)).
Proof.
  intros HP Hself Hwf Hg Hrun.
  destruct (attack_result_spec _ _ _ _ _ _ _ _ _ Hwf Hg Hrun)
    as (R & HR & HRs & _ & _ & _ & _ & _ & _ & _ & _ & _ & Hnd & Hsub & Hlf & Hll
        & Hf & Hl & _).
  assert (length (attack_sequence R) = Nat.min (Z.to_nat bud) (length G)) as Hlen.
  { destruct w as [self st]. cbn [fst snd] in *.
    destruct (attack_run _ _ _ _ _ _ _ _ _ _ Hg Hrun)
      as (lcc0 & seq & fr & lc & self' & G' & rr & c & _ & Hsteps & _ & _ & -> & ->).
    cbn [snd results] in HR. rewrite lookup_app_r in HR by lia.
    rewrite Nat.sub_diag in HR. inversion HR; subst R. cbn [attack_sequence].
    apply (attack_steps_exhaustive P _ HP _ _ _ _ _ _ _ _ _ _ _ Hself (proj1 Hwf)) in Hsteps.
    exact Hsteps. }
  exists R. split; [exact HR |]. split; [unfold number_of_nodes; lia |].
  intros Hbud. unfold number_of_nodes in Hbud.
  assert (length (attack_sequence R) = length (nodes G)) as Hall.
  { rewrite length_nodes. lia. }
  assert (attack_sequence R ≡ₚ nodes G) as Hperm.
  { apply submseteq_length_Permutation; [| lia].
    apply NoDup_submseteq; assumption. }
  split; [| split].
  - intros v Hv. rewrite Hperm. exact Hv.
  - destruct (lookup_lt_is_Some_2 (lcc_values R) (length (attack_sequence R)))
      as [q Eq]; [lia |].
    exists q. split; [rewrite last_lookup, Hll; exact Eq |].
    rewrite (Hl _ _ Eq), firstn_all.
    assert (removed_all G (attack_sequence R) = []) as ->.
    { apply (map_eq_nil fst). change (map fst ?g) with (nodes g).
      rewrite nodes_removed_all.
      destruct (filter _ (nodes G)) as [| v l] eqn:Efil; [reflexivity |].
      assert (v ∈ filter (fun k => k ∉ attack_sequence R) (nodes G)) as Hv
          by (rewrite Efil; left).
      apply list_elem_of_filter in Hv as [Hnot Hv].
      exfalso. apply Hnot. rewrite Hperm. exact Hv. }
    symmetry. apply lcc_fraction_empty.
  - intros HG.
    destruct (lookup_lt_is_Some_2 (removal_fractions R) (length (attack_sequence R)))
      as [f Ef]; [lia |].
    exists f. split; [rewrite last_lookup, Hlf; exact Ef |].
    rewrite (Hf _ _ Ef), Hall, length_nodes. apply Qdiv_same.
    unfold number_of_nodes. destruct G; [contradiction | simpl; lia].
Qed.
End ExhaustiveAttack.

Section HdaExhaustive.
Context {node : Type} `{EqDecision node}.

Lemma hda_adaptive_never_gives_up
      (self : HighestDegreeAttack node) (G : Graph node) o self' :
  recalculate self = true -> select_node self G = (o, self') ->
  recalculate self' = true /\ (G <> [] -> o <> Return None).
Proof.
  intros Hrec Hsel. destruct (decide (G = [])) as [-> | HG].
  - cbn in Hsel. inversion Hsel; subst. split; [exact Hrec | contradiction].
  - destruct G as [| [k ns] G0]; [contradiction |].
    cbn [select_node HighestDegreeAttack_BaseAttack] in Hsel.
    rewrite (hda_adaptive_select self k ns G0 Hrec) in Hsel.
    inversion Hsel; subst. split; [exact Hrec | discriminate].
Qed.
End HdaExhaustive.

(** X5: the adaptive highest-degree attack on a well-formed graph always
    returns, and it removes exactly min(budget, |V|) nodes (none for a
    negative budget).  When the budget is at least |V| every node of the
    graph is in the attack sequence, the last LCC value is 0 and the last
    removal fraction is 1. *)
Theorem hda_attack_exhausts_budget
        {node : Type} `{EqDecision node}
        (graph : nat) (G : Graph node) (self : HighestDegreeAttack node)
        (st : store node) (bud : Z) (dn gn : string) (thr : Q) :
  recalculate self = true -> wf G -> graphs st !! graph = Some G ->
  exists result w' R,
    hda_attack graph bud dn gn thr (self, st) = (Return result, w') /\
    results w'.2 !! result = Some R /\
    Z.of_nat (length (attack_sequence R)) = Z.min (Z.max 0 bud) (number_of_nodes G) /\
    (number_of_nodes G <= bud ->
     (forall v, v ∈ nodes G -> v ∈ attack_sequence R) /\
     (exists q, last (lcc_values R) = Some q /\ (q == 0)%Q) /\
     (G <> [] -> exists f, last (removal_fractions R) = Some f /\ (f == 1)%Q)).
Proof.
  intros Hrec Hwf Hg.
  assert (hda_attack graph bud dn gn thr (self, st)
          = attack graph bud dn gn thr (self, st)) as Ehda.
  { unfold hda_attack. unfold bind at 1, read_graph at 1, py_index.
    cbn [fst snd]. rewrite Hg. unfold bind at 1, on_self at 1. cbn [fst snd].
    rewrite Hrec. reflexivity. }
  rewrite Ehda.
  pose proof (attack_spec graph G bud dn gn thr Hwf (self, st) Hg) as Hspec.
  destruct (attack graph bud dn gn thr (self, st)) as [o w'] eqn:Erun.
  cbn [fst snd] in Hspec.
  destruct o as [result | e |];
    [| exfalso; apply Hspec, hda_well_behaved | exfalso; apply Hspec, hda_well_behaved].
  destruct (attack_exhaustive (fun s => recalculate s = true) graph G bud dn gn thr
              (self, st) w' result) as (R & HR & Hlen & Hfull); auto.
  { intros s0 G0 o s1. apply hda_adaptive_never_gives_up. }
  exists result, w', R. auto.
Qed.

Lemma hda_attack_exhausts_budget_witness :
  exists result w' R,
    hda_attack 0%nat 7 "unknown" "unknown" (2 # 10) hda_path_world
    = (Return result, w') /\
    results w'.2 !! result = Some R /\
    Z.of_nat (length (attack_sequence R)) = Z.min (Z.max 0 7) (number_of_nodes path5) /\
    (number_of_nodes path5 <= 7 ->
     (forall v, v ∈ nodes path5 -> v ∈ attack_sequence R) /\
     (exists q, last (lcc_values R) = Some q /\ (q == 0)%Q) /\
     (path5 <> [] -> exists f, last (removal_fractions R) = Some f /\ (f == 1)%Q)).
Proof.
  apply (hda_attack_exhausts_budget 0%nat path5 (HighestDegreeAttack_init true)
           (mkStore [path5] []) 7 "unknown" "unknown" (2 # 10)).
  - reflexivity.
  - exact path5_wf.
  - reflexivity.
Defined.

Lemma ra_never_gives_up {node : Type} `{EqDecision node}
      (self : RandomAttack) (G : Graph node) o self' :
  True -> select_node self G = (o, self') ->
  True /\ (G <> [] -> o <> Return None).
Proof.
  intros _ Hsel. split; [exact I |]. intros HG.
  cbn [select_node RandomAttack_BaseAttack] in Hsel. unfold ra_select_node in Hsel.
  assert ((number_of_nodes G =? 0) = false) as E0.
  { apply Z.eqb_neq. unfold number_of_nodes. destruct G; [contradiction | simpl; lia]. }
  rewrite E0 in Hsel.
  destruct (MT19937.choice (nodes G) (_rng self)) as [[v | e |] rng];
    inversion Hsel; subst; discriminate.
Qed.

(** X6: a random attack that returns has removed exactly min(budget, |V|)
    nodes (none for a negative budget): the strategy never answers None
    while the graph has nodes.  When the budget is at least |V| every node
    is in the attack sequence, the last LCC value is 0 and the last removal
    fraction is 1. *)
Theorem random_attack_exhausts_budget
        {node : Type} `{EqDecision node}
        (graph : nat) (G : Graph node) (w w' : world node RandomAttack)
        (bud : Z) (dn gn : string) (thr : Q) (result : nat) :
  wf G -> graphs w.2 !! graph = Some G ->
  attack graph bud dn gn thr w = (Return result, w') ->
  exists R,
    results w'.2 !! result = Some R /\
    Z.of_nat (length (attack_sequence R)) = Z.min (Z.max 0 bud) (number_of_nodes G) /\
    (number_of_nodes G <= bud ->
     (forall v, v ∈ nodes G -> v ∈ attack_sequence R) /\
     (exists q, last (lcc_values R) = Some q /\ (q == 0)%Q) /\
     (G <> [] -> exists f, last (removal_fractions R) = Some f /\ (f == 1)%Q)).
Proof.
  intros Hwf Hg Hrun.
  apply (attack_exhaustive (fun _ => True) graph G bud dn gn thr w w' result); auto.
  intros s0 G0 o s1. apply ra_never_gives_up.
Qed.

Lemma random_attack_exhausts_budget_witness :
  exists R,
    results (attack 0%nat 2 "unknown" "unknown" (2 # 10) path5_world).2.2 !! 0%nat
    = Some R /\
    Z.of_nat (length (attack_sequence R)) = Z.min (Z.max 0 2) (number_of_nodes path5) /\
    (number_of_nodes path5 <= 2 ->
     (forall v, v ∈ nodes path5 -> v ∈ attack_sequence R) /\
     (exists q, last (lcc_values R) = Some q /\ (q == 0)%Q) /\
     (path5 <> [] -> exists f, last (removal_fractions R) = Some f /\ (f == 1)%Q)).
Proof.
  apply (random_attack_exhausts_budget 0%nat path5 path5_world _ 2
           "unknown" "unknown" (2 # 10) 0%nat path5_wf eq_refl).
  vm_compute. reflexivity.
Defined.

(** ** The static ranking *)

Section Ranking.
Context {node : Type} `{EqDecision node}.
Variable key : node -> Z.

Let desc (a b : node) : Prop := key b <= key a.

Lemma insert_desc_perm (x : node) (l : list node) : insert_desc key x l ≡ₚ x :: l.
Proof.
  induction l as [| y l IH]; cbn [insert_desc]; [reflexivity |].
  destruct (key y <? key x); [reflexivity |].
  rewrite IH. apply Permutation_swap.
Qed.

Lemma insert_desc_sorted (x : node) (l : list node) :
  StronglySorted desc l -> StronglySorted desc (insert_desc key x l).
Proof.
  induction l as [| y l IH]; intros Hs; cbn [insert_desc].
  - repeat constructor.
  - apply StronglySorted_inv in Hs as [Hs Hy].
    destruct (Z.ltb_spec (key y) (key x)) as [Hlt | Hge].
    + constructor; [constructor; assumption |].
      constructor; [unfold desc; lia |].
      eapply Forall_impl; [exact Hy |]. unfold desc. intros z Hz. lia.
    + constructor; [apply IH, Hs |].
      rewrite insert_desc_perm. constructor; [exact Hge | exact Hy].
Qed.

Lemma filter_key_none (k : Z) (l : list node) :
  (forall z, z ∈ l -> key z <> k) -> filter (fun y => key y = k) l = [].
Proof.
  intros Hall. destruct (filter _ l) as [| v l'] eqn:E; [reflexivity |].
  assert (v ∈ filter (fun y => key y = k) l) as Hv by (rewrite E; left).
  apply list_elem_of_filter in Hv as [Hk Hv]. exfalso. exact (Hall v Hv Hk).
Qed.

Lemma insert_desc_filter (k : Z) (x : node) (l : list node) :
  StronglySorted desc l ->
  filter (fun y => key y = k) (insert_desc key x l)
  = filter (fun y => key y = k) l ++ filter (fun y => key y = k) [x].
Proof.
  induction l as [| y l IH]; intros Hs; cbn [insert_desc]; [reflexivity |].
  apply StronglySorted_inv in Hs as [Hs Hy].
  destruct (Z.ltb_spec (key y) (key x)) as [Hlt | Hge].
  - rewrite (filter_cons _ x (y :: l)). rewrite (filter_cons _ x []), filter_nil.
    destruct (decide (key x = k)) as [Hk | Hk]; [| rewrite app_nil_r; reflexivity].
    rewrite (filter_key_none k (y :: l)); [reflexivity |].
    intros z Hz. apply elem_of_cons in Hz as [-> | Hz]; [lia |].
    rewrite Forall_forall in Hy. specialize (Hy z Hz). unfold desc in Hy. lia.
  - rewrite (filter_cons _ y (insert_desc key x l)), (filter_cons _ y l), IH by exact Hs.
    destruct (decide (key y = k)); reflexivity.
Qed.

Lemma sorted_desc_from (xs : list node) : forall acc,
  StronglySorted desc acc ->
  let r := fold_left (fun acc x => insert_desc key x acc) xs acc in
  r ≡ₚ acc ++ xs /\ StronglySorted desc r /\
  forall k, filter (fun y => key y = k) r
            = filter (fun y => key y = k) acc ++ filter (fun y => key y = k) xs.
Proof.
  induction xs as [| x xs IH]; intros acc Hs; cbn [fold_left].
  - rewrite app_nil_r. split; [reflexivity |]. split; [exact Hs |].
    intros k. rewrite filter_nil, app_nil_r. reflexivity.
  - destruct (IH (insert_desc key x acc) (insert_desc_sorted x acc Hs))
      as (Hp & Hsorted & Hf).
    split; [| split; [exact Hsorted |]].
    + rewrite Hp, insert_desc_perm. cbn [app]. apply Permutation_middle.
    + intros k. rewrite Hf, insert_desc_filter by exact Hs.
      rewrite <- app_assoc. f_equal.
      rewrite (filter_cons _ x xs), (filter_cons _ x []), filter_nil.
      destruct (decide (key x = k)); reflexivity.
Qed.

(** [sorted(xs, key=key, reverse=True)] is a rearrangement of [xs] with
    the keys in descending order, elements of equal key in their order
    in [xs]. *)
Lemma sorted_desc_spec (xs : list node) :
  sorted_desc key xs ≡ₚ xs /\
  StronglySorted desc (sorted_desc key xs) /\
  forall k, filter (fun y => key y = k) (sorted_desc key xs)
            = filter (fun y => key y = k) xs.
Proof.
  unfold sorted_desc.
  destruct (sorted_desc_from xs [] (SSorted_nil _)) as (Hp & Hs & Hf).
  split; [exact Hp |]. split; [exact Hs |]. intros k. rewrite (Hf k). reflexivity.
Qed.
End Ranking.

Section StaticAttack.
Context {node : Type} `{EqDecision node}.

Lemma first_in_graph_skip (done l : list node) (G : Graph node) :
  (forall v, v ∈ done -> v ∉ nodes G) ->
  first_in_graph (done ++ l) G = first_in_graph l G.
Proof.
  induction done as [| d done IH]; intros Hd; [reflexivity |].
  cbn [app first_in_graph]. unfold has_node.
  rewrite bool_decide_eq_false_2 by (apply Hd; left).
  apply IH. intros v Hv. apply Hd. right. exact Hv.
Qed.

Lemma hda_select_keeps_self (self : HighestDegreeAttack node) (G : Graph node) o s :
  select_node self G = (o, s) -> s = self.
Proof.
  cbn [select_node HighestDegreeAttack_BaseAttack]. unfold hda_select_node.
  destruct (number_of_nodes G =? 0); [intros E; inversion E; reflexivity |].
  destruct (recalculate self).
  - destruct (nodes G); intros E; inversion E; reflexivity.
  - destruct (_initial_ranking self); intros E; inversion E; reflexivity.
Qed.

Lemma hda_steps_keep_self (n0 : Z) steps :
  forall (self : HighestDegreeAttack node) (G : Graph node) seq fr lc o self' G',
    attack_steps steps self G n0 seq fr lc = (o, self', G') -> self' = self.
Proof.
  induction steps as [| steps IH]; intros self G seq fr lc o self' G' Hsteps.
  - cbn in Hsteps. inversion Hsteps. reflexivity.
  - cbn [attack_steps] in Hsteps.
    destruct (number_of_nodes G =? 0); [inversion Hsteps; reflexivity |].
    destruct (select_node self G) as [o1 s] eqn:Esel.
    apply hda_select_keeps_self in Esel as ->.
    destruct o1 as [[v |] | e |]; try (inversion Hsteps; reflexivity).
    destruct (remove_node G v) as [G1 | e |]; try (inversion Hsteps; reflexivity).
    destruct (py_truediv _ _) as [frac | e |]; try (inversion Hsteps; reflexivity).
    destruct (_compute_lcc_ratio _ _) as [lcc | e |]; try (inversion Hsteps; reflexivity).
    eapply IH, Hsteps.
Qed.

(** The static strategy walks down its ranking: [done] has been removed,
    [todo] is still in the graph. *)
Lemma attack_steps_static (n0 : Z) steps :
  forall (self : HighestDegreeAttack node) (G : Graph node) done todo
         seq fr lc seq' fr' lc' self' G',
    recalculate self = false ->
    _initial_ranking self = Some (done ++ todo) ->
    NoDup (done ++ todo) ->
    (forall v, v ∈ nodes G <-> v ∈ todo) ->
    attack_steps steps self G n0 seq fr lc = (Return (seq', fr', lc'), self', G') ->
    seq' = seq ++ take steps todo.
Proof.
  induction steps as [| steps IH];
    intros self G done todo seq fr lc seq' fr' lc' self' G' Hrec Hrank Hnd Hnodes Hrun.
  - cbn in Hrun. inversion Hrun; subst. rewrite take_0, app_nil_r. reflexivity.
  - cbn [attack_steps] in Hrun.
    destruct (Z.eqb_spec (number_of_nodes G) 0) as [E0 | Hne0].
    { assert (G = []) as -> by (destruct G; [reflexivity | discriminate E0]).
      assert (todo = []) as ->.
      { destruct todo as [| t todo]; [reflexivity |].
        assert (t ∈ nodes (@nil (node * list node))) as Ht by (apply Hnodes; left).
        inversion Ht. }
      inversion Hrun; subst. rewrite take_nil, app_nil_r. reflexivity. }
    cbn [select_node HighestDegreeAttack_BaseAttack] in Hrun.
    unfold hda_select_node in Hrun.
    apply Z.eqb_neq in Hne0 as Hne0'. rewrite Hne0', Hrec, Hrank in Hrun.
    rewrite first_in_graph_skip in Hrun.
    2:{ intros v Hv Hin. apply Hnodes in Hin.
        apply NoDup_app in Hnd as (_ & Hdisj & _). exact (Hdisj v Hv Hin). }
    destruct todo as [| t todo].
    { exfalso. destruct G as [| [k ns] G0]; [apply Hne0; reflexivity |].
      assert (k ∈ @nil node) as Hk by (apply Hnodes; left). inversion Hk. }
    assert (t ∈ nodes G) as Ht by (apply Hnodes; left).
    cbn [first_in_graph] in Hrun. unfold has_node in Hrun.
    rewrite bool_decide_eq_true_2 in Hrun by exact Ht.
    destruct (remove_node G t) as [G1 | e |] eqn:Erm; try discriminate.
    apply remove_node_Return in Erm as [_ ->].
    destruct (py_truediv _ n0) as [frac | e |]; try discriminate.
    destruct (_compute_lcc_ratio _ n0) as [lcc | e |]; try discriminate.
    apply (IH self (removed G t) (done ++ [t]) todo) in Hrun.
    + rewrite Hrun, <- app_assoc. reflexivity.
    + exact Hrec.
    + rewrite <- app_assoc. exact Hrank.
    + rewrite <- app_assoc. exact Hnd.
    + intros v. rewrite nodes_removed, list_elem_of_filter, Hnodes.
      apply NoDup_app in Hnd as (_ & _ & Hnd). apply NoDup_cons in Hnd as [Hnt _].
      split.
      * intros [Hvt Hv]. apply elem_of_cons in Hv as [-> | Hv]; [contradiction | exact Hv].
      * intros Hv. split; [intros -> ; contradiction | right; exact Hv].
Qed.
End StaticAttack.

(** X7: the static highest-degree attack (recalculate = False) on a
    well-formed graph always returns, and its attack sequence is the first
    min(budget, |V|) nodes of the ranking by initial degree.  The ranking
    is a rearrangement of the nodes in descending order of their degree in
    the caller's graph, nodes of equal degree in the graph's node order. *)
Theorem hda_static_attack_follows_ranking
        {node : Type} `{EqDecision node}
        (graph : nat) (G : Graph node) (self : HighestDegreeAttack node)
        (st : store node) (bud : Z) (dn gn : string) (thr : Q) :
  recalculate self = false -> wf G -> graphs st !! graph = Some G ->
  exists result w' R ranking,
    hda_attack graph bud dn gn thr (self, st) = (Return result, w') /\
    results w'.2 !! result = Some R /\
    _initial_ranking w'.1 = Some ranking /\
    attack_sequence R = take (Z.to_nat bud) ranking /\
    ranking ≡ₚ nodes G /\
    StronglySorted (fun a b => degree G b <= degree G a) ranking /\
    forall d, filter (fun v => degree G v = d) ranking
              = filter (fun v => degree G v = d) (nodes G).
Proof.
  intros Hrec Hwf Hg.
  set (ranking := sorted_desc (degree G) (nodes G)).
  set (self1 := mkHDA (hda_name self) false (Some ranking)).
  assert (hda_attack graph bud dn gn thr (self, st)
          = attack graph bud dn gn thr (self1, st)) as Ehda.
  { unfold hda_attack. unfold bind at 1, read_graph at 1, py_index.
    cbn [fst snd]. rewrite Hg. unfold bind at 1, on_self at 1. cbn [fst snd].
    rewrite Hrec. reflexivity. }
  rewrite Ehda.
  pose proof (attack_spec graph G bud dn gn thr Hwf (self1, st) Hg) as Hspec.
  destruct (attack graph bud dn gn thr (self1, st)) as [o w'] eqn:Erun.
  cbn [fst snd] in Hspec.
  destruct o as [result | e |];
    [| exfalso; apply Hspec, hda_well_behaved | exfalso; apply Hspec, hda_well_behaved].
  destruct (sorted_desc_spec (degree G) (nodes G)) as (Hperm & Hsorted & Hstable).
  destruct (attack_run _ _ _ _ _ _ _ _ _ _ Hg Erun)
    as (lcc0 & seq & fr & lc & self' & G' & rr & c & _ & Hsteps & _ & _ & -> & ->).
  apply hda_steps_keep_self in Hsteps as Hself. subst self'.
  apply (attack_steps_static _ _ self1 G [] ranking) in Hsteps.
  - eexists _, _, _, ranking. split; [reflexivity |].
    split; [cbn [snd results]; rewrite lookup_app_r by lia;
            rewrite Nat.sub_diag; reflexivity |].
    cbn [fst attack_sequence]. split; [reflexivity |].
    split; [exact Hsteps |]. split; [exact Hperm |]. split; [exact Hsorted | exact Hstable].
  - reflexivity.
  - reflexivity.
  - cbn [app]. unfold ranking. rewrite Hperm. apply Hwf.
  - intros v. unfold ranking. rewrite Hperm. reflexivity.
Qed.

Lemma hda_static_attack_follows_ranking_witness :
  exists result w' R ranking,
    hda_attack 0%nat 2 "unknown" "unknown" (2 # 10)
               (HighestDegreeAttack_init false, mkStore [path5] [])
    = (Return result, w') /\
    results w'.2 !! result = Some R /\
    _initial_ranking w'.1 = Some ranking /\
    attack_sequence R = take (Z.to_nat 2) ranking /\
    ranking ≡ₚ nodes path5 /\
    StronglySorted (fun a b => degree path5 b <= degree path5 a) ranking /\
    forall d, filter (fun v => degree path5 v = d) ranking
              = filter (fun v => degree path5 v = d) (nodes path5).
Proof.
  apply (hda_static_attack_follows_ranking 0%nat path5 (HighestDegreeAttack_init false)
           (mkStore [path5] []) 2 "unknown" "unknown" (2 # 10)).
  - reflexivity.
  - exact path5_wf.
  - reflexivity.
Defined.

(** ** The collapse point *)

Section CollapseCases.
Variables (values fractions : list Q) (threshold : Q).

Lemma first_below_cases :
  (forall v, v ∈ values -> ~ (v < threshold)%Q) \/
  exists i, first_below values threshold i.
Proof.
  clear fractions.
  induction values as [| x l IH].
  - left. intros v Hv. inversion Hv.
  - destruct (Qlt_le_dec x threshold) as [Hlt | Hge].
    + right. exists 0%nat. split; [intros j v Hj; lia |].
      exists x. split; [reflexivity | exact Hlt].
    + destruct IH as [Hall | (i & Hbefore & v & Hv & Hlt)].
      * left. intros v Hv. apply elem_of_cons in Hv as [-> | Hv]; [| auto].
        apply Qle_not_lt, Hge.
      * right. exists (S i). split.
        -- intros [| j] w Hj Hw.
           ++ cbn in Hw. inversion Hw; subst. apply Qle_not_lt, Hge.
           ++ apply (Hbefore j); [lia | exact Hw].
        -- exists v. split; [exact Hv | exact Hlt].
Qed.

Lemma find_collapse_point_at_start v0 vs f0 fs :
  values = v0 :: vs -> fractions = f0 :: fs -> (v0 < threshold)%Q ->
  find_collapse_from values fractions threshold 0 values = Return (Some f0).
Proof.
  intros -> -> Hlt. cbn [find_collapse_from].
  apply Qltb_lt in Hlt. rewrite Hlt. reflexivity.
Qed.

End CollapseCases.

Section CollapseSpec.
Variables (values fractions : list Q) (threshold : Q).
Hypothesis Hlen : length fractions = length values.

(** AttackResult.find_collapse_point in full: None when no value is
    below the threshold, the first fraction when the first value already
    is, the interpolated crossing otherwise. *)
Lemma find_collapse_point_cases :
  ((forall v, v ∈ values -> ~ (v < threshold)%Q) /\
   find_collapse_from values fractions threshold 0 values = Return None) \/
  (exists i v fc,
      first_below values threshold i /\
      values !! i = Some v /\ fractions !! i = Some fc /\ (v < threshold)%Q /\
      match i with
      | O => find_collapse_from values fractions threshold 0 values = Return (Some fc)
      | S j => exists vp fp,
          values !! j = Some vp /\ fractions !! j = Some fp /\
          (threshold <= vp)%Q /\ ~ (vp == v)%Q /\
          find_collapse_from values fractions threshold 0 values
          = Return (Some (fp + (vp - threshold) / (vp - v) * (fc - fp))%Q)
      end).
Proof.
  destruct (first_below_cases values threshold) as [Hall | (i & Hfirst)].
  - left. split; [exact Hall | apply find_collapse_from_none, Hall].
  - right. pose proof Hfirst as (Hbefore & v & Hv & Hlt).
    destruct (lookup_lt_is_Some_2 fractions i) as [fc Hfc].
    { rewrite Hlen. eapply lookup_lt_Some, Hv. }
    exists i, v, fc.
    split; [exact Hfirst |]. split; [exact Hv |]. split; [exact Hfc |].
    split; [exact Hlt |].
    destruct i as [| j].
    + destruct values as [| v0 vs] eqn:Ev; [discriminate Hv |].
      destruct fractions as [| f0 fs] eqn:Ef; [discriminate Hfc |].
      cbn in Hv, Hfc. inversion Hv; inversion Hfc; subst.
      eapply find_collapse_point_at_start; eauto.
    + destruct (lookup_lt_is_Some_2 values j) as [vp Hvp].
      { apply lookup_lt_Some in Hv. lia. }
      destruct (lookup_lt_is_Some_2 fractions j) as [fp Hfp].
      { apply lookup_lt_Some in Hfc. lia. }
      assert (threshold <= vp)%Q as Hge.
      { apply Qnot_lt_le. apply (Hbefore j vp); [lia | exact Hvp]. }
      assert (~ (vp == v)%Q) as Hne by (intros E; rewrite E in Hge; lra).
      exists vp, fp.
      split; [exact Hvp |]. split; [exact Hfp |]. split; [exact Hge |].
      split; [exact Hne |].
      change values with (drop 0 values) at 2.
      apply (find_collapse_from_interpolates values fractions threshold (S j) vp v fp fc);
        auto; try lia.
      * cbn. rewrite Nat.sub_0_r. exact Hvp.
      * cbn. rewrite Nat.sub_0_r. exact Hfp.
Qed.
End CollapseSpec.



(** X9: the two collapse-point implementations agree whenever the first
    LCC value is not below the threshold (or the curve is empty):
    UnifiedEvaluator._find_collapse_point returns what
    AttackResult.find_collapse_point returns on the same curves. *)
Theorem collapse_implementations_agree
        {node : Type} (R : AttackResult node) (self : UnifiedEvaluator) :
  length (removal_fractions R) = length (lcc_values R) ->
  (forall v0, head (lcc_values R) = Some v0 -> (ev_collapse_threshold self <= v0)%Q) ->
  _find_collapse_point self (lcc_values R) (removal_fractions R)
  = find_collapse_point R (ev_collapse_threshold self).
Proof.
  intros Hlen Hhead. unfold find_collapse_point, _find_collapse_point.
  set (threshold := ev_collapse_threshold self) in *.
  destruct (find_collapse_point_cases (lcc_values R) (removal_fractions R) threshold Hlen)
    as [[Hall E] | (i & v & fc & Hfirst & Hv & Hfc & Hlt & Hcase)].
  - rewrite E.
    apply (_find_collapse_from_none _ _ threshold self 1 _ eq_refl Hall). lia.
  - destruct i as [| j].
    + exfalso. rewrite <- head_lookup in Hv. specialize (Hhead v Hv). lra.
    + destruct Hcase as (vp & fp & Hvp & Hfp & Hge & Hne & E). rewrite E.
      apply (_find_collapse_from_interpolates _ _ threshold self (S j) vp v fp fc
               eq_refl Hfirst); auto; try lia.
      * cbn. rewrite Nat.sub_0_r. exact Hvp.
      * cbn. rewrite Nat.sub_0_r. exact Hfp.
      * apply lookup_lt_Some in Hv. lia.
Qed.

Lemma collapse_implementations_agree_witness :
  _find_collapse_point UnifiedEvaluator_default
    (lcc_values collapse_example) (removal_fractions collapse_example)
  = find_collapse_point collapse_example (ev_collapse_threshold UnifiedEvaluator_default).
Proof.
  apply (collapse_implementations_agree collapse_example UnifiedEvaluator_default).
  - reflexivity.
  - intros v0 Hv0. cbn in Hv0. inversion Hv0; subst. discriminate.
Defined.

(** X10: when the first LCC value is already below the threshold the two
    implementations part: AttackResult.find_collapse_point returns
    fractions[0], while UnifiedEvaluator._find_collapse_point, which starts
    at index 1, returns fractions[1] on a non-increasing curve, and None
    when the curve has a single point. *)
Theorem collapse_implementations_differ
        {node : Type} (R : AttackResult node) (self : UnifiedEvaluator) (v0 f0 : Q) :
  length (removal_fractions R) = length (lcc_values R) ->
  nonincreasing (lcc_values R) ->
  head (lcc_values R) = Some v0 -> head (removal_fractions R) = Some f0 ->
  (v0 < ev_collapse_threshold self)%Q ->
  find_collapse_point R (ev_collapse_threshold self) = Return (Some f0) /\
  _find_collapse_point self (lcc_values R) (removal_fractions R)
  = Return (removal_fractions R !! 1%nat).
Proof.
  intros Hlen Hni Hv0 Hf0 Hlt.
  unfold find_collapse_point, _find_collapse_point.
  destruct (lcc_values R) as [| x vs] eqn:Ev; [discriminate Hv0 |].
  destruct (removal_fractions R) as [| y fs] eqn:Ef; [discriminate Hf0 |].
  cbn in Hv0, Hf0. inversion Hv0; inversion Hf0; subst x y. split.
  - eapply find_collapse_point_at_start; eauto.
  - destruct vs as [| v1 vs]; destruct fs as [| f1 fs]; try discriminate Hlen;
      [reflexivity |].
    cbn [length Nat.sub _find_collapse_from]. unfold py_index.
    cbn [lookup list_lookup obind].
    assert (v1 <= v0)%Q as Hle by (exact (Hni 0%nat v0 v1 eq_refl eq_refl)).
    assert (Qltb v1 (ev_collapse_threshold self) = true) as ->
        by (apply Qltb_lt; lra).
    cbn [Nat.sub lookup list_lookup obind].
    assert (Qle_bool (ev_collapse_threshold self) v0 = false) as ->.
    { apply not_true_is_false. intros E. apply Qle_bool_iff in E. lra. }
    reflexivity.
Qed.

Lemma collapse_implementations_differ_witness :
  find_collapse_point (example_result [0; 0.5]%Q [0.1; 0]%Q)
                      (ev_collapse_threshold UnifiedEvaluator_default)
  = Return (Some 0%Q) /\
  _find_collapse_point UnifiedEvaluator_default [0.1; 0]%Q [0; 0.5]%Q
  = Return (Some 0.5%Q).
Proof.
  apply (collapse_implementations_differ (example_result [0; 0.5]%Q [0.1; 0]%Q)
           UnifiedEvaluator_default 0.1%Q 0%Q).
  - reflexivity.
  - intros [| [| i]] a b Ha Hb; cbn in Ha, Hb; inversion Ha; inversion Hb; subst;
      discriminate.
  - reflexivity.
  - reflexivity.
  - reflexivity.
Defined.

Section NothingToDo.
Context {node : Type} `{EqDecision node}.
Context {Self : Type} `{BaseAttack (node:=node) Self}.

Lemma attack_steps_nothing (steps : nat) (self : Self) (G : Graph node) (n0 : Z)
      seq fr lc :
  steps = 0%nat \/ G = [] ->
  attack_steps steps self G n0 seq fr lc = (Return (seq, fr, lc), self, G).
Proof.
  intros [-> | ->]; [reflexivity |]. destruct steps; reflexivity.
Qed.
End NothingToDo.

(** X11: with a budget of zero or less, or on a graph without nodes,
    BaseAttack.attack never asks the strategy: it returns a new result
    with an empty attack sequence, the single-point curves [0.0] and
    [|LCC| / |V|] (0.0 for the empty graph), r_res 0.0, and a collapse
    fraction of 0.0 when that first LCC value is already below the
    threshold, None otherwise; the attacker is unchanged. *)
Theorem attack_without_steps
        {node : Type} `{EqDecision node} {Self : Type} `{BaseAttack (node:=node) Self}
        (graph : nat) (G : Graph node) (w : world node Self) (bud : Z)
        (dn gn : string) (thr : Q) :
  graphs w.2 !! graph = Some G -> bud <= 0 \/ G = [] ->
  exists lcc0,
    (lcc0 == lcc_fraction G (number_of_nodes G))%Q /\
    (G = [] -> lcc0 = 0%Q) /\
    attack graph bud dn gn thr w
    = (Return (length (results w.2)),
       (w.1, mkStore (graphs w.2 ++ [G])
               (results w.2 ++
                [mkAttackResult (name w.1) dn gn [] [0%Q] [lcc0] 0%Q thr
                   (if Qltb lcc0 thr then Some 0%Q else None)
                   (number_of_nodes G) (number_of_edges G) bud]))).
Proof.
  destruct w as [self st]. cbn [fst snd]. intros Hg Hnothing.
  assert (0 < number_of_nodes G \/ G = []) as Hn.
  { unfold number_of_nodes. destruct G; [right; reflexivity | left; simpl; lia]. }
  destruct (compute_lcc_ratio_returns G _ Hn) as (lcc0 & Hlcc0 & Elcc0).
  exists lcc0. split; [exact Elcc0 |]. split.
  { intros ->. cbn in Hlcc0. inversion Hlcc0. reflexivity. }
  unfold attack.
  unfold bind at 1, read_graph at 1, py_index. cbn [fst snd]. rewrite Hg.
  unfold bind at 1, new_graph at 1, copy. cbn [fst snd].
  unfold bind at 1, lift at 1. rewrite Hlcc0.
  unfold bind at 1.
  rewrite (attack_loop_steps _ _ _ _ _ G).
  2:{ cbn [graphs]. rewrite lookup_app_r by lia. rewrite Nat.sub_diag. reflexivity. }
  rewrite attack_steps_nothing.
  2:{ destruct Hnothing as [Hb | ->]; [left; lia | right; reflexivity]. }
  cbn [graphs results fst snd]. rewrite insert_snoc.
  unfold bind at 1, on_self at 1. cbn [fst snd].
  unfold bind at 1, new_result at 1. cbn [fst snd graphs results].
  unfold bind at 1, read_result at 1, py_index. cbn [fst snd graphs results].
  rewrite lookup_app_r by lia. rewrite Nat.sub_diag. cbn [lookup list_lookup].
  unfold bind at 1, lift at 1. unfold compute_r_res at 1. cbn [lcc_values length Nat.ltb Nat.leb].
  unfold bind at 1, update_result at 1. cbn [fst snd graphs results].
  rewrite lookup_app_r by lia. rewrite Nat.sub_diag. cbn [lookup list_lookup].
  rewrite insert_snoc.
  unfold bind at 1, read_result at 1, py_index. cbn [fst snd graphs results].
  rewrite lookup_app_r by lia. rewrite Nat.sub_diag. cbn [lookup list_lookup].
  unfold bind at 1, lift at 1. unfold find_collapse_point, set_r_res.
  cbn [lcc_values removal_fractions find_collapse_from].
  destruct (Qltb lcc0 thr).
  - cbn [Nat.ltb Nat.leb]. unfold py_index. cbn [lookup list_lookup obind].
    unfold bind at 1, update_result at 1. cbn [fst snd graphs results].
    rewrite lookup_app_r by lia. rewrite Nat.sub_diag. cbn [lookup list_lookup].
    rewrite insert_snoc. reflexivity.
  - unfold bind at 1, update_result at 1. cbn [fst snd graphs results].
    rewrite lookup_app_r by lia. rewrite Nat.sub_diag. cbn [lookup list_lookup].
    rewrite insert_snoc. reflexivity.
Qed.

Lemma attack_without_steps_witness :
  exists lcc0,
    (lcc0 == lcc_fraction path5 (number_of_nodes path5))%Q /\
    (path5 = [] -> lcc0 = 0%Q) /\
    attack 0%nat 0 "unknown" "unknown" (2 # 10) hda_path_world
    = (Return (length (results hda_path_world.2)),
       (hda_path_world.1,
        mkStore (graphs hda_path_world.2 ++ [path5])
          (results hda_path_world.2 ++
           [mkAttackResult (name hda_path_world.1) "unknown" "unknown" [] [0%Q] [lcc0]
              0%Q (2 # 10) (if Qltb lcc0 (2 # 10) then Some 0%Q else None)
              (number_of_nodes path5) (number_of_edges path5) 0]))).
Proof.
  apply (attack_without_steps 0%nat path5 hda_path_world 0 "unknown" "unknown" (2 # 10)).
  - reflexivity.
  - left. lia.
Defined.

Section DismantRefinement.
Context {node : Type} `{EqDecision node}.

Lemma dismant_loop_steps (g : nat) (n0 : Z) (seq : list node) :
  forall (st : store node) (G : Graph node) fr lc,
    graphs st !! g = Some G ->
    dismant_loop seq g n0 fr lc st
    = let r := dismant_steps seq G n0 fr lc in
      (r.1, mkStore (<[g:=r.2]> (graphs st)) (results st)).
Proof.
  induction seq as [| v seq IH]; intros st G fr lc Hg.
  - cbn. unfold ret. rewrite list_insert_id by exact Hg. destruct st; reflexivity.
  - cbn [dismant_loop dismant_steps].
    unfold bind at 1, store_graph at 1, py_index. rewrite Hg.
    assert (mkStore (<[g:=G]> (graphs st)) (results st) = st) as Hid.
    { rewrite list_insert_id by exact Hg. destruct st; reflexivity. }
    destruct (has_node G v).
    + unfold bind at 1. unfold bind at 1, lift at 1.
      destruct (remove_node G v) as [G1 | e |]; try (cbn; rewrite Hid; reflexivity).
      unfold bind at 1, store_write_graph at 1. unfold ret at 1.
      unfold bind at 1, lift at 1.
      destruct (py_truediv _ n0) as [frac | e |]; try reflexivity.
      unfold bind at 1, lift at 1.
      destruct (ue_compute_lcc_ratio G1 n0) as [lcc | e |]; try reflexivity.
      rewrite (IH _ G1).
      * cbn [graphs results]. rewrite list_insert_insert_eq. reflexivity.
      * cbn [graphs]. apply list_lookup_insert_eq. apply lookup_lt_Some in Hg. exact Hg.
    + unfold bind at 1, ret at 1.
      unfold bind at 1, lift at 1.
      destruct (py_truediv _ n0) as [frac | e |]; try (cbn; rewrite Hid; reflexivity).
      unfold bind at 1, lift at 1.
      destruct (ue_compute_lcc_ratio G n0) as [lcc | e |];
        try (cbn; rewrite Hid; reflexivity).
      rewrite (IH _ G _ _ Hg). reflexivity.
Qed.
End DismantRefinement.

Section Replay.
Context {node : Type} `{EqDecision node}.

Lemma filter_all {A} (P : A -> Prop) `{forall x, Decision (P x)} (l : list A) :
  (forall x, x ∈ l -> P x) -> filter P l = l.
Proof.
  induction l as [| x l IH]; intros Hall; [reflexivity |].
  rewrite filter_cons. destruct (decide (P x)) as [_ | Hx].
  - f_equal. apply IH. intros y Hy. apply Hall. right. exact Hy.
  - exfalso. apply Hx, Hall. left.
Qed.

Lemma strip_absent (n : node) (l : Graph node) :
  (forall e, e ∈ l -> forall w, w ∈ e.2 -> w <> n) ->
  map (fun e => (e.1, filter (fun w => w <> n) e.2)) l = l.
Proof.
  induction l as [| [k ns] l IH]; intros Hall; [reflexivity |].
  cbn [map fst snd]. f_equal.
  - f_equal. apply filter_all. intros w Hw. apply (Hall (k, ns)); [left | exact Hw].
  - apply IH. intros e He. apply Hall. right. exact He.
Qed.

(** Removing a node that is not there changes nothing. *)
Lemma removed_absent (G : Graph node) (n : node) :
  wf G -> n ∉ nodes G -> removed G n = G.
Proof.
  intros [_ Hadj] Hn. unfold removed.
  assert (filter (fun e : node * list node => e.1 <> n) G = G) as ->.
  { apply filter_all. intros e He Heq. apply Hn. subst n.
    apply list_elem_of_fmap. exists e. auto. }
  apply strip_absent. rewrite Forall_forall in Hadj.
  intros e He w Hw Heq. subst w. specialize (Hadj e He).
  rewrite Forall_forall in Hadj. apply Hn, Hadj, Hw.
Qed.

(** [if node in g: g.remove_node(node)] never raises. *)
Lemma guarded_remove_returns (G : Graph node) (v : node) :
  exists G', (if has_node G v then remove_node G v else Return G) = Return G' /\
             (length G' <= length G)%nat /\
             (v ∈ nodes G -> G' = removed G v) /\ (v ∉ nodes G -> G' = G).
Proof.
  unfold has_node, remove_node.
  destruct (decide (v ∈ nodes G)) as [Hv | Hv].
  - rewrite bool_decide_eq_true_2 by exact Hv.
    eexists. split; [reflexivity |]. split; [apply length_removed_le |].
    split; [reflexivity | contradiction].
  - rewrite bool_decide_eq_false_2 by exact Hv.
    exists G. split; [reflexivity |]. split; [lia |]. split; [contradiction | reflexivity].
Qed.

Lemma guarded_remove_wf (G : Graph node) (v : node) :
  wf G -> (if has_node G v then remove_node G v else Return G) = Return (removed G v).
Proof.
  intros Hwf. destruct (guarded_remove_returns G v) as (G' & -> & _ & Hin & Hout).
  destruct (decide (v ∈ nodes G)) as [Hv | Hv].
  - rewrite (Hin Hv). reflexivity.
  - rewrite (Hout Hv), removed_absent by assumption. reflexivity.
Qed.

Lemma connected_components_nonempty (G : Graph node) :
  G <> [] -> connected_components G <> [].
Proof.
  destruct G as [| [k ns] G]; [contradiction |]. intros _.
  unfold connected_components. cbn [nodes map fst components_from].
  destruct (decide (k ∈ [])) as [Hk | _]; [inversion Hk | discriminate].
Qed.

(** The LCC ratio the simulation appends is the one evaluate_dismant
    appends. *)
Lemma simulate_ratio_eq (G : Graph node) (n0 : Z) :
  (if number_of_nodes G =? 0 then Return 0%Q
   else
     let ccs := connected_components G in
     let largest_cc_size := match ccs with
                            | [] => 0%nat
                            | _ => largest_cc_size ccs
                            end in
     py_truediv (Z.of_nat largest_cc_size) n0)
  = ue_compute_lcc_ratio G n0.
Proof.
  unfold ue_compute_lcc_ratio.
  destruct (Z.eqb_spec (number_of_nodes G) 0) as [E | Hne]; [reflexivity |].
  assert (G <> []) as HG by (intros ->; apply Hne; reflexivity).
  pose proof (connected_components_nonempty G HG) as Hcc. cbv zeta.
  destruct (connected_components G); [contradiction | reflexivity].
Qed.

Lemma ue_compute_lcc_ratio_returns (G : Graph node) (n0 : Z) :
  0 < n0 \/ G = [] ->
  exists q, ue_compute_lcc_ratio G n0 = Return q /\ (q == lcc_fraction G n0)%Q.
Proof. apply compute_lcc_ratio_returns. Qed.

(** The loop of evaluate_dismant returns for every sequence as long as
    the initial node count is positive, one curve point per sequence entry,
    and the simulation of the metrics module appends the same LCC ratios. *)
Lemma dismant_steps_total (n0 : Z) (seq : list node) :
  forall (G : Graph node) fr lc,
    0 < n0 ->
    exists fnew lnew G',
      dismant_steps seq G n0 fr lc = (Return (fr ++ fnew, lc ++ lnew), G') /\
      length fnew = length seq /\ length lnew = length seq /\
      Metrics.simulate_loop G n0 seq lc = Return (lc ++ lnew).
Proof.
  induction seq as [| v seq IH]; intros G fr lc Hn.
  - exists [], [], G. rewrite !app_nil_r. repeat split; reflexivity.
  - cbn [dismant_steps Metrics.simulate_loop].
    destruct (guarded_remove_returns G v) as (G1 & -> & _ & _ & _).
    cbn [obind]. rewrite simulate_ratio_eq.
    rewrite py_truediv_nonzero by lia.
    destruct (ue_compute_lcc_ratio_returns G1 n0 (or_introl Hn)) as (q & -> & _).
    cbn [obind].
    destruct (IH G1 (fr ++ [(inject_Z (n0 - number_of_nodes G1) / inject_Z n0)%Q])
                (lc ++ [q]) Hn) as (fnew & lnew & G' & -> & Hlf & Hll & ->).
    eexists (_ :: fnew), (q :: lnew), G'.
    rewrite <- !app_assoc. cbn [app length].
    repeat split; auto.
Qed.

(** On a well-formed graph the loop of evaluate_dismant leaves the graph
    without the nodes of the sequence, and point by point its curves are
    the fraction of nodes gone and the LCC ratio of the graph at that
    step. *)
Lemma dismant_steps_spec (n0 : Z) (seq : list node) :
  forall (G : Graph node) fr lc fr' lc' G',
    wf G -> 0 < n0 ->
    dismant_steps seq G n0 fr lc = (Return (fr', lc'), G') ->
    exists fnew lnew,
      fr' = fr ++ fnew /\ lc' = lc ++ lnew /\ G' = removed_all G seq /\
      (forall i f, fnew !! i = Some f ->
         f = (inject_Z (n0 - number_of_nodes (removed_all G (take (S i) seq)))
              / inject_Z n0)%Q) /\
      (forall i q, lnew !! i = Some q ->
         (q == lcc_fraction (removed_all G (take (S i) seq)) n0)%Q).
Proof.
  induction seq as [| v seq IH]; intros G fr lc fr' lc' G' Hwf Hn Hrun.
  - cbn in Hrun. inversion Hrun; subst. exists [], []. rewrite !app_nil_r.
    repeat split; auto.
    + intros i f Hf. destruct i; discriminate Hf.
    + intros i q Hq. destruct i; discriminate Hq.
  - cbn [dismant_steps] in Hrun. rewrite guarded_remove_wf in Hrun by exact Hwf.
    rewrite py_truediv_nonzero in Hrun by lia.
    destruct (ue_compute_lcc_ratio_returns (removed G v) n0 (or_introl Hn))
      as (q0 & Eq0 & Hq0).
    rewrite Eq0 in Hrun.
    apply IH in Hrun; [| apply wf_removed, Hwf | exact Hn].
    destruct Hrun as (fnew & lnew & -> & -> & -> & Hf & Hl).
    eexists (_ :: fnew), (q0 :: lnew). rewrite <- !app_assoc. cbn [app].
    repeat split; auto.
    + intros [| i] f Hfi.
      * cbn in Hfi. inversion Hfi. reflexivity.
      * cbn in Hfi. apply Hf in Hfi. exact Hfi.
    + intros [| i] q Hqi.
      * cbn in Hqi. inversion Hqi; subst. exact Hq0.
      * cbn in Hqi. apply Hl in Hqi. exact Hqi.
Qed.

(** The loop of BaseAttack.attack and the loop of evaluate_dismant on
    the sequence it found build the same curves. *)
Lemma attack_steps_replay {Self : Type} `{BaseAttack (node:=node) Self}
      (n0 : Z) steps :
  forall (self : Self) (G : Graph node) seq fr lc seq' fr' lc' self' G',
    NoDup (nodes G) ->
    number_of_nodes G = n0 - Z.of_nat (length seq) ->
    attack_steps steps self G n0 seq fr lc = (Return (seq', fr', lc'), self', G') ->
    exists new, seq' = seq ++ new /\
                dismant_steps new G n0 fr lc = (Return (fr', lc'), G').
Proof.
  induction steps as [| steps IH];
    intros self G seq fr lc seq' fr' lc' self' G' Hnd Hcount Hrun.
  - cbn in Hrun. inversion Hrun; subst. exists []. rewrite app_nil_r. auto.
  - cbn [attack_steps] in Hrun.
    destruct (number_of_nodes G =? 0).
    { inversion Hrun; subst. exists []. rewrite app_nil_r. auto. }
    destruct (select_node self G) as [[[v |] | e |] self1]; try discriminate.
    2:{ inversion Hrun; subst. exists []. rewrite app_nil_r. auto. }
    destruct (remove_node G v) as [G1 | e |] eqn:Erm; try discriminate.
    pose proof Erm as Erm'. apply remove_node_Return in Erm' as [Hv ->].
    destruct (py_truediv _ n0) as [frac | e |] eqn:Ediv; try discriminate.
    destruct (_compute_lcc_ratio _ n0) as [lcc | e |] eqn:Elcc; try discriminate.
    assert (number_of_nodes (removed G v) = n0 - Z.of_nat (length (seq ++ [v]))) as Hcount'.
    { unfold number_of_nodes in *. rewrite length_removed_exact by assumption.
      rewrite length_app. cbn [length].
      assert (0 < length G)%nat.
      { rewrite <- length_nodes. destruct (nodes G); [inversion Hv | simpl; lia]. }
      lia. }
    apply IH in Hrun; [| rewrite nodes_removed; apply NoDup_filter, Hnd | exact Hcount'].
    destruct Hrun as (new & -> & Hd).
    exists (v :: new). rewrite <- app_assoc. split; [reflexivity |].
    cbn [dismant_steps]. unfold has_node.
    rewrite bool_decide_eq_true_2 by exact Hv. rewrite Erm.
    assert (n0 - number_of_nodes (removed G v) = Z.of_nat (length (seq ++ [v]))) as ->
        by lia.
    rewrite Ediv.
    change (ue_compute_lcc_ratio (removed G v) n0)
      with (_compute_lcc_ratio (removed G v) n0).
    rewrite Elcc. exact Hd.
Qed.

(** UnifiedEvaluator._find_collapse_point returns on curves of one length. *)
Lemma _find_collapse_from_returns (self : UnifiedEvaluator) (values fractions : list Q) :
  length fractions = length values ->
  forall count k, (1 <= k)%nat -> (k + count <= length values)%nat ->
  exists o, _find_collapse_from self values fractions k count = Return o.
Proof.
  intros Hlen. induction count as [| count IH]; intros k Hk Hbound; [eexists; reflexivity |].
  cbn [_find_collapse_from].
  destruct (lookup_lt_is_Some_2 values k) as [y2 Hy2]; [lia |].
  destruct (lookup_lt_is_Some_2 values (k - 1)) as [y1 Hy1]; [lia |].
  destruct (lookup_lt_is_Some_2 fractions k) as [x2 Hx2]; [lia |].
  destruct (lookup_lt_is_Some_2 fractions (k - 1)) as [x1 Hx1]; [lia |].
  rewrite (py_index_Some _ _ _ Hy2). cbn [obind].
  destruct (Qltb y2 _); [| apply IH; lia].
  rewrite (py_index_Some _ _ _ Hy1). cbn [obind].
  destruct (Qle_bool _ y1).
  - rewrite (py_index_Some _ _ _ Hx1), (py_index_Some _ _ _ Hx2). cbn [obind].
    destruct (negb _); eexists; reflexivity.
  - rewrite (py_index_Some _ _ _ Hx2). eexists; reflexivity.
Qed.

Lemma _find_collapse_point_returns (self : UnifiedEvaluator) (values fractions : list Q) :
  length fractions = length values ->
  exists o, _find_collapse_point self values fractions = Return o.
Proof.
  intros Hlen. unfold _find_collapse_point.
  destruct values as [| v0 vs]; [eexists; reflexivity |].
  apply _find_collapse_from_returns; [exact Hlen | lia | cbn [length]; lia].
Qed.

(** On curves of one length UnifiedEvaluator._compute_r_res is
    AttackResult.compute_r_res. *)
Lemma _compute_r_res_same_length (fr lc : list Q) :
  length fr = length lc ->
  _compute_r_res fr lc
  = if (length lc <? 2)%nat then Return 0%Q else np_trapezoid lc fr.
Proof.
  intros Hlen. unfold _compute_r_res. rewrite Hlen, orb_diag.
  destruct (length lc <? 2)%nat; [reflexivity |].
  rewrite Nat.min_id, (firstn_all lc), <- Hlen, (firstn_all fr). reflexivity.
Qed.

(** A call of evaluate_dismant, given what its parts return. *)
Lemma evaluate_dismant_run (self : UnifiedEvaluator) (graph : nat) (G G' : Graph node)
      (seq : list node) (mn gn : string) (st : store node)
      (lcc0 rr : Q) (fr lc : list Q) (c : option Q) :
  graphs st !! graph = Some G ->
  ue_compute_lcc_ratio G (number_of_nodes G) = Return lcc0 ->
  dismant_steps seq G (number_of_nodes G) [0%Q] [lcc0] = (Return (fr, lc), G') ->
  _compute_r_res fr lc = Return rr ->
  _find_collapse_point self lc fr = Return c ->
  evaluate_dismant self graph seq mn gn st
  = (Return (mkDismantResult mn gn rr lc fr seq c (ev_collapse_threshold self)
               (number_of_nodes G) (number_of_edges G) (Z.of_nat (length seq))),
     mkStore (graphs st ++ [G']) (results st)).
Proof.
  intros Hg Hlcc0 Hsteps Hrr Hc. unfold evaluate_dismant.
  unfold bind at 1, store_graph at 1, py_index. rewrite Hg.
  unfold bind at 1, store_new_graph at 1, copy.
  unfold bind at 1, lift at 1. rewrite Hlcc0.
  unfold bind at 1.
  rewrite (dismant_loop_steps _ _ _ _ G).
  2:{ cbn [graphs]. rewrite lookup_app_r by lia. rewrite Nat.sub_diag. reflexivity. }
  rewrite Hsteps. cbn [fst snd graphs results]. rewrite insert_snoc.
  unfold bind at 1, lift at 1. rewrite Hrr.
  unfold bind at 1, lift at 1. rewrite Hc.
  reflexivity.
Qed.
End Replay.

(** X12: evaluate_dismant on a well-formed graph with at least one node
    returns for every attack sequence, also one that names a node twice or
    a node the graph does not have: such an entry removes nothing and adds
    one more curve point.  Point i of removal_fractions is the share of the
    graph's nodes that are gone after the first i entries, point i of
    lcc_curve is the LCC ratio of the graph without them, and budget is the
    length of the sequence. *)
Theorem evaluate_dismant_curves
        {node : Type} `{EqDecision node}
        (self : UnifiedEvaluator) (graph : nat) (G : Graph node)
        (seq : list node) (mn gn : string) (st : store node) :
  wf G -> G <> [] -> graphs st !! graph = Some G ->
  exists D st',
    evaluate_dismant self graph seq mn gn st = (Return D, st') /\
    dr_attack_sequence D = seq /\
    dr_budget D = Z.of_nat (length seq) /\
    dr_initial_nodes D = number_of_nodes G /\
    length (dr_removal_fractions D) = S (length seq) /\
    length (lcc_curve D) = S (length seq) /\
    forall i, (i <= length seq)%nat ->
      exists f q,
        dr_removal_fractions D !! i = Some f /\
        (f == inject_Z (number_of_nodes G
                        - Z.of_nat (length (filter (fun k => k ∉ take i seq) (nodes G))))
              / inject_Z (number_of_nodes G))%Q /\
        lcc_curve D !! i = Some q /\
        (q == lcc_fraction (removed_all G (take i seq)) (number_of_nodes G))%Q.
Proof.
  intros Hwf HG Hg.
  assert (0 < number_of_nodes G) as Hn.
  { unfold number_of_nodes. destruct G; [contradiction | simpl; lia]. }
  destruct (ue_compute_lcc_ratio_returns G _ (or_introl Hn)) as (lcc0 & Hlcc0 & Elcc0).
  destruct (dismant_steps_total (number_of_nodes G) seq G [0%Q] [lcc0] Hn)
    as (fnew & lnew & G' & Hsteps & Hlf & Hll & _).
  destruct (dismant_steps_spec _ _ _ _ _ _ _ _ Hwf Hn Hsteps)
    as (fnew' & lnew' & Ef & El & _ & Hf & Hl).
  apply app_inv_head in Ef, El. subst fnew' lnew'.
  assert (length ([0%Q] ++ fnew) = length ([lcc0] ++ lnew)) as Hlen
      by (rewrite !length_app; cbn; lia).
  destruct (_find_collapse_point_returns self _ _ Hlen) as (c & Hc).
  assert (exists rr, _compute_r_res ([0%Q] ++ fnew) ([lcc0] ++ lnew) = Return rr)
    as (rr & Hrr).
  { rewrite _compute_r_res_same_length by exact Hlen.
    destruct (_ <? 2)%nat; [eexists; reflexivity |].
    rewrite np_trapezoid_same_length by exact Hlen. eexists; reflexivity. }
  eexists _, _. split.
  { eapply evaluate_dismant_run; eauto. }
  cbn [dr_attack_sequence dr_budget dr_initial_nodes dr_removal_fractions lcc_curve
       app length].
  repeat split; auto. intros i Hi.
  destruct i as [| i].
  - exists 0%Q, lcc0. split; [reflexivity |]. split; [| split; [reflexivity | exact Elcc0]].
    rewrite take_0, filter_notin_nil, length_nodes.
    unfold number_of_nodes. rewrite Z.sub_diag. symmetry. apply Qdiv_0_l.
  - destruct (lookup_lt_is_Some_2 fnew i) as [f Efi]; [lia |].
    destruct (lookup_lt_is_Some_2 lnew i) as [q Eqi]; [lia |].
    exists f, q. cbn [lookup list_lookup].
    split; [exact Efi |]. split; [| split; [exact Eqi | exact (Hl _ _ Eqi)]].
    rewrite (Hf _ _ Efi). unfold number_of_nodes at 2.
    rewrite <- length_nodes, nodes_removed_all. reflexivity.
Qed.

Lemma evaluate_dismant_curves_witness :
  exists D st',
    evaluate_dismant UnifiedEvaluator_default 0%nat sequence_with_repeats "LLM" "unknown"
                     (mkStore [path5] [])
    = (Return D, st') /\
    dr_attack_sequence D = sequence_with_repeats /\
    dr_budget D = Z.of_nat (length sequence_with_repeats) /\
    dr_initial_nodes D = number_of_nodes path5 /\
    length (dr_removal_fractions D) = S (length sequence_with_repeats) /\
    length (lcc_curve D) = S (length sequence_with_repeats) /\
    forall i, (i <= length sequence_with_repeats)%nat ->
      exists f q,
        dr_removal_fractions D !! i = Some f /\
        (f == inject_Z (number_of_nodes path5
                        - Z.of_nat (length (filter (fun k => k ∉ take i sequence_with_repeats)
                                                   (nodes path5))))
              / inject_Z (number_of_nodes path5))%Q /\
        lcc_curve D !! i = Some q /\
        (q == lcc_fraction (removed_all path5 (take i sequence_with_repeats))
                           (number_of_nodes path5))%Q.
Proof.
  apply (evaluate_dismant_curves UnifiedEvaluator_default 0%nat path5 sequence_with_repeats
           "LLM" "unknown" (mkStore [path5] [])).
  - exact path5_wf.
  - discriminate.
  - reflexivity.
Defined.

(** X13: on a graph without nodes evaluate_dismant raises
    ZeroDivisionError as soon as the attack sequence has an entry: the
    entry is skipped, and the removal fraction divides by the initial node
    count 0. *)
Theorem evaluate_dismant_empty_graph_raises
        {node : Type} `{EqDecision node}
        (self : UnifiedEvaluator) (graph : nat)
        (seq : list node) (mn gn : string) (st : store node) :
  graphs st !! graph = Some [] -> seq <> [] ->
  evaluate_dismant self graph seq mn gn st
  = (Raise ZeroDivisionError, mkStore (graphs st ++ [[]]) (results st)).
Proof.
  intros Hg Hseq. destruct seq as [| v seq]; [contradiction |].
  assert (@lookup nat (Graph node) _ _ graph (graphs st) = Some []) as Hg' by exact Hg.
  clear Hg. rename Hg' into Hg.
  unfold evaluate_dismant.
  unfold bind at 1, store_graph at 1, py_index. rewrite Hg.
  unfold bind at 1, store_new_graph at 1, copy.
  unfold bind at 1, lift at 1.
  change (ue_compute_lcc_ratio [] (number_of_nodes (node:=node) [])) with (Return 0%Q).
  unfold bind at 1.
  rewrite (dismant_loop_steps _ _ _ _ []).
  2:{ cbn [graphs]. rewrite lookup_app_r by lia. rewrite Nat.sub_diag. reflexivity. }
  cbn [dismant_steps]. unfold has_node.
  rewrite bool_decide_eq_false_2 by (intros Hin; inversion Hin).
  cbn [graphs results fst snd]. rewrite insert_snoc. reflexivity.
Qed.

Lemma evaluate_dismant_empty_graph_raises_witness :
  evaluate_dismant UnifiedEvaluator_default 0%nat [1] "LLM" "unknown"
                   (mkStore [@nil (Z * list Z)] [])
  = (Raise ZeroDivisionError, mkStore ([@nil (Z * list Z)] ++ [[]]) []).
Proof.
  apply (evaluate_dismant_empty_graph_raises UnifiedEvaluator_default 0%nat [1]
           "LLM" "unknown" (mkStore [[]] [])).
  - reflexivity.
  - discriminate.
Defined.

Section SimulateTotal.
Context {node : Type} `{EqDecision node}.

Lemma simulate_loop_empty (seq : list node) : forall n0 curve,
  Metrics.simulate_loop [] n0 seq curve
  = Return (curve ++ replicate (length seq) 0%Q).
Proof.
  induction seq as [| v seq IH]; intros n0 curve.
  - cbn. rewrite app_nil_r. reflexivity.
  - cbn [Metrics.simulate_loop]. unfold has_node.
    rewrite bool_decide_eq_false_2 by (intros Hin; inversion Hin).
    cbn [obind]. change (number_of_nodes (node:=node) [] =? 0) with true.
    cbn [obind]. rewrite IH, <- app_assoc. reflexivity.
Qed.

Lemma compute_lcc_ratio_ue (G : Graph node) :
  ResilienceMetrics.compute_lcc_ratio G = ue_compute_lcc_ratio G (number_of_nodes G).
Proof. reflexivity. Qed.
End SimulateTotal.

(** X14: ResilienceMetrics.simulate_attack_sequence (metric "lcc") returns
    for every graph and every attack sequence, whether or not its entries
    are nodes of the graph: it never divides by zero and never removes a
    missing node.  The curve has one point more than the sequence has
    entries, the r_res it returns is compute_r_res of that curve, and on a
    graph without nodes the curve is 0.0 throughout. *)
Theorem simulate_attack_sequence_returns
        {node : Type} `{EqDecision node}
        (normalize : bool) (G : Graph node) (seq : list node) :
  exists curve,
    Metrics.simulate_attack_sequence normalize G seq
    = Return (curve, ResilienceMetrics.compute_r_res normalize curve) /\
    length curve = S (length seq) /\
    (G = [] -> curve = replicate (S (length seq)) 0%Q).
Proof.
  unfold Metrics.simulate_attack_sequence, copy.
  destruct (decide (G = [])) as [-> | HG].
  - change (ResilienceMetrics.compute_lcc_ratio (node:=node) []) with (Return 0%Q).
    cbn [obind]. rewrite simulate_loop_empty. cbn [obind app].
    eexists. split; [reflexivity |].
    split; [cbn [length]; rewrite length_replicate; reflexivity | reflexivity].
  - assert (0 < number_of_nodes G) as Hn.
    { unfold number_of_nodes. destruct G; [contradiction | simpl; lia]. }
    rewrite compute_lcc_ratio_ue.
    destruct (ue_compute_lcc_ratio_returns G _ (or_introl Hn)) as (lcc0 & -> & _).
    cbn [obind].
    destruct (dismant_steps_total (number_of_nodes G) seq G [0%Q] [lcc0] Hn)
      as (fnew & lnew & G' & _ & _ & Hll & ->).
    cbn [obind]. eexists. split; [reflexivity |].
    split; [rewrite length_app; cbn; lia | contradiction].
Qed.

(** X15: on a graph with at least one node evaluate_dismant returns, and
    ResilienceMetrics.simulate_attack_sequence on the same graph and
    sequence returns exactly the lcc_curve of that result. *)
Theorem simulate_agrees_with_evaluate_dismant
        {node : Type} `{EqDecision node}
        (self : UnifiedEvaluator) (normalize : bool) (graph : nat) (G : Graph node)
        (seq : list node) (mn gn : string) (st : store node) :
  G <> [] -> graphs st !! graph = Some G ->
  exists D st',
    evaluate_dismant self graph seq mn gn st = (Return D, st') /\
    Metrics.simulate_attack_sequence normalize G seq
    = Return (lcc_curve D, ResilienceMetrics.compute_r_res normalize (lcc_curve D)).
Proof.
  intros HG Hg.
  assert (0 < number_of_nodes G) as Hn.
  { unfold number_of_nodes. destruct G; [contradiction | simpl; lia]. }
  destruct (ue_compute_lcc_ratio_returns G _ (or_introl Hn)) as (lcc0 & Hlcc0 & _).
  destruct (dismant_steps_total (number_of_nodes G) seq G [0%Q] [lcc0] Hn)
    as (fnew & lnew & G' & Hsteps & Hlf & Hll & Hsim).
  assert (length ([0%Q] ++ fnew) = length ([lcc0] ++ lnew)) as Hlen
      by (rewrite !length_app; cbn; lia).
  destruct (_find_collapse_point_returns self _ _ Hlen) as (c & Hc).
  assert (exists rr, _compute_r_res ([0%Q] ++ fnew) ([lcc0] ++ lnew) = Return rr)
    as (rr & Hrr).
  { rewrite _compute_r_res_same_length by exact Hlen.
    destruct (_ <? 2)%nat; [eexists; reflexivity |].
    rewrite np_trapezoid_same_length by exact Hlen. eexists; reflexivity. }
  eexists _, _. split.
  { eapply evaluate_dismant_run; eauto. }
  cbn [lcc_curve]. unfold Metrics.simulate_attack_sequence, copy.
  rewrite compute_lcc_ratio_ue, Hlcc0. cbn [obind]. rewrite Hsim. reflexivity.
Qed.

Lemma simulate_agrees_with_evaluate_dismant_witness :
  exists D st',
    evaluate_dismant UnifiedEvaluator_default 0%nat sequence_with_repeats "LLM" "unknown"
                     (mkStore [path5] [])
    = (Return D, st') /\
    Metrics.simulate_attack_sequence true path5 sequence_with_repeats
    = Return (lcc_curve D, ResilienceMetrics.compute_r_res true (lcc_curve D)).
Proof.
  apply (simulate_agrees_with_evaluate_dismant UnifiedEvaluator_default true 0%nat
           path5 sequence_with_repeats "LLM" "unknown" (mkStore [path5] [])).
  - discriminate.
  - reflexivity.
Defined.

(** X16: replaying the attack sequence of a returned attack result through
    evaluate_dismant on the same graph returns, and reproduces the result's
    removal_fractions, lcc_values and r_res exactly. *)
Theorem evaluate_dismant_replays_attack
        {node : Type} `{EqDecision node} {Self : Type} `{BaseAttack (node:=node) Self}
        (graph : nat) (G : Graph node) (w w' : world node Self) (bud : Z)
        (dn gn : string) (thr : Q) (result : nat)
        (ev : UnifiedEvaluator) (mn gn' : string) :
  wf G -> graphs w.2 !! graph = Some G ->
  attack graph bud dn gn thr w = (Return result, w') ->
  exists R D st',
    results w'.2 !! result = Some R /\
    evaluate_dismant ev graph (attack_sequence R) mn gn' w'.2 = (Return D, st') /\
    dr_removal_fractions D = removal_fractions R /\
    lcc_curve D = lcc_values R /\
    dr_r_res D = r_res R /\
    dr_initial_nodes D = initial_nodes R.
Proof.
  destruct w as [self st]. cbn [fst snd]. intros Hwf Hg Hrun.
  destruct (attack_run _ _ _ _ _ _ _ _ _ _ Hg Hrun)
    as (lcc0 & seq & fr & lc & self' & G' & rr & c & Hlcc0 & Hsteps & Hrr & _ & -> & ->).
  assert (0 < number_of_nodes G \/ G = []) as Hn.
  { unfold number_of_nodes. destruct G; [right; reflexivity | left; simpl; lia]. }
  destruct (attack_steps_spec _ _ _ _ _ _ _ _ _ _ _ _ Hwf Hn Hsteps)
    as (new & fnew & lnew & Eseq & -> & -> & _ & Hlf & Hll & _).
  cbn [app] in Eseq. subst new.
  assert (number_of_nodes G = number_of_nodes G - Z.of_nat (length (@nil node)))
    as Hcount by (cbn [length]; lia).
  destruct (attack_steps_replay _ _ _ _ _ _ _ _ _ _ _ _ (proj1 Hwf) Hcount Hsteps)
    as (new & Eseq & Hd).
  cbn [app] in Eseq. subst new.
  assert (length ([0%Q] ++ fnew) = length ([lcc0] ++ lnew)) as Hlen
      by (rewrite !length_app; cbn; lia).
  destruct (_find_collapse_point_returns ev _ _ Hlen) as (c' & Hc').
  eexists _, _, _. split.
  { cbn [snd results]. rewrite lookup_app_r by lia. rewrite Nat.sub_diag. reflexivity. }
  cbn [snd attack_sequence removal_fractions lcc_values r_res initial_nodes].
  split.
  { eapply evaluate_dismant_run.
    - cbn [graphs]. apply lookup_app_l_Some. exact Hg.
    - exact Hlcc0.
    - exact Hd.
    - rewrite _compute_r_res_same_length by exact Hlen. exact Hrr.
    - exact Hc'. }
  repeat split.
Qed.

Lemma evaluate_dismant_replays_attack_witness :
  exists R D st',
    results (attack 0%nat 2 "unknown" "unknown" (2 # 10) hda_path_world).2.2 !! 0%nat
    = Some R /\
    evaluate_dismant UnifiedEvaluator_default 0%nat (attack_sequence R) "LLM" "unknown"
      (attack 0%nat 2 "unknown" "unknown" (2 # 10) hda_path_world).2.2
    = (Return D, st') /\
    dr_removal_fractions D = removal_fractions R /\
    lcc_curve D = lcc_values R /\
    dr_r_res D = r_res R /\
    dr_initial_nodes D = initial_nodes R.
Proof.
  apply (evaluate_dismant_replays_attack 0%nat path5 hda_path_world _ 2
           "unknown" "unknown" (2 # 10) 0%nat UnifiedEvaluator_default "LLM" "unknown"
           path5_wf eq_refl).
  vm_compute. reflexivity.
Defined.

Section AddEdge.
Context {node : Type} `{EqDecision node}.

Lemma nodes_add_nbr (g : Graph node) (u v : node) : nodes (add_nbr g u v) = nodes g.
Proof.
  unfold add_nbr, nodes. rewrite map_map. apply map_ext. intros [k ns]. cbn.
  destruct (decide (k = u)); reflexivity.
Qed.

Lemma add_node_present (g : Graph node) (n : node) : n ∈ nodes g -> add_node g n = g.
Proof. intros Hn. unfold add_node. destruct (decide (n ∈ nodes g)); [reflexivity | contradiction]. Qed.

Lemma adj_add_nbr (g : Graph node) (u v x : node) :
  adj (add_nbr g u v) x
  = if decide (x = u)
    then (if decide (u ∈ nodes g)
          then (if decide (v ∈ adj g u) then adj g u else adj g u ++ [v])
          else [])
    else adj g x.
Proof.
  induction g as [| [k ns] g IH].
  - cbn. destruct (decide (x = u)); [| reflexivity].
    destruct (decide (u ∈ nodes [])) as [Hin | _]; [inversion Hin | reflexivity].
  - cbn [add_nbr map fst snd adj]. fold (add_nbr g u v).
    destruct (decide (k = u)) as [-> | Hku].
    + cbn [adj]. destruct (decide (u = x)) as [<- | Hux].
      * destruct (decide (u = u)) as [_ | ?]; [| contradiction].
        destruct (decide (u ∈ nodes ((u, ns) :: g))) as [_ | Hn]; [reflexivity |].
        exfalso. apply Hn. left.
      * rewrite IH. destruct (decide (x = u)) as [-> | _]; [contradiction | reflexivity].
    + cbn [adj]. destruct (decide (k = x)) as [<- | Hkx].
      * destruct (decide (k = u)); [contradiction | reflexivity].
      * rewrite IH. destruct (decide (x = u)) as [-> | _]; [| reflexivity].
        destruct (decide (u ∈ nodes g)) as [Hin | Hout];
          destruct (decide (u ∈ nodes ((k, ns) :: g))) as [Hin' | Hout'];
          try reflexivity.
        -- exfalso. apply Hout'. right. exact Hin.
        -- exfalso. apply elem_of_cons in Hin' as [-> | Hin']; [contradiction | auto].
Qed.

Lemma nodes_add_edge (g : Graph node) (u v : node) :
  u ∈ nodes g -> v ∈ nodes g -> nodes (add_edge g u v) = nodes g.
Proof.
  intros Hu Hv. unfold add_edge.
  rewrite !nodes_add_nbr, (add_node_present g u Hu), (add_node_present g v Hv).
  reflexivity.
Qed.

(** The neighbours after [G.add_edge(u, v)] between two nodes of [G]. *)
Lemma elem_of_adj_add_edge (g : Graph node) (u v x y : node) :
  u ∈ nodes g -> v ∈ nodes g ->
  y ∈ adj (add_edge g u v) x <->
  y ∈ adj g x \/ (x = u /\ y = v) \/ (x = v /\ y = u).
Proof.
  intros Hu Hv. unfold add_edge.
  rewrite (add_node_present g u Hu), (add_node_present g v Hv).
  rewrite adj_add_nbr, nodes_add_nbr.
  destruct (decide (x = v)) as [-> | Hxv].
  - destruct (decide (v ∈ nodes g)) as [_ | ?]; [| contradiction].
    assert (y ∈ adj (add_nbr g u v) v <-> y ∈ adj g v \/ (v = u /\ y = v)) as Hinner.
    { rewrite adj_add_nbr. destruct (decide (v = u)) as [-> | Hvu].
      - destruct (decide (u ∈ nodes g)) as [_ | ?]; [| contradiction].
        destruct (decide (u ∈ adj g u)) as [Hin | Hout].
        + split; [auto |]. intros [H | [_ ->]]; assumption.
        + rewrite elem_of_app, list_elem_of_singleton. tauto.
      - split; [auto |]. intros [H | [E _]]; [assumption | contradiction]. }
    destruct (decide (u ∈ adj (add_nbr g u v) v)) as [Hin | Hout].
    + rewrite Hinner. split.
      * intros [H | [-> ->]]; [auto |]. right. left. auto.
      * intros [H | [[-> ->] | [_ ->]]]; [auto | right; auto |].
        apply Hinner. exact Hin.
    + rewrite elem_of_app, list_elem_of_singleton, Hinner. split.
      * intros [[H | [-> ->]] | ->]; [auto | right; left; auto | right; right; auto].
      * intros [H | [[-> ->] | [_ ->]]]; [auto | left; right; auto | right; reflexivity].
  - rewrite adj_add_nbr. destruct (decide (x = u)) as [-> | Hxu].
    + destruct (decide (u ∈ nodes g)) as [_ | ?]; [| contradiction].
      destruct (decide (v ∈ adj g u)) as [Hin | Hout].
      * split; [auto |]. intros [H | [[_ ->] | [E _]]]; [assumption | assumption | contradiction].
      * rewrite elem_of_app, list_elem_of_singleton. split.
        -- intros [H | ->]; [auto | right; left; auto].
        -- intros [H | [[_ ->] | [E _]]]; [auto | auto | contradiction].
    + split; [auto |]. intros [H | [[E _] | [E _]]]; [assumption | contradiction | contradiction].
Qed.

Lemma has_edge_add_edge (g : Graph node) (u v x y : node) :
  u ∈ nodes g -> v ∈ nodes g ->
  has_edge (add_edge g u v) x y = true <->
  has_edge g x y = true \/ (x = u /\ y = v) \/ (x = v /\ y = u).
Proof.
  intros Hu Hv. unfold has_edge. rewrite !bool_decide_eq_true.
  apply elem_of_adj_add_edge; assumption.
Qed.

Lemma adj_elem_of (g : Graph node) (e : node * list node) :
  NoDup (nodes g) -> e ∈ g -> adj g e.1 = e.2.
Proof.
  induction g as [| [k ns] g IH]; intros Hnd He; [inversion He |].
  cbn [nodes map fst] in Hnd. apply NoDup_cons in Hnd as [Hk Hnd].
  cbn [adj]. apply elem_of_cons in He as [-> | He].
  - cbn. destruct (decide (k = k)); [reflexivity | contradiction].
  - destruct (decide (k = e.1)) as [-> | Hne]; [| apply IH; assumption].
    exfalso. apply Hk. apply list_elem_of_fmap. exists e. auto.
Qed.

Lemma wf_add_edge (g : Graph node) (u v : node) :
  wf g -> u ∈ nodes g -> v ∈ nodes g -> wf (add_edge g u v).
Proof.
  intros Hwf Hu Hv. pose proof Hwf as [Hnd Hadj]. split.
  - rewrite nodes_add_edge by assumption. exact Hnd.
  - assert (NoDup (nodes (add_edge g u v))) as Hnd'
        by (rewrite nodes_add_edge by assumption; exact Hnd).
    apply Forall_forall. intros e He. apply Forall_forall. intros y Hy.
    rewrite nodes_add_edge by assumption.
    rewrite <- (adj_elem_of _ e Hnd' He) in Hy.
    apply elem_of_adj_add_edge in Hy as [Hy | [[_ ->] | [_ ->]]]; try assumption.
    eapply adj_in_nodes; eassumption.
Qed.
End AddEdge.

Section AscRanking.
Context {node : Type} `{EqDecision node}.
Variable key : node -> Z.

Let asc (a b : node) : Prop := key a <= key b.

Lemma insert_asc_perm (x : node) (l : list node) : insert_asc key x l ≡ₚ x :: l.
Proof.
  induction l as [| y l IH]; cbn [insert_asc]; [reflexivity |].
  destruct (key x <? key y); [reflexivity |].
  rewrite IH. apply Permutation_swap.
Qed.

Lemma insert_asc_sorted (x : node) (l : list node) :
  StronglySorted asc l -> StronglySorted asc (insert_asc key x l).
Proof.
  induction l as [| y l IH]; intros Hs; cbn [insert_asc].
  - repeat constructor.
  - apply StronglySorted_inv in Hs as [Hs Hy].
    destruct (Z.ltb_spec (key x) (key y)) as [Hlt | Hge].
    + constructor; [constructor; assumption |].
      constructor; [unfold asc; lia |].
      eapply Forall_impl; [exact Hy |]. unfold asc. intros z Hz. lia.
    + constructor; [apply IH, Hs |].
      rewrite insert_asc_perm. constructor; [exact Hge | exact Hy].
Qed.

Lemma insert_asc_filter (k : Z) (x : node) (l : list node) :
  StronglySorted asc l ->
  filter (fun y => key y = k) (insert_asc key x l)
  = filter (fun y => key y = k) l ++ filter (fun y => key y = k) [x].
Proof.
  induction l as [| y l IH]; intros Hs; cbn [insert_asc]; [reflexivity |].
  apply StronglySorted_inv in Hs as [Hs Hy].
  destruct (Z.ltb_spec (key x) (key y)) as [Hlt | Hge].
  - rewrite (filter_cons _ x (y :: l)). rewrite (filter_cons _ x []), filter_nil.
    destruct (decide (key x = k)) as [Hk | Hk]; [| rewrite app_nil_r; reflexivity].
    rewrite (filter_key_none key k (y :: l)); [reflexivity |].
    intros z Hz. apply elem_of_cons in Hz as [-> | Hz]; [lia |].
    rewrite Forall_forall in Hy. specialize (Hy z Hz). unfold asc in Hy. lia.
  - rewrite (filter_cons _ y (insert_asc key x l)), (filter_cons _ y l), IH by exact Hs.
    destruct (decide (key y = k)); reflexivity.
Qed.

Lemma sorted_asc_from (xs : list node) : forall acc,
  StronglySorted asc acc ->
  let r := fold_left (fun acc x => insert_asc key x acc) xs acc in
  r ≡ₚ acc ++ xs /\ StronglySorted asc r /\
  forall k, filter (fun y => key y = k) r
            = filter (fun y => key y = k) acc ++ filter (fun y => key y = k) xs.
Proof.
  induction xs as [| x xs IH]; intros acc Hs; cbn [fold_left].
  - rewrite app_nil_r. split; [reflexivity |]. split; [exact Hs |].
    intros k. rewrite filter_nil, app_nil_r. reflexivity.
  - destruct (IH (insert_asc key x acc) (insert_asc_sorted x acc Hs))
      as (Hp & Hsorted & Hf).
    split; [| split; [exact Hsorted |]].
    + rewrite Hp, insert_asc_perm. cbn [app]. apply Permutation_middle.
    + intros k. rewrite Hf, insert_asc_filter by exact Hs.
      rewrite <- app_assoc. f_equal.
      rewrite (filter_cons _ x xs), (filter_cons _ x []), filter_nil.
      destruct (decide (key x = k)); reflexivity.
Qed.

(** [sorted(xs, key=key)] is a rearrangement of [xs] with the keys in
    ascending order, elements of equal key in their order in [xs]. *)
Lemma sorted_asc_spec (xs : list node) :
  sorted_asc key xs ≡ₚ xs /\
  StronglySorted asc (sorted_asc key xs) /\
  forall k, filter (fun y => key y = k) (sorted_asc key xs)
            = filter (fun y => key y = k) xs.
Proof.
  unfold sorted_asc.
  destruct (sorted_asc_from xs [] (SSorted_nil _)) as (Hp & Hs & Hf).
  split; [exact Hp |]. split; [exact Hs |]. intros k. rewrite (Hf k). reflexivity.
Qed.
End AscRanking.

Section DegreeConstruct.
Context {node : Type} `{EqDecision node}.

Lemma first_partner_Some (g : Graph node) (u v : node) (cands : list node) :
  first_partner g u cands = Some v -> v ∈ cands /\ has_edge g u v = false.
Proof.
  induction cands as [| c cands IH]; [discriminate |]. cbn [first_partner].
  destruct (has_edge g u c) eqn:E; cbn [negb].
  - intros Hf. destruct (IH Hf). split; [right; assumption | assumption].
  - intros Hf. inversion Hf; subst. split; [left | exact E].
Qed.

Lemma first_partner_None (g : Graph node) (u : node) (cands : list node) :
  first_partner g u cands = None -> forall v, v ∈ cands -> has_edge g u v = true.
Proof.
  induction cands as [| c cands IH]; intros Hf v Hv; [inversion Hv |].
  cbn [first_partner] in Hf. destruct (has_edge g u c) eqn:E; cbn [negb] in Hf;
    [| discriminate].
  apply elem_of_cons in Hv as [-> | Hv]; [exact E | apply IH; assumption].
Qed.

Lemma first_missing_edge_Some (g : Graph node) (pool : list node) (u v : node) :
  NoDup pool -> first_missing_edge g pool = Some (u, v) ->
  u ∈ pool /\ v ∈ pool /\ u <> v /\ has_edge g u v = false.
Proof.
  induction pool as [| p pool IH]; intros Hnd Hf; [discriminate |].
  apply NoDup_cons in Hnd as [Hp Hnd]. cbn [first_missing_edge] in Hf.
  destruct (first_partner g p pool) as [q |] eqn:Eq.
  - inversion Hf; subst. apply first_partner_Some in Eq as [Hq He].
    split; [left |]. split; [right; exact Hq |]. split; [| exact He].
    intros ->. contradiction.
  - destruct (IH Hnd Hf) as (Hu & Hv & Hne & He).
    split; [right; exact Hu |]. split; [right; exact Hv | auto].
Qed.

Lemma first_missing_edge_None (g : Graph node) (pool : list node) :
  first_missing_edge g pool = None ->
  forall i j x y, (i < j)%nat -> pool !! i = Some x -> pool !! j = Some y ->
                  has_edge g x y = true.
Proof.
  induction pool as [| p pool IH]; intros Hf i j x y Hij Hx Hy; [discriminate Hx |].
  cbn [first_missing_edge] in Hf.
  destruct (first_partner g p pool) as [q |] eqn:Eq; [discriminate |].
  destruct j as [| j]; [lia |]. cbn in Hy. destruct i as [| i].
  - cbn in Hx. inversion Hx; subst.
    eapply first_partner_None; [exact Eq |]. eapply list_elem_of_lookup_2, Hy.
  - cbn in Hx. apply (IH Hf i j); [lia | assumption | assumption].
Qed.

(** The invariant of the loop of _degree_based_construct. *)
Lemma degree_construct_loop_spec (steps : nat) :
  forall (g : Graph node) added g' added',
    wf g -> degree_construct_loop steps g added = (g', added') ->
    exists new,
      added' = added ++ new /\ (length new <= steps)%nat /\
      wf g' /\ nodes g' = nodes g /\
      (forall u v, (u, v) ∈ new ->
         u <> v /\ u ∈ nodes g /\ v ∈ nodes g /\ has_edge g u v = false) /\
      (forall i j e1 e2, (i < j)%nat -> new !! i = Some e1 -> new !! j = Some e2 ->
         e2 <> e1 /\ e2 <> (e1.2, e1.1)) /\
      (forall x y, has_edge g' x y = true <->
                   has_edge g x y = true \/ (x, y) ∈ new \/ (y, x) ∈ new) /\
      ((length new < steps)%nat ->
       first_missing_edge g' (take 20 (sorted_asc (degree g') (nodes g'))) = None).
Proof.
  induction steps as [| steps IH]; intros g added g' added' Hwf Hrun.
  - cbn in Hrun. inversion Hrun; subst. exists []. rewrite app_nil_r.
    split; [reflexivity |]. split; [reflexivity |]. split; [exact Hwf |].
    split; [reflexivity |]. split; [intros u v Hin; inversion Hin |].
    split; [intros i j e1 e2 _ He1; destruct i; discriminate He1 |].
    split; [| cbn; lia].
    intros x y. split; [auto |]. intros [H | [H | H]]; [exact H | inversion H | inversion H].
  - cbn [degree_construct_loop] in Hrun. cbv zeta in Hrun.
    destruct (first_missing_edge g (take 20 (sorted_asc (degree g) (nodes g))))
      as [[u v] |] eqn:Efind.
    + assert (NoDup (sorted_asc (degree g) (nodes g))) as Hnd.
      { rewrite (proj1 (sorted_asc_spec (degree g) (nodes g))). apply Hwf. }
      apply first_missing_edge_Some in Efind;
        [| eapply sublist_NoDup; [exact Hnd | apply sublist_take]].
      destruct Efind as (Hu & Hv & Hne & He).
      assert (forall z, z ∈ take 20 (sorted_asc (degree g) (nodes g)) -> z ∈ nodes g) as Hpool.
      { intros z Hz. apply elem_of_take in Hz as (i & Hz & _).
        apply list_elem_of_lookup_2 in Hz.
        rewrite (proj1 (sorted_asc_spec (degree g) (nodes g))) in Hz. exact Hz. }
      apply Hpool in Hu, Hv.
      pose proof (has_edge_add_edge g u v) as Hedge.
      apply IH in Hrun; [| apply wf_add_edge; assumption].
      destruct Hrun as (new & -> & Hlen & Hwf' & Hnodes & Hnew & Hdist & Hedges & Hstop).
      rewrite nodes_add_edge in Hnodes, Hnew by assumption.
      exists ((u, v) :: new). rewrite <- app_assoc.
      split; [reflexivity |]. split; [cbn [length]; lia |]. split; [exact Hwf' |].
      split; [exact Hnodes |]. split; [| split; [| split]].
      * intros a b Hab. apply elem_of_cons in Hab as [Hab | Hab].
        -- inversion Hab; subst. auto.
        -- destruct (Hnew a b Hab) as (Hne' & Ha & Hb & He').
           split; [exact Hne' |]. split; [exact Ha |]. split; [exact Hb |].
           destruct (has_edge g a b) eqn:Eab; [| reflexivity].
           assert (has_edge (add_edge g u v) a b = true) as Hc
               by (apply Hedge; auto).
           congruence.
      * intros i j e1 e2 Hij He1 He2. destruct j as [| j]; [lia |].
        cbn in He2. destruct i as [| i].
        -- cbn in He1. inversion He1; subst e1. cbn [fst snd].
           destruct e2 as [a b]. apply list_elem_of_lookup_2 in He2.
           destruct (Hnew a b He2) as (_ & _ & _ & He').
           split; intros Heq; inversion Heq; subst.
           ++ assert (has_edge (add_edge g u v) u v = true) as Hc
                 by (apply Hedge; auto).
              congruence.
           ++ assert (has_edge (add_edge g u v) v u = true) as Hc
                 by (apply Hedge; auto).
              congruence.
        -- cbn in He1. apply (Hdist i j); [lia | assumption | assumption].
      * intros x y. rewrite Hedges, Hedge by assumption.
        rewrite !elem_of_cons. split.
        -- intros [[H | [[-> ->] | [-> ->]]] | [H | H]]; auto.
        -- intros [H | [[H | H] | [H | H]]]; auto.
           ++ inversion H; subst. auto.
           ++ inversion H; subst. auto.
      * intros Hlt. apply Hstop. cbn [length] in Hlt. lia.
    + inversion Hrun; subst. exists []. rewrite app_nil_r.
      split; [reflexivity |]. split; [cbn; lia |]. split; [exact Hwf |].
      split; [reflexivity |]. split; [intros u v Hin; inversion Hin |].
      split; [intros i j e1 e2 _ He1; destruct i; discriminate He1 |].
      split; [| intros _; exact Efind].
      intros x y. split; [auto |].
      intros [H | [H | H]]; [exact H | inversion H | inversion H].
Qed.
End DegreeConstruct.

(** X17: UnifiedEvaluator._degree_based_construct on a well-formed graph
    returns a well-formed graph with the same nodes and a list of at most
    max(0, budget) added edges.  Every added edge joins two different
    nodes of the graph that were not adjacent, no edge is added twice in
    either direction, and the edges of the returned graph are those of the
    caller's graph and the added ones.  When fewer than budget edges were
    added, every pair among the 20 nodes of lowest degree of the returned
    graph (in ascending order of degree, ties in node order) is adjacent. *)
Theorem degree_based_construct_spec
        {node : Type} `{EqDecision node}
        (G : Graph node) (budget : Z) (g' : Graph node) (added : list (node * node)) :
  wf G -> _degree_based_construct G budget = (g', added) ->
  wf g' /\ nodes g' = nodes G /\
  Z.of_nat (length added) <= Z.max 0 budget /\
  (forall u v, (u, v) ∈ added ->
     u <> v /\ u ∈ nodes G /\ v ∈ nodes G /\ has_edge G u v = false) /\
  (forall i j e1 e2, (i < j)%nat -> added !! i = Some e1 -> added !! j = Some e2 ->
     e2 <> e1 /\ e2 <> (e1.2, e1.1)) /\
  (forall x y, has_edge g' x y = true <->
               has_edge G x y = true \/ (x, y) ∈ added \/ (y, x) ∈ added) /\
  (Z.of_nat (length added) < budget ->
   let pool := take 20 (sorted_asc (degree g') (nodes g')) in
   forall i j x y, (i < j)%nat -> pool !! i = Some x -> pool !! j = Some y ->
                   has_edge g' x y = true).
Proof.
  intros Hwf Hrun. unfold _degree_based_construct, copy in Hrun.
  destruct (degree_construct_loop_spec _ _ _ _ _ Hwf Hrun)
    as (new & Eadd & Hlen & Hwf' & Hnodes & Hnew & Hdist & Hedges & Hstop).
  cbn [app] in Eadd. subst new.
  split; [exact Hwf' |]. split; [exact Hnodes |]. split; [lia |].
  split; [exact Hnew |]. split; [exact Hdist |]. split; [exact Hedges |].
  intros Hlt pool. apply first_missing_edge_None, Hstop. lia.
Qed.

Lemma degree_based_construct_spec_witness :
  wf (_degree_based_construct star4 5).1 /\
  nodes (_degree_based_construct star4 5).1 = nodes star4 /\
  Z.of_nat (length (_degree_based_construct star4 5).2) <= Z.max 0 5 /\
  (forall u v, (u, v) ∈ (_degree_based_construct star4 5).2 ->
     u <> v /\ u ∈ nodes star4 /\ v ∈ nodes star4 /\ has_edge star4 u v = false) /\
  (forall i j e1 e2, (i < j)%nat ->
     (_degree_based_construct star4 5).2 !! i = Some e1 ->
     (_degree_based_construct star4 5).2 !! j = Some e2 ->
     e2 <> e1 /\ e2 <> (e1.2, e1.1)) /\
  (forall x y, has_edge (_degree_based_construct star4 5).1 x y = true <->
               has_edge star4 x y = true \/
               (x, y) ∈ (_degree_based_construct star4 5).2 \/
               (y, x) ∈ (_degree_based_construct star4 5).2) /\
  (Z.of_nat (length (_degree_based_construct star4 5).2) < 5 ->
   let pool := take 20 (sorted_asc (degree (_degree_based_construct star4 5).1)
                                   (nodes (_degree_based_construct star4 5).1)) in
   forall i j x y, (i < j)%nat -> pool !! i = Some x -> pool !! j = Some y ->
                   has_edge (_degree_based_construct star4 5).1 x y = true).
Proof.
  apply (degree_based_construct_spec star4 5).
  - vm_compute. split; repeat constructor;
      (intros Hc; repeat (apply elem_of_cons in Hc as [Hc | Hc]; [discriminate Hc |]);
       inversion Hc).
  - destruct (_degree_based_construct star4 5). reflexivity.
Defined.

Section EdgeCount.
Context {node : Type} `{EqDecision node}.

Lemma undirected_add_edge (g : Graph node) (u v : node) :
  undirected g -> u ∈ nodes g -> v ∈ nodes g -> undirected (add_edge g u v).
Proof.
  intros Hsym Hu Hv x y Hy.
  apply elem_of_adj_add_edge in Hy; [| assumption | assumption].
  apply elem_of_adj_add_edge; [assumption | assumption |].
  destruct Hy as [Hy | [[-> ->] | [-> ->]]]; auto.
Qed.

(** The neighbour lists after a new edge between two different nodes. *)
Lemma adj_add_new_edge (g : Graph node) (u v x : node) :
  u ∈ nodes g -> v ∈ nodes g -> u <> v -> v ∉ adj g u -> u ∉ adj g v ->
  adj (add_edge g u v) x
  = if decide (x = u) then adj g u ++ [v]
    else if decide (x = v) then adj g v ++ [u] else adj g x.
Proof.
  intros Hu Hv Hne Hvu Huv. unfold add_edge.
  rewrite (add_node_present g u Hu), (add_node_present g v Hv).
  rewrite adj_add_nbr, nodes_add_nbr.
  destruct (decide (x = v)) as [-> | Hxv].
  - destruct (decide (v = u)) as [-> | _]; [contradiction |].
    destruct (decide (v ∈ nodes g)) as [_ | ?]; [| contradiction].
    rewrite adj_add_nbr. destruct (decide (v = u)) as [-> | _]; [contradiction |].
    destruct (decide (u ∈ adj g v)); [contradiction | reflexivity].
  - rewrite adj_add_nbr. destruct (decide (x = u)) as [-> | Hxu]; [| reflexivity].
    destruct (decide (u ∈ nodes g)) as [_ | ?]; [| contradiction].
    destruct (decide (v ∈ adj g u)); [contradiction | reflexivity].
Qed.

Lemma degree_add_new_edge (g : Graph node) (u v x : node) :
  u ∈ nodes g -> v ∈ nodes g -> u <> v -> v ∉ adj g u -> u ∉ adj g v ->
  degree (add_edge g u v) x
  = degree g x + (if decide (x = u) then 1 else 0) + (if decide (x = v) then 1 else 0).
Proof.
  intros Hu Hv Hne Hvu Huv. unfold degree.
  rewrite adj_add_new_edge by assumption.
  destruct (decide (x = u)) as [-> | Hxu].
  - destruct (decide (u = v)) as [-> | _]; [contradiction |].
    rewrite length_app. cbn [length].
    assert (u ∈ adj g u ++ [v] <-> u ∈ adj g u) as Hiff.
    { rewrite elem_of_app, list_elem_of_singleton. split; [| auto].
      intros [H | ->]; [exact H | contradiction]. }
    destruct (decide (u ∈ adj g u ++ [v])) as [H1 | H1];
      destruct (decide (u ∈ adj g u)) as [H2 | H2]; try lia.
    + exfalso. apply H2, Hiff, H1.
    + exfalso. apply H1, Hiff, H2.
  - destruct (decide (x = v)) as [-> | Hxv]; [| lia].
    rewrite length_app. cbn [length].
    assert (v ∈ adj g v ++ [u] <-> v ∈ adj g v) as Hiff.
    { rewrite elem_of_app, list_elem_of_singleton. split; [| auto].
      intros [H | ->]; [exact H | contradiction]. }
    destruct (decide (v ∈ adj g v ++ [u])) as [H1 | H1];
      destruct (decide (v ∈ adj g v)) as [H2 | H2]; try lia.
    + exfalso. apply H2, Hiff, H1.
    + exfalso. apply H1, Hiff, H2.
Qed.

Lemma Zsum_from (l : list Z) : forall a, fold_left Z.add l a = a + fold_left Z.add l 0.
Proof.
  induction l as [| x l IH]; intros a; cbn [fold_left]; [lia |].
  rewrite IH, (IH (0 + x)). lia.
Qed.

Lemma Zsum_point (f : node -> Z) (u : node) (l : list node) :
  NoDup l ->
  fold_left Z.add (map (fun x => f x + (if decide (x = u) then 1 else 0)) l) 0
  = fold_left Z.add (map f l) 0 + (if decide (u ∈ l) then 1 else 0).
Proof.
  induction l as [| k l IH]; intros Hnd.
  - cbn. destruct (decide (u ∈ [])) as [Hin | _]; [inversion Hin | reflexivity].
  - apply NoDup_cons in Hnd as [Hk Hnd]. cbn [map fold_left].
    rewrite Zsum_from, (Zsum_from _ (0 + f k)), IH by exact Hnd.
    destruct (decide (k = u)) as [-> | Hku].
    + destruct (decide (u ∈ l)) as [? | _]; [contradiction |].
      destruct (decide (u ∈ u :: l)) as [_ | Hn]; [lia |].
      exfalso. apply Hn. left.
    + destruct (decide (u ∈ l)) as [Hin | Hout];
        destruct (decide (u ∈ k :: l)) as [Hin' | Hout']; try lia.
      * exfalso. apply Hout'. right. exact Hin.
      * exfalso. apply elem_of_cons in Hin' as [-> | ?]; [contradiction | auto].
Qed.

(** A new edge between two different nodes raises [number_of_edges] by
    one. *)
Lemma number_of_edges_add_new_edge (g : Graph node) (u v : node) :
  NoDup (nodes g) ->
  u ∈ nodes g -> v ∈ nodes g -> u <> v -> v ∉ adj g u -> u ∉ adj g v ->
  number_of_edges (add_edge g u v) = number_of_edges g + 1.
Proof.
  intros Hnd Hu Hv Hne Hvu Huv. unfold number_of_edges.
  rewrite nodes_add_edge by assumption.
  rewrite (map_ext _ _ (fun x => degree_add_new_edge g u v x Hu Hv Hne Hvu Huv)).
  rewrite (Zsum_point (fun x => degree g x + (if decide (x = u) then 1 else 0)) v _ Hnd).
  rewrite (Zsum_point (degree g) u _ Hnd).
  destruct (decide (u ∈ nodes g)); [| contradiction].
  destruct (decide (v ∈ nodes g)); [| contradiction].
  replace (fold_left Z.add (map (degree g) (nodes g)) 0 + 1 + 1)
    with (fold_left Z.add (map (degree g) (nodes g)) 0 + 1 * 2) by lia.
  apply Z.div_add. lia.
Qed.

Lemma degree_construct_loop_edges (steps : nat) :
  forall (g : Graph node) added g' added',
    wf g -> undirected g ->
    degree_construct_loop steps g added = (g', added') ->
    undirected g' /\
    number_of_edges g' + Z.of_nat (length added)
    = number_of_edges g + Z.of_nat (length added').
Proof.
  induction steps as [| steps IH]; intros g added g' added' Hwf Hsym Hrun.
  - cbn in Hrun. inversion Hrun; subst. auto.
  - cbn [degree_construct_loop] in Hrun. cbv zeta in Hrun.
    destruct (first_missing_edge g (take 20 (sorted_asc (degree g) (nodes g))))
      as [[u v] |] eqn:Efind.
    + assert (NoDup (sorted_asc (degree g) (nodes g))) as Hnd.
      { rewrite (proj1 (sorted_asc_spec (degree g) (nodes g))). apply Hwf. }
      apply first_missing_edge_Some in Efind;
        [| eapply sublist_NoDup; [exact Hnd | apply sublist_take]].
      destruct Efind as (Hu & Hv & Hne & He).
      assert (forall z, z ∈ take 20 (sorted_asc (degree g) (nodes g)) -> z ∈ nodes g) as Hpool.
      { intros z Hz. apply elem_of_take in Hz as (i & Hz & _).
        apply list_elem_of_lookup_2 in Hz.
        rewrite (proj1 (sorted_asc_spec (degree g) (nodes g))) in Hz. exact Hz. }
      apply Hpool in Hu, Hv.
      unfold has_edge in He. apply bool_decide_eq_false in He.
      assert (u ∉ adj g v) as He' by (intros Hin; apply He, Hsym, Hin).
      apply IH in Hrun;
        [| apply wf_add_edge; assumption | apply undirected_add_edge; assumption].
      destruct Hrun as [Hsym' Hcount]. split; [exact Hsym' |].
      rewrite number_of_edges_add_new_edge in Hcount by (auto; apply Hwf).
      rewrite length_app in Hcount. cbn [length] in Hcount. lia.
    + inversion Hrun; subst. auto.
Qed.
End EdgeCount.

(** X18: on a well-formed undirected graph _degree_based_construct adds
    exactly as many edges as it reports: the returned graph is undirected
    and has number_of_edges(G) + len(added) edges. *)
Theorem degree_based_construct_edge_count
        {node : Type} `{EqDecision node}
        (G : Graph node) (budget : Z) (g' : Graph node) (added : list (node * node)) :
  wf G -> undirected G -> _degree_based_construct G budget = (g', added) ->
  undirected g' /\
  number_of_edges g' = number_of_edges G + Z.of_nat (length added).
Proof.
  intros Hwf Hsym Hrun. unfold _degree_based_construct, copy in Hrun.
  destruct (degree_construct_loop_edges _ _ _ _ _ Hwf Hsym Hrun) as [Hsym' Hcount].
  split; [exact Hsym' |]. cbn [length] in Hcount. lia.
Qed.

Lemma undirectedb_sound {node : Type} `{EqDecision node} (g : Graph node) :
  undirectedb g = true -> undirected g.
Proof.
  intros Hb x y Hy. apply adj_elem in Hy as (ns & He & Hy).
  unfold undirectedb in Hb. rewrite forallb_forall in Hb.
  specialize (Hb (x, ns) ltac:(apply list_elem_of_In; exact He)). cbn [fst snd] in Hb.
  rewrite forallb_forall in Hb.
  specialize (Hb y ltac:(apply list_elem_of_In; exact Hy)).
  apply bool_decide_eq_true in Hb. exact Hb.
Qed.

Lemma star4_wf : wf star4.
Proof.
  vm_compute. split; repeat constructor;
    (intros Hc; repeat (apply elem_of_cons in Hc as [Hc | Hc]; [discriminate Hc |]);
     inversion Hc).
Qed.

Lemma degree_based_construct_edge_count_witness :
  undirected (_degree_based_construct star4 5).1 /\
  number_of_edges (_degree_based_construct star4 5).1
  = number_of_edges star4 + Z.of_nat (length (_degree_based_construct star4 5).2).
Proof.
  apply (degree_based_construct_edge_count star4 5).
  - exact star4_wf.
  - apply undirectedb_sound. vm_compute. reflexivity.
  - destruct (_degree_based_construct star4 5). reflexivity.
Defined.

(** X19: attack_multiple_runs with num_runs <= 0 raises ValueError (the
    max() over no curves) and leaves the attacker and every stored object
    as they were, whatever the attacker, the graph and the budget. *)
Theorem attack_multiple_runs_without_runs
        {node : Type} `{EqDecision node} {Self : Type}
        `{SeededAttack (node:=node) Self}
        (graph : nat) (bud num_runs : Z) (dn gn : string) (thr : Q)
        (w : world node Self) :
  num_runs <= 0 ->
  attack_multiple_runs graph bud num_runs dn gn thr w = (Raise ValueError, w).
Proof.
  intros Hruns. unfold attack_multiple_runs, range.
  assert (Z.to_nat num_runs = 0%nat) as -> by lia.
  cbn [seq map runs_loop]. unfold bind at 1, ret at 1.
  unfold bind at 1, lift at 1. reflexivity.
Qed.

Lemma attack_multiple_runs_without_runs_witness :
  attack_multiple_runs 0%nat 2 0 "unknown" "unknown" (2 # 10) path5_world
  = (Raise ValueError, path5_world).
Proof.
  apply (attack_multiple_runs_without_runs 0%nat 2 0 "unknown" "unknown" (2 # 10)
           path5_world).
  lia.
Defined.

(** ** The trapezoid integral of the metrics module *)

Section MetricsRres.
Local Open Scope Q_scope.

Lemma np_asarray_nonneg (l : list Q) :
  (forall v, v ∈ l -> 0 <= v) -> Forall (Qle 0) (np_asarray l).
Proof.
  intros Hl. unfold np_asarray. apply Forall_forall. intros x Hx.
  apply list_elem_of_fmap in Hx as (v & -> & Hv). apply binary64_nonneg, Hl, Hv.
Qed.

Lemma np_pair_sums_nonneg (l : list Q) :
  Forall (Qle 0) l -> Forall (Qle 0) (np_pair_sums l).
Proof.
  induction 1 as [| a l Ha Hl IH]; [constructor |].
  destruct l as [| b l]; [constructor |].
  change (np_pair_sums (a :: b :: l)) with (fadd b a :: np_pair_sums (b :: l)).
  constructor; [| exact IH].
  inversion Hl; subst. apply binary64_nonneg. lra.
Qed.

(** np.trapz of non-negative values with a non-negative step is
    non-negative. *)
Lemma np_trapz_dx_nonneg (y : list Q) (dx : Q) :
  0 <= dx -> (forall v, v ∈ y -> 0 <= v) -> 0 <= np_trapz_dx y dx.
Proof.
  intros Hdx Hy. unfold np_trapz_dx. cbv zeta. apply np_sum_nonneg.
  apply Forall_forall. intros t Ht.
  apply list_elem_of_fmap in Ht as (a & -> & Ha).
  pose proof (np_pair_sums_nonneg _ (np_asarray_nonneg y Hy)) as Hall.
  rewrite Forall_forall in Hall. specialize (Hall a Ha).
  pose proof (binary64_nonneg dx Hdx) as Hd.
  apply binary64_nonneg. apply Qle_shift_div_l; [reflexivity |].
  rewrite Qmult_0_l. apply binary64_nonneg. apply Qmult_le_0_compat; assumption.
Qed.
End MetricsRres.

(** X20: with normalize set (the default) ResilienceMetrics.compute_r_res
    never returns more than 1.0, and for a curve without negative values
    it returns a non-negative value with or without normalisation.  The
    normalisation min(r_res, 1.0) is not redundant for curves within
    [0, 1]: on the curve of 21 ones, whose exact integral is 1, np.trapz
    returns 1.0000000000000002, which the normalisation cuts to 1.0. *)
Theorem metrics_r_res_range (curve : list Q) :
  (ResilienceMetrics.compute_r_res true curve <= 1)%Q /\
  ((forall v, v ∈ curve -> (0 <= v)%Q) ->
   (0 <= ResilienceMetrics.compute_r_res false curve)%Q /\
   (0 <= ResilienceMetrics.compute_r_res true curve)%Q) /\
  (ResilienceMetrics.compute_r_res false (replicate 21 1%Q)
   == binary64 1.0000000000000002)%Q /\
  (1 < ResilienceMetrics.compute_r_res false (replicate 21 1%Q))%Q /\
  (ResilienceMetrics.compute_r_res true (replicate 21 1%Q) == 1)%Q.
Proof.
  split; [| split; [| split; [| split]]].
  - unfold ResilienceMetrics.compute_r_res.
    destruct (length curve <? 2)%nat; [discriminate |].
    cbv zeta. unfold py_min.
    destruct (Qltb 1 _) eqn:E; [apply Qle_refl | apply Qltb_ge in E; exact E].
  - intros Hy.
    assert (0 <= ResilienceMetrics.compute_r_res false curve)%Q as H0.
    { unfold ResilienceMetrics.compute_r_res.
      destruct (Nat.ltb_spec (length curve) 2) as [Hshort | Hlong]; [apply Qle_refl |].
      cbv zeta. apply np_trapz_dx_nonneg; [| exact Hy].
      apply Qle_shift_div_l.
      + change 0%Q with (inject_Z 0). rewrite <- Zlt_Qlt. lia.
      + rewrite Qmult_0_l. discriminate. }
    split; [exact H0 |].
    unfold ResilienceMetrics.compute_r_res in *.
    destruct (length curve <? 2)%nat; [apply Qle_refl |].
    cbv zeta in *. unfold py_min.
    destruct (Qltb 1 _); [discriminate | exact H0].
  - vm_compute. reflexivity.
  - vm_compute. reflexivity.
  - vm_compute. reflexivity.
Qed.



(** ** The generator only produces non-negative words *)

Section Generator.
Import MT19937.

Lemma u32_nonneg (x : Z) : 0 <= u32 x.
Proof. unfold u32. apply Z.land_nonneg. right. lia. Qed.

Lemma mt_get_nonneg (mt : list Z) (i : nat) :
  Forall (fun x => 0 <= x) mt -> 0 <= mt_get mt i.
Proof.
  intros Hmt. unfold mt_get. destruct (nth_in_or_default i mt 0) as [Hin | ->]; [| lia].
  rewrite Forall_forall in Hmt. apply Hmt, list_elem_of_In, Hin.
Qed.

Lemma mt_set_nonneg (mt : list Z) (i : nat) (x : Z) :
  Forall (fun x => 0 <= x) mt -> 0 <= x -> Forall (fun x => 0 <= x) (mt_set mt i x).
Proof. intros Hmt Hx. unfold mt_set. apply Forall_insert; assumption. Qed.

Lemma init_genrand_from_nonneg (k : nat) : forall mti prev,
  Forall (fun x => 0 <= x) (init_genrand_from k mti prev).
Proof.
  induction k as [| k IH]; intros mti prev; cbn [init_genrand_from]; [constructor |].
  constructor; [apply u32_nonneg | apply IH].
Qed.

Lemma init_mix_key_nonneg (k : nat) : forall init_key key_length i j mt,
  Forall (fun x => 0 <= x) mt ->
  Forall (fun x => 0 <= x) (init_mix_key k init_key key_length i j mt).2.
Proof.
  induction k as [| k IH]; intros init_key key_length i j mt Hmt; [exact Hmt |].
  cbn [init_mix_key]. cbv zeta.
  destruct (N <=? S i)%nat; apply IH.
  - apply mt_set_nonneg; [apply mt_set_nonneg; [exact Hmt | apply u32_nonneg] |].
    apply mt_get_nonneg, mt_set_nonneg; [exact Hmt | apply u32_nonneg].
  - apply mt_set_nonneg; [exact Hmt | apply u32_nonneg].
Qed.

Lemma init_mix_index_nonneg (k : nat) : forall i mt,
  Forall (fun x => 0 <= x) mt ->
  Forall (fun x => 0 <= x) (init_mix_index k i mt).
Proof.
  induction k as [| k IH]; intros i mt Hmt; [exact Hmt |].
  cbn [init_mix_index]. cbv zeta.
  destruct (N <=? S i)%nat; apply IH.
  - apply mt_set_nonneg; [apply mt_set_nonneg; [exact Hmt | apply u32_nonneg] |].
    apply mt_get_nonneg, mt_set_nonneg; [exact Hmt | apply u32_nonneg].
  - apply mt_set_nonneg; [exact Hmt | apply u32_nonneg].
Qed.

Lemma init_by_array_valid (init_key : list Z) : valid (init_by_array init_key).
Proof.
  unfold valid, init_by_array. cbv zeta.
  pose proof (init_mix_key_nonneg (Nat.max N (length init_key)) init_key
                (length init_key) 1 0 (state (init_genrand 19650218))) as Hkey.
  destruct (init_mix_key _ _ _ _ _ _) as [i mt]. cbn [snd state] in *.
  apply mt_set_nonneg; [| lia]. apply init_mix_index_nonneg, Hkey.
  unfold init_genrand. cbn [state]. constructor; [lia | apply init_genrand_from_nonneg].
Qed.

(** [random.seed(a)] leaves a state of non-negative words. *)
Lemma random_seed_valid (a : Z) : valid (random_seed a).
Proof. apply init_by_array_valid. Qed.

Lemma twist_word_nonneg (a b c : Z) : 0 <= a -> 0 <= b -> 0 <= c -> 0 <= twist_word a b c.
Proof.
  intros Ha Hb Hc. unfold twist_word. cbv zeta.
  apply Z.lxor_nonneg. split; intros _.
  - destruct (Z.testbit _ 0); unfold MATRIX_A; lia.
  - apply Z.lxor_nonneg. split; intros _; [| exact Hc].
    apply Z.shiftr_nonneg, Z.lor_nonneg. split; apply Z.land_nonneg; auto.
Qed.

Lemma twist_from_nonneg (k : nat) : forall kk mt,
  Forall (fun x => 0 <= x) mt -> Forall (fun x => 0 <= x) (twist_from k kk mt).
Proof.
  induction k as [| k IH]; intros kk mt Hmt; [exact Hmt |].
  cbn [twist_from]. cbv zeta. apply IH, mt_set_nonneg; [exact Hmt |].
  apply twist_word_nonneg; apply mt_get_nonneg, Hmt.
Qed.

Lemma genrand_uint32_valid (self : RandomObject) :
  valid self ->
  0 <= (genrand_uint32 self).1 /\ valid (genrand_uint32 self).2.
Proof.
  intros Hv. unfold genrand_uint32. cbv zeta.
  set (self1 := if (N <=? index self)%nat
                then mkRandom (twist_from N 0 (state self)) 0 else self).
  assert (valid self1) as Hv1.
  { unfold self1. destruct (N <=? index self)%nat; [| exact Hv].
    unfold valid. cbn [state]. apply twist_from_nonneg, Hv. }
  cbn [fst snd]. split; [| exact Hv1].
  pose proof (mt_get_nonneg (state self1) (index self1) Hv1) as Hy.
  set (y0 := mt_get (state self1) (index self1)) in *.
  assert (forall a b, 0 <= a -> 0 <= b -> 0 <= Z.lxor a b) as Hxor.
  { intros a b Ha Hb. apply Z.lxor_nonneg. tauto. }
  assert (forall a m, 0 <= m -> 0 <= Z.land a m) as Hand.
  { intros a m Hm. apply Z.land_nonneg. right. exact Hm. }
  repeat first [apply Hxor | apply Z.shiftr_nonneg | apply Hand; lia | exact Hy].
Qed.

Lemma getrandbits_words_valid (words : nat) : forall k self,
  valid self ->
  0 <= (getrandbits_words words k self).1 /\ valid (getrandbits_words words k self).2.
Proof.
  induction words as [| words IH]; intros k self Hv; [split; [cbn; lia | exact Hv] |].
  cbn [getrandbits_words].
  destruct (genrand_uint32_valid self Hv) as [Hr Hv1].
  destruct (genrand_uint32 self) as [r self1]. cbn [fst snd] in *.
  destruct (IH (k - 32) self1 Hv1) as [Hhi Hv2].
  destruct (getrandbits_words words (k - 32) self1) as [hi self2]. cbn [fst snd] in *.
  split; [| exact Hv2].
  assert (0 <= (if k <? 32 then Z.shiftr r (32 - k) else r)) as Hr'.
  { destruct (k <? 32); [apply Z.shiftr_nonneg; exact Hr | exact Hr]. }
  assert (0 <= Z.shiftl hi 32) by (apply Z.shiftl_nonneg; exact Hhi).
  lia.
Qed.

Lemma reject_loop_valid (fuel : nat) : forall n k r self r' self',
  valid self -> 0 <= r ->
  reject_loop fuel n k r self = (Return r', self') ->
  0 <= r' < n /\ valid self'.
Proof.
  induction fuel as [| fuel IH]; intros n k r self r' self' Hv Hr Hrun;
    cbn [reject_loop] in Hrun; destruct (Z.ltb_spec r n) as [Hlt | Hge].
  - inversion Hrun; subst. auto.
  - discriminate.
  - inversion Hrun; subst. auto.
  - unfold getrandbits in Hrun.
    destruct (getrandbits_words_valid (Z.to_nat ((k - 1) / 32 + 1)) k self Hv)
      as [Hr1 Hv1].
    destruct (getrandbits_words _ k self) as [r1 self1]. cbn [fst snd] in *.
    eapply IH; eassumption.
Qed.

(** [_randbelow(n)] returns an index in range(n), if it returns. *)
Lemma _randbelow_valid (n : Z) (self : RandomObject) r self' :
  valid self -> _randbelow n self = (Return r, self') ->
  0 <= r < n /\ valid self'.
Proof.
  intros Hv Hrun. unfold _randbelow, getrandbits in Hrun. cbv zeta in Hrun.
  destruct (getrandbits_words_valid (Z.to_nat ((bit_length n - 1) / 32 + 1))
              (bit_length n) self Hv) as [Hr1 Hv1].
  destruct (getrandbits_words _ (bit_length n) self) as [r1 self1]. cbn [fst snd] in *.
  eapply reject_loop_valid; eassumption.
Qed.

Lemma _randbelow_keeps_valid (n : Z) (self : RandomObject) :
  valid self -> valid (_randbelow n self).2.
Proof.
  intros Hv. unfold _randbelow, getrandbits. cbv zeta.
  destruct (getrandbits_words_valid (Z.to_nat ((bit_length n - 1) / 32 + 1))
              (bit_length n) self Hv) as [Hr1 Hv1].
  destruct (getrandbits_words _ (bit_length n) self) as [r1 self1]. cbn [fst snd] in *.
  clear Hr1 Hv. revert r1 self1 Hv1.
  induction rejection_fuel as [| fuel IH]; intros r1 self1 Hv1; cbn [reject_loop];
    destruct (r1 <? n); try exact Hv1.
  unfold getrandbits.
  destruct (getrandbits_words_valid (Z.to_nat ((bit_length n - 1) / 32 + 1))
              (bit_length n) self1 Hv1) as [_ Hv2].
  destruct (getrandbits_words _ (bit_length n) self1) as [r2 self2]. cbn [fst snd] in *.
  apply IH, Hv2.
Qed.
End Generator.

Section SampleSpec.
Import MT19937 PyRandom.
Context {A : Type} `{EqDecision A}.

Lemma draw_unselected_spec (fuel : nat) (n : Z) (selected : list Z) :
  forall j self j' self',
    valid self -> 0 <= j < n ->
    draw_unselected fuel n j selected self = (Return j', self') ->
    0 <= j' < n /\ (j' ∉ selected) /\ valid self'.
Proof.
  induction fuel as [| fuel IH]; intros j self j' self' Hv Hj Hrun;
    cbn [draw_unselected] in Hrun;
    destruct (decide (j ∈ selected)) as [Hin | Hout].
  - rewrite bool_decide_eq_true_2 in Hrun by exact Hin. discriminate.
  - rewrite bool_decide_eq_false_2 in Hrun by exact Hout.
    inversion Hrun; subst. auto.
  - rewrite bool_decide_eq_true_2 in Hrun by exact Hin.
    destruct (_randbelow n self) as [o self1] eqn:Eb.
    destruct o as [j1 | e |]; try discriminate.
    apply _randbelow_valid in Eb as [Hj1 Hv1]; [| exact Hv].
    eapply IH; eassumption.
  - rewrite bool_decide_eq_false_2 in Hrun by exact Hout.
    inversion Hrun; subst. auto.
Qed.

Lemma NoDup_lookup_ne (l : list A) (i j : nat) (x y : A) :
  NoDup l -> l !! i = Some x -> l !! j = Some y -> i <> j -> x <> y.
Proof.
  intros Hnd Hx Hy Hij ->. apply Hij. eapply NoDup_lookup; eassumption.
Qed.

(** [random.sample(population, 2)] on a population without repetitions
    returns two different elements of it, if it returns. *)
Lemma sample_two (population : list A) (self self' : RandomObject) (l : list A) :
  valid self -> NoDup population ->
  sample population 2 self = (Return l, self') ->
  exists u v, l = [u; v] /\ u ∈ population /\ v ∈ population /\ u <> v /\ valid self'.
Proof.
  intros Hv Hnd Hrun. unfold sample in Hrun.
  destruct (length population <? 2)%nat; [discriminate |].
  destruct (length population <=? setsize 2)%nat.
  - cbn [sample_pool] in Hrun.
    destruct (_randbelow (Z.of_nat (length population)) self) as [o self1] eqn:E0.
    destruct o as [j0 | e |]; try discriminate.
    apply _randbelow_valid in E0 as [Hj0 Hv1]; [| exact Hv].
    destruct (population !! Z.to_nat j0) as [x |] eqn:Ex; [| discriminate].
    destruct (population !! (length population - 1)%nat) as [moved |] eqn:Em;
      [| discriminate].
    destruct (_randbelow (Z.of_nat (length population - 1)) self1) as [o self2] eqn:E1.
    destruct o as [j1 | e |]; try discriminate.
    apply _randbelow_valid in E1 as [Hj1 Hv2]; [| exact Hv1].
    destruct (<[Z.to_nat j0:=moved]> population !! Z.to_nat j1) as [y |] eqn:Ey;
      [| discriminate].
    destruct (<[Z.to_nat j0:=moved]> population !! (length population - 1 - 1)%nat);
      [| discriminate].
    inversion Hrun; subst. exists x, y. split; [reflexivity |].
    split; [eapply list_elem_of_lookup_2, Ex |].
    destruct (decide (Z.to_nat j0 = Z.to_nat j1)) as [Heq | Hne].
    + rewrite <- Heq, list_lookup_insert_eq in Ey by (eapply lookup_lt_Some, Ex).
      inversion Ey; subst y.
      split; [eapply list_elem_of_lookup_2, Em |]. split; [| exact Hv2].
      eapply NoDup_lookup_ne; [exact Hnd | exact Ex | exact Em | lia].
    + rewrite list_lookup_insert_ne in Ey by exact Hne.
      split; [eapply list_elem_of_lookup_2, Ey |]. split; [| exact Hv2].
      eapply NoDup_lookup_ne; [exact Hnd | exact Ex | exact Ey | exact Hne].
  - cbn [sample_set] in Hrun. cbv zeta in Hrun.
    destruct (_randbelow (Z.of_nat (length population)) self) as [o self1] eqn:E0.
    destruct o as [j0 | e |]; try discriminate.
    apply _randbelow_valid in E0 as [Hj0 Hv1]; [| exact Hv].
    destruct (draw_unselected rejection_fuel (Z.of_nat (length population)) j0 [] self1)
      as [o self2] eqn:D0.
    destruct o as [i0 | e |]; try discriminate.
    apply draw_unselected_spec in D0 as (Hi0 & _ & Hv2); [| exact Hv1 | exact Hj0].
    destruct (population !! Z.to_nat i0) as [x |] eqn:Ex; [| discriminate].
    destruct (_randbelow (Z.of_nat (length population)) self2) as [o self3] eqn:E1.
    destruct o as [j1 | e |]; try discriminate.
    apply _randbelow_valid in E1 as [Hj1 Hv3]; [| exact Hv2].
    destruct (draw_unselected rejection_fuel (Z.of_nat (length population)) j1
                ([] ++ [i0]) self3) as [o self4] eqn:D1.
    destruct o as [i1 | e |]; try discriminate.
    apply draw_unselected_spec in D1 as (Hi1 & Hsel & Hv4); [| exact Hv3 | exact Hj1].
    destruct (population !! Z.to_nat i1) as [y |] eqn:Ey; [| discriminate].
    inversion Hrun; subst. exists x, y. split; [reflexivity |].
    split; [eapply list_elem_of_lookup_2, Ex |].
    split; [eapply list_elem_of_lookup_2, Ey |]. split; [| exact Hv4].
    eapply NoDup_lookup_ne; [exact Hnd | exact Ex | exact Ey |].
    intros Heq. apply Hsel. cbn [app]. apply list_elem_of_singleton. lia.
Qed.

Lemma sample_too_few (population : list A) (k : nat) (self : RandomObject) :
  (length population < k)%nat ->
  sample population k self = (Raise ValueError, self).
Proof.
  intros Hlen. unfold sample.
  destruct (Nat.ltb_spec (length population) k); [reflexivity | lia].
Qed.
End SampleSpec.

Section RandomConstructSpec.
Context {node : Type} `{EqDecision node}.

(** The invariant of the loop of _random_construct. *)
Lemma random_construct_loop_spec (budget : Z) (pool : list node) (attempts_left : nat) :
  forall (g : Graph node) added rng g' added' rng',
    wf g -> NoDup pool -> (forall x, x ∈ pool -> x ∈ nodes g) -> valid rng ->
    random_construct_loop attempts_left budget g pool added rng
    = (Return (g', added'), rng') ->
    exists new,
      added' = added ++ new /\ (length new <= attempts_left)%nat /\
      Z.of_nat (length added') <= Z.max budget (Z.of_nat (length added)) /\
      wf g' /\ nodes g' = nodes g /\
      (forall u v, (u, v) ∈ new ->
         u <> v /\ u ∈ nodes g /\ v ∈ nodes g /\ has_edge g u v = false) /\
      (forall i j e1 e2, (i < j)%nat -> new !! i = Some e1 -> new !! j = Some e2 ->
         e2 <> e1 /\ e2 <> (e1.2, e1.1)) /\
      (forall x y, has_edge g' x y = true <->
                   has_edge g x y = true \/ (x, y) ∈ new \/ (y, x) ∈ new) /\
      (undirected g ->
       undirected g' /\
       number_of_edges g' = number_of_edges g + Z.of_nat (length new)).
Proof.
  induction attempts_left as [| left IH];
    intros g added rng g' added' rng' Hwf Hnd Hpool Hv Hrun.
  - cbn in Hrun. inversion Hrun; subst. exists []. rewrite app_nil_r.
    split; [reflexivity |]. split; [reflexivity |]. split; [lia |].
    split; [exact Hwf |]. split; [reflexivity |].
    split; [intros u v Hin; inversion Hin |].
    split; [intros i j e1 e2 _ He1; destruct i; discriminate He1 |].
    split; [| intros Hsym; split; [exact Hsym | cbn; lia]].
    intros x y. split; [auto |]. intros [H | [H | H]]; [exact H | inversion H | inversion H].
  - cbn [random_construct_loop] in Hrun.
    destruct (Z.ltb_spec (Z.of_nat (length added)) budget) as [Hlt | Hge].
    2:{ inversion Hrun; subst. exists []. rewrite app_nil_r.
        split; [reflexivity |]. split; [cbn; lia |]. split; [lia |].
        split; [exact Hwf |]. split; [reflexivity |].
        split; [intros u v Hin; inversion Hin |].
        split; [intros i j e1 e2 _ He1; destruct i; discriminate He1 |].
        split; [| intros Hsym; split; [exact Hsym | cbn; lia]].
        intros x y. split; [auto |].
        intros [H | [H | H]]; [exact H | inversion H | inversion H]. }
    unfold bind at 1 in Hrun.
    destruct (PyRandom.sample pool 2 rng) as [o rng1] eqn:Es.
    destruct o as [l | e |]; try discriminate.
    apply sample_two in Es as (u & v & -> & Hu & Hv' & Hne & Hv1); [| exact Hv | exact Hnd].
    apply Hpool in Hu as Hun. apply Hpool in Hv' as Hvn.
    destruct (has_edge g u v) eqn:He; cbn [negb] in Hrun.
    + apply IH in Hrun; try assumption.
      destruct Hrun as (new & -> & Hlen & Hb & Hrest).
      exists new. split; [reflexivity |]. split; [lia |]. split; [exact Hb | exact Hrest].
    + pose proof (has_edge_add_edge g u v) as Hedge.
      apply IH in Hrun; try assumption.
      2:{ apply wf_add_edge; assumption. }
      2:{ intros x Hx. rewrite nodes_add_edge by assumption. apply Hpool, Hx. }
      destruct Hrun as (new & -> & Hlen & Hb & Hwf' & Hnodes & Hnew & Hdist & Hedges & Hcount).
      rewrite nodes_add_edge in Hnodes, Hnew by assumption.
      rewrite !length_app in Hb. cbn [length] in Hb.
      exists ((u, v) :: new). rewrite <- app_assoc.
      split; [reflexivity |]. split; [cbn [length]; lia |].
      split; [rewrite !length_app; cbn [length]; lia |].
      split; [exact Hwf' |]. split; [exact Hnodes |].
      split; [| split; [| split]].
      * intros a b Hab. apply elem_of_cons in Hab as [Hab | Hab].
        -- inversion Hab; subst. auto.
        -- destruct (Hnew a b Hab) as (Hne' & Ha & Hb' & He').
           split; [exact Hne' |]. split; [exact Ha |]. split; [exact Hb' |].
           destruct (has_edge g a b) eqn:Eab; [| reflexivity].
           assert (has_edge (add_edge g u v) a b = true) as Hc
               by (apply Hedge; auto).
           congruence.
      * intros i j e1 e2 Hij He1 He2. destruct j as [| j]; [lia |].
        cbn in He2. destruct i as [| i].
        -- cbn in He1. inversion He1; subst e1. cbn [fst snd].
           destruct e2 as [a b]. apply list_elem_of_lookup_2 in He2.
           destruct (Hnew a b He2) as (_ & _ & _ & He').
           split; intros Heq; inversion Heq; subst.
           ++ assert (has_edge (add_edge g u v) u v = true) as Hc
                 by (apply Hedge; auto).
              congruence.
           ++ assert (has_edge (add_edge g u v) v u = true) as Hc
                 by (apply Hedge; auto).
              congruence.
        -- cbn in He1. apply (Hdist i j); [lia | assumption | assumption].
      * intros x y. rewrite Hedges, Hedge by assumption.
        rewrite !elem_of_cons. split.
        -- intros [[H | [[-> ->] | [-> ->]]] | [H | H]]; auto.
        -- intros [H | [[H | H] | [H | H]]]; auto.
           ++ inversion H; subst. auto.
           ++ inversion H; subst. auto.
      * intros Hsym.
        unfold has_edge in He. apply bool_decide_eq_false in He.
        assert (u ∉ adj g v) as He' by (intros Hin; apply He, Hsym, Hin).
        destruct (Hcount (undirected_add_edge g u v Hsym Hun Hvn)) as [Hsym' Hc].
        split; [exact Hsym' |].
        rewrite number_of_edges_add_new_edge in Hc by (auto; apply Hwf).
        cbn [length]. lia.
Qed.
End RandomConstructSpec.

(** X22: a call of UnifiedEvaluator._random_construct on a well-formed
    graph that returns, returns a well-formed graph with the same nodes and
    at most max(0, budget) added edges.  Every added edge joins two
    different nodes of the graph that were not adjacent (random.sample
    never draws a node twice), no edge is added twice in either direction,
    the edges of the returned graph are the caller's and the added ones,
    and for an undirected graph the edge count grows by len(added).  The
    state of the random module before the call does not matter. *)
Theorem random_construct_spec
        {node : Type} `{EqDecision node}
        (self : UnifiedEvaluator) (G : Graph node) (budget : Z)
        (rng rng' : MT19937.RandomObject)
        (g' : Graph node) (added : list (node * node)) :
  wf G -> _random_construct self G budget rng = (Return (g', added), rng') ->
  wf g' /\ nodes g' = nodes G /\
  Z.of_nat (length added) <= Z.max 0 budget /\
  (forall u v, (u, v) ∈ added ->
     u <> v /\ u ∈ nodes G /\ v ∈ nodes G /\ has_edge G u v = false) /\
  (forall i j e1 e2, (i < j)%nat -> added !! i = Some e1 -> added !! j = Some e2 ->
     e2 <> e1 /\ e2 <> (e1.2, e1.1)) /\
  (forall x y, has_edge g' x y = true <->
               has_edge G x y = true \/ (x, y) ∈ added \/ (y, x) ∈ added) /\
  (undirected G ->
   undirected g' /\
   number_of_edges g' = number_of_edges G + Z.of_nat (length added)) /\
  (forall other, _random_construct self G budget other = (Return (g', added), rng')).
Proof.
  intros Hwf Hrun.
  assert (forall other, _random_construct self G budget other
                        = (Return (g', added), rng')) as Hany.
  { intros other. rewrite <- Hrun. reflexivity. }
  unfold _random_construct, copy in Hrun. unfold bind at 1, put at 1 in Hrun.
  apply random_construct_loop_spec in Hrun; auto; [| apply Hwf | apply random_seed_valid].
  destruct Hrun as (new & Eadd & _ & Hb & Hwf' & Hnodes & Hnew & Hdist & Hedges & Hcount).
  cbn [app] in Eadd. subst new. cbn [length] in Hb.
  split; [exact Hwf' |]. split; [exact Hnodes |]. split; [lia |].
  split; [exact Hnew |]. split; [exact Hdist |]. split; [exact Hedges |].
  split; [exact Hcount | exact Hany].
Qed.

Lemma random_construct_spec_witness :
  exists g' added rng',
    _random_construct UnifiedEvaluator_default star4 2 (MT19937.mkRandom [] 0)
    = (Return (g', added), rng') /\
    wf g' /\ nodes g' = nodes star4 /\
    Z.of_nat (length added) <= Z.max 0 2 /\
    (forall u v, (u, v) ∈ added ->
       u <> v /\ u ∈ nodes star4 /\ v ∈ nodes star4 /\ has_edge star4 u v = false) /\
    (forall i j e1 e2, (i < j)%nat -> added !! i = Some e1 -> added !! j = Some e2 ->
       e2 <> e1 /\ e2 <> (e1.2, e1.1)) /\
    (forall x y, has_edge g' x y = true <->
                 has_edge star4 x y = true \/ (x, y) ∈ added \/ (y, x) ∈ added) /\
    (undirected star4 ->
     undirected g' /\
     number_of_edges g' = number_of_edges star4 + Z.of_nat (length added)) /\
    (forall other, _random_construct UnifiedEvaluator_default star4 2 other
                   = (Return (g', added), rng')).
Proof.
  assert (exists g' added rng',
             _random_construct UnifiedEvaluator_default star4 2 (MT19937.mkRandom [] 0)
             = (Return (g', added), rng')) as (g' & added & rng' & E).
  { eexists _, _, _. vm_compute. reflexivity. }
  pose proof (random_construct_spec _ _ _ _ _ _ _ star4_wf E) as Hspec.
  exists g', added, rng'. split; [exact E | exact Hspec].
Defined.

(** X23: on a graph with fewer than two nodes _random_construct raises
    ValueError (from random.sample) as soon as budget >= 1, and returns the
    graph unchanged with no added edge when budget <= 0; either way it has
    reseeded the random module with the evaluator's seed. *)
Theorem random_construct_few_nodes
        {node : Type} `{EqDecision node}
        (self : UnifiedEvaluator) (G : Graph node) (budget : Z)
        (rng : MT19937.RandomObject) :
  (length G < 2)%nat ->
  _random_construct self G budget rng
  = (if 1 <=? budget then Raise ValueError else Return (G, []),
     MT19937.random_seed (random_seed self)).
Proof.
  intros Hlen. unfold _random_construct, copy. unfold bind at 1, put at 1.
  destruct (Z.leb_spec 1 budget) as [Hb | Hb].
  - destruct (Z.to_nat (budget * 100)) as [| left] eqn:El; [lia |].
    cbn [random_construct_loop length]. change (Z.of_nat 0) with 0.
    destruct (Z.ltb_spec 0 budget) as [_ | ?]; [| lia].
    unfold bind at 1. rewrite sample_too_few; [reflexivity |].
    rewrite length_nodes. exact Hlen.
  - assert (Z.to_nat (budget * 100) = 0%nat) as -> by lia. reflexivity.
Qed.

Lemma random_construct_few_nodes_witness :
  _random_construct UnifiedEvaluator_default (add_node [] 0) 3 (MT19937.mkRandom [] 0)
  = (if 1 <=? 3 then Raise ValueError else Return (add_node [] 0, []),
     MT19937.random_seed (random_seed UnifiedEvaluator_default)).
Proof.
  apply (random_construct_few_nodes UnifiedEvaluator_default (add_node [] 0) 3
           (MT19937.mkRandom [] 0)).
  vm_compute. lia.
Defined.



Section EnvironmentSpec.
Context {node : Type} `{EqDecision node}.

(** [max(components, key=len)] has the largest length. *)
Lemma py_max_key_length (ccs : list (list node)) :
  ccs <> [] ->
  exists m, py_max_key (fun cc => Z.of_nat (length cc)) ccs = Return m /\
            length m = list_max (map length ccs).
Proof.
  destruct ccs as [| c rest]; [contradiction |]. intros _.
  cbn [py_max_key]. eexists. split; [reflexivity |].
  destruct (py_max_from_first (fun cc : list node => Z.of_nat (length cc)) rest c [] [])
    as (pre & post & E & Hpre & Hpost).
  { intros x Hx. inversion Hx. }
  { intros x Hx. inversion Hx. }
  cbn [app] in E. set (m := py_max_from _ c rest) in *.
  apply Nat.le_antisymm.
  - apply list_max_ge. apply list_elem_of_fmap. exists m. split; [reflexivity |].
    rewrite E. apply elem_of_app. right. left.
  - apply list_max_le. apply Forall_forall. intros n Hn.
    apply list_elem_of_fmap in Hn as (x & -> & Hx).
    rewrite E in Hx. apply elem_of_app in Hx as [Hx | Hx].
    + specialize (Hpre x Hx). lia.
    + apply elem_of_cons in Hx as [-> | Hx]; [lia |].
      specialize (Hpost x Hx). lia.
Qed.

(** _create_state_snapshot returns, and describes the current graph. *)
Lemma snapshot_returns (self : Simulator.NetworkEnvironment node) :
  wf (Simulator.graph self) ->
  exists s,
    Simulator._create_state_snapshot self = Return s /\
    Simulator.step s = Simulator.current_step self /\
    Simulator.num_nodes s = number_of_nodes (Simulator.graph self) /\
    Simulator.num_edges s = number_of_edges (Simulator.graph self) /\
    Simulator.gs_largest_cc_size s
    = Z.of_nat (largest_cc_size (connected_components (Simulator.graph self))) /\
    0 <= Simulator.gs_largest_cc_size s <= Simulator.num_nodes s.
Proof.
  intros Hwf. unfold Simulator._create_state_snapshot.
  pose proof (largest_cc_size_le _ Hwf) as Hle.
  destruct (Z.ltb_spec 0 (number_of_nodes (Simulator.graph self))) as [Hpos | Hzero].
  - assert (Simulator.graph self <> []) as Hne.
    { intros E. unfold number_of_nodes in Hpos. rewrite E in Hpos.
      cbn [length] in Hpos. lia. }
    destruct (py_max_key_length _ (connected_components_nonempty _ Hne)) as (m & -> & Hm).
    cbn [obind]. eexists. split; [reflexivity |].
    cbn [Simulator.step Simulator.num_nodes Simulator.num_edges
         Simulator.gs_largest_cc_size].
    unfold largest_cc_size in *. rewrite Hm. unfold number_of_nodes.
    repeat split; auto; lia.
  - assert (Simulator.graph self = []) as E.
    { unfold number_of_nodes in Hzero. destruct (Simulator.graph self); [reflexivity |].
      cbn in Hzero. lia. }
    cbn [obind]. eexists. split; [reflexivity |].
    cbn [Simulator.step Simulator.num_nodes Simulator.num_edges
         Simulator.gs_largest_cc_size].
    rewrite E. unfold number_of_nodes. cbn [length connected_components nodes map
      components_from largest_cc_size list_max fold_right].
    repeat split; auto; lia.
Qed.

Lemma no_self_loop_removed (g : Graph node) (n : node) :
  (forall v, v ∉ adj g v) -> forall v, v ∉ adj (removed g n) v.
Proof.
  intros Hno v Hv. rewrite adj_removed in Hv.
  destruct (decide (v = n)); [inversion Hv |].
  apply list_elem_of_filter in Hv as [_ Hv]. exact (Hno v Hv).
Qed.

Lemma no_self_loop_add_edge (g : Graph node) (u v : node) :
  u ∈ nodes g -> v ∈ nodes g -> u <> v ->
  (forall x, x ∉ adj g x) -> forall x, x ∉ adj (add_edge g u v) x.
Proof.
  intros Hu Hv Hne Hno x Hx.
  apply elem_of_adj_add_edge in Hx as [Hx | [[-> E] | [-> E]]]; try assumption.
  - exact (Hno x Hx).
  - apply Hne. exact E.
  - apply Hne. symmetry. exact E.
Qed.

(** Recording a state keeps the invariant when the step counter is the
    length of the history. *)
Lemma record_state_ok (G : Graph node) (self : Simulator.NetworkEnvironment node) :
  wf (Simulator.graph self) ->
  Simulator.initial_graph self = G ->
  (forall v, v ∈ nodes (Simulator.graph self) -> v ∈ nodes G) ->
  Z.of_nat (length (Simulator.history self)) = Simulator.current_step self ->
  (forall i s, Simulator.history self !! i = Some s ->
     Simulator.step s = Z.of_nat i /\
     0 <= Simulator.gs_largest_cc_size s <= Simulator.num_nodes s) ->
  ((forall v, v ∉ adj G v) -> forall v, v ∉ adj (Simulator.graph self) v) ->
  exists env, Simulator._record_state self = Return env /\ environment_ok G env /\
              Simulator.graph env = Simulator.graph self /\
              Simulator.current_step env = Simulator.current_step self.
Proof.
  intros Hwf Hinit Hnodes Hlen Hhist Hloops. unfold Simulator._record_state.
  destruct (snapshot_returns self Hwf) as (s & -> & Hstep & Hn & He & Hl & Hb).
  cbn [obind]. eexists. split; [reflexivity |]. split; [| split; reflexivity].
  unfold environment_ok.
  cbn [Simulator.graph Simulator.initial_graph Simulator.history
       Simulator.current_step].
  split; [exact Hwf |]. split; [exact Hinit |]. split; [exact Hnodes |].
  split; [rewrite length_app; cbn [length]; lia |].
  split; [| split; [| exact Hloops]].
  - intros i s' Hi. apply lookup_app_Some in Hi as [Hi | [Hge Hi]].
    + apply Hhist, Hi.
    + destruct (i - length (Simulator.history self))%nat as [| d] eqn:Ed;
        [| destruct d; discriminate Hi].
      cbn in Hi. inversion Hi; subst s'. split; [| exact Hb].
      rewrite Hstep. lia.
  - exists s. split; [apply last_snoc |]. auto.
Qed.
End EnvironmentSpec.

(** X24: a NetworkEnvironment created from a well-formed graph never
    raises, whatever sequence of remove_node, add_edge and reset calls is
    made on it (missing nodes and self-loops are ignored), and afterwards:
    its graph is well formed and has only nodes of the initial graph,
    initial_graph is still the caller's graph, the history holds
    current_step + 1 snapshots whose steps count 0, 1, 2, ..., the last
    snapshot has the node count, edge count and largest component size of
    the current graph, and if the initial graph has no self-loop the
    current graph has none. *)
Theorem environment_invariants
        {node : Type} `{EqDecision node}
        (G : Graph node) (task_type : Simulator.TaskType) (budget top_k : Z)
        (node_semantics : option (list (node * string)))
        (calls : list (Simulator.call node)) :
  wf G ->
  exists env,
    obind (Simulator.__init__ G task_type budget top_k node_semantics)
          (fun env => Simulator.do_calls env calls) = Return env /\
    environment_ok G env.
Proof.
  intros Hwf. unfold Simulator.__init__, copy.
  match goal with
  | |- context [Simulator._record_state ?e] =>
      destruct (record_state_ok G e) as (env0 & -> & Hok & _)
  end; cbn [Simulator.graph Simulator.initial_graph Simulator.history
            Simulator.current_step]; auto.
  { intros i s Hi. destruct i; discriminate Hi. }
  cbn [obind]. rename Hwf into HwfG. revert env0 Hok.
  induction calls as [| c calls IH]; intros env Hok; [exists env; auto |].
  cbn [Simulator.do_calls].
  pose proof Hok as (Hwf & Hinit & Hnodes & Hlen & Hhist & Hlast & Hloops).
  assert (exists env1, Simulator.do_call env c = Return env1 /\ environment_ok G env1)
    as (env1 & -> & Hok1).
  { destruct c as [n | u v |]; cbn [Simulator.do_call].
    - unfold Simulator.remove_node, has_node.
      destruct (decide (n ∈ nodes (Simulator.graph env))) as [Hn | Hn].
      2:{ rewrite bool_decide_eq_false_2 by exact Hn. exists env. auto. }
      rewrite bool_decide_eq_true_2 by exact Hn.
      unfold remove_node. destruct (decide (n ∈ nodes (Simulator.graph env)));
        [| contradiction].
      cbn [obind]. fold (removed (Simulator.graph env) n).
      match goal with
      | |- context [Simulator._record_state ?e] =>
          destruct (record_state_ok G e) as (env1 & -> & Hok1 & _)
      end; cbn [Simulator.graph Simulator.initial_graph Simulator.history
                Simulator.current_step]; eauto.
      + apply wf_removed, Hwf.
      + intros v Hv. apply nodes_removed_subset in Hv as [Hv _]. auto.
      + intros Hno. apply no_self_loop_removed, Hloops, Hno.
    - unfold Simulator.add_edge, has_node.
      destruct (decide (u ∈ nodes (Simulator.graph env))) as [Hu | Hu].
      2:{ rewrite (bool_decide_eq_false_2 _ Hu). cbn [andb]. exists env. auto. }
      rewrite (bool_decide_eq_true_2 _ Hu).
      destruct (decide (v ∈ nodes (Simulator.graph env))) as [Hv | Hv].
      2:{ rewrite (bool_decide_eq_false_2 _ Hv). cbn [andb]. exists env. auto. }
      rewrite (bool_decide_eq_true_2 _ Hv).
      destruct (decide (u = v)) as [Huv | Huv].
      { rewrite (bool_decide_eq_true_2 _ Huv). cbn [andb negb]. exists env. auto. }
      rewrite (bool_decide_eq_false_2 _ Huv). cbn [andb negb].
      match goal with
      | |- context [Simulator._record_state ?e] =>
          destruct (record_state_ok G e) as (env1 & -> & Hok1 & _)
      end; cbn [Simulator.graph Simulator.initial_graph Simulator.history
                Simulator.current_step]; eauto.
      + apply wf_add_edge; assumption.
      + intros x Hx. rewrite nodes_add_edge in Hx by assumption. auto.
      + intros Hno. apply no_self_loop_add_edge; auto.
    - unfold Simulator.reset, copy.
      match goal with
      | |- context [Simulator._record_state ?e] =>
          destruct (record_state_ok G e) as (env1 & -> & Hok1 & _)
      end; cbn [Simulator.graph Simulator.initial_graph Simulator.history
                Simulator.current_step]; eauto.
      + rewrite Hinit. exact HwfG.
      + rewrite Hinit. auto.
      + intros i s Hi. destruct i; discriminate Hi.
      + rewrite Hinit. auto. }
  cbn [obind]. apply IH, Hok1.
Qed.

Lemma environment_invariants_witness :
  exists env,
    obind (Simulator.__init__ path5 Simulator.DISMANTLE 10 50 None)
          (fun env => Simulator.do_calls env example_calls) = Return env /\
    environment_ok path5 env.
Proof.
  apply (environment_invariants path5 Simulator.DISMANTLE 10 50 None example_calls).
  exact path5_wf.
Defined.

Section PruneSpec.
Context {node : Type} `{EqDecision node}.

(** The head of the descending ranking is what [max] returns. *)
Lemma sorted_desc_head (key : node -> Z) (x : node) (rest : list node) :
  head (sorted_desc key (x :: rest)) = Some (py_max_from key x rest).
Proof.
  destruct (py_max_from_first key rest x [] []) as (pre & post & E & Hpre & Hpost).
  { intros y Hy. inversion Hy. }
  { intros y Hy. inversion Hy. }
  cbn [app] in E. set (m := py_max_from key x rest) in *.
  destruct (sorted_desc_spec key (x :: rest)) as (Hperm & Hsorted & Hstable).
  destruct (sorted_desc key (x :: rest)) as [| h l] eqn:Es.
  { apply Permutation_nil_l in Hperm. discriminate Hperm. }
  cbn [head]. f_equal.
  assert (m ∈ x :: rest) as Hm by (rewrite E; apply elem_of_app; right; left).
  assert (h ∈ x :: rest) as Hh by (rewrite <- Hperm; left).
  assert (key h <= key m) as Hle.
  { rewrite E in Hh. apply elem_of_app in Hh as [Hh | Hh].
    - specialize (Hpre h Hh). lia.
    - apply elem_of_cons in Hh as [-> | Hh]; [lia | exact (Hpost h Hh)]. }
  assert (key m <= key h) as Hge.
  { rewrite <- Hperm in Hm. apply elem_of_cons in Hm as [-> | Hm]; [lia |].
    apply StronglySorted_inv in Hsorted as [_ Hall].
    rewrite Forall_forall in Hall. exact (Hall m Hm). }
  specialize (Hstable (key m)).
  rewrite (filter_cons _ h l) in Hstable.
  destruct (decide (key h = key m)) as [_ | ?]; [| lia].
  rewrite E, filter_app, (filter_cons _ m post) in Hstable.
  destruct (decide (key m = key m)) as [_ | ?]; [| contradiction].
  rewrite (filter_key_none key (key m) pre) in Hstable.
  - cbn [app] in Hstable. inversion Hstable. reflexivity.
  - intros z Hz. specialize (Hpre z Hz). lia.
Qed.
End PruneSpec.

(** X25: prune_candidates("node") with k = top_k or spectral_top_k >= 0
    returns the first min(k, |V|) nodes of the current graph in descending
    order of degree, nodes of equal degree in the graph's node order, each
    node once.  When k >= 1 and the graph has a node, the first candidate
    is the node that the adaptive highest-degree attack would select.  Any
    candidate_type other than "node" and "edge" raises ValueError. *)
Theorem prune_candidates_nodes
        {node : Type} `{EqDecision node} (node_le : node -> node -> option bool)
        (self : Simulator.NetworkEnvironment node) (top_k : option Z) (k : Z) :
  wf (Simulator.graph self) ->
  k = match top_k with
      | Some k => if k =? 0 then Simulator.spectral_top_k self else k
      | None => Simulator.spectral_top_k self
      end ->
  0 <= k ->
  let g := Simulator.graph self in
  exists l,
    Simulator.prune_candidates node_le self "node" top_k = Return (Simulator.Nodes l) /\
    l = take (Z.to_nat k) (sorted_desc (degree g) (nodes g)) /\
    Z.of_nat (length l) = Z.min k (number_of_nodes g) /\
    NoDup l /\ (forall v, v ∈ l -> v ∈ nodes g) /\
    StronglySorted (fun a b => degree g b <= degree g a) l /\
    (1 <= k -> g <> [] ->
     exists v, head l = Some v /\
               select_node (HighestDegreeAttack_init true) g
               = (Return (Some v), HighestDegreeAttack_init true)) /\
    (forall other, other <> "node"%string -> other <> "edge"%string ->
       Simulator.prune_candidates node_le self other top_k = Raise ValueError).
Proof.
  intros Hwf Hk Hk0 g.
  destruct (sorted_desc_spec (degree g) (nodes g)) as (Hperm & Hsorted & Hstable).
  pose proof (Permutation_length Hperm) as Hlen. rewrite length_nodes in Hlen.
  exists (take (Z.to_nat k) (sorted_desc (degree g) (nodes g))).
  split; [| split; [reflexivity | split; [| split; [| split; [| split; [| split]]]]]].
  - unfold Simulator.prune_candidates. rewrite <- Hk. cbn [String.eqb Ascii.eqb Bool.eqb].
    fold g. destruct (nodes g) as [| x rest] eqn:En.
    + destruct (Z.to_nat k); reflexivity.
    + cbv zeta. do 2 f_equal. unfold py_slice_to.
      destruct (Z.ltb_spec (Z.min k (Z.of_nat (length (sorted_desc (degree g) (x :: rest))))) 0)
        as [? | _]; [lia |].
      destruct (Z.le_ge_cases k (Z.of_nat (length (sorted_desc (degree g) (x :: rest)))))
        as [Hle | Hge].
      * rewrite Z.min_l by exact Hle. reflexivity.
      * rewrite Z.min_r by exact Hge. rewrite Nat2Z.id, firstn_all.
        symmetry. apply firstn_all2. lia.
  - rewrite length_take, Hlen. unfold number_of_nodes. fold g. lia.
  - eapply sublist_NoDup; [| apply sublist_take]. rewrite Hperm. apply Hwf.
  - intros v Hv. apply elem_of_take in Hv as (i & Hv & _).
    apply list_elem_of_lookup_2 in Hv. rewrite Hperm in Hv. exact Hv.
  - rewrite <- (firstn_skipn (Z.to_nat k) (sorted_desc (degree g) (nodes g))) in Hsorted.
    revert Hsorted. generalize (take (Z.to_nat k) (sorted_desc (degree g) (nodes g))).
    intros l Hs. induction l as [| a l IH]; [constructor |].
    cbn [app] in Hs. apply StronglySorted_inv in Hs as [Hs Hall].
    constructor; [apply IH, Hs |].
    apply Forall_app in Hall as [Hall _]. exact Hall.
  - intros Hk1 Hg. destruct g as [| [x ns] g0] eqn:Eg; [contradiction |].
    exists (py_max_from (degree g) x (nodes g0)). rewrite <- Eg. split.
    + assert (nodes g = x :: nodes g0) as -> by (rewrite Eg; reflexivity).
      pose proof (sorted_desc_head (degree g) x (nodes g0)) as Hhead.
      destruct (sorted_desc (degree g) (x :: nodes g0)) as [| h l]; [discriminate |].
      destruct (Z.to_nat k) as [| n] eqn:En; [lia |]. exact Hhead.
    + cbn [select_node HighestDegreeAttack_BaseAttack]. rewrite Eg.
      apply hda_adaptive_select. reflexivity.
  - intros other Hn He. unfold Simulator.prune_candidates.
    apply String.eqb_neq in Hn, He. rewrite Hn, He. reflexivity.
Qed.


Lemma prune_candidates_nodes_witness :
  exists l,
    Simulator.prune_candidates int_le path5_environment "node" None
    = Return (Simulator.Nodes l) /\
    l = take (Z.to_nat 3) (sorted_desc (degree path5) (nodes path5)) /\
    Z.of_nat (length l) = Z.min 3 (number_of_nodes path5) /\
    NoDup l /\ (forall v, v ∈ l -> v ∈ nodes path5) /\
    StronglySorted (fun a b => degree path5 b <= degree path5 a) l /\
    (1 <= 3 -> path5 <> [] ->
     exists v, head l = Some v /\
               select_node (HighestDegreeAttack_init true) path5
               = (Return (Some v), HighestDegreeAttack_init true)) /\
    (forall other, other <> "node"%string -> other <> "edge"%string ->
       Simulator.prune_candidates int_le path5_environment other None
       = Raise ValueError).
Proof.
  apply (prune_candidates_nodes int_le path5_environment None 3).
  - exact path5_wf.
  - reflexivity.
  - lia.
Defined.

Section EdgeCandidates.
Context {node : Type} `{EqDecision node}.
Variable node_le : node -> node -> option bool.
Variable g : Graph node.
Variable k : Z.

Lemma edge_candidates_row_spec (u : node) (vs : list node)
      (seen candidates : list (node * node)) :
  u ∈ nodes g -> u ∉ vs -> (forall v, v ∈ vs -> v ∈ nodes g) ->
  Forall (new_edge g) candidates -> within_limit k candidates ->
  match Simulator.edge_candidates_row node_le g k u vs seen candidates with
  | Return (inl c) => Forall (new_edge g) c /\ Z.of_nat (length c) <= Z.max k 1
  | Return (inr (_, c)) => Forall (new_edge g) c /\ within_limit k c
  | Raise e => e = TypeError /\
      exists v, v ∈ vs /\ has_edge g u v = false /\ node_le u v = None
  | Diverge => False
  end.
Proof.
  intros Hu. revert seen candidates.
  induction vs as [| v vs IH]; intros seen candidates Hnot Hvs Hall Hlim.
  - cbn [Simulator.edge_candidates_row]. split; assumption.
  - cbn [Simulator.edge_candidates_row].
    assert (u ∉ vs) as Hnot' by (intros Hin; apply Hnot; right; exact Hin).
    assert (forall w, w ∈ vs -> w ∈ nodes g) as Hvs'
        by (intros w Hw; apply Hvs; right; exact Hw).
    assert (forall seen' candidates',
               Forall (new_edge g) candidates' -> within_limit k candidates' ->
               match Simulator.edge_candidates_row node_le g k u vs seen' candidates' with
               | Return (inl c) => Forall (new_edge g) c /\ Z.of_nat (length c) <= Z.max k 1
               | Return (inr (_, c)) => Forall (new_edge g) c /\ within_limit k c
               | Raise e => e = TypeError /\
                   exists w, w ∈ v :: vs /\ has_edge g u w = false /\ node_le u w = None
               | Diverge => False
               end) as IH'.
    { intros seen' candidates' Hall' Hlim'.
      specialize (IH seen' candidates' Hnot' Hvs' Hall' Hlim').
      destruct (Simulator.edge_candidates_row node_le g k u vs seen' candidates')
        as [[c | [s c]] | e |]; try exact IH.
      destruct IH as [-> (w & Hw & Hedge & Hle)]. split; [reflexivity |].
      exists w. split; [right; exact Hw |]. split; assumption. }
    destruct (has_edge g u v) eqn:Eedge; [apply IH'; assumption |].
    destruct (node_le u v) as [le |] eqn:Ele.
    2:{ split; [reflexivity |]. exists v. split; [left |]. split; assumption. }
    cbv zeta. destruct (bool_decide _); [apply IH'; assumption |].
    assert (Forall (new_edge g) (candidates ++ [(u, v)])) as Hall'.
    { apply Forall_app. split; [exact Hall |]. constructor; [| constructor].
      split; [exact Hu |]. split; [apply Hvs; left |]. split; [| exact Eedge].
      cbn [fst snd]. intros ->. apply Hnot. left. }
    destruct (Z.leb_spec k (Z.of_nat (length (candidates ++ [(u, v)])))) as [Hle | Hlt].
    + split; [exact Hall' |]. rewrite length_app in *. cbn [length] in *.
      destruct Hlim as [Hlim | ->]; [lia | cbn [length]; lia].
    + apply IH'; [exact Hall' |]. left. exact Hlt.
Qed.

Lemma edge_candidates_spec (pool : list node) (seen candidates : list (node * node)) :
  NoDup pool -> (forall v, v ∈ pool -> v ∈ nodes g) ->
  Forall (new_edge g) candidates -> within_limit k candidates ->
  match Simulator.edge_candidates node_le g k pool seen candidates with
  | Return c => Forall (new_edge g) c /\ Z.of_nat (length c) <= Z.max k 1
  | Raise e => e = TypeError /\
               exists u v, new_edge g (u, v) /\ node_le u v = None
  | Diverge => False
  end.
Proof.
  revert seen candidates.
  induction pool as [| u rest IH]; intros seen candidates Hnd Hpool Hall Hlim.
  - cbn [Simulator.edge_candidates]. split; [exact Hall |].
    destruct Hlim as [Hlim | ->]; [lia | cbn [length]; lia].
  - cbn [Simulator.edge_candidates]. apply NoDup_cons in Hnd as [Hnot Hnd].
    pose proof (edge_candidates_row_spec u rest seen candidates
                  (Hpool u ltac:(left)) Hnot
                  (fun v Hv => Hpool v ltac:(right; exact Hv)) Hall Hlim) as Hrow.
    destruct (Simulator.edge_candidates_row node_le g k u rest seen candidates)
      as [[c | [s c]] | e |]; cbn [obind].
    + exact Hrow.
    + destruct Hrow as [Hc Hl]. apply IH; try assumption.
      intros v Hv. apply Hpool. right. exact Hv.
    + destruct Hrow as [-> (v & Hv & Hedge & Hle)]. split; [reflexivity |].
      exists u, v. split; [| exact Hle].
      split; [apply Hpool; left |]. split; [apply Hpool; right; exact Hv |].
      split; [| exact Hedge]. cbn [fst snd]. intros ->. contradiction.
    + exact Hrow.
Qed.
End EdgeCandidates.

(** X26: prune_candidates("edge") on a well-formed undirected graph either
    returns its candidates or raises the TypeError of [u <= v] on a pair
    of different, non-adjacent nodes whose identifiers Python cannot
    order (an int and a str); it returns whenever all identifiers of the
    graph can be ordered.  Each candidate it returns is a pair of two
    different nodes of the current graph that are not adjacent in it, and
    add_edge on a candidate returns an environment whose graph has one
    edge more.  At most max(k, 1) candidates are returned, k = top_k or
    spectral_top_k: one candidate is returned even when k <= 0. *)
Theorem prune_candidates_edges
        {node : Type} `{EqDecision node} (node_le : node -> node -> option bool)
        (self : Simulator.NetworkEnvironment node) (top_k : option Z) (k : Z) :
  wf (Simulator.graph self) ->
  undirected (Simulator.graph self) ->
  k = match top_k with
      | Some k => if k =? 0 then Simulator.spectral_top_k self else k
      | None => Simulator.spectral_top_k self
      end ->
  match Simulator.prune_candidates node_le self "edge" top_k with
  | Return (Simulator.Edges l) =>
      Z.of_nat (length l) <= Z.max k 1 /\
      forall u v, (u, v) ∈ l ->
        u ∈ nodes (Simulator.graph self) /\ v ∈ nodes (Simulator.graph self) /\
        u <> v /\ has_edge (Simulator.graph self) u v = false /\
        exists env', Simulator.add_edge self u v = Return env' /\
                     number_of_edges (Simulator.graph env')
                     = number_of_edges (Simulator.graph self) + 1
  | Return (Simulator.Nodes _) => False
  | Raise e =>
      e = TypeError /\
      exists u v, u ∈ nodes (Simulator.graph self) /\ v ∈ nodes (Simulator.graph self) /\
                  u <> v /\ has_edge (Simulator.graph self) u v = false /\
                  node_le u v = None
  | Diverge => False
  end /\
  ((forall u v, u ∈ nodes (Simulator.graph self) -> v ∈ nodes (Simulator.graph self) ->
                is_Some (node_le u v)) ->
   exists l, Simulator.prune_candidates node_le self "edge" top_k
             = Return (Simulator.Edges l)).
Proof.
  intros Hwf Hsym Hk. set (g := Simulator.graph self).
  assert (forall l : list (node * node),
             Z.of_nat (length l) <= Z.max k 1 ->
             Forall (new_edge g) l ->
             Z.of_nat (length l) <= Z.max k 1 /\
             forall u v, (u, v) ∈ l ->
               u ∈ nodes g /\ v ∈ nodes g /\ u <> v /\ has_edge g u v = false /\
               exists env', Simulator.add_edge self u v = Return env' /\
                            number_of_edges (Simulator.graph env')
                            = number_of_edges g + 1) as Hfinish.
  { intros l Hlen Hall. split; [exact Hlen |].
    intros u v Hin. rewrite Forall_forall in Hall.
    destruct (Hall _ Hin) as (Hu & Hv & Hne & Hedge). cbn [fst snd] in *.
    split; [exact Hu |]. split; [exact Hv |]. split; [exact Hne |].
    split; [exact Hedge |].
    unfold Simulator.add_edge, has_node. fold g.
    rewrite (bool_decide_eq_true_2 _ Hu), (bool_decide_eq_true_2 _ Hv).
    rewrite (bool_decide_eq_false_2 _ Hne). cbn [andb negb].
    unfold Simulator._record_state.
    match goal with
    | |- context [Simulator._create_state_snapshot ?e] =>
        destruct (snapshot_returns e) as (s & -> & _)
    end.
    { cbn [Simulator.graph]. apply wf_add_edge; assumption. }
    cbn [obind]. eexists. split; [reflexivity |]. cbn [Simulator.graph].
    unfold has_edge in Hedge. apply bool_decide_eq_false in Hedge.
    apply number_of_edges_add_new_edge; try assumption.
    - apply Hwf.
    - intros Huv. apply Hedge. apply Hsym. exact Huv. }
  unfold Simulator.prune_candidates. rewrite <- Hk.
  cbn [String.eqb Ascii.eqb Bool.eqb]. fold g.
  destruct (length (nodes g) <? 2)%nat.
  { split; [| intros _; eexists; reflexivity].
    apply Hfinish; [cbn [length]; lia | constructor]. }
  cbv zeta.
  destruct (sorted_desc_spec (degree g) (nodes g)) as (Hperm & _ & _).
  set (pool := py_slice_to _ _).
  assert (sublist pool (sorted_desc (degree g) (nodes g))) as Hsub.
  { unfold pool, py_slice_to. destruct (_ <? 0); apply sublist_take. }
  pose proof (edge_candidates_spec node_le g k pool [] []) as Hspec.
  specialize (Hspec ltac:(eapply sublist_NoDup; [| exact Hsub]; rewrite Hperm; apply Hwf)).
  specialize (Hspec ltac:(intros v Hv; rewrite <- Hperm;
                          eapply elem_of_sublist; eassumption)).
  specialize (Hspec ltac:(constructor) ltac:(right; reflexivity)).
  destruct (Simulator.edge_candidates node_le g k pool [] []) as [c | e |]; cbn [obind].
  - destruct Hspec as [Hall Hlen].
    split; [| intros _; eexists; reflexivity]. apply Hfinish; assumption.
  - destruct Hspec as [-> (u & v & (Hu & Hv & Hne & Hedge) & Hle)].
    cbn [fst snd] in *. split.
    + split; [reflexivity |]. exists u, v. repeat split; assumption.
    + intros Hord. destruct (Hord u v Hu Hv) as [b Hb]. congruence.
  - contradiction.
Qed.

Lemma prune_candidates_edges_witness :
  match Simulator.prune_candidates int_le path5_environment "edge" None with
  | Return (Simulator.Edges l) =>
      Z.of_nat (length l) <= Z.max 3 1 /\
      forall u v, (u, v) ∈ l ->
        u ∈ nodes path5 /\ v ∈ nodes path5 /\ u <> v /\ has_edge path5 u v = false /\
        exists env', Simulator.add_edge path5_environment u v = Return env' /\
                     number_of_edges (Simulator.graph env') = number_of_edges path5 + 1
  | Return (Simulator.Nodes _) => False
  | Raise e =>
      e = TypeError /\
      exists u v, u ∈ nodes path5 /\ v ∈ nodes path5 /\ u <> v /\
                  has_edge path5 u v = false /\ int_le u v = None
  | Diverge => False
  end /\
  ((forall u v, u ∈ nodes path5 -> v ∈ nodes path5 -> is_Some (int_le u v)) ->
   exists l, Simulator.prune_candidates int_le path5_environment "edge" None
             = Return (Simulator.Edges l)).
Proof.
  apply (prune_candidates_edges int_le path5_environment None 3).
  - exact path5_wf.
  - apply undirectedb_sound. vm_compute. reflexivity.
  - reflexivity.
Defined.

(** With the identifiers 1 and "a" the "edge" branch raises the TypeError
    of [1 <= "a"]. *)
Lemma mixed_ids_edge_candidates_raise :
  Simulator.prune_candidates py_le mixed_environment "edge" None = Raise TypeError.
Proof. vm_compute. reflexivity. Qed.

Section SortByScore.
Context {A : Type}.
Variable key : A -> Q.

Lemma Qltb_spec (x y : Q) : reflect (x < y)%Q (Qltb x y).
Proof.
  unfold Qltb. destruct (Qle_bool y x) eqn:E; cbn [negb]; constructor.
  - apply Qle_bool_iff in E. lra.
  - apply Qnot_le_lt. intros Hle. apply Qle_bool_iff in Hle. congruence.
Qed.

Lemma insert_desc_by_perm (x : A) (l : list A) : insert_desc_by key x l ≡ₚ x :: l.
Proof.
  induction l as [| y l IH]; cbn [insert_desc_by]; [reflexivity |].
  destruct (Qltb (key y) (key x)); [reflexivity |].
  rewrite IH. apply Permutation_swap.
Qed.

Lemma insert_desc_by_sorted (x : A) (l : list A) :
  StronglySorted (desc_by key) l -> StronglySorted (desc_by key) (insert_desc_by key x l).
Proof.
  induction l as [| y l IH]; intros Hs; cbn [insert_desc_by].
  - repeat constructor.
  - apply StronglySorted_inv in Hs as [Hs Hy].
    destruct (Qltb_spec (key y) (key x)) as [Hlt | Hge].
    + constructor; [constructor; assumption |].
      constructor; [unfold desc_by; lra |].
      eapply Forall_impl; [exact Hy |]. unfold desc_by. intros z Hz. lra.
    + constructor; [apply IH, Hs |].
      rewrite insert_desc_by_perm. constructor; [unfold desc_by; lra | exact Hy].
Qed.

Lemma with_key_none (k : Q) (l : list A) :
  (forall z, z ∈ l -> ~ (key z == k)%Q) -> with_key key k l = [].
Proof.
  induction l as [| y l IH]; intros Hall; [reflexivity |].
  unfold with_key in *. cbn [List.filter].
  destruct (Qeq_bool (key y) k) eqn:E.
  - apply Qeq_bool_iff in E. exfalso. apply (Hall y); [left | exact E].
  - apply IH. intros z Hz. apply Hall. right. exact Hz.
Qed.

Lemma with_key_app (k : Q) (l1 l2 : list A) :
  with_key key k (l1 ++ l2) = with_key key k l1 ++ with_key key k l2.
Proof. unfold with_key. apply List.filter_app. Qed.

Lemma insert_desc_by_with_key (k : Q) (x : A) (l : list A) :
  StronglySorted (desc_by key) l ->
  with_key key k (insert_desc_by key x l) = with_key key k l ++ with_key key k [x].
Proof.
  induction l as [| y l IH]; intros Hs; cbn [insert_desc_by]; [reflexivity |].
  apply StronglySorted_inv in Hs as [Hs Hy].
  destruct (Qltb_spec (key y) (key x)) as [Hlt | Hge].
  - change (x :: y :: l) with ([x] ++ y :: l). rewrite with_key_app.
    assert (with_key key k [x] = if Qeq_bool (key x) k then [x] else []) as ->
        by reflexivity.
    destruct (Qeq_bool (key x) k) eqn:E; [| rewrite app_nil_r; reflexivity].
    apply Qeq_bool_iff in E.
    rewrite (with_key_none k (y :: l)); [reflexivity |].
    intros z Hz Hk. apply elem_of_cons in Hz as [-> | Hz]; [lra |].
    rewrite Forall_forall in Hy. specialize (Hy z Hz). unfold desc_by in Hy. lra.
  - change (y :: insert_desc_by key x l) with ([y] ++ insert_desc_by key x l).
    change (y :: l) with ([y] ++ l).
    rewrite !with_key_app, IH by exact Hs. rewrite app_assoc. reflexivity.
Qed.

Lemma sorted_desc_by_from (xs : list A) : forall acc,
  StronglySorted (desc_by key) acc ->
  let r := fold_left (fun acc x => insert_desc_by key x acc) xs acc in
  r ≡ₚ acc ++ xs /\ StronglySorted (desc_by key) r /\
  forall k, with_key key k r = with_key key k acc ++ with_key key k xs.
Proof.
  induction xs as [| x xs IH]; intros acc Hs; cbn [fold_left].
  - rewrite app_nil_r. split; [reflexivity |]. split; [exact Hs |].
    intros k. rewrite app_nil_r. reflexivity.
  - destruct (IH (insert_desc_by key x acc) (insert_desc_by_sorted x acc Hs))
      as (Hp & Hsorted & Hf).
    split; [| split; [exact Hsorted |]].
    + rewrite Hp, insert_desc_by_perm. cbn [app]. apply Permutation_middle.
    + intros k. rewrite Hf, insert_desc_by_with_key by exact Hs.
      rewrite <- app_assoc. f_equal.
      change (x :: xs) with ([x] ++ xs). rewrite with_key_app. reflexivity.
Qed.

(** [sorted(xs, key=key, reverse=True)] with float keys is a
    rearrangement of [xs] with the keys in descending order, elements of
    equal key in their order in [xs]. *)
Lemma sorted_desc_by_spec (xs : list A) :
  sorted_desc_by key xs ≡ₚ xs /\
  StronglySorted (desc_by key) (sorted_desc_by key xs) /\
  forall k, with_key key k (sorted_desc_by key xs) = with_key key k xs.
Proof.
  unfold sorted_desc_by.
  destruct (sorted_desc_by_from xs [] (SSorted_nil _)) as (Hp & Hs & Hf).
  split; [exact Hp |]. split; [exact Hs |]. intros k. rewrite (Hf k). reflexivity.
Qed.
End SortByScore.

Section Dict.
Context {K V : Type} `{EqDecision K}.

Lemma dict_set_keys (d : list (K * V)) (k : K) (v : V) :
  map fst (dict_set d k v)
  = if decide (k ∈ map fst d) then map fst d else map fst d ++ [k].
Proof.
  induction d as [| [k' v'] d IH]; cbn [dict_set map fst].
  - destruct (decide (k ∈ [])) as [Hin | _]; [inversion Hin | reflexivity].
  - destruct (decide (k' = k)) as [-> | Hne]; cbn [map fst].
    + destruct (decide (k ∈ k :: map fst d)) as [_ | Hn]; [reflexivity |].
      exfalso. apply Hn. left.
    + rewrite IH. destruct (decide (k ∈ map fst d)) as [Hin | Hnin].
      * destruct (decide (k ∈ k' :: map fst d)) as [_ | Hn]; [reflexivity |].
        exfalso. apply Hn. right. exact Hin.
      * destruct (decide (k ∈ k' :: map fst d)) as [Hin | _]; [| reflexivity].
        apply elem_of_cons in Hin as [-> | Hin]; contradiction.
Qed.

Lemma dict_set_items (d : list (K * V)) (k : K) (v : V) (e : K * V) :
  e ∈ dict_set d k v -> e = (k, v) \/ e ∈ d.
Proof.
  induction d as [| [k' v'] d IH]; cbn [dict_set]; intros He.
  - apply list_elem_of_singleton in He. left. exact He.
  - destruct (decide (k' = k)) as [-> | Hne].
    + apply elem_of_cons in He as [-> | He]; [left; reflexivity | right; right; exact He].
    + apply elem_of_cons in He as [-> | He]; [right; left |].
      destruct (IH He) as [-> | Hin]; [left; reflexivity | right; right; exact Hin].
Qed.
End Dict.

Section FirstOccurrences.
Context {A : Type} `{EqDecision A}.

Lemma first_occurrences_from (l : list A) : forall acc,
  NoDup acc ->
  let r := fold_left (fun acc x => if decide (x ∈ acc) then acc else acc ++ [x]) l acc in
  NoDup r /\ forall v, v ∈ r <-> v ∈ acc \/ v ∈ l.
Proof.
  induction l as [| x l IH]; intros acc Hnd; cbn [fold_left].
  - split; [exact Hnd |]. intros v. split; [intros Hv; left; exact Hv |].
    intros [Hv | Hv]; [exact Hv | inversion Hv].
  - destruct (decide (x ∈ acc)) as [Hin | Hnin].
    + destruct (IH acc Hnd) as [Hr Hiff]. split; [exact Hr |].
      intros v. rewrite Hiff. split.
      * intros [Hv | Hv]; [left; exact Hv | right; right; exact Hv].
      * intros [Hv | Hv]; [left; exact Hv |].
        apply elem_of_cons in Hv as [-> | Hv]; [left; exact Hin | right; exact Hv].
    + destruct (IH (acc ++ [x])) as [Hr Hiff].
      { apply NoDup_app. split; [exact Hnd |]. split; [| apply NoDup_singleton].
        intros y Hy Hx. apply list_elem_of_singleton in Hx. subst y. contradiction. }
      split; [exact Hr |]. intros v. rewrite Hiff, elem_of_app, list_elem_of_singleton.
      rewrite elem_of_cons. tauto.
Qed.
End FirstOccurrences.

Section ImpactRanking.
Context {node : Type} `{EqDecision node}.
Variable graph : Graph node.

Lemma impact_score_returns (target_node : node) :
  exists score, scored graph (target_node, score).
Proof.
  unfold scored. cbn [fst snd].
  unfold ResilienceMetrics.compute_impact_score, has_node.
  destruct (decide (target_node ∈ nodes graph)) as [Hin | Hnin].
  - rewrite bool_decide_eq_true_2 by exact Hin. simpl negb. cbv iota.
    assert (number_of_nodes graph <> 0) as Hn.
    { unfold number_of_nodes. destruct graph; [inversion Hin | simpl; lia]. }
    assert (exists before, ResilienceMetrics.compute_lcc_ratio graph = Return before)
      as [before ->].
    { unfold ResilienceMetrics.compute_lcc_ratio.
      destruct (Z.eqb_spec (number_of_nodes graph) 0); [contradiction |].
      destruct (connected_components graph); [eauto |].
      rewrite py_truediv_nonzero by exact Hn. eauto. }
    simpl obind. unfold remove_node, copy.
    destruct (decide (target_node ∈ nodes graph)); [| contradiction].
    simpl obind.
    match goal with
    | |- context [obind ?o _] =>
        assert (exists after, o = Return after) as [after ->]
    end.
    { destruct (_ =? 0); [eauto |].
      rewrite py_truediv_nonzero by exact Hn. eauto. }
    simpl obind. eexists. split; [reflexivity |].
    split; [apply clamp_range | intros Hnin; contradiction].
  - rewrite bool_decide_eq_false_2 by exact Hnin. simpl.
    exists 0%Q. repeat split; [apply Qle_refl | discriminate].
Qed.

Lemma batch_loop_spec (candidates : list node) : forall scores,
  Forall (scored graph) scores ->
  exists scores',
    batch_loop graph candidates scores = Return scores' /\
    Forall (scored graph) scores' /\
    map fst scores'
    = fold_left (fun acc x => if decide (x ∈ acc) then acc else acc ++ [x])
                candidates (map fst scores).
Proof.
  induction candidates as [| n rest IH]; intros scores Hall; cbn [batch_loop fold_left].
  - exists scores. split; [reflexivity |]. split; [exact Hall | reflexivity].
  - destruct (impact_score_returns n) as (s & Hs).
    pose proof Hs as (Hscore & _). cbn [fst snd] in Hscore.
    rewrite Hscore. cbn [obind].
    destruct (IH (dict_set scores n s)) as (scores' & Hrun & Hall' & Hkeys).
    { apply Forall_forall. intros e He.
      apply dict_set_items in He as [-> | He]; [exact Hs |].
      rewrite Forall_forall in Hall. exact (Hall e He). }
    exists scores'. split; [exact Hrun |]. split; [exact Hall' |].
    rewrite Hkeys, dict_set_keys. reflexivity.
Qed.
End ImpactRanking.

(** X27: batch_compute_impact_scores and rank_nodes_by_impact never raise,
    for any graph and any list of candidates.  The dict of scores has one
    item per distinct candidate, in the order of the candidates' first
    occurrences; each item holds what compute_impact_score returns for
    its node, a value in [0, 1] that is 0.0 for a node that is not in the
    graph.  rank_nodes_by_impact returns the same items rearranged so that
    the scores never increase, items of equal score in the order of the
    dict. *)
Theorem rank_nodes_by_impact_spec
        {node : Type} `{EqDecision node} (graph : Graph node) (candidates : list node) :
  exists scores ranked,
    batch_compute_impact_scores graph candidates = Return scores /\
    rank_nodes_by_impact graph candidates = Return ranked /\
    map fst scores = first_occurrences candidates /\
    NoDup (map fst scores) /\
    (forall v, v ∈ map fst scores <-> v ∈ candidates) /\
    (forall v s, (v, s) ∈ scores ->
       ResilienceMetrics.compute_impact_score graph v = Return s /\
       (0 <= s <= 1)%Q /\ (v ∉ nodes graph -> s = 0%Q)) /\
    ranked ≡ₚ scores /\
    StronglySorted (fun a b => (b.2 <= a.2)%Q) ranked /\
    (forall q, with_key snd q ranked = with_key snd q scores).
Proof.
  destruct (batch_loop_spec graph candidates [] (Forall_nil_2 _))
    as (scores & Hrun & Hall & Hkeys).
  destruct (sorted_desc_by_spec (@snd node Q) scores) as (Hperm & Hsorted & Hstable).
  destruct (first_occurrences_from candidates [] (NoDup_nil_2)) as [Hnd Hiff].
  exists scores, (sorted_desc_by snd scores).
  split; [exact Hrun |].
  split; [unfold rank_nodes_by_impact, batch_compute_impact_scores; rewrite Hrun; reflexivity |].
  split; [exact Hkeys |].
  split; [rewrite Hkeys; exact Hnd |].
  split.
  { intros v. rewrite Hkeys, Hiff. split; [intros [Hv | Hv]; [inversion Hv | exact Hv] |].
    intros Hv. right. exact Hv. }
  split.
  { intros v s Hin. rewrite Forall_forall in Hall. exact (Hall _ Hin). }
  split; [exact Hperm |]. split; [exact Hsorted | exact Hstable].
Qed.
